(** * cats.py (clocksmith/dream, xp/cats.py): the TypeScript bundling engine

    A shallow embedding of the bundler: the file classifier
    ([find_ts_files]), the per-file transformer ([process_and_collect]),
    the alias planner ([analyze_imports_and_plan]) and the assembler with
    its final alias rewrite ([assemble_and_write]).

    Text is a list of 8-bit characters.  Python dictionaries keep their
    insertion order, so they are association lists; Python sets have no
    order of their own, so every loop over a set goes through an
    iteration-order function that the theorems quantify over. *)

From Stdlib Require Import Ascii String.
From Stdlib Require Import List Bool Arith Lia Permutation.
From Stdlib Require Import Sorting.Sorted.
Import ListNotations.
Set Warnings "-register-all".
Open Scope list_scope.
Open Scope bool_scope.

(** ** Strings *)

Definition str := list ascii.

(** [s "abc"] is the text of a literal. *)
Definition s (x : string) : str := list_ascii_of_string x.

Definition code (c : ascii) : nat := nat_of_ascii c.

Definition chr_eqb (a b : ascii) : bool := Ascii.eqb a b.

Arguments code : simpl never.
Arguments chr_eqb : simpl never.

Fixpoint str_eqb (a b : str) : bool :=
  match a, b with
  | [], [] => true
  | x :: a', y :: b' => chr_eqb x y && str_eqb a' b'
  | _, _ => false
  end.

(** Python compares strings code point by code point; a proper prefix is
    smaller. *)
Fixpoint str_ltb (a b : str) : bool :=
  match a, b with
  | _, [] => false
  | [], _ :: _ => true
  | x :: a', y :: b' =>
      if code x <? code y then true
      else if code x =? code y then str_ltb a' b' else false
  end.

Definition str_leb (a b : str) : bool := negb (str_ltb b a).

Definition str_le (a b : str) : Prop := str_leb a b = true.

(** [text.startswith(p)] *)
Fixpoint startswith (text p : str) {struct p} : bool :=
  match p, text with
  | [], _ => true
  | _ :: _, [] => false
  | y :: p', x :: text' => chr_eqb x y && startswith text' p'
  end.

(** [text.endswith(p)] *)
Definition endswith (text p : str) : bool := startswith (rev text) (rev p).

(** [str.lower()] on the ASCII letters; other characters are unchanged. *)
Definition lower_chr (c : ascii) : ascii :=
  if (65 <=? code c) && (code c <=? 90) then ascii_of_nat (code c + 32) else c.

Definition lower (text : str) : str := map lower_chr text.

(** [sep.join(parts)] *)
Fixpoint join (sep : str) (parts : list str) : str :=
  match parts with
  | [] => []
  | [p] => p
  | p :: rest => p ++ sep ++ join sep rest
  end.

(** ** Sorting: [list.sort()] and [sorted(...)] on strings *)

Fixpoint insert_sorted (x : str) (l : list str) : list str :=
  match l with
  | [] => [x]
  | y :: l' => if str_leb x y then x :: l else y :: insert_sorted x l'
  end.

Fixpoint sorted (l : list str) : list str :=
  match l with
  | [] => []
  | x :: l' => insert_sorted x (sorted l')
  end.

(** ** Dictionaries and sets

    A [dict] lists its items in insertion order.  Assigning to a key that
    is present replaces the value in place; a new key goes to the end. *)

Definition dict (V : Type) := list (str * V).

Fixpoint dict_get {V} (d : dict V) (k : str) : option V :=
  match d with
  | [] => None
  | (k', v) :: d' => if str_eqb k' k then Some v else dict_get d' k
  end.

Definition dict_mem {V} (d : dict V) (k : str) : bool :=
  match dict_get d k with Some _ => true | None => false end.

Fixpoint dict_set {V} (d : dict V) (k : str) (v : V) : dict V :=
  match d with
  | [] => [(k, v)]
  | (k', v') :: d' =>
      if str_eqb k' k then (k', v) :: d' else (k', v') :: dict_set d' k v
  end.

Definition dict_keys {V} (d : dict V) : list str := map fst d.

(** A set is the list of its members, each once. *)
Definition pyset := list str.

Fixpoint set_mem (x : str) (a : pyset) : bool :=
  match a with
  | [] => false
  | y :: a' => str_eqb y x || set_mem x a'
  end.

Definition set_add (a : pyset) (x : str) : pyset :=
  if set_mem x a then a else a ++ [x].

(** [a.update(b)] *)
Definition set_update (a : pyset) (b : list str) : pyset :=
  fold_left set_add b a.

(** ** The file classifier: [find_ts_files] *)

Definition TEST_FILE_SUFFIX : str := s "_test.ts".

(** [os.path.join(a, b)] for POSIX paths. *)
Definition path_join (a b : str) : str :=
  if startswith b (s "/") then b
  else if str_eqb a [] || endswith a (s "/") then a ++ b
  else a ++ s "/" ++ b.

(** A directory holds its sub-directories and the names of its files, in
    the order the file system enumerates them. *)
Inductive tree : Type :=
| Dir (dirs : list (str * tree)) (files : list str).

(** The comprehension that rewrites [dirnames] in place. *)
Definition keep_dir (d : str) : bool :=
  negb (str_eqb d (s "node_modules"))
  && negb (startswith d (s "."))
  && negb (str_eqb d (s "dist"))
  && negb (str_eqb d (s "build")).

(** [os.walk(top, topdown=True)] with the caller pruning [dirnames] by
    [keep] before the walk descends: the triples it yields, as
    [(dirpath, filenames)]. *)
Fixpoint os_walk (keep : str -> bool) (dirpath : str) (t : tree)
  : list (str * list str) :=
  match t with
  | Dir dirs files =>
      (dirpath, files) ::
      (fix descend (ds : list (str * tree)) : list (str * list str) :=
         match ds with
         | [] => []
         | (d, sub) :: ds' =>
             if keep d
             then os_walk keep (path_join dirpath d) sub ++ descend ds'
             else descend ds'
         end) dirs
  end.

Definition is_ts (filename : str) : bool :=
  let lower_filename := lower filename in
  endswith lower_filename (s ".ts") && negb (endswith lower_filename (s ".d.ts")).

Definition is_test (filename : str) : bool :=
  endswith (lower filename) TEST_FILE_SUFFIX.

(** The body of the loop over [filenames]. *)
Definition classify (dirpath : str) (acc : list str * list str) (filename : str)
  : list str * list str :=
  let '(main_files, test_files) := acc in
  if is_ts filename then
    let full_path := path_join dirpath filename in
    if is_test filename
    then (main_files, test_files ++ [full_path])
    else (main_files ++ [full_path], test_files)
  else acc.

Definition scan (abs_directory : str) (t : tree) : list str * list str :=
  fold_left
    (fun acc entry => fold_left (classify (fst entry)) (snd entry) acc)
    (os_walk keep_dir abs_directory t) ([], []).

Definition find_ts_files (abs_directory : str) (t : tree)
  : list str * list str :=
  let '(main_files, test_files) := scan abs_directory t in
  (sorted main_files, sorted test_files).

(** ** Regular expressions: the part of Python's [re] the patterns use

    A backtracking matcher in continuation-passing style: alternatives are
    tried in the order Python tries them (the left branch of [a|b] first,
    a greedy repetition the longest run first, a lazy one the shortest).
    Every repetition in the source's patterns is over a single character
    class, so repetitions are over classes. *)

Inductive re : Type :=
| Eps
| Chr (p : ascii -> bool)
| Seq (a b : re)
| Alt (a b : re)
| Star (p : ascii -> bool)
| StarLazy (p : ascii -> bool)
| Bol
| Eol
| WordB
| Group (n : nat) (a : re)
| NotAhead (a : re).

(** Character classes, for code points up to U+00FF. *)
Definition in_range (lo hi : nat) (c : ascii) : bool :=
  (lo <=? code c) && (code c <=? hi).

(** [\s], and what [str.strip()] removes. *)
Definition is_space (c : ascii) : bool :=
  in_range 9 13 c || in_range 28 32 c || (code c =? 133) || (code c =? 160).

(** [[a-zA-Z0-9_]] *)
Definition is_ident (c : ascii) : bool :=
  in_range 97 122 c || in_range 65 90 c || in_range 48 57 c || (code c =? 95).

(** [\w] *)
Definition is_word (c : ascii) : bool :=
  is_ident c
  || (code c =? 170) || in_range 178 179 c || (code c =? 181)
  || in_range 185 186 c || in_range 188 190 c
  || in_range 192 214 c || in_range 216 246 c || in_range 248 255 c.

Arguments is_space : simpl never.
Arguments is_ident : simpl never.
Arguments is_word : simpl never.

Definition any_chr (c : ascii) : bool := true.
Definition only (x : ascii) (c : ascii) : bool := chr_eqb c x.
Definition one_of (xs : str) (c : ascii) : bool := existsb (chr_eqb c) xs.
Definition none_of (xs : str) (c : ascii) : bool := negb (one_of xs c).

Definition newline : ascii := ascii_of_nat 10.
Definition dquote : ascii := ascii_of_nat 34.
Definition squote : ascii := ascii_of_nat 39.
Definition dot : ascii := ascii_of_nat 46.

(** The captured groups of a match, the latest first. *)
Definition caps := list (nat * str).

Fixpoint group (cs : caps) (n : nat) : option str :=
  match cs with
  | [] => None
  | (i, x) :: cs' => if i =? n then Some x else group cs' n
  end.

(** A group that took no part in the match reads as the empty string, in
    [findall] and in a replacement template alike. *)
Definition group_text (cs : caps) (n : nat) : str :=
  match group cs n with Some x => x | None => [] end.

Definition answer := option (str * caps).
Definition cont := option ascii -> str -> caps -> answer.

Definition word_before (prev : option ascii) : bool :=
  match prev with Some c => is_word c | None => false end.

Definition word_after (t : str) : bool :=
  match t with c :: _ => is_word c | [] => false end.

(** [^] and [$] under [re.MULTILINE], and [\b]. *)
Definition at_bol (prev : option ascii) : bool :=
  match prev with Some c => chr_eqb c newline | None => true end.

Definition at_eol (t : str) : bool :=
  match t with c :: _ => chr_eqb c newline | [] => true end.

Definition at_wordb (prev : option ascii) (t : str) : bool :=
  xorb (word_before prev) (word_after t).

Fixpoint star_greedy (p : ascii -> bool) (prev : option ascii) (t : str)
  (cs : caps) (k : cont) {struct t} : answer :=
  match t with
  | c :: t' =>
      if p c then
        match star_greedy p (Some c) t' cs k with
        | Some r => Some r
        | None => k prev t cs
        end
      else k prev t cs
  | [] => k prev t cs
  end.

Fixpoint star_lazy (p : ascii -> bool) (prev : option ascii) (t : str)
  (cs : caps) (k : cont) {struct t} : answer :=
  match k prev t cs with
  | Some r => Some r
  | None =>
      match t with
      | c :: t' => if p c then star_lazy p (Some c) t' cs k else None
      | [] => None
      end
  end.

(** [run r prev t cs k]: match [r] at the head of [t], the character
    before it being [prev], then go on with [k]. *)
Fixpoint run (r : re) (prev : option ascii) (t : str) (cs : caps) (k : cont)
  {struct r} : answer :=
  match r with
  | Eps => k prev t cs
  | Chr p =>
      match t with
      | c :: t' => if p c then k (Some c) t' cs else None
      | [] => None
      end
  | Seq a b => run a prev t cs (fun prev' t' cs' => run b prev' t' cs' k)
  | Alt a b =>
      match run a prev t cs k with
      | Some r' => Some r'
      | None => run b prev t cs k
      end
  | Star p => star_greedy p prev t cs k
  | StarLazy p => star_lazy p prev t cs k
  | Bol => if at_bol prev then k prev t cs else None
  | Eol => if at_eol t then k prev t cs else None
  | WordB => if at_wordb prev t then k prev t cs else None
  | Group n a =>
      run a prev t cs
        (fun prev' t' cs' =>
           k prev' t' ((n, firstn (length t - length t') t) :: cs'))
  | NotAhead a =>
      match run a prev t cs (fun _ t' cs' => Some (t', cs')) with
      | Some _ => None
      | None => k prev t cs
      end
  end.

(** A match of [r] starting exactly here: what is left of the text and
    the groups. *)
Definition match_here (r : re) (prev : option ascii) (t : str) : answer :=
  run r prev t [] (fun _ t' cs => Some (t', cs)).

(** [r.finditer(text)]: the matches from left to right, none overlapping
    another; each as the matched text and its groups.  [skip] counts the
    characters of the last match that are still to be passed. *)
Fixpoint finditer_from (r : re) (prev : option ascii) (t : str) (skip : nat)
  : list (str * caps) :=
  match t with
  | [] =>
      match skip, match_here r prev [] with
      | 0, Some (_, cs) => [([], cs)]
      | _, _ => []
      end
  | c :: t' =>
      match skip with
      | S n => finditer_from r (Some c) t' n
      | 0 =>
          match match_here r prev t with
          | Some (rest, cs) =>
              let len := length t - length rest in
              (firstn len t, cs) :: finditer_from r (Some c) t' (len - 1)
          | None => finditer_from r (Some c) t' 0
          end
      end
  end.

Definition finditer (r : re) (text : str) : list (str * caps) :=
  finditer_from r None text 0.

(** [r.sub(repl, text)], the replacement computed from the groups. *)
Fixpoint sub_from (r : re) (repl : caps -> str) (prev : option ascii)
  (t : str) (skip : nat) : str :=
  match t with
  | [] =>
      match skip, match_here r prev [] with
      | 0, Some (_, cs) => repl cs
      | _, _ => []
      end
  | c :: t' =>
      match skip with
      | S n => sub_from r repl (Some c) t' n
      | 0 =>
          match match_here r prev t with
          | Some (rest, cs) =>
              let len := length t - length rest in
              if len =? 0
              then repl cs ++ c :: sub_from r repl (Some c) t' 0
              else repl cs ++ sub_from r repl (Some c) t' (len - 1)
          | None => c :: sub_from r repl (Some c) t' 0
          end
      end
  end.

Definition re_sub (r : re) (repl : caps -> str) (text : str) : str :=
  sub_from r repl None text 0.

(** Pattern-building shorthands. *)
Definition lit_str (x : str) : re :=
  fold_right (fun c r => Seq (Chr (only c)) r) Eps x.
Definition lit (x : string) : re := lit_str (s x).
Definition plus (p : ascii -> bool) : re := Seq (Chr p) (Star p).
Definition plus_lazy (p : ascii -> bool) : re := Seq (Chr p) (StarLazy p).
Definition opt (r : re) : re := Alt r Eps.
Definition seq (rs : list re) : re := fold_right Seq Eps rs.
Definition alt_lits (xs : list string) : re :=
  fold_right (fun x r => Alt (lit x) r) (Chr (fun _ => false)) xs.

Definition quote : ascii -> bool := one_of [squote; dquote].
Definition not_quote : ascii -> bool := none_of [squote; dquote].
Definition not_rbrace : ascii -> bool := none_of (s "}").

(** The relative module specifier: a dot, an optional second dot, a slash
    and a non-empty run of characters that are not quotes. *)
Definition relative_path : re :=
  seq [Chr (only dot); opt (Chr (only dot)); Chr (only "/"%char); plus not_quote].

(** ** The patterns of the source *)

Definition sp : ascii -> bool := is_space.
Definition chr (x : string) : re := lit x.

Definition LICENSE_BLOCK_PATTERN : re :=
  seq [lit "/**"; StarLazy any_chr; lit "@license"; StarLazy any_chr; lit "*/"].

Definition IMPORT_NAMESPACE_REGEX : re :=
  seq [Bol; Star sp; lit "import"; plus sp; chr "*"; plus sp; lit "as";
       plus sp; Group 1 (plus is_ident); plus sp; lit "from"; plus sp;
       Chr quote; Group 2 relative_path; Chr quote; opt (chr ";")].

Definition IMPORT_RELATIVE_OTHER_PATTERN : re :=
  seq [Bol; Star sp; lit "import"; plus sp;
       opt (seq [Alt (seq [chr "{"; plus not_rbrace; chr "}"])
                     (Alt (plus is_word) Eps);
                 plus sp; lit "from"; plus sp]);
       Chr quote; Group 1 relative_path; Chr quote; opt (chr ";");
       Star sp; Eol].

Definition IMPORT_RELATIVE_SIDE_EFFECT_PATTERN : re :=
  seq [Bol; Star sp; lit "import"; plus sp;
       Chr quote; Group 1 relative_path; Chr quote; opt (chr ";");
       Star sp; Eol].

Definition REMOVE_NON_RELATIVE_SIDE_EFFECT : re :=
  seq [Bol; Star sp; lit "import"; plus sp; Chr quote;
       Group 1 (Seq (Chr (none_of (s "./"))) (StarLazy not_quote));
       Chr quote; opt (chr ";"); Star sp].

Definition EXPORT_FROM_PATTERN : re :=
  seq [Bol; Star sp; lit "export"; plus sp;
       Alt (seq [chr "{"; plus_lazy not_rbrace; chr "}"]) (chr "*");
       plus sp; lit "from"; plus sp;
       Chr quote; Group 1 relative_path; Chr quote; opt (chr ";"); Star sp].

Definition EXPORT_LIST_PATTERN : re :=
  seq [Bol; Star sp; lit "export"; plus sp; chr "{"; Star sp;
       plus_lazy (fun c => not_rbrace c && negb (is_space c));
       Star sp; chr "}"; opt (chr ";"); Star sp].

Definition EXPORT_DECL_PATTERN : re :=
  seq [Bol; Group 1 (Star sp); lit "export"; plus sp;
       NotAhead (lit "default");
       opt (Group 2 (seq [WordB; lit "declare"; WordB; plus sp]));
       opt (Group 3 (seq [WordB; lit "async"; WordB; plus sp]));
       Group 4 (alt_lits ["class"; "function"; "const"; "let"; "var"; "enum";
                          "interface"; "type"]%string);
       Group 5 (Alt (plus sp) (Alt (chr ";") Eol))].

Definition EXPORT_DEFAULT_PATTERN : re :=
  seq [Bol; Group 1 (Star sp); lit "export"; plus sp; lit "default"; plus sp].

Definition EXPORT_NAMED_CAPTURE_REGEX : re :=
  seq [Bol; Star sp; lit "export"; plus sp;
       opt (seq [lit "declare"; plus sp]);
       opt (seq [lit "async"; plus sp]);
       Group 1 (alt_lits ["class"; "function"; "const"; "let"; "var";
                          "enum"]%string);
       plus sp; Group 2 (plus is_ident)].

Definition EXPORT_DEFAULT_CAPTURE_REGEX : re :=
  seq [Bol; Star sp; lit "export"; plus sp; lit "default"; plus sp;
       Alt (seq [alt_lits ["class"; "function"]%string; plus sp;
                 Group 1 (plus is_ident)])
           (seq [alt_lits ["const"; "let"; "var"]%string; plus sp;
                 Group 2 (plus is_ident)])].

Definition EXPORT_NAMED_LIST_CAPTURE_REGEX : re :=
  seq [Bol; Star sp; lit "export"; Star sp; chr "{"; Star sp;
       Group 1 (plus_lazy not_rbrace); Star sp; chr "}"; opt (chr ";")].

Definition EXPORT_LIST_ITEM_REGEX : re :=
  seq [WordB; Group 1 (plus is_ident);
       opt (seq [plus sp; lit "as"; plus sp; Group 2 (plus is_ident)]);
       WordB].

Definition REMOVE_ADD_MATCHERS_CALL : re :=
  seq [Bol; Star sp; lit "jasmine.addMatchers"; Star sp; chr "(";
       StarLazy any_chr; chr ")"; opt (chr ";"); Star sp; Eol].

(** Replacement templates. *)
Definition delete : caps -> str := fun _ => [].
Definition keep_groups_1_to_5 : caps -> str :=
  fun cs => group_text cs 1 ++ group_text cs 2 ++ group_text cs 3
            ++ group_text cs 4 ++ group_text cs 5.
Definition export_default_marker : caps -> str :=
  fun cs => group_text cs 1 ++ s "/* export default */ ".

(** ** [os.path], POSIX flavour *)

Fixpoint drop_while (p : ascii -> bool) (t : str) : str :=
  match t with
  | c :: t' => if p c then drop_while p t' else t
  | [] => []
  end.

Fixpoint take_while (p : ascii -> bool) (t : str) : str :=
  match t with
  | c :: t' => if p c then c :: take_while p t' else []
  | [] => []
  end.

Definition slash : ascii := "/"%char.
Definition not_slash (c : ascii) : bool := negb (chr_eqb c slash).
Definition not_dot (c : ascii) : bool := negb (chr_eqb c dot).

(** What precedes the last slash, that slash included, and what follows. *)
Definition split_last_slash (p : str) : str * str :=
  (rev (drop_while not_slash (rev p)), rev (take_while not_slash (rev p))).

Definition basename (p : str) : str := snd (split_last_slash p).

Definition dirname (p : str) : str :=
  let head := fst (split_last_slash p) in
  if negb (str_eqb head []) && negb (forallb (only slash) head)
  then rev (drop_while (only slash) (rev head))
  else head.

Definition splitext (p : str) : str * str :=
  let '(head, base) := split_last_slash p in
  match drop_while not_dot (rev base) with
  | _ :: stem_rev =>
      if existsb not_dot stem_rev
      then (head ++ rev stem_rev, dot :: rev (take_while not_dot (rev base)))
      else (p, [])
  | [] => (p, [])
  end.

(** [text.split(sep)] *)
Fixpoint split_on (sep : ascii) (t : str) : list str :=
  match t with
  | [] => [[]]
  | c :: t' =>
      if chr_eqb c sep then [] :: split_on sep t'
      else match split_on sep t' with
           | x :: xs => (c :: x) :: xs
           | [] => [[c]]
           end
  end.

Definition dotdot : str := [dot; dot].

(** The loop of [normpath]; [new_comps] is kept last component first. *)
Definition norm_step (initial_slashes : nat) (new_comps : list str) (comp : str)
  : list str :=
  if str_eqb comp [] || str_eqb comp [dot] then new_comps
  else if negb (str_eqb comp dotdot)
          || ((initial_slashes =? 0) && (length new_comps =? 0))
          || match new_comps with top :: _ => str_eqb top dotdot | [] => false end
       then comp :: new_comps
       else tl new_comps.

Definition normpath (path : str) : str :=
  match path with
  | [] => [dot]
  | _ =>
      let initial_slashes :=
        if startswith path [slash] then
          if startswith path [slash; slash]
             && negb (startswith path [slash; slash; slash])
          then 2 else 1
        else 0 in
      let new_comps := fold_left (norm_step initial_slashes) (split_on slash path) [] in
      let joined := repeat slash initial_slashes ++ join [slash] (rev new_comps) in
      match joined with [] => [dot] | _ => joined end
  end.

Definition abspath (cwd path : str) : str :=
  normpath (if startswith path [slash] then path else path_join cwd path).

Definition components (p : str) : list str :=
  filter (fun x => negb (str_eqb x [])) (split_on slash p).

Fixpoint drop_common (a b : list str) : list str * list str :=
  match a, b with
  | x :: a', y :: b' => if str_eqb x y then drop_common a' b' else (a, b)
  | _, _ => (a, b)
  end.

Definition relpath (cwd path start : str) : str :=
  let '(start_rest, path_rest) :=
    drop_common (components (abspath cwd start)) (components (abspath cwd path)) in
  match map (fun _ => dotdot) start_rest ++ path_rest with
  | [] => [dot]
  | rel_list => fold_left path_join (tl rel_list) (hd [] rel_list)
  end.

(** ** The world a run sees

    The file system as the program queries it, and the order in which this
    run's sets hand out their members. *)

Record World : Type := {
  getcwd : str;
  isfile : str -> bool;
  isdir : str -> bool;
  (** [open(path).read()]: the text, or the message of the exception. *)
  read_text : str -> str + str;
  (** The members of a set in the order a loop over it meets them. *)
  set_iter : pyset -> list str
}.

Definition strip (t : str) : str :=
  rev (drop_while is_space (rev (drop_while is_space t))).

Definition replace_chr (old new : ascii) (t : str) : str :=
  map (fun c => if chr_eqb c old then new else c) t.

Definition backslash : ascii := ascii_of_nat 92.

Definition create_section_header (relative_filepath : str) : str :=
  let normalized_path := relative_filepath in
  [newline; newline] ++ s "// --- BEGIN FILE: " ++ normalized_path
  ++ s " ---" ++ [newline].

Definition create_section_footer (relative_filepath : str) : str :=
  let normalized_path := relative_filepath in
  [newline] ++ s "// --- END FILE: " ++ normalized_path ++ s " ---" ++ [newline].

(** [resolve_relative_path]: the target, and what it prints to stderr. *)
Definition resolve_relative_path (w : World)
  (source_file_abs_path relative_import_path : str) : option str * list str :=
  let source_dir := dirname source_file_abs_path in
  let norm_rel_path := replace_chr backslash slash relative_import_path in
  let '(target_base, ext) := splitext norm_rel_path in
  let base_abs := abspath (getcwd w) (path_join source_dir target_base) in
  let ts_path := base_abs ++ s ".ts" in
  let idx_path := path_join base_abs (s "index.ts") in
  let unresolved :=
    (None,
     if startswith relative_import_path (s ".")
     then [s "  [Warn] Cannot resolve relative import '" ++ relative_import_path
           ++ s "' from '" ++ basename source_file_abs_path ++ s "'"]
     else []) in
  if isfile w ts_path then (Some ts_path, [])
  else if isdir w base_abs && isfile w idx_path then (Some idx_path, [])
  else if str_eqb (lower ext) (s ".js") then
    if isfile w ts_path then (Some ts_path, [])
    else if isdir w base_abs && isfile w idx_path then (Some idx_path, [])
    else unresolved
  else unresolved.

(** The maps a run threads through its two transform passes, and stderr. *)
Record Maps : Type := {
  exports_map : dict pyset;
  namespace_imports_map : dict (dict str);
  stderr : list str
}.

Definition empty_maps : Maps :=
  {| exports_map := []; namespace_imports_map := []; stderr := [] |}.

(** [m.group(1) or m.group(2)] *)
Definition group_or (cs : caps) (i j : nat) : str :=
  match group_text cs i with
  | [] => group_text cs j
  | x => x
  end.

(** [ns_imports]: the pairs [findall] returns. *)
Definition namespace_imports (content : str) : list (str * str) :=
  map (fun m => (group_text (snd m) 1, group_text (snd m) 2))
      (finditer IMPORT_NAMESPACE_REGEX content).

(** One turn of the loop that resolves the pairs. *)
Definition resolve_step (w : World) (abs_file_path : str)
  (acc : dict str * list str) (pair : str * str) : dict str * list str :=
  let '(current_ns_imports, err) := acc in
  let '(alias, rel_path) := pair in
  let '(target, warn) := resolve_relative_path w abs_file_path rel_path in
  match target with
  | Some t => (dict_set current_ns_imports alias t, err ++ warn)
  | None => (current_ns_imports, err ++ warn)
  end.

(** The loop: [current_ns_imports] and what went to stderr. *)
Definition resolve_imports (w : World) (abs_file_path : str)
  (ns_imports : list (str * str)) : dict str * list str :=
  fold_left (resolve_step w abs_file_path) ns_imports ([], []).

(** The three capture loops over the original content. *)
Definition capture_exports (original_content : str) : pyset :=
  let named :=
    map (fun m => group_text (snd m) 2)
        (finditer EXPORT_NAMED_CAPTURE_REGEX original_content) in
  let default :=
    map (fun m => group_or (snd m) 1 2)
        (finditer EXPORT_DEFAULT_CAPTURE_REGEX original_content) in
  let listed :=
    flat_map
      (fun m =>
         map (fun item_m => group_or (snd item_m) 2 1)
             (finditer EXPORT_LIST_ITEM_REGEX (group_text (snd m) 1)))
      (finditer EXPORT_NAMED_LIST_CAPTURE_REGEX original_content) in
  fold_left set_add (named ++ default ++ listed) [].

(** The body after the import stages (lines 360 to 372 of the source). *)
Definition strip_imports (original_content : str) : str :=
  let content := re_sub LICENSE_BLOCK_PATTERN delete original_content in
  let content := re_sub IMPORT_NAMESPACE_REGEX delete content in
  let content := re_sub IMPORT_RELATIVE_OTHER_PATTERN delete content in
  let content := re_sub IMPORT_RELATIVE_SIDE_EFFECT_PATTERN delete content in
  let content := re_sub REMOVE_NON_RELATIVE_SIDE_EFFECT delete content in
  re_sub REMOVE_ADD_MATCHERS_CALL delete content.

(** The body after the export stages (lines 383 to 386). *)
Definition strip_exports (content : str) : str :=
  let content := re_sub EXPORT_DECL_PATTERN keep_groups_1_to_5 content in
  let content := re_sub EXPORT_DEFAULT_PATTERN export_default_marker content in
  let content := re_sub EXPORT_FROM_PATTERN delete content in
  re_sub EXPORT_LIST_PATTERN delete content.

Definition transform (original_content : str) : str :=
  strip_exports (strip_imports original_content).

(** One turn of the loop of [process_and_collect]. *)
Definition process_file (w : World) (base_directory : str)
  (st : list str * Maps) (file_path : str) : list str * Maps :=
  let '(code_chunks, m) := st in
  let relative_path := relpath (getcwd w) file_path base_directory in
  let abs_file_path := abspath (getcwd w) file_path in
  match read_text w file_path with
  | inr e =>
      (code_chunks,
       {| exports_map := exports_map m;
          namespace_imports_map := namespace_imports_map m;
          stderr := stderr m ++ [s "  [Error] Processing '" ++ relative_path
                                 ++ s "': " ++ e] |})
  | inl original_content =>
      let content := re_sub LICENSE_BLOCK_PATTERN delete original_content in
      let ns_imports := namespace_imports content in
      let '(current_ns_imports, warns) :=
        resolve_imports w abs_file_path ns_imports in
      let namespace_imports_map' :=
        match current_ns_imports with
        | [] => namespace_imports_map m
        | _ => dict_set (namespace_imports_map m) abs_file_path current_ns_imports
        end in
      let current_exports := capture_exports original_content in
      let exports_map' :=
        match current_exports with
        | [] => exports_map m
        | _ =>
            let old :=
              match dict_get (exports_map m) abs_file_path with
              | Some x => x
              | None => []
              end in
            dict_set (exports_map m) abs_file_path
              (set_update old (set_iter w current_exports))
        end in
      let trimmed := strip (transform original_content) in
      let m' := {| exports_map := exports_map';
                   namespace_imports_map := namespace_imports_map';
                   stderr := stderr m ++ warns |} in
      match trimmed with
      | [] => (code_chunks, m')
      | _ =>
          (code_chunks
           ++ [create_section_header relative_path ++ trimmed
               ++ create_section_footer relative_path],
           m')
      end
  end.

Definition process_and_collect (w : World) (files : list str)
  (base_directory : str) (m : Maps) : list str * Maps :=
  fold_left (process_file w base_directory) files ([], m).

(** ** The alias planner: [analyze_imports_and_plan] *)

Definition get_set (d : dict pyset) (k : str) : pyset :=
  match dict_get d k with Some x => x | None => [] end.

(** The two nested loops that fill [target_to_aliases]. *)
Definition observe (acc : dict pyset) (item : str * str) : dict pyset :=
  let '(alias, target) := item in
  dict_set acc target (set_add (get_set acc target) alias).

Definition target_to_aliases_of (namespace_imports_map : dict (dict str))
  : dict pyset :=
  fold_left (fun acc src => fold_left observe (snd src) acc)
            namespace_imports_map [].

(** The key [(len(x), x)], compared as Python compares tuples. *)
Definition key_ltb (a b : str) : bool :=
  (length a <? length b) || ((length a =? length b) && str_ltb a b).

(** [min(aliases, key=...)]: the first smallest member in iteration order. *)
Fixpoint min_from (best : str) (l : list str) : str :=
  match l with
  | [] => best
  | x :: l' => min_from (if key_ltb x best then x else best) l'
  end.

Definition min_by_key (l : list str) : option str :=
  match l with
  | [] => None
  | x :: l' => Some (min_from x l')
  end.

Record Plan : Type := {
  alias_redirects : dict str;
  canonical_to_target : dict str;
  plan_stderr : list str
}.

Definition conflict_warning (alias : str) : str :=
  s "  [Warn] Alias conflict for '" ++ alias ++ s "'".

(** The body of the inner loop, [for alias in aliases]. *)
Definition register (canonical : str) (acc : dict str * list str) (alias : str)
  : dict str * list str :=
  let '(redirects, err) := acc in
  if negb (str_eqb alias canonical) then
    match dict_get redirects alias with
    | Some c =>
        if negb (str_eqb c canonical)
        then (redirects, err ++ [conflict_warning alias])
        else (redirects, err)
    | None => (dict_set redirects alias canonical, err)
    end
  else
    match dict_get redirects alias with
    | Some _ => (redirects, err)
    | None => (dict_set redirects alias canonical, err)
    end.

(** The body of the outer loop, [for target, aliases in ...items()]. *)
Definition plan_target (iter : pyset -> list str) (p : Plan)
  (item : str * pyset) : Plan :=
  let '(target, aliases) := item in
  match min_by_key (iter aliases) with
  | None => p
  | Some canonical =>
      let '(redirects, err) :=
        fold_left (register canonical) (iter aliases)
                  (alias_redirects p, plan_stderr p) in
      {| alias_redirects := redirects;
         canonical_to_target := dict_set (canonical_to_target p) canonical target;
         plan_stderr := err |}
  end.

Definition empty_plan : Plan :=
  {| alias_redirects := []; canonical_to_target := []; plan_stderr := [] |}.

Definition analyze_imports_and_plan (iter : pyset -> list str)
  (namespace_imports_map : dict (dict str)) : Plan :=
  fold_left (plan_target iter) (target_to_aliases_of namespace_imports_map)
            empty_plan.

(** ** The assembler: [assemble_and_write] *)

Definition MAIN_OUTPUT_BASENAME : str := s "cats".
Definition TEST_OUTPUT_BASENAME : str := s "cats_test".

(** The pattern built for one alias: a word boundary, the alias taken
    literally ([re.escape]), a dot. *)
Definition alias_pattern (old_alias : str) : re :=
  Seq WordB (Seq (lit_str old_alias) (Chr (only dot))).

(** One turn of the loop over [alias_redirects.items()]. *)
Definition rewrite_step (final_content : str) (item : str * str) : str :=
  let '(old_alias, canonical_alias) := item in
  if str_eqb old_alias canonical_alias then final_content
  else re_sub (alias_pattern old_alias) (fun _ => canonical_alias ++ [dot])
              final_content.

Definition apply_alias_rewrites (alias_redirects : dict str) (final_content : str)
  : str :=
  fold_left rewrite_step alias_redirects final_content.

Definition const_decl (alias : str) (symbols : list str) : str :=
  s "export const " ++ alias ++ s " = { " ++ join (s ", ") symbols ++ s " };".

Definition no_exports_warning (alias : str) : str :=
  s "    [Warn] No exports found for alias '" ++ alias
  ++ s "'. Skipping const export.".

Section Assembly.

(** The two literal assets of the source: the license banner and the
    embedded test harness. *)
Variable LICENSE_TEXT : str.
Variable TEST_HARNESS_CODE : str.

(** The loop over the canonical aliases of the main bundle: the
    declarations appended and the warnings printed. *)
Definition declare_alias (iter : pyset -> list str) (exports : dict pyset)
  (canonical_alias_to_target_path : dict str)
  (acc : list str * list str) (alias : str) : list str * list str :=
  let '(prefix_declarations, out) := acc in
  match dict_get canonical_alias_to_target_path alias with
  | None => acc
  | Some target_path =>
      match sorted (iter (get_set exports target_path)) with
      | [] => (prefix_declarations, out ++ [no_exports_warning alias])
      | symbols => (prefix_declarations ++ [const_decl alias symbols], out)
      end
  end.

Definition prefix_declarations_of (iter : pyset -> list str)
  (exports : dict pyset) (canonical_alias_to_target_path : dict str)
  : list str * list str :=
  let all_canonical_aliases := sorted (dict_keys canonical_alias_to_target_path) in
  match all_canonical_aliases with
  | [] => ([], [])
  | _ =>
      let '(decls, out) :=
        fold_left (declare_alias iter exports canonical_alias_to_target_path)
                  all_canonical_aliases
                  ([s "// --- Exported Namespace Alias Objects ---"], []) in
      (decls ++ [s "// --- End Exported Namespace Alias Objects ---" ++ [newline]],
       out)
  end.

Definition prefix_imports_of (canonical_alias_to_target_path : dict str)
  : list str :=
  let all_canonical_aliases := sorted (dict_keys canonical_alias_to_target_path) in
  match all_canonical_aliases with
  | [] => []
  | _ =>
      let main_js_name := MAIN_OUTPUT_BASENAME ++ s ".js" in
      let import_path := s "./" ++ main_js_name in
      let aliases_str := join (s ", ") all_canonical_aliases in
      let import_stmt :=
        s "import { " ++ aliases_str ++ s " } from '" ++ import_path ++ s "';" in
      [s "// --- Imports from Main Bundle ---";
       s "// These imports bring the alias objects (like 'math', 'utils') into scope.";
       s "// Original test code using `math.someFunction()` will now work correctly.";
       import_stmt;
       s "// --- End Imports ---" ++ [newline]]
  end.

(** The text before the alias rewrite, [final_content] at line 509. *)
Definition assembled (iter : pyset -> list str) (code_chunks : list str)
  (exports : dict pyset) (canonical_alias_to_target_path : dict str)
  (is_test_file : bool) : str :=
  let output_parts := [LICENSE_TEXT; [newline; newline]] in
  let output_parts :=
    if is_test_file then
      output_parts
      ++ map (fun part => part ++ [newline])
             (prefix_imports_of canonical_alias_to_target_path)
      ++ [TEST_HARNESS_CODE] ++ [[newline; newline]] ++ code_chunks
      ++ [[newline; newline] ++ s "// --- Autorun Tests ---" ++ [newline]
          ++ s "runAllTestsAndReport();" ++ [newline]]
    else
      output_parts
      ++ map (fun part => part ++ [newline])
             (fst (prefix_declarations_of iter exports
                     canonical_alias_to_target_path))
      ++ code_chunks in
  concat output_parts.

(** The text [assemble_and_write] writes, and the warnings it prints. *)
Definition assemble (iter : pyset -> list str) (code_chunks : list str)
  (exports : dict pyset) (canonical_alias_to_target_path : dict str)
  (redirects : dict str) (is_test_file : bool) : str * list str :=
  (apply_alias_rewrites redirects
     (assembled iter code_chunks exports canonical_alias_to_target_path
                is_test_file),
   if is_test_file then []
   else snd (prefix_declarations_of iter exports canonical_alias_to_target_path)).

(** ** The driver: [main] *)

Record Output : Type := {
  main_bundle : option str;
  test_bundle : option str
}.

Definition main (w : World) (t : tree) (abs_input_dir : str) : Output :=
  let '(main_files, test_files) := find_ts_files abs_input_dir t in
  match main_files, test_files with
  | [], [] => {| main_bundle := None; test_bundle := None |}
  | _, _ =>
      let '(main_chunks, m1) :=
        match main_files with
        | [] => ([], empty_maps)
        | _ => process_and_collect w main_files abs_input_dir empty_maps
        end in
      let '(test_chunks, m2) :=
        match test_files with
        | [] => ([], m1)
        | _ => process_and_collect w test_files abs_input_dir m1
        end in
      let p := analyze_imports_and_plan (set_iter w) (namespace_imports_map m2) in
      {| main_bundle :=
           match main_files with
           | [] => None
           | _ => Some (fst (assemble (set_iter w) main_chunks (exports_map m2)
                               (canonical_to_target p) (alias_redirects p) false))
           end;
         test_bundle :=
           match test_files with
           | [] => None
           | _ => Some (fst (assemble (set_iter w) test_chunks (exports_map m2)
                               (canonical_to_target p) (alias_redirects p) true))
           end |}
  end.

End Assembly.

(** * Properties *)

(** ** Strings and their order *)

Lemma chr_eqb_eq (a b : ascii) : chr_eqb a b = true <-> a = b.
Proof. apply Ascii.eqb_eq. Qed.

Lemma chr_eqb_refl (a : ascii) : chr_eqb a a = true.
Proof. apply chr_eqb_eq; reflexivity. Qed.

Lemma chr_eqb_neq (a b : ascii) : chr_eqb a b = false <-> a <> b.
Proof.
  split; intros H.
  - intros E. apply chr_eqb_eq in E. congruence.
  - destruct (chr_eqb a b) eqn:E; [apply chr_eqb_eq in E; contradiction | reflexivity].
Qed.

Lemma str_eqb_eq : forall a b, str_eqb a b = true <-> a = b.
Proof.
  induction a as [|x a IH]; destruct b as [|y b]; simpl; split; intros H;
    try reflexivity; try discriminate.
  - apply andb_true_iff in H as [H1 H2].
    apply chr_eqb_eq in H1. apply IH in H2. congruence.
  - injection H as -> ->. rewrite chr_eqb_refl. apply IH. reflexivity.
Qed.

Lemma str_eqb_refl (a : str) : str_eqb a a = true.
Proof. apply str_eqb_eq; reflexivity. Qed.

Lemma str_eqb_neq (a b : str) : str_eqb a b = false <-> a <> b.
Proof.
  split; intros H.
  - intros E. apply str_eqb_eq in E. congruence.
  - destruct (str_eqb a b) eqn:E; [apply str_eqb_eq in E; contradiction | reflexivity].
Qed.

Lemma str_eqb_sym (a b : str) : str_eqb a b = str_eqb b a.
Proof.
  destruct (str_eqb a b) eqn:E.
  - apply str_eqb_eq in E. subst. symmetry. apply str_eqb_refl.
  - apply str_eqb_neq in E. symmetry. apply str_eqb_neq. congruence.
Qed.

Lemma code_inj (a b : ascii) : code a = code b -> a = b.
Proof.
  unfold code. intros H.
  rewrite <- (ascii_nat_embedding a), <- (ascii_nat_embedding b). congruence.
Qed.

Lemma str_ltb_irrefl : forall a, str_ltb a a = false.
Proof.
  induction a as [|x a IH]; simpl; [reflexivity|].
  rewrite Nat.ltb_irrefl, Nat.eqb_refl. exact IH.
Qed.

Lemma str_ltb_trans : forall a b c,
  str_ltb a b = true -> str_ltb b c = true -> str_ltb a c = true.
Proof.
  induction a as [|x a IH]; intros [|y b] [|z c]; simpl; intros H1 H2;
    try discriminate; try reflexivity.
  destruct (code x <? code y) eqn:Lxy.
  - apply Nat.ltb_lt in Lxy.
    destruct (code y <? code z) eqn:Lyz.
    + apply Nat.ltb_lt in Lyz.
      assert (L : (code x <? code z) = true) by (apply Nat.ltb_lt; lia).
      rewrite L. reflexivity.
    + destruct (code y =? code z) eqn:Eyz; [|discriminate].
      apply Nat.eqb_eq in Eyz.
      assert (L : (code x <? code z) = true) by (apply Nat.ltb_lt; lia).
      rewrite L. reflexivity.
  - destruct (code x =? code y) eqn:Exy; [|discriminate].
    apply Nat.eqb_eq in Exy. rewrite Exy.
    destruct (code y <? code z); [reflexivity|].
    destruct (code y =? code z); [|discriminate].
    eapply IH; eassumption.
Qed.

Lemma str_ltb_total : forall a b,
  str_ltb a b = false -> str_ltb b a = false -> a = b.
Proof.
  induction a as [|x a IH]; intros [|y b]; simpl; intros H1 H2;
    try discriminate; try reflexivity.
  destruct (code x <? code y) eqn:Lxy; [discriminate|].
  destruct (code y <? code x) eqn:Lyx; [discriminate|].
  apply Nat.ltb_ge in Lxy, Lyx.
  assert (E : code x = code y) by lia.
  rewrite E, Nat.eqb_refl in H1, H2.
  apply code_inj in E. subst y. f_equal. apply IH; assumption.
Qed.

Lemma str_ltb_asym (a b : str) : str_ltb a b = true -> str_ltb b a = false.
Proof.
  intros H. destruct (str_ltb b a) eqn:E; [|reflexivity].
  pose proof (str_ltb_trans _ _ _ H E) as T.
  rewrite str_ltb_irrefl in T. discriminate.
Qed.

Lemma str_le_refl (a : str) : str_le a a.
Proof. unfold str_le, str_leb. rewrite str_ltb_irrefl. reflexivity. Qed.

Lemma str_le_total (a b : str) : str_le a b \/ str_le b a.
Proof.
  unfold str_le, str_leb.
  destruct (str_ltb b a) eqn:E; [right | left; reflexivity].
  rewrite (str_ltb_asym _ _ E). reflexivity.
Qed.

Lemma str_le_antisym (a b : str) : str_le a b -> str_le b a -> a = b.
Proof.
  unfold str_le, str_leb. intros H1 H2.
  apply negb_true_iff in H1, H2. apply str_ltb_total; assumption.
Qed.

Lemma str_le_trans (a b c : str) : str_le a b -> str_le b c -> str_le a c.
Proof.
  unfold str_le, str_leb. intros H1 H2.
  apply negb_true_iff in H1, H2. apply negb_true_iff.
  destruct (str_ltb c a) eqn:E; [|reflexivity].
  destruct (str_ltb b c) eqn:F.
  - pose proof (str_ltb_trans _ _ _ F E). congruence.
  - assert (b = c) by (apply str_ltb_total; assumption). subst. congruence.
Qed.

(** ** [sorted] sorts, and its result depends on the members only *)

Lemma insert_sorted_perm (x : str) : forall l, Permutation (insert_sorted x l) (x :: l).
Proof.
  induction l as [|y l IH]; simpl; [apply Permutation_refl|].
  destruct (str_leb x y); [apply Permutation_refl|].
  eapply Permutation_trans; [apply perm_skip; exact IH | apply perm_swap].
Qed.

Lemma sorted_perm : forall l, Permutation (sorted l) l.
Proof.
  induction l as [|x l IH]; simpl; [constructor|].
  eapply Permutation_trans; [apply insert_sorted_perm | apply perm_skip; exact IH].
Qed.

Lemma sorted_In (l : list str) (x : str) : In x (sorted l) <-> In x l.
Proof.
  split; apply Permutation_in;
    [apply sorted_perm | apply Permutation_sym, sorted_perm].
Qed.

Lemma insert_sorted_Sorted (x : str) : forall l,
  Sorted str_le l -> Sorted str_le (insert_sorted x l).
Proof.
  induction l as [|y l IH]; simpl; intros H.
  - repeat constructor.
  - destruct (str_leb x y) eqn:E.
    + constructor; [assumption | constructor; exact E].
    + inversion H as [|? ? Hs Hh]; subst.
      constructor; [apply IH; assumption|].
      assert (Lyx : str_le y x).
      { destruct (str_le_total x y) as [L|L]; [unfold str_le in L; congruence | exact L]. }
      destruct l as [|z l]; simpl.
      * constructor; exact Lyx.
      * destruct (str_leb x z); constructor;
          [exact Lyx | inversion Hh; assumption].
Qed.

Lemma sorted_Sorted : forall l, Sorted str_le (sorted l).
Proof.
  induction l as [|x l IH]; simpl; [constructor | apply insert_sorted_Sorted, IH].
Qed.

Lemma Sorted_str_le_strong (l : list str) : Sorted str_le l -> StronglySorted str_le l.
Proof.
  apply Sorted_StronglySorted. intros a b c. apply str_le_trans.
Qed.

Lemma StronglySorted_perm_eq : forall l1 l2,
  StronglySorted str_le l1 -> StronglySorted str_le l2 ->
  Permutation l1 l2 -> l1 = l2.
Proof.
  induction l1 as [|a l1 IH]; intros l2 S1 S2 P.
  - apply Permutation_nil in P. subst. reflexivity.
  - destruct l2 as [|b l2].
    + apply Permutation_sym, Permutation_nil in P. discriminate.
    + inversion S1 as [|? ? S1' F1]; subst.
      inversion S2 as [|? ? S2' F2]; subst.
      assert (a = b) as ->.
      { assert (Ia : In a (b :: l2)) by (eapply Permutation_in; [exact P | left; reflexivity]).
        assert (Ib : In b (a :: l1))
          by (eapply Permutation_in; [apply Permutation_sym; exact P | left; reflexivity]).
        destruct Ia as [->|Ia]; [reflexivity|].
        destruct Ib as [->|Ib]; [reflexivity|].
        rewrite Forall_forall in F1, F2.
        apply str_le_antisym; [apply F1 | apply F2]; assumption. }
      f_equal. apply IH; try assumption.
      eapply Permutation_cons_inv; exact P.
Qed.

Lemma sorted_ext (l1 l2 : list str) : Permutation l1 l2 -> sorted l1 = sorted l2.
Proof.
  intros P. apply StronglySorted_perm_eq.
  - apply Sorted_str_le_strong, sorted_Sorted.
  - apply Sorted_str_le_strong, sorted_Sorted.
  - eapply Permutation_trans; [apply sorted_perm|].
    eapply Permutation_trans; [exact P | apply Permutation_sym, sorted_perm].
Qed.

(** ** The file classifier *)

(** Where things are in a tree: [dir_at t comps files] when following the
    directory names [comps] from the root of [t] leads to a directory whose
    files are [files]. *)
Inductive dir_at : tree -> list str -> list str -> Prop :=
| dir_here dirs files : dir_at (Dir dirs files) [] files
| dir_below dirs files d sub comps fs :
    In (d, sub) dirs -> dir_at sub comps fs ->
    dir_at (Dir dirs files) (d :: comps) fs.

Definition located (t : tree) (comps : list str) (filename : str) : Prop :=
  exists files, dir_at t comps files /\ In filename files.

Definition dir_path (root : str) (comps : list str) : str :=
  fold_left path_join comps root.

Definition path_of (root : str) (comps : list str) (filename : str) : str :=
  path_join (dir_path root comps) filename.

(** The names the classifier prunes. *)
Definition excluded (d : str) : Prop :=
  d = s "node_modules" \/ d = s "dist" \/ d = s "build"
  \/ startswith d (s ".") = true.

Definition path_is_test (p : str) : bool := endswith (lower p) TEST_FILE_SUFFIX.

Definition is_main_name (f : str) : bool := is_ts f && negb (is_test f).
Definition is_test_name (f : str) : bool := is_ts f && is_test f.

Definition paths_where (pick : str -> bool) (entries : list (str * list str))
  : list str :=
  flat_map (fun e => map (path_join (fst e)) (filter pick (snd e))) entries.

Section TreeInduction.

Variable P : tree -> Prop.
Hypothesis step : forall dirs files,
  Forall (fun d => P (snd d)) dirs -> P (Dir dirs files).

Fixpoint tree_nested_ind (t : tree) : P t :=
  match t with
  | Dir dirs files =>
      step dirs files
        ((fix all (ds : list (str * tree)) : Forall (fun d => P (snd d)) ds :=
            match ds with
            | [] => Forall_nil _
            | d :: ds' => Forall_cons d (tree_nested_ind (snd d)) (all ds')
            end) dirs)
  end.

End TreeInduction.

Lemma keep_dir_spec (d : str) : keep_dir d = true <-> ~ excluded d.
Proof.
  unfold keep_dir, excluded.
  rewrite !andb_true_iff, !negb_true_iff, !str_eqb_neq.
  split.
  - intros [[[H1 H2] H3] H4] [E|[E|[E|E]]]; congruence.
  - intros H. repeat split; try (intros E; apply H; auto).
    destruct (startswith d (s ".")) eqn:E; [exfalso; apply H; auto | reflexivity].
Qed.

Lemma os_walk_unfold (keep : str -> bool) (dirpath : str) dirs files :
  os_walk keep dirpath (Dir dirs files) =
  (dirpath, files) ::
  flat_map (fun d => if keep (fst d)
                     then os_walk keep (path_join dirpath (fst d)) (snd d)
                     else []) dirs.
Proof.
  simpl. f_equal.
  induction dirs as [|[d sub] ds IH]; simpl; [reflexivity|].
  rewrite IH. destruct (keep d); reflexivity.
Qed.

Lemma os_walk_sound (keep : str -> bool) : forall t root e,
  In e (os_walk keep root t) ->
  exists comps, dir_at t comps (snd e)
                /\ Forall (fun d => keep d = true) comps
                /\ fst e = dir_path root comps.
Proof.
  induction t as [dirs files IH] using tree_nested_ind.
  intros root e H. rewrite os_walk_unfold in H.
  destruct H as [<-|H].
  - exists []. repeat split; constructor.
  - apply in_flat_map in H as [[d sub] [Hd He]]. simpl in He.
    destruct (keep d) eqn:K; [|contradiction].
    rewrite Forall_forall in IH.
    destruct (IH _ Hd _ _ He) as [comps [D [F E]]].
    exists (d :: comps). repeat split.
    + econstructor; eassumption.
    + constructor; assumption.
    + exact E.
Qed.

Lemma os_walk_complete (keep : str -> bool) : forall t comps files,
  dir_at t comps files ->
  forall root, Forall (fun d => keep d = true) comps ->
  In (dir_path root comps, files) (os_walk keep root t).
Proof.
  induction 1 as [dirs files | dirs files d sub comps fs Hin D IH];
    intros root F; rewrite os_walk_unfold.
  - left. reflexivity.
  - right. inversion F as [|? ? K F']; subst.
    apply in_flat_map. exists (d, sub). split; [assumption|].
    simpl. rewrite K. apply IH. assumption.
Qed.

Lemma classify_fold (d : str) : forall fs main_files test_files,
  fold_left (classify d) fs (main_files, test_files) =
  (main_files ++ map (path_join d) (filter is_main_name fs),
   test_files ++ map (path_join d) (filter is_test_name fs)).
Proof.
  induction fs as [|f fs IH]; intros m t; simpl.
  - rewrite !app_nil_r. reflexivity.
  - unfold is_main_name, is_test_name at 1.
    destruct (is_ts f) eqn:T; simpl.
    + destruct (is_test f) eqn:U; simpl; rewrite IH;
        unfold is_main_name, is_test_name; rewrite <- ?app_assoc; reflexivity.
    + rewrite IH. reflexivity.
Qed.

Lemma scan_fold : forall entries main_files test_files,
  fold_left (fun acc entry => fold_left (classify (fst entry)) (snd entry) acc)
            entries (main_files, test_files) =
  (main_files ++ paths_where is_main_name entries,
   test_files ++ paths_where is_test_name entries).
Proof.
  induction entries as [|e es IH]; intros m t; simpl.
  - rewrite !app_nil_r. reflexivity.
  - rewrite classify_fold, IH, <- !app_assoc. reflexivity.
Qed.

Lemma scan_eq (root : str) (t : tree) :
  scan root t = (paths_where is_main_name (os_walk keep_dir root t),
                 paths_where is_test_name (os_walk keep_dir root t)).
Proof. unfold scan. rewrite scan_fold. reflexivity. Qed.

Lemma find_ts_files_eq (root : str) (t : tree) :
  find_ts_files root t =
  (sorted (paths_where is_main_name (os_walk keep_dir root t)),
   sorted (paths_where is_test_name (os_walk keep_dir root t))).
Proof. unfold find_ts_files. rewrite scan_eq. reflexivity. Qed.

Lemma paths_where_In (pick : str -> bool) entries p :
  In p (paths_where pick entries) <->
  exists d fs f, In (d, fs) entries /\ In f fs /\ pick f = true
                 /\ p = path_join d f.
Proof.
  unfold paths_where. rewrite in_flat_map. split.
  - intros [[d fs] [He Hp]]. simpl in Hp.
    apply in_map_iff in Hp as [f [<- Hf]].
    apply filter_In in Hf as [Hf Hk].
    exists d, fs, f. auto.
  - intros [d [fs [f [He [Hf [Hk ->]]]]]].
    exists (d, fs). split; [assumption|]. simpl.
    apply in_map. apply filter_In. auto.
Qed.

(** A listed path is the path of a file reached through kept directories
    only, and every such file of the right kind is listed. *)
Lemma listed_iff (pick : str -> bool) (root : str) (t : tree) (p : str) :
  In p (paths_where pick (os_walk keep_dir root t)) <->
  exists comps f, located t comps f
                  /\ Forall (fun d => keep_dir d = true) comps
                  /\ pick f = true /\ p = path_of root comps f.
Proof.
  rewrite paths_where_In. split.
  - intros [d [fs [f [He [Hf [Hk ->]]]]]].
    apply os_walk_sound in He as [comps [D [F E]]]. simpl in *. subst d.
    exists comps, f. repeat split; try assumption.
    exists fs. auto.
  - intros [comps [f [[fs [D Hf]] [F [Hk ->]]]]].
    exists (dir_path root comps), fs, f. repeat split; try assumption.
    apply os_walk_complete; assumption.
Qed.

(** Whether a path ends with the test suffix is decided by its last
    component: the suffix holds no slash. *)
Lemma startswith_app_before_slash : forall q u v,
  Forall (fun c => c <> slash) q ->
  (v = [] \/ exists v', v = slash :: v') ->
  startswith (u ++ v) q = startswith u q.
Proof.
  induction q as [|y q IH]; intros u v Hq Hv; [destruct (u ++ v), u; reflexivity|].
  inversion Hq as [|? ? Hy Hq']; subst.
  destruct u as [|x u]; simpl.
  - destruct Hv as [->|[v' ->]]; [reflexivity|].
    simpl. replace (chr_eqb slash y) with false; [reflexivity|].
    symmetry. apply chr_eqb_neq. congruence.
  - rewrite IH by assumption. reflexivity.
Qed.

Lemma rev_ends_slash (a : str) :
  endswith a (s "/") = true -> exists v', rev a = slash :: v'.
Proof.
  unfold endswith. simpl. destruct (rev a) as [|c r]; [discriminate|].
  simpl. rewrite andb_true_iff. intros [E _]. apply chr_eqb_eq in E. subst.
  eexists; reflexivity.
Qed.

(** [path_join a b] puts [b] after a prefix that is empty or ends with a
    slash, unless [b] is itself absolute. *)
Lemma path_join_shape (a b : str) :
  startswith b (s "/") = false ->
  exists x, path_join a b = x ++ b
            /\ (rev x = [] \/ exists v', rev x = slash :: v').
Proof.
  intros Hb. unfold path_join. rewrite Hb.
  destruct (str_eqb a []) eqn:Ea; cbn [orb].
  - apply str_eqb_eq in Ea. subst. exists []. auto.
  - destruct (endswith a (s "/")) eqn:Es.
    + exists a. split; [reflexivity | right; apply rev_ends_slash; exact Es].
    + exists (a ++ s "/"). split; [rewrite <- app_assoc; reflexivity|].
      right. rewrite rev_app_distr. simpl. eexists; reflexivity.
Qed.

Lemma suffix_after_join (q : str) (a b : str) :
  Forall (fun c => c <> slash) (rev q) ->
  endswith (lower (path_join a b)) q = endswith (lower b) q.
Proof.
  intros Hq. destruct (startswith b (s "/")) eqn:Hb.
  - unfold path_join. rewrite Hb. reflexivity.
  - destruct (path_join_shape a b Hb) as [x [-> Hx]].
    unfold endswith, lower. rewrite map_app, rev_app_distr.
    apply startswith_app_before_slash; [assumption|].
    rewrite <- map_rev.
    destruct Hx as [->|[v' ->]]; [left; reflexivity|].
    right. simpl. eexists; reflexivity.
Qed.

Lemma path_is_test_join (a b : str) : path_is_test (path_join a b) = is_test b.
Proof.
  unfold path_is_test, is_test. apply suffix_after_join.
  unfold TEST_FILE_SUFFIX. simpl. repeat constructor; discriminate.
Qed.

Lemma is_main_name_spec (f : str) :
  is_main_name f = true <-> is_ts f = true /\ is_test f = false.
Proof.
  unfold is_main_name. rewrite andb_true_iff, negb_true_iff. reflexivity.
Qed.

Lemma is_test_name_spec (f : str) :
  is_test_name f = true <-> is_ts f = true /\ is_test f = true.
Proof. unfold is_test_name. apply andb_true_iff. Qed.

Lemma main_files_not_test (root : str) (t : tree) (p : str) :
  In p (fst (find_ts_files root t)) -> path_is_test p = false.
Proof.
  rewrite find_ts_files_eq. simpl. rewrite sorted_In, listed_iff.
  intros [comps [f [_ [_ [K ->]]]]].
  apply is_main_name_spec in K as [_ K].
  unfold path_of. rewrite path_is_test_join. exact K.
Qed.

Lemma test_files_are_test (root : str) (t : tree) (p : str) :
  In p (snd (find_ts_files root t)) -> path_is_test p = true.
Proof.
  rewrite find_ts_files_eq. simpl. rewrite sorted_In, listed_iff.
  intros [comps [f [_ [_ [K ->]]]]].
  apply is_test_name_spec in K as [_ K].
  unfold path_of. rewrite path_is_test_join. exact K.
Qed.

(** C6, as the code has it: the three tests on the name (source
    extension, declaration file, test suffix) are made on the lower-cased
    name.  Every file reached through kept directories whose lower-cased
    name ends with [.ts] but not with [.d.ts] is in the test list if and
    only if its lower-cased name ends with [_test.ts], and in the main list
    if and only if it does not; no path is in both lists; both lists are
    sorted. *)
Theorem find_ts_files_classifies (root : str) (t : tree) :
  (forall comps f,
      located t comps f ->
      Forall (fun d => keep_dir d = true) comps ->
      is_ts f = true ->
      (In (path_of root comps f) (snd (find_ts_files root t))
       <-> endswith (lower f) TEST_FILE_SUFFIX = true)
      /\ (In (path_of root comps f) (fst (find_ts_files root t))
          <-> endswith (lower f) TEST_FILE_SUFFIX = false))
  /\ (forall p, In p (fst (find_ts_files root t)) ->
                In p (snd (find_ts_files root t)) -> False)
  /\ Sorted str_le (fst (find_ts_files root t))
  /\ Sorted str_le (snd (find_ts_files root t)).
Proof.
  split; [|split; [|split]].
  - intros comps f L F T. split; split.
    + intros H. apply test_files_are_test in H.
      unfold path_of in H. rewrite path_is_test_join in H. exact H.
    + intros K. rewrite find_ts_files_eq. simpl.
      apply sorted_In, listed_iff. exists comps, f.
      repeat split; try assumption. apply is_test_name_spec. auto.
    + intros H. apply main_files_not_test in H.
      unfold path_of in H. rewrite path_is_test_join in H. exact H.
    + intros K. rewrite find_ts_files_eq. simpl.
      apply sorted_In, listed_iff. exists comps, f.
      repeat split; try assumption. apply is_main_name_spec. auto.
  - intros p Hm Ht.
    apply main_files_not_test in Hm. apply test_files_are_test in Ht. congruence.
  - rewrite find_ts_files_eq. apply sorted_Sorted.
  - rewrite find_ts_files_eq. apply sorted_Sorted.
Qed.

(** C6 as stated fails: [A_TEST.ts] has the source extension and does not
    end with [_test.ts], yet the classifier puts it in the test list. *)
Lemma find_ts_files_uppercase_suffix :
  find_ts_files (s "/r") (Dir [] [s "A_TEST.ts"]) = ([], [s "/r/A_TEST.ts"])
  /\ endswith (s "A_TEST.ts") (s ".ts") = true
  /\ endswith (s "A_TEST.ts") (s ".d.ts") = false
  /\ endswith (s "A_TEST.ts") TEST_FILE_SUFFIX = false.
Proof. repeat split; vm_compute; reflexivity. Qed.

(** Paths are read back into their components when no name is empty or
    holds a slash, as on a real file system. *)
Definition wf_name (n : str) : bool :=
  negb (str_eqb n []) && forallb not_slash n.

Fixpoint wf_tree (t : tree) : bool :=
  match t with
  | Dir dirs files =>
      forallb wf_name files
      && (fix all (ds : list (str * tree)) : bool :=
            match ds with
            | [] => true
            | (d, sub) :: ds' => wf_name d && wf_tree sub && all ds'
            end) dirs
  end.

Definition sepfix (a : str) : str :=
  if str_eqb a [] || endswith a (s "/") then a else a ++ s "/".

Lemma wf_tree_unfold dirs files :
  wf_tree (Dir dirs files) =
  forallb wf_name files
  && forallb (fun d => wf_name (fst d) && wf_tree (snd d)) dirs.
Proof.
  simpl. f_equal.
  induction dirs as [|[d sub] ds IH]; simpl; [reflexivity|].
  rewrite IH. reflexivity.
Qed.

Lemma wf_dir_at : forall t comps files,
  dir_at t comps files -> wf_tree t = true ->
  Forall (fun n => wf_name n = true) comps
  /\ Forall (fun n => wf_name n = true) files.
Proof.
  induction 1 as [dirs files | dirs files d sub comps fs Hin D IH]; intros W;
    rewrite wf_tree_unfold in W; apply andb_true_iff in W as [Wf Wd].
  - split; [constructor | apply Forall_forall, forallb_forall; exact Wf].
  - rewrite forallb_forall in Wd. specialize (Wd _ Hin). simpl in Wd.
    apply andb_true_iff in Wd as [Wn Ws].
    destruct (IH Ws) as [Fc Ff]. split; [constructor|]; assumption.
Qed.

Lemma wf_name_shape (n : str) :
  wf_name n = true ->
  exists c r, n = c :: r /\ Forall (fun x => x <> slash) n.
Proof.
  unfold wf_name. rewrite andb_true_iff, negb_true_iff. intros [E F].
  destruct n as [|c r]; [discriminate|].
  exists c, r. split; [reflexivity|].
  apply Forall_forall. intros x Hx.
  rewrite forallb_forall in F. specialize (F _ Hx).
  unfold not_slash in F. apply negb_true_iff, chr_eqb_neq in F. exact F.
Qed.

Lemma path_join_wf (a b : str) : wf_name b = true -> path_join a b = sepfix a ++ b.
Proof.
  intros W. destruct (wf_name_shape _ W) as [c [r [-> F]]].
  inversion F as [|? ? Hc _]; subst.
  unfold path_join, sepfix.
  replace (startswith (c :: r) (s "/")) with false.
  - destruct (str_eqb a [] || endswith a (s "/")); [reflexivity|].
    rewrite <- app_assoc. reflexivity.
  - symmetry. simpl. apply andb_false_iff. left. apply chr_eqb_neq. exact Hc.
Qed.

Lemma sepfix_after_name (a b : str) :
  wf_name b = true -> sepfix (a ++ b) = a ++ b ++ s "/".
Proof.
  intros W. destruct (wf_name_shape _ W) as [c [r [-> F]]].
  unfold sepfix.
  replace (str_eqb (a ++ c :: r) []) with false
    by (symmetry; apply str_eqb_neq; destruct a; discriminate).
  replace (endswith (a ++ c :: r) (s "/")) with false.
  - simpl. rewrite <- app_assoc. reflexivity.
  - symmetry. unfold endswith. rewrite rev_app_distr.
    assert (Fr : Forall (fun x => x <> slash) (rev (c :: r)))
      by (apply Forall_rev; exact F).
    destruct (rev (c :: r)) as [|y q] eqn:E.
    + apply (f_equal (@length _)) in E. rewrite length_rev in E. discriminate.
    + inversion Fr as [|? ? Hy _]; subst. simpl.
      apply andb_false_iff. left. apply chr_eqb_neq. exact Hy.
Qed.

Lemma path_of_join (f : str) : forall comps root,
  Forall (fun n => wf_name n = true) comps -> wf_name f = true ->
  path_of root comps f = sepfix root ++ join (s "/") (comps ++ [f]).
Proof.
  unfold path_of, dir_path.
  induction comps as [|c comps IH]; intros root F W; simpl.
  - apply path_join_wf. exact W.
  - inversion F as [|? ? Wc F']; subst.
    rewrite IH by assumption.
    rewrite (path_join_wf root c Wc), sepfix_after_name by assumption.
    rewrite <- !app_assoc.
    destruct (comps ++ [f]) eqn:E; [destruct comps; discriminate|].
    reflexivity.
Qed.

Lemma app_slash_inj : forall a b x y,
  Forall (fun c => c <> slash) a -> Forall (fun c => c <> slash) b ->
  a ++ slash :: x = b ++ slash :: y -> a = b /\ x = y.
Proof.
  induction a as [|c a IH]; intros [|d b] x y Fa Fb E; simpl in E.
  - injection E as ->. auto.
  - injection E as E _. inversion Fb; subst. congruence.
  - injection E as E _. inversion Fa; subst. congruence.
  - injection E as -> E. inversion Fa; inversion Fb; subst.
    destruct (IH _ _ _ H2 H6 E) as [-> ->]. auto.
Qed.

Lemma join_slash_inj : forall l1 l2,
  Forall (fun n => wf_name n = true) l1 ->
  Forall (fun n => wf_name n = true) l2 ->
  l1 <> [] -> l2 <> [] ->
  join (s "/") l1 = join (s "/") l2 -> l1 = l2.
Proof.
  assert (NS : forall n, wf_name n = true -> Forall (fun c => c <> slash) n).
  { intros n W. destruct (wf_name_shape _ W) as [? [? [_ F]]]. exact F. }
  induction l1 as [|a l1 IH]; intros l2 F1 F2 N1 N2 E; [contradiction|].
  destruct l2 as [|b l2]; [contradiction|].
  inversion F1 as [|? ? Wa F1']; inversion F2 as [|? ? Wb F2']; subst.
  destruct l1 as [|a' l1], l2 as [|b' l2].
  - simpl in E. congruence.
  - exfalso. change (a = b ++ slash :: join (s "/") (b' :: l2)) in E.
    pose proof (NS _ Wa) as Fa. rewrite E in Fa.
    apply Forall_app in Fa as [_ Fa]. inversion Fa; congruence.
  - exfalso. change (a ++ slash :: join (s "/") (a' :: l1) = b) in E.
    pose proof (NS _ Wb) as Fb. rewrite <- E in Fb.
    apply Forall_app in Fb as [_ Fb]. inversion Fb; congruence.
  - change (a ++ slash :: join (s "/") (a' :: l1)
            = b ++ slash :: join (s "/") (b' :: l2)) in E.
    apply app_slash_inj in E as [-> E]; auto.
    f_equal. apply IH; auto; discriminate.
Qed.

Lemma path_of_inj (root : str) comps1 f1 comps2 f2 :
  Forall (fun n => wf_name n = true) comps1 -> wf_name f1 = true ->
  Forall (fun n => wf_name n = true) comps2 -> wf_name f2 = true ->
  path_of root comps1 f1 = path_of root comps2 f2 ->
  comps1 = comps2 /\ f1 = f2.
Proof.
  intros F1 W1 F2 W2 E.
  rewrite !path_of_join in E by assumption.
  apply app_inv_head in E.
  apply join_slash_inj in E.
  - apply app_inj_tail in E. exact E.
  - apply Forall_app; split; [assumption | repeat constructor; assumption].
  - apply Forall_app; split; [assumption | repeat constructor; assumption].
  - destruct comps1; discriminate.
  - destruct comps2; discriminate.
Qed.

(** C7: a file that lies below a directory named [node_modules], [dist] or
    [build], or whose name begins with a dot, is in neither list; and the
    walk yields no such directory in the first place: every directory it
    visits is reached through kept names only. *)
Theorem excluded_directories_are_pruned (root : str) (t : tree)
  (comps : list str) (f : str) :
  wf_tree t = true ->
  located t comps f ->
  Exists excluded comps ->
  ~ In (path_of root comps f)
       (fst (find_ts_files root t) ++ snd (find_ts_files root t))
  /\ (forall entry, In entry (os_walk keep_dir root t) ->
        exists visited, fst entry = dir_path root visited
                        /\ dir_at t visited (snd entry)
                        /\ Forall (fun d => ~ excluded d) visited).
Proof.
  intros W [files [D Hf]] X. split.
  - intros H.
    assert (L : exists pick, In (path_of root comps f)
                  (paths_where pick (os_walk keep_dir root t))).
    { rewrite find_ts_files_eq in H. simpl in H.
      apply in_app_or in H as [H|H]; apply (proj1 (sorted_In _ _)) in H;
        eexists; exact H. }
    destruct L as [pick L].
    apply listed_iff in L as [comps' [f' [[files' [D' Hf']] [K [_ E]]]]].
    destruct (wf_dir_at _ _ _ D W) as [Fc Ff].
    destruct (wf_dir_at _ _ _ D' W) as [Fc' Ff'].
    rewrite Forall_forall in Ff, Ff'.
    apply path_of_inj in E as [-> ->]; auto.
    apply Exists_exists in X as [d [Hd Xd]].
    rewrite Forall_forall in K. specialize (K _ Hd).
    apply keep_dir_spec in K. contradiction.
  - intros entry He.
    apply os_walk_sound in He as [visited [Dv [K E]]].
    exists visited. repeat split; try assumption.
    eapply Forall_impl; [|exact K]. intros d. apply keep_dir_spec.
Qed.

Definition sample_tree : tree :=
  Dir [(s "node_modules", Dir [] [s "dep.ts"]);
       (s "src", Dir [(s ".cache", Dir [] [s "tmp.ts"])]
                     [s "b.ts"; s "a.ts"; s "a_test.ts"; s "types.d.ts"])]
      [s "index.ts"].

Lemma excluded_directories_are_pruned_witness :
  find_ts_files (s "/r") sample_tree
  = ([s "/r/index.ts"; s "/r/src/a.ts"; s "/r/src/b.ts"], [s "/r/src/a_test.ts"])
  /\ ~ In (path_of (s "/r") [s "src"; s ".cache"] (s "tmp.ts"))
          (fst (find_ts_files (s "/r") sample_tree)
           ++ snd (find_ts_files (s "/r") sample_tree)).
Proof.
  split; [vm_compute; reflexivity|].
  apply (fun W L X => proj1 (excluded_directories_are_pruned (s "/r") sample_tree
                                [s "src"; s ".cache"] (s "tmp.ts") W L X)).
  - vm_compute; reflexivity.
  - exists [s "tmp.ts"]. split; [|left; reflexivity].
    eapply dir_below; [right; left; reflexivity|].
    eapply dir_below; [left; reflexivity|]. apply dir_here.
  - apply Exists_cons_tl, Exists_cons_hd. right; right; right. reflexivity.
Defined.

(** ** Dictionaries and sets *)

Lemma dict_get_set_same {V} (k : str) (v : V) : forall d,
  dict_get (dict_set d k v) k = Some v.
Proof.
  induction d as [|[k' v'] d IH]; simpl.
  - rewrite str_eqb_refl. reflexivity.
  - destruct (str_eqb k' k) eqn:E; simpl; rewrite E; [reflexivity | exact IH].
Qed.

Lemma dict_get_set_other {V} (k k' : str) (v : V) : forall d,
  k <> k' -> dict_get (dict_set d k v) k' = dict_get d k'.
Proof.
  intros d N. induction d as [|[k0 v0] d IH]; simpl.
  - apply str_eqb_neq in N. rewrite N. reflexivity.
  - destruct (str_eqb k0 k) eqn:E; simpl.
    + apply str_eqb_eq in E. subst k0.
      apply str_eqb_neq in N. rewrite N. reflexivity.
    + destruct (str_eqb k0 k'); [reflexivity | exact IH].
Qed.

Lemma dict_get_In {V} (k : str) (v : V) : forall d,
  dict_get d k = Some v -> In (k, v) d.
Proof.
  induction d as [|[k' v'] d IH]; simpl; [discriminate|].
  destruct (str_eqb k' k) eqn:E.
  - apply str_eqb_eq in E. intros [= ->]. left. congruence.
  - intros H. right. apply IH. exact H.
Qed.

Lemma dict_get_None {V} (k : str) : forall d : dict V,
  dict_get d k = None <-> ~ In k (dict_keys d).
Proof.
  induction d as [|[k' v'] d IH]; simpl.
  - tauto.
  - destruct (str_eqb k' k) eqn:E.
    + apply str_eqb_eq in E. split; [discriminate | intros H; exfalso; auto].
    + apply str_eqb_neq in E. rewrite IH. tauto.
Qed.

Lemma dict_get_Some_key {V} (k : str) (v : V) (d : dict V) :
  dict_get d k = Some v -> In k (dict_keys d).
Proof.
  intros H. apply dict_get_In in H. apply (in_map fst) in H. exact H.
Qed.

Lemma In_dict_get {V} (k : str) (v : V) : forall d,
  NoDup (dict_keys d) -> In (k, v) d -> dict_get d k = Some v.
Proof.
  induction d as [|[k' v'] d IH]; simpl; intros N H; [contradiction|].
  inversion N as [|? ? Hk N']; subst.
  destruct H as [[= -> ->]|H].
  - rewrite str_eqb_refl. reflexivity.
  - destruct (str_eqb k' k) eqn:E; [|apply IH; assumption].
    apply str_eqb_eq in E. subst. exfalso. apply Hk.
    apply (in_map fst) in H. exact H.
Qed.

Lemma dict_keys_set {V} (k : str) (v : V) : forall d,
  dict_keys (dict_set d k v) =
  if dict_mem d k then dict_keys d else dict_keys d ++ [k].
Proof.
  unfold dict_mem.
  induction d as [|[k' v'] d IH]; simpl; [reflexivity|].
  destruct (str_eqb k' k) eqn:E; simpl; [reflexivity|].
  rewrite IH. destruct (dict_get d k); reflexivity.
Qed.

Lemma dict_mem_In {V} (k : str) (d : dict V) :
  dict_mem d k = true <-> In k (dict_keys d).
Proof.
  unfold dict_mem. destruct (dict_get d k) eqn:E.
  - split; [intros _; eapply dict_get_Some_key; exact E | reflexivity].
  - split; [discriminate|]. intros H. apply dict_get_None in E. contradiction.
Qed.

Lemma dict_keys_set_In {V} (k k' : str) (v : V) (d : dict V) :
  In k' (dict_keys (dict_set d k v)) <-> In k' (dict_keys d) \/ k' = k.
Proof.
  rewrite dict_keys_set. destruct (dict_mem d k) eqn:E.
  - apply dict_mem_In in E. split; [auto | intros [H| ->]; assumption].
  - rewrite in_app_iff. simpl. split; [intros [H|[->|[]]] | intros [H| ->]]; auto.
Qed.

Lemma dict_set_NoDup {V} (k : str) (v : V) (d : dict V) :
  NoDup (dict_keys d) -> NoDup (dict_keys (dict_set d k v)).
Proof.
  intros N. rewrite dict_keys_set. destruct (dict_mem d k) eqn:E; [exact N|].
  apply NoDup_app; [exact N | repeat constructor; intros [] | ].
  intros x Hx [<-|[]].
  apply dict_mem_In in Hx. congruence.
Qed.

Lemma dict_set_In {V} (k k' : str) (v v' : V) : forall d,
  In (k', v') (dict_set d k v) -> (k' = k /\ v' = v) \/ In (k', v') d.
Proof.
  induction d as [|[k0 v0] d IH]; simpl.
  - intros [[= <- <-]|[]]. auto.
  - destruct (str_eqb k0 k) eqn:E; simpl.
    + apply str_eqb_eq in E. subst. intros [[= <- <-]|H]; auto.
    + intros [H|H]; [auto | destruct (IH H); auto].
Qed.

Lemma set_mem_In (x : str) : forall a, set_mem x a = true <-> In x a.
Proof.
  induction a as [|y a IH]; simpl; [split; [discriminate | contradiction]|].
  rewrite orb_true_iff, IH, str_eqb_eq. reflexivity.
Qed.

Lemma set_add_In (a : pyset) (x y : str) :
  In y (set_add a x) <-> In y a \/ y = x.
Proof.
  unfold set_add. destruct (set_mem x a) eqn:E.
  - apply set_mem_In in E. split; [auto | intros [H| ->]; assumption].
  - rewrite in_app_iff. simpl. split; [intros [H|[->|[]]] | intros [H| ->]]; auto.
Qed.

Lemma set_add_NoDup (a : pyset) (x : str) : NoDup a -> NoDup (set_add a x).
Proof.
  intros N. unfold set_add. destruct (set_mem x a) eqn:E; [exact N|].
  apply NoDup_app; [exact N | repeat constructor; intros [] | ].
  intros y Hy [<-|[]]. apply set_mem_In in Hy. congruence.
Qed.

Lemma set_update_In (b : list str) : forall a y,
  In y (set_update a b) <-> In y a \/ In y b.
Proof.
  unfold set_update.
  induction b as [|x b IH]; intros a y; simpl; [tauto|].
  rewrite IH, set_add_In. intuition (subst; auto).
Qed.

Lemma set_update_NoDup (b : list str) : forall a,
  NoDup a -> NoDup (set_update a b).
Proof.
  unfold set_update.
  induction b as [|x b IH]; intros a N; simpl; [exact N|].
  apply IH, set_add_NoDup, N.
Qed.

(** ** The alias planner *)

(** The key order of [min]: shorter first, then smaller. *)
Lemma key_ltb_spec (a b : str) :
  key_ltb a b = true <->
  length a < length b \/ (length a = length b /\ str_ltb a b = true).
Proof.
  unfold key_ltb.
  rewrite orb_true_iff, andb_true_iff, Nat.ltb_lt, Nat.eqb_eq. reflexivity.
Qed.

Lemma key_ltb_irrefl (a : str) : key_ltb a a = false.
Proof.
  destruct (key_ltb a a) eqn:E; [|reflexivity].
  apply key_ltb_spec in E as [E|[_ E]]; [lia|].
  rewrite str_ltb_irrefl in E. discriminate.
Qed.

Lemma key_ltb_trans (a b c : str) :
  key_ltb a b = true -> key_ltb b c = true -> key_ltb a c = true.
Proof.
  rewrite !key_ltb_spec. intros [H1|[H1 L1]] [H2|[H2 L2]]; try (left; lia).
  right. split; [lia|]. eapply str_ltb_trans; eassumption.
Qed.

Lemma key_ltb_total (a b : str) :
  key_ltb a b = false -> key_ltb b a = false -> a = b.
Proof.
  unfold key_ltb. rewrite !orb_false_iff, !andb_false_iff.
  rewrite !Nat.ltb_ge, !Nat.eqb_neq. intros [H1 K1] [H2 K2].
  assert (length a = length b) by lia.
  apply str_ltb_total; [destruct K1 | destruct K2]; congruence.
Qed.

Lemma key_lt_le_trans (a b c : str) :
  key_ltb a b = true -> key_ltb c b = false -> key_ltb a c = true.
Proof.
  intros H1 H2. destruct (key_ltb b c) eqn:E.
  - eapply key_ltb_trans; eassumption.
  - assert (b = c) by (apply key_ltb_total; assumption). subst. exact H1.
Qed.

Lemma min_from_In : forall l best, In (min_from best l) (best :: l).
Proof.
  induction l as [|x l IH]; intros best; simpl; [auto|].
  specialize (IH (if key_ltb x best then x else best)).
  destruct (key_ltb x best); destruct IH as [<-|H]; auto.
Qed.

Lemma min_from_least : forall l best x,
  In x (best :: l) -> key_ltb x (min_from best l) = false.
Proof.
  induction l as [|y l IH]; intros best x H; simpl.
  - destruct H as [<-|[]]. apply key_ltb_irrefl.
  - set (best' := if key_ltb y best then y else best).
    assert (Hb : key_ltb best' (min_from best' l) = false)
      by (apply IH; left; reflexivity).
    destruct H as [<-|[<-|H]].
    + subst best'. destruct (key_ltb y best) eqn:E; [|exact Hb].
      destruct (key_ltb best (min_from y l)) eqn:F; [|reflexivity].
      pose proof (key_ltb_trans _ _ _ E F). congruence.
    + subst best'. destruct (key_ltb y best) eqn:E; [exact Hb|].
      destruct (key_ltb y (min_from best l)) eqn:F; [|reflexivity].
      pose proof (key_lt_le_trans _ _ _ F Hb). congruence.
    + apply IH. right. exact H.
Qed.

Lemma min_by_key_spec (l : list str) (c : str) :
  min_by_key l = Some c ->
  In c l /\ forall a, In a l -> a <> c -> key_ltb c a = true.
Proof.
  destruct l as [|x l]; simpl; [discriminate|]. intros [= <-]. split.
  - apply min_from_In.
  - intros a Ha N.
    pose proof (min_from_least l x a Ha) as L.
    destruct (key_ltb (min_from x l) a) eqn:E; [reflexivity|].
    exfalso. apply N. apply key_ltb_total; assumption.
Qed.

Lemma min_by_key_nonempty (l : list str) :
  l <> [] -> exists c, min_by_key l = Some c.
Proof. destruct l; [contradiction | intros _; eexists; reflexivity]. Qed.

(** The minimum is a matter of the members, not of their order. *)
Lemma min_by_key_perm (l1 l2 : list str) (c1 c2 : str) :
  Permutation l1 l2 ->
  min_by_key l1 = Some c1 -> min_by_key l2 = Some c2 -> c1 = c2.
Proof.
  intros P H1 H2.
  apply min_by_key_spec in H1 as [I1 M1], H2 as [I2 M2].
  assert (I1' : In c1 l2) by (eapply Permutation_in; eassumption).
  assert (I2' : In c2 l1)
    by (eapply Permutation_in; [apply Permutation_sym|]; eassumption).
  destruct (list_eq_dec ascii_dec c1 c2) as [E|N]; [exact E|].
  pose proof (M1 _ I2' (fun E => N (eq_sym E))) as A.
  pose proof (M2 _ I1' N) as B.
  pose proof (key_ltb_trans _ _ _ A B) as C.
  rewrite key_ltb_irrefl in C. discriminate.
Qed.

(** [target_to_aliases] holds, for each target, the aliases observed for
    it. *)
Definition observations (namespace_imports_map : dict (dict str))
  : list (str * str) :=
  flat_map snd namespace_imports_map.

Lemma target_to_aliases_flat (nim : dict (dict str)) : forall d,
  fold_left (fun acc src => fold_left observe (snd src) acc) nim d
  = fold_left observe (observations nim) d.
Proof.
  unfold observations.
  induction nim as [|src nim IH]; intros d; simpl; [reflexivity|].
  rewrite fold_left_app. apply IH.
Qed.

Definition sets_ok (d : dict pyset) : Prop :=
  NoDup (dict_keys d) /\ forall t a, In (t, a) d -> a <> [] /\ NoDup a.

Lemma get_set_In (d : dict pyset) (t : str) (a : pyset) :
  NoDup (dict_keys d) -> In (t, a) d -> get_set d t = a.
Proof. intros N H. unfold get_set. rewrite (In_dict_get _ _ _ N H). reflexivity. Qed.

Lemma observe_ok (d : dict pyset) (item : str * str) :
  sets_ok d -> sets_ok (observe d item).
Proof.
  destruct item as [alias target]. intros [N K]. split.
  - apply dict_set_NoDup, N.
  - intros t a H. simpl in H.
    apply dict_set_In in H as [[-> ->]|H]; [|apply K with t; exact H].
    split.
    + intros E. assert (I : In alias (set_add (get_set d target) alias))
        by (apply set_add_In; auto).
      rewrite E in I. exact I.
    + apply set_add_NoDup. unfold get_set.
      destruct (dict_get d target) eqn:G; [|constructor].
      apply dict_get_In in G. apply (K _ _ G).
Qed.

Lemma observe_get (d : dict pyset) (alias target t a : str) :
  In a (get_set (observe d (alias, target)) t) <->
  In a (get_set d t) \/ (a = alias /\ t = target).
Proof.
  unfold observe, get_set at 1.
  destruct (list_eq_dec ascii_dec target t) as [->|N].
  - rewrite dict_get_set_same, set_add_In. intuition.
  - rewrite dict_get_set_other by exact N. fold (get_set d t).
    intuition congruence.
Qed.

Lemma observe_fold_spec : forall obs d,
  sets_ok d ->
  sets_ok (fold_left observe obs d)
  /\ forall t a, In a (get_set (fold_left observe obs d) t) <->
                 In a (get_set d t) \/ In (a, t) obs.
Proof.
  induction obs as [|[alias target] obs IH]; intros d K; simpl.
  - split; [exact K | intros; tauto].
  - destruct (IH _ (observe_ok d (alias, target) K)) as [K' G]. split; [exact K'|].
    intros t a. rewrite G, observe_get.
    split; [intros [[H|[-> ->]]|H] | intros [H|[[= -> ->]|H]]]; auto.
Qed.

Lemma target_to_aliases_spec (nim : dict (dict str)) :
  sets_ok (target_to_aliases_of nim)
  /\ forall target aliases,
       In (target, aliases) (target_to_aliases_of nim) ->
       forall a, In a aliases <-> In (a, target) (observations nim).
Proof.
  unfold target_to_aliases_of. rewrite target_to_aliases_flat.
  assert (K0 : sets_ok []) by (split; [constructor | intros ? ? []]).
  destruct (observe_fold_spec (observations nim) [] K0) as [K G].
  split; [exact K|]. intros target aliases H a.
  rewrite <- (get_set_In _ _ _ (proj1 K) H), G.
  unfold get_set. simpl. tauto.
Qed.

Lemma plan_target_eq (iter : pyset -> list str) (p : Plan)
  (target : str) (aliases : pyset) (c : str) :
  min_by_key (iter aliases) = Some c ->
  plan_target iter p (target, aliases) =
  {| alias_redirects :=
       fst (fold_left (register c) (iter aliases)
                      (alias_redirects p, plan_stderr p));
     canonical_to_target := dict_set (canonical_to_target p) c target;
     plan_stderr :=
       snd (fold_left (register c) (iter aliases)
                      (alias_redirects p, plan_stderr p)) |}.
Proof.
  intros H. unfold plan_target. rewrite H.
  destruct (fold_left _ _ _). reflexivity.
Qed.

Lemma plan_target_skip (iter : pyset -> list str) (p : Plan)
  (target : str) (aliases : pyset) :
  min_by_key (iter aliases) = None -> plan_target iter p (target, aliases) = p.
Proof. intros H. unfold plan_target. rewrite H. reflexivity. Qed.

Lemma canonical_keys_grow (iter : pyset -> list str) : forall items p c,
  In c (dict_keys (canonical_to_target p)) ->
  In c (dict_keys (canonical_to_target (fold_left (plan_target iter) items p))).
Proof.
  induction items as [|[t al] items IH]; intros p c H; cbn [fold_left]; [exact H|].
  apply IH. destruct (min_by_key (iter al)) as [c0|] eqn:M.
  - rewrite (plan_target_eq _ _ _ _ _ M). simpl.
    apply dict_keys_set_In. auto.
  - rewrite (plan_target_skip _ _ _ _ M). exact H.
Qed.

Lemma canonical_is_key (iter : pyset -> list str) : forall items p t al c,
  In (t, al) items -> min_by_key (iter al) = Some c ->
  In c (dict_keys (canonical_to_target (fold_left (plan_target iter) items p))).
Proof.
  induction items as [|item items IH]; intros p t al c H M; [contradiction|].
  cbn [fold_left]. destruct H as [->|H]; [|eapply IH; eassumption].
  apply canonical_keys_grow. rewrite (plan_target_eq _ _ _ _ _ M). simpl.
  apply dict_keys_set_In. auto.
Qed.

Lemma canonical_key_origin (iter : pyset -> list str) : forall items p c t,
  dict_get (canonical_to_target (fold_left (plan_target iter) items p)) c = Some t ->
  dict_get (canonical_to_target p) c = Some t
  \/ exists al, In (t, al) items /\ min_by_key (iter al) = Some c.
Proof.
  induction items as [|[t0 al0] items IH]; intros p c t H; cbn [fold_left] in *; [auto|].
  apply IH in H as [H|[al [H M]]];
    [|right; exists al; split; [right; exact H | exact M]].
  destruct (min_by_key (iter al0)) as [c0|] eqn:M.
  - rewrite (plan_target_eq _ _ _ _ _ M) in H. simpl in H.
    destruct (list_eq_dec ascii_dec c0 c) as [->|N].
    + rewrite dict_get_set_same in H. injection H as ->.
      right. exists al0. split; [left; reflexivity | exact M].
    + rewrite dict_get_set_other in H by exact N. auto.
  - rewrite (plan_target_skip _ _ _ _ M) in H. auto.
Qed.


Definition scenario_b : dict (dict str) :=
  [(s "/p/one.ts", [(s "longerAlias", s "/p/util.ts")]);
   (s "/p/two.ts", [(s "short", s "/p/util.ts")])].


(** ** What a match of a pattern looks like

    [steps r prev t cs prev' t' cs'] over-approximates a successful pass of
    the matcher through [r]: from the position before [t] to the position
    before [t'].  The matcher only ever succeeds along such a pass. *)

Inductive steps : re -> option ascii -> str -> caps ->
                  option ascii -> str -> caps -> Prop :=
| st_eps prev t cs : steps Eps prev t cs prev t cs
| st_chr p prev c t cs : p c = true -> steps (Chr p) prev (c :: t) cs (Some c) t cs
| st_seq a b prev t cs prev1 t1 cs1 prev2 t2 cs2 :
    steps a prev t cs prev1 t1 cs1 -> steps b prev1 t1 cs1 prev2 t2 cs2 ->
    steps (Seq a b) prev t cs prev2 t2 cs2
| st_alt_l a b prev t cs prev' t' cs' :
    steps a prev t cs prev' t' cs' -> steps (Alt a b) prev t cs prev' t' cs'
| st_alt_r a b prev t cs prev' t' cs' :
    steps b prev t cs prev' t' cs' -> steps (Alt a b) prev t cs prev' t' cs'
| st_star_stop p prev t cs : steps (Star p) prev t cs prev t cs
| st_star_more p prev c t cs prev' t' cs' :
    p c = true -> steps (Star p) (Some c) t cs prev' t' cs' ->
    steps (Star p) prev (c :: t) cs prev' t' cs'
| st_lazy_stop p prev t cs : steps (StarLazy p) prev t cs prev t cs
| st_lazy_more p prev c t cs prev' t' cs' :
    p c = true -> steps (StarLazy p) (Some c) t cs prev' t' cs' ->
    steps (StarLazy p) prev (c :: t) cs prev' t' cs'
| st_bol prev t cs : at_bol prev = true -> steps Bol prev t cs prev t cs
| st_eol prev t cs : at_eol t = true -> steps Eol prev t cs prev t cs
| st_wordb prev t cs : at_wordb prev t = true -> steps WordB prev t cs prev t cs
| st_group n a prev t cs prev' t' cs' :
    steps a prev t cs prev' t' cs' ->
    steps (Group n a) prev t cs prev' t' ((n, firstn (length t - length t') t) :: cs')
| st_not_ahead a prev t cs : steps (NotAhead a) prev t cs prev t cs.

Lemma star_greedy_sound (p : ascii -> bool) (k : cont) : forall t prev cs res,
  star_greedy p prev t cs k = Some res ->
  exists prev' t' cs', steps (Star p) prev t cs prev' t' cs'
                       /\ k prev' t' cs' = Some res.
Proof.
  induction t as [|c t IH]; intros prev cs res H; simpl in H.
  - do 3 eexists. split; [apply st_star_stop | exact H].
  - destruct (p c) eqn:E.
    + destruct (star_greedy p (Some c) t cs k) eqn:G.
      * injection H as <-. destruct (IH _ _ _ G) as [p' [t' [cs' [S K]]]].
        do 3 eexists. split; [eapply st_star_more; eassumption | exact K].
      * do 3 eexists. split; [apply st_star_stop | exact H].
    + do 3 eexists. split; [apply st_star_stop | exact H].
Qed.

Lemma star_lazy_sound (p : ascii -> bool) (k : cont) : forall t prev cs res,
  star_lazy p prev t cs k = Some res ->
  exists prev' t' cs', steps (StarLazy p) prev t cs prev' t' cs'
                       /\ k prev' t' cs' = Some res.
Proof.
  induction t as [|c t IH]; intros prev cs res H; simpl in H.
  - destruct (k prev [] cs) eqn:K; [|discriminate].
    do 3 eexists. split; [apply st_lazy_stop | rewrite K; exact H].
  - destruct (k prev (c :: t) cs) eqn:K.
    + do 3 eexists. split; [apply st_lazy_stop | rewrite K; exact H].
    + destruct (p c) eqn:E; [|discriminate].
      destruct (IH _ _ _ H) as [p' [t' [cs' [S K']]]].
      do 3 eexists. split; [eapply st_lazy_more; eassumption | exact K'].
Qed.

Lemma run_sound : forall r prev t cs k res,
  run r prev t cs k = Some res ->
  exists prev' t' cs', steps r prev t cs prev' t' cs' /\ k prev' t' cs' = Some res.
Proof.
  induction r as [|p|a IHa b IHb|a IHa b IHb|p|p| | | |n a IHa|a IHa];
    intros prev t cs k res H; simpl in H.
  - do 3 eexists. split; [constructor | exact H].
  - destruct t as [|c t]; [discriminate|].
    destruct (p c) eqn:E; [|discriminate].
    do 3 eexists. split; [constructor; exact E | exact H].
  - apply IHa in H as [p1 [t1 [c1 [S1 H]]]].
    apply IHb in H as [p2 [t2 [c2 [S2 H]]]].
    do 3 eexists. split; [econstructor; eassumption | exact H].
  - destruct (run a prev t cs k) eqn:A.
    + injection H as <-. apply IHa in A as [p1 [t1 [c1 [S1 A]]]].
      do 3 eexists. split; [apply st_alt_l; eassumption | exact A].
    + apply IHb in H as [p1 [t1 [c1 [S1 H]]]].
      do 3 eexists. split; [apply st_alt_r; eassumption | exact H].
  - apply star_greedy_sound. exact H.
  - apply star_lazy_sound. exact H.
  - destruct (at_bol prev) eqn:E; [|discriminate].
    do 3 eexists. split; [constructor; exact E | exact H].
  - destruct (at_eol t) eqn:E; [|discriminate].
    do 3 eexists. split; [constructor; exact E | exact H].
  - destruct (at_wordb prev t) eqn:E; [|discriminate].
    do 3 eexists. split; [constructor; exact E | exact H].
  - apply IHa in H as [p1 [t1 [c1 [S1 H]]]].
    do 3 eexists. split; [constructor; eassumption | exact H].
  - destruct (run a prev t cs _) eqn:A; [discriminate|].
    do 3 eexists. split; [constructor | exact H].
Qed.

Lemma match_here_sound (r : re) (prev : option ascii) (t rest : str) (cs : caps) :
  match_here r prev t = Some (rest, cs) ->
  exists prev', steps r prev t [] prev' rest cs.
Proof.
  unfold match_here. intros H.
  apply run_sound in H as [p' [t' [cs' [S H]]]].
  injection H as <- <-. exists p'. exact S.
Qed.

(** The text a pattern can consume, and the text a group of it can hold. *)
Fixpoint shape (r : re) (u : str) : Prop :=
  match r with
  | Eps | Bol | Eol | WordB | NotAhead _ => u = []
  | Chr p => exists c, u = [c] /\ p c = true
  | Seq a b => exists u1 u2, u = u1 ++ u2 /\ shape a u1 /\ shape b u2
  | Alt a b => shape a u \/ shape b u
  | Star p | StarLazy p => forallb p u = true
  | Group _ a => shape a u
  end.

Fixpoint cap_shape (r : re) (n : nat) (u : str) : Prop :=
  match r with
  | Seq a b | Alt a b => cap_shape a n u \/ cap_shape b n u
  | Group m a => (m = n /\ shape a u) \/ cap_shape a n u
  | _ => False
  end.

(** Groups that every match of the pattern sets. *)
Fixpoint must_cap (r : re) (n : nat) : bool :=
  match r with
  | Seq a b => must_cap a n || must_cap b n
  | Alt a b => must_cap a n && must_cap b n
  | Group m a => (m =? n) || must_cap a n
  | _ => false
  end.

Lemma steps_consumes : forall r prev t cs prev' t' cs',
  steps r prev t cs prev' t' cs' ->
  exists u, t = u ++ t' /\ shape r u.
Proof.
  induction 1; simpl.
  - exists []. auto.
  - exists [c]. split; [reflexivity | exists c; auto].
  - destruct IHsteps1 as [u1 [-> S1]], IHsteps2 as [u2 [-> S2]].
    exists (u1 ++ u2). split; [apply app_assoc | exists u1, u2; auto].
  - destruct IHsteps as [u [-> S]]. exists u. auto.
  - destruct IHsteps as [u [-> S]]. exists u. auto.
  - exists []. auto.
  - destruct IHsteps as [u [-> S]]. exists (c :: u).
    split; [reflexivity | simpl; rewrite H, S; reflexivity].
  - exists []. auto.
  - destruct IHsteps as [u [-> S]]. exists (c :: u).
    split; [reflexivity | simpl; rewrite H, S; reflexivity].
  - exists []. auto.
  - exists []. auto.
  - exists []. auto.
  - destruct IHsteps as [u [-> S]]. exists u. auto.
  - exists []. auto.
Qed.

Lemma firstn_consumed (u t' : str) : firstn (length (u ++ t') - length t') (u ++ t') = u.
Proof.
  rewrite length_app. replace (length u + length t' - length t') with (length u) by lia.
  rewrite firstn_app, Nat.sub_diag, firstn_all. simpl. apply app_nil_r.
Qed.

Lemma steps_groups : forall r prev t cs prev' t' cs',
  steps r prev t cs prev' t' cs' ->
  forall n,
    (forall u, group cs' n = Some u -> group cs n = Some u \/ cap_shape r n u)
    /\ (must_cap r n = true \/ group cs n <> None -> group cs' n <> None).
Proof.
  induction 1; intros k; simpl;
    try (split; [auto | intros [?|?]; [discriminate | assumption]]).
  - destruct (IHsteps1 k) as [A1 B1], (IHsteps2 k) as [A2 B2]. split.
    + intros u G. apply A2 in G as [G|G]; [|auto].
      apply A1 in G as [G|G]; auto.
    + rewrite orb_true_iff. intros [[M|M]|G]; auto.
  - destruct (IHsteps k) as [A B]. split.
    + intros u G. apply A in G as [G|G]; auto.
    + rewrite andb_true_iff. intros [[M _]|G]; auto.
  - destruct (IHsteps k) as [A B]. split.
    + intros u G. apply A in G as [G|G]; auto.
    + rewrite andb_true_iff. intros [[_ M]|G]; auto.
  - destruct (IHsteps k) as [A B]. split; [exact A|].
    intros [M|G]; [discriminate | auto].
  - destruct (IHsteps k) as [A B]. split; [exact A|].
    intros [M|G]; [discriminate | auto].
  - destruct (IHsteps k) as [A B].
    destruct (steps_consumes _ _ _ _ _ _ _ H) as [u0 [-> S]].
    rewrite firstn_consumed.
    destruct (n =? k) eqn:E.
    + apply Nat.eqb_eq in E. subst. split; [|discriminate].
      intros u [= <-]. auto.
    + split.
      * intros u G. apply A in G as [G|G]; auto.
      * rewrite orb_false_l. exact B.
Qed.

Lemma finditer_from_match (r : re) : forall t prev skip m cs,
  In (m, cs) (finditer_from r prev t skip) ->
  exists prev' t' rest, match_here r prev' t' = Some (rest, cs).
Proof.
  induction t as [|c t IH]; intros prev skip m cs H; simpl in H.
  - destruct skip; [|contradiction].
    destruct (match_here r prev []) as [[rest cs0]|] eqn:M; [|contradiction].
    destruct H as [[= <- <-]|[]]. do 3 eexists. exact M.
  - destruct skip as [|n]; [|eapply IH; exact H].
    destruct (match_here r prev (c :: t)) as [[rest cs0]|] eqn:M.
    + destruct H as [[= <- <-]|H]; [do 3 eexists; exact M | eapply IH; exact H].
    + eapply IH; exact H.
Qed.

Lemma finditer_match (r : re) (text m : str) (cs : caps) :
  In (m, cs) (finditer r text) ->
  exists prev t rest prev', steps r prev t [] prev' rest cs.
Proof.
  intros H. apply finditer_from_match in H as [prev [t [rest M]]].
  apply match_here_sound in M as [prev' S]. do 4 eexists. exact S.
Qed.

(** A group the pattern always sets holds a text of the group's shape. *)
Lemma matched_group (r : re) (n : nat) prev t prev' rest cs :
  steps r prev t [] prev' rest cs ->
  must_cap r n = true ->
  exists u, group cs n = Some u /\ cap_shape r n u.
Proof.
  intros S M. destruct (steps_groups _ _ _ _ _ _ _ S n) as [A B].
  destruct (group cs n) as [u|] eqn:G.
  - exists u. split; [reflexivity|].
    destruct (A u eq_refl) as [H|H]; [discriminate | exact H].
  - exfalso. apply B; auto.
Qed.

(** An identifier, as the import and export patterns capture one: a
    non-empty run of [[a-zA-Z0-9_]]. *)
Definition identifier (a : str) : bool :=
  negb (str_eqb a []) && forallb is_ident a.

Ltac break_shape :=
  repeat match goal with
         | H : False |- _ => contradiction
         | H : _ \/ _ |- _ => destruct H
         | H : _ /\ _ |- _ => destruct H
         | H : exists _, _ |- _ => destruct H
         end.

Ltac expose_pattern H :=
  cbv [cap_shape shape seq lit lit_str chr s list_ascii_of_string fold_right
       plus plus_lazy opt alt_lits relative_path
       IMPORT_NAMESPACE_REGEX] in H.

(** Every pair the namespace-import pattern yields holds an identifier and
    a relative specifier: one that begins with [./] or [../]. *)
Lemma namespace_imports_spec (content alias path : str) :
  In (alias, path) (namespace_imports content) ->
  identifier alias = true
  /\ (startswith path (s "./") = true \/ startswith path (s "../") = true).
Proof.
  unfold namespace_imports. intros H.
  apply in_map_iff in H as [[m cs] [E H]]. simpl in E. injection E as <- <-.
  apply finditer_match in H as [prev [t [rest [prev' S]]]].
  destruct (matched_group _ 1 _ _ _ _ _ S eq_refl) as [u1 [G1 C1]].
  destruct (matched_group _ 2 _ _ _ _ _ S eq_refl) as [u2 [G2 C2]].
  unfold group_text. rewrite G1, G2.
  expose_pattern C1. expose_pattern C2. break_shape; try discriminate; subst.
  all: split;
    [ unfold identifier; simpl;
      match goal with H : is_ident _ = true |- _ => rewrite H end; assumption
    | unfold only in *;
      repeat match goal with H : chr_eqb _ _ = true |- _ =>
               apply chr_eqb_eq in H; subst end;
      first [left; reflexivity | right; reflexivity] ].
Qed.

(** ** The transformer: [process_and_collect] *)

Definition license_stripped (original_content : str) : str :=
  re_sub LICENSE_BLOCK_PATTERN delete original_content.

(** What one file adds to the maps and to the chunks. *)
Definition current_ns_imports_of (w : World) (abs_file_path content : str)
  : dict str :=
  fst (resolve_imports w abs_file_path (namespace_imports (license_stripped content))).

Definition ns_map_after (w : World) (m : Maps) (abs_file_path content : str)
  : dict (dict str) :=
  match current_ns_imports_of w abs_file_path content with
  | [] => namespace_imports_map m
  | cur => dict_set (namespace_imports_map m) abs_file_path cur
  end.

Definition exports_after (w : World) (m : Maps) (abs_file_path content : str)
  : dict pyset :=
  match capture_exports content with
  | [] => exports_map m
  | cur =>
      dict_set (exports_map m) abs_file_path
        (set_update (get_set (exports_map m) abs_file_path) (set_iter w cur))
  end.

Definition chunks_after (code_chunks : list str) (relative_path content : str)
  : list str :=
  match strip (transform content) with
  | [] => code_chunks
  | trimmed =>
      code_chunks ++ [create_section_header relative_path ++ trimmed
                      ++ create_section_footer relative_path]
  end.

Lemma process_file_read (w : World) (base : str) (code_chunks : list str)
  (m : Maps) (file_path content : str) :
  read_text w file_path = inl content ->
  let abs_file_path := abspath (getcwd w) file_path in
  let r := process_file w base (code_chunks, m) file_path in
  fst r = chunks_after code_chunks (relpath (getcwd w) file_path base) content
  /\ exports_map (snd r) = exports_after w m abs_file_path content
  /\ namespace_imports_map (snd r) = ns_map_after w m abs_file_path content.
Proof.
  intros R. unfold process_file, chunks_after, exports_after, ns_map_after,
    current_ns_imports_of, license_stripped, get_set.
  cbv zeta. rewrite R.
  destruct (resolve_imports _ _ _) as [cur warns].
  destruct cur, (capture_exports content), (strip (transform content));
    simpl; auto.
Qed.

Lemma process_file_unreadable (w : World) (base : str) (code_chunks : list str)
  (m : Maps) (file_path e : str) :
  read_text w file_path = inr e ->
  let r := process_file w base (code_chunks, m) file_path in
  fst r = code_chunks
  /\ exports_map (snd r) = exports_map m
  /\ namespace_imports_map (snd r) = namespace_imports_map m.
Proof. intros R. unfold process_file. cbv zeta. rewrite R. simpl. auto. Qed.

Lemma resolve_step_get (w : World) (abs_file_path : str)
  (acc : dict str * list str) (alias path a : str) :
  dict_get (fst (resolve_step w abs_file_path acc (alias, path))) a =
  match fst (resolve_relative_path w abs_file_path path) with
  | Some t => if str_eqb alias a then Some t else dict_get (fst acc) a
  | None => dict_get (fst acc) a
  end.
Proof.
  unfold resolve_step. destruct acc as [cur err].
  destruct (resolve_relative_path w abs_file_path path) as [[t|] warn]; simpl;
    [|reflexivity].
  destruct (str_eqb alias a) eqn:E.
  - apply str_eqb_eq in E. subst. apply dict_get_set_same.
  - apply str_eqb_neq in E. apply dict_get_set_other. exact E.
Qed.

(** An alias is in [current_ns_imports] exactly when some import of it
    resolved, and its target is that of such an import. *)
Lemma resolve_fold_origin (w : World) (abs_file_path : str) : forall ns acc a t,
  dict_get (fst (fold_left (resolve_step w abs_file_path) ns acc)) a = Some t ->
  dict_get (fst acc) a = Some t
  \/ exists path, In (a, path) ns
                  /\ fst (resolve_relative_path w abs_file_path path) = Some t.
Proof.
  induction ns as [|[alias path] ns IH]; intros acc a t H; cbn [fold_left] in H.
  - auto.
  - apply IH in H as [H|[p [I R]]]; [|right; exists p; split; [right|]; assumption].
    rewrite resolve_step_get in H.
    destruct (fst (resolve_relative_path w abs_file_path path)) as [t0|] eqn:R;
      [|auto].
    destruct (str_eqb alias a) eqn:E; [|auto].
    apply str_eqb_eq in E. subst. injection H as ->.
    right. exists path. split; [left; reflexivity | exact R].
Qed.

Lemma resolve_fold_keeps (w : World) (abs_file_path : str) : forall ns acc a,
  dict_get (fst acc) a <> None ->
  dict_get (fst (fold_left (resolve_step w abs_file_path) ns acc)) a <> None.
Proof.
  induction ns as [|[alias path] ns IH]; intros acc a H; cbn [fold_left]; [exact H|].
  apply IH. rewrite resolve_step_get.
  destruct (fst (resolve_relative_path w abs_file_path path)); [|exact H].
  destruct (str_eqb alias a); [discriminate | exact H].
Qed.

Lemma resolve_fold_records (w : World) (abs_file_path : str) :
  forall ns acc a path t,
  In (a, path) ns ->
  fst (resolve_relative_path w abs_file_path path) = Some t ->
  dict_get (fst (fold_left (resolve_step w abs_file_path) ns acc)) a <> None.
Proof.
  induction ns as [|[alias p] ns IH]; intros acc a path t I R; [contradiction|].
  cbn [fold_left]. destruct I as [[= -> ->]|I]; [|eapply IH; eassumption].
  apply resolve_fold_keeps. rewrite resolve_step_get, R, str_eqb_refl. discriminate.
Qed.

(** C9: when the transformed body of a file is empty after trimming, the
    file adds no chunk, yet every name its original content exports is in
    the exports map under the file's path, and every alias of a
    namespace import of the file that resolved is in the namespace-imports
    map under the file's path, bound to the target of such an import. *)
Theorem empty_body_still_records (w : World) (base : str)
  (code_chunks : list str) (m : Maps) (file_path content : str) :
  (forall a, Permutation (set_iter w a) a) ->
  read_text w file_path = inl content ->
  strip (transform content) = [] ->
  let abs_file_path := abspath (getcwd w) file_path in
  let r := process_file w base (code_chunks, m) file_path in
  fst r = code_chunks
  /\ (forall name, In name (capture_exports content) ->
        In name (get_set (exports_map (snd r)) abs_file_path))
  /\ (forall alias path target,
        In (alias, path) (namespace_imports (license_stripped content)) ->
        fst (resolve_relative_path w abs_file_path path) = Some target ->
        exists imports target' path',
          dict_get (namespace_imports_map (snd r)) abs_file_path = Some imports
          /\ dict_get imports alias = Some target'
          /\ In (alias, path') (namespace_imports (license_stripped content))
          /\ fst (resolve_relative_path w abs_file_path path') = Some target').
Proof.
  intros P R E abs_file_path r.
  destruct (process_file_read w base code_chunks m file_path content R)
    as [Hc [He Hn]].
  fold abs_file_path in He, Hn. fold r in Hc, He, Hn.
  split; [|split].
  - rewrite Hc. unfold chunks_after. rewrite E. reflexivity.
  - intros name H. rewrite He. unfold exports_after.
    destruct (capture_exports content) as [|x cur] eqn:C; [contradiction|].
    unfold get_set at 1. rewrite dict_get_set_same.
    apply set_update_In. right.
    eapply Permutation_in; [apply Permutation_sym, P | exact H].
  - intros alias path target I T. rewrite Hn. unfold ns_map_after.
    assert (K : dict_get (current_ns_imports_of w abs_file_path content) alias
                <> None).
    { unfold current_ns_imports_of, resolve_imports.
      eapply resolve_fold_records; eassumption. }
    destruct (dict_get (current_ns_imports_of w abs_file_path content) alias)
      as [target'|] eqn:G; [|contradiction].
    destruct (current_ns_imports_of w abs_file_path content) as [|x cur] eqn:C;
      [discriminate|].
    exists (x :: cur), target'. rewrite dict_get_set_same.
    assert (O := G). rewrite <- C in O.
    unfold current_ns_imports_of, resolve_imports in O.
    apply resolve_fold_origin in O as [O|[path' [I' T']]]; [discriminate|].
    exists path'. auto.
Qed.

(** A small project to run the transformer on. *)
Definition lines (l : list string) : str :=
  concat (map (fun x => s x ++ [newline]) l).

Definition reexport_only : str :=
  lines ["import * as U from './u';"; "export { a } from './u';"]%string.

Definition package_import : str :=
  lines ["import * as X from 'pkg';"; "X.f();"]%string.

Definition sample_world : World :=
  {| getcwd := s "/p";
     isfile := fun p => existsb (str_eqb p) [s "/p/u.ts"; s "/p/a.ts"; s "/p/b.ts"];
     isdir := fun _ => false;
     read_text := fun p =>
       if str_eqb p (s "/p/a.ts") then inl reexport_only
       else if str_eqb p (s "/p/b.ts") then inl package_import
       else inr (s "No such file");
     set_iter := fun a => a |}.

Lemma empty_body_still_records_witness :
  strip (transform reexport_only) = []
  /\ fst (process_file sample_world (s "/p") ([], empty_maps) (s "/p/a.ts")) = []
  /\ In (s "a")
        (get_set (exports_map
                    (snd (process_file sample_world (s "/p") ([], empty_maps)
                            (s "/p/a.ts"))))
                 (s "/p/a.ts"))
  /\ exists imports target' path',
       dict_get (namespace_imports_map
                   (snd (process_file sample_world (s "/p") ([], empty_maps)
                           (s "/p/a.ts"))))
                (s "/p/a.ts") = Some imports
       /\ dict_get imports (s "U") = Some target'
       /\ In (s "U", path') (namespace_imports (license_stripped reexport_only))
       /\ fst (resolve_relative_path sample_world (s "/p/a.ts") path') = Some target'.
Proof.
  assert (E : strip (transform reexport_only) = []) by (vm_compute; reflexivity).
  destruct (empty_body_still_records sample_world (s "/p") [] empty_maps
              (s "/p/a.ts") reexport_only
              (fun a => Permutation_refl a) eq_refl E) as [H1 [H2 H3]].
  split; [exact E|]. split; [exact H1|]. split.
  - apply H2. vm_compute. left. reflexivity.
  - apply (H3 (s "U") (s "./u") (s "/p/u.ts")).
    + vm_compute. left. reflexivity.
    + vm_compute. reflexivity.
Defined.

(** C10 as stated fails: a documentation comment before the import and a
    license block after it make one match of the license pattern, and the
    import is deleted with it. *)
Lemma license_block_swallows_import :
  transform (lines ["/** a */"; "import * as X from 'pkg';";
                    "/** @license */"]%string) = [newline]
  /\ fst (process_file
            {| getcwd := s "/p"; isfile := fun _ => false; isdir := fun _ => false;
               read_text := fun _ =>
                 inl (lines ["/** a */"; "import * as X from 'pkg';";
                             "/** @license */"]%string);
               set_iter := fun a => a |}
            (s "/p") ([], empty_maps) (s "/p/c.ts")) = [].
Proof. split; vm_compute; reflexivity. Qed.

(** ** The redirect map the planner builds *)

Lemma dict_set_new {V} (k : str) (v : V) : forall d,
  dict_get d k = None -> dict_set d k v = d ++ [(k, v)].
Proof.
  induction d as [|[k' v'] d IH]; simpl; [reflexivity|].
  destruct (str_eqb k' k); [discriminate|]. intros H. rewrite IH by exact H.
  reflexivity.
Qed.

(** [register] leaves an alias that is registered alone, and puts a new
    one at the end. *)
Lemma register_cases (c : str) (R : dict str) (err : list str) (alias : str) :
  (dict_get R alias <> None /\ fst (register c (R, err) alias) = R)
  \/ (dict_get R alias = None
      /\ register c (R, err) alias = (R ++ [(alias, c)], err)).
Proof.
  unfold register.
  destruct (dict_get R alias) as [d|] eqn:G.
  - left. split; [discriminate|].
    destruct (negb (str_eqb alias c)); [destruct (negb (str_eqb d c))|]; reflexivity.
  - right. split; [reflexivity|].
    rewrite (dict_set_new _ _ _ G). destruct (negb (str_eqb alias c)); reflexivity.
Qed.

Lemma dict_get_app_new {V} (k k' : str) (v : V) : forall d,
  dict_get d k = None ->
  dict_get (d ++ [(k, v)]) k' =
  match dict_get d k' with
  | Some x => Some x
  | None => if str_eqb k k' then Some v else None
  end.
Proof.
  intros d H. rewrite <- (dict_set_new _ _ _ H).
  destruct (str_eqb k k') eqn:E.
  - apply str_eqb_eq in E. subst. rewrite dict_get_set_same, H. reflexivity.
  - apply str_eqb_neq in E. rewrite dict_get_set_other by exact E.
    destruct (dict_get d k'); reflexivity.
Qed.

Lemma register_get (c : str) (R : dict str) (err : list str) (alias w : str) :
  dict_get (fst (register c (R, err) alias)) w =
  match dict_get R w with
  | Some d => Some d
  | None => if str_eqb alias w then Some c else None
  end.
Proof.
  destruct (register_cases c R err alias) as [[G ->]|[G ->]].
  - destruct (dict_get R w) eqn:E; [reflexivity|].
    destruct (str_eqb alias w) eqn:A; [|reflexivity].
    apply str_eqb_eq in A. subst. contradiction.
  - simpl. apply dict_get_app_new. exact G.
Qed.

Lemma register_fold_get (c : str) : forall l R err w,
  dict_get (fst (fold_left (register c) l (R, err))) w =
  match dict_get R w with
  | Some d => Some d
  | None => if set_mem w l then Some c else None
  end.
Proof.
  induction l as [|a l IH]; intros R err w; cbn [fold_left set_mem].
  - cbn [fst]. destruct (dict_get R w); reflexivity.
  - destruct (register c (R, err) a) as [R' err'] eqn:E.
    rewrite IH. replace R' with (fst (register c (R, err) a)) by (rewrite E; reflexivity).
    rewrite register_get.
    destruct (dict_get R w); [reflexivity|].
    destruct (str_eqb a w); reflexivity.
Qed.

(** The canonical alias of the first target, in the order the targets
    were first observed, whose alias set holds [w]. *)
Fixpoint first_canonical (items : dict pyset) (w : str) : option str :=
  match items with
  | [] => None
  | (_, aliases) :: rest =>
      if set_mem w aliases then min_by_key aliases else first_canonical rest w
  end.

Lemma set_mem_perm (w : str) (a b : list str) :
  Permutation a b -> set_mem w a = set_mem w b.
Proof.
  intros P. destruct (set_mem w b) eqn:E.
  - apply set_mem_In. apply set_mem_In in E.
    eapply Permutation_in; [apply Permutation_sym|]; eassumption.
  - destruct (set_mem w a) eqn:F; [|reflexivity].
    apply set_mem_In in F. apply (Permutation_in _ P) in F.
    apply set_mem_In in F. congruence.
Qed.

Lemma min_by_key_iter (iter : pyset -> list str) (aliases : pyset) :
  Permutation (iter aliases) aliases ->
  min_by_key (iter aliases) = min_by_key aliases.
Proof.
  intros P.
  destruct (min_by_key (iter aliases)) as [c1|] eqn:M1,
           (min_by_key aliases) as [c2|] eqn:M2.
  - f_equal. eapply min_by_key_perm; eassumption.
  - destruct aliases; [|discriminate]. apply Permutation_sym, Permutation_nil in P.
    rewrite P in M1. discriminate.
  - destruct (iter aliases); [|discriminate]. apply Permutation_nil in P.
    subst. discriminate.
  - reflexivity.
Qed.

Lemma plan_target_get (iter : pyset -> list str) (p : Plan)
  (target : str) (aliases : pyset) (w : str) :
  Permutation (iter aliases) aliases ->
  dict_get (alias_redirects (plan_target iter p (target, aliases))) w =
  match dict_get (alias_redirects p) w with
  | Some d => Some d
  | None => if set_mem w aliases then min_by_key aliases else None
  end.
Proof.
  intros P. pose proof (min_by_key_iter iter aliases P) as M.
  destruct (min_by_key aliases) as [c|] eqn:C.
  - rewrite (plan_target_eq _ _ _ _ _ M). simpl.
    rewrite register_fold_get, (set_mem_perm w _ _ P). reflexivity.
  - rewrite (plan_target_skip _ _ _ _ M).
    destruct (dict_get (alias_redirects p) w); [reflexivity|].
    destruct (set_mem w aliases); reflexivity.
Qed.

(** The redirect of an alias is decided by the first target that uses it:
    later targets that use the same alias string do not change it. *)
Lemma planner_lookup (iter : pyset -> list str) :
  (forall a, Permutation (iter a) a) ->
  forall items p w,
  dict_get (alias_redirects (fold_left (plan_target iter) items p)) w =
  match dict_get (alias_redirects p) w with
  | Some d => Some d
  | None => first_canonical items w
  end.
Proof.
  intros P. induction items as [|[t al] items IH]; intros p w; cbn [fold_left].
  - simpl. destruct (dict_get (alias_redirects p) w); reflexivity.
  - rewrite IH, plan_target_get by apply P. simpl.
    destruct (dict_get (alias_redirects p) w); [reflexivity|].
    destruct (set_mem w al) eqn:S; [|reflexivity].
    destruct (min_by_key al) eqn:M; [reflexivity|].
    destruct al; discriminate.
Qed.

Lemma first_registration_is_kept (iter : pyset -> list str) :
  (forall a, Permutation (iter a) a) ->
  forall items p w d,
  dict_get (alias_redirects p) w = Some d ->
  dict_get (alias_redirects (fold_left (plan_target iter) items p)) w = Some d.
Proof.
  intros P items p w d H. rewrite (planner_lookup iter P), H. reflexivity.
Qed.

(** Two files that give the alias [B] to two different targets: [B] is a
    second alias of [t2] (whose canonical alias is [A]) and the canonical
    alias of [t1]. *)
Definition alias_collision : dict (dict str) :=
  [(s "/p/f1.ts", [(s "A", s "/p/t2.ts"); (s "B", s "/p/t2.ts")]);
   (s "/p/f2.ts", [(s "B", s "/p/t1.ts"); (s "AA", s "/p/t1.ts")])].

(** C5 on that input: the first mapping of [B] is kept, [B] becomes a key
    of the canonical-alias map for the second target all the same, and
    nothing is printed to stderr, whichever way the sets are iterated. *)
Lemma alias_collision_is_silent :
  analyze_imports_and_plan (fun a => a) alias_collision
  = {| alias_redirects := [(s "A", s "A"); (s "B", s "A"); (s "AA", s "B")];
       canonical_to_target := [(s "A", s "/p/t2.ts"); (s "B", s "/p/t1.ts")];
       plan_stderr := [] |}
  /\ analyze_imports_and_plan (@rev str) alias_collision
     = {| alias_redirects := [(s "B", s "A"); (s "A", s "A"); (s "AA", s "B")];
          canonical_to_target := [(s "A", s "/p/t2.ts"); (s "B", s "/p/t1.ts")];
          plan_stderr := [] |}
  /\ plan_stderr
       (analyze_imports_and_plan (fun a => a)
          [(s "/p/f1.ts", [(s "A", s "/p/t2.ts"); (s "BB", s "/p/t2.ts")]);
           (s "/p/f2.ts", [(s "BB", s "/p/t1.ts"); (s "C", s "/p/t1.ts")])])
     = [conflict_warning (s "BB")].
Proof. repeat split; vm_compute; reflexivity. Qed.

(** ** The alias rewrite, word by word

    The pattern for an alias can only match a whole word followed by a
    dot, so one substitution acts on the words of the text, each on its
    own.  The text is cut into its maximal runs of word characters and
    its other characters. *)

Inductive token : Type :=
| Word (w : str)
| Other (c : ascii).

Fixpoint tok (t : str) : list token :=
  match t with
  | [] => []
  | c :: t' =>
      if is_word c then
        match tok t' with
        | Word w :: ts => Word (c :: w) :: ts
        | ts => Word [c] :: ts
        end
      else Other c :: tok t'
  end.

Definition token_text (x : token) : str :=
  match x with Word w => w | Other c => [c] end.

Definition detok (ts : list token) : str := flat_map token_text ts.

(** Whether the token list begins with a dot. *)
Definition dot_next (ts : list token) : bool :=
  match ts with
  | Other c :: _ => chr_eqb c dot
  | _ => false
  end.

(** Apply [f] to every word that a dot follows. *)
Fixpoint retok (f : str -> str) (ts : list token) : list token :=
  match ts with
  | [] => []
  | Word w :: rest => Word (if dot_next rest then f w else w) :: retok f rest
  | Other c :: rest => Other c :: retok f rest
  end.

Definition is_word_run (w : str) : Prop := w <> [] /\ forallb is_word w = true.

Definition starts_with_word (ts : list token) : bool :=
  match ts with Word _ :: _ => true | _ => false end.

Fixpoint wf_tokens (ts : list token) : Prop :=
  match ts with
  | [] => True
  | Word w :: rest =>
      is_word_run w /\ starts_with_word rest = false /\ wf_tokens rest
  | Other c :: rest => is_word c = false /\ wf_tokens rest
  end.

Lemma detok_tok : forall t, detok (tok t) = t.
Proof.
  induction t as [|c t IH]; simpl; [reflexivity|].
  destruct (is_word c).
  - destruct (tok t) as [|[w|d] ts]; simpl in *; rewrite <- IH; reflexivity.
  - simpl. rewrite IH. reflexivity.
Qed.

Lemma tok_starts_with_word (t : str) : starts_with_word (tok t) = word_after t.
Proof.
  destruct t as [|c t]; simpl; [reflexivity|].
  destruct (is_word c); [|reflexivity].
  destruct (tok t) as [|[w|d] ts]; reflexivity.
Qed.

Lemma tok_wf : forall t, wf_tokens (tok t).
Proof.
  induction t as [|c t IH]; simpl; [exact I|].
  destruct (is_word c) eqn:E.
  - destruct (tok t) as [|[w|d] ts]; simpl in *; unfold is_word_run in *; simpl.
    + repeat split; [discriminate | rewrite E; reflexivity].
    + destruct IH as [[N F] [S K]].
      repeat split; [discriminate | rewrite E; exact F | exact S | exact K].
    + repeat split; try (apply IH); [discriminate | rewrite E; reflexivity].
  - simpl. split; [exact E | exact IH].
Qed.

Lemma dot_next_retok (f : str -> str) (ts : list token) :
  dot_next (retok f ts) = dot_next ts.
Proof. destruct ts as [|[w|c] ts]; reflexivity. Qed.

Lemma starts_with_word_retok (f : str -> str) (ts : list token) :
  starts_with_word (retok f ts) = starts_with_word ts.
Proof. destruct ts as [|[w|c] ts]; reflexivity. Qed.

Lemma retok_retok (f g : str -> str) : forall ts,
  retok g (retok f ts) = retok (fun w => g (f w)) ts.
Proof.
  induction ts as [|[w|c] ts IH]; simpl; [reflexivity| |].
  - rewrite dot_next_retok, IH. destruct (dot_next ts); reflexivity.
  - rewrite IH. reflexivity.
Qed.

Lemma retok_ext (f g : str -> str) :
  (forall w, is_word_run w -> f w = g w) ->
  forall ts, wf_tokens ts -> retok f ts = retok g ts.
Proof.
  intros E. induction ts as [|[w|c] ts IH]; simpl; intros K; [reflexivity| |].
  - destruct K as [Hw [_ K]]. rewrite IH by exact K.
    rewrite (E w Hw). reflexivity.
  - destruct K as [_ K]. rewrite IH by exact K. reflexivity.
Qed.

Lemma retok_id : forall ts, retok (fun w => w) ts = ts.
Proof.
  induction ts as [|[w|c] ts IH]; simpl; [reflexivity| |]; rewrite IH;
    [destruct (dot_next ts)|]; reflexivity.
Qed.

(** A function that sends words to words keeps a token list well formed. *)
Definition word_fun (f : str -> str) : Prop :=
  forall w, is_word_run w -> is_word_run (f w).

Lemma retok_wf (f : str -> str) : word_fun f ->
  forall ts, wf_tokens ts -> wf_tokens (retok f ts).
Proof.
  intros F. induction ts as [|[w|c] ts IH]; simpl; intros K; [exact I| |].
  - destruct K as [Hw [S K]]. repeat split.
    + destruct (dot_next ts); [apply F|]; apply Hw.
    + destruct (dot_next ts); [apply F|]; apply Hw.
    + rewrite starts_with_word_retok. exact S.
    + apply IH, K.
  - destruct K as [E K]. split; [exact E | apply IH, K].
Qed.

(** What the alias pattern matches: a word boundary, then the alias and a
    dot as the next characters. *)
Lemma run_alias_literal : forall old prev t,
  run (Seq (lit_str old) (Chr (only dot))) prev t []
      (fun _ t' cs => Some (t', cs))
  = if startswith t (old ++ [dot])
    then Some (skipn (length old + 1) t, [])
    else None.
Proof.
  induction old as [|o old IH]; intros prev t.
  - destruct t as [|c t]; [reflexivity|].
    simpl. unfold only. destruct (chr_eqb c dot); reflexivity.
  - destruct t as [|c t]; [reflexivity|].
    specialize (IH (Some c) t). simpl in *. unfold only at 1.
    destruct (chr_eqb c o); [exact IH | reflexivity].
Qed.

Lemma match_here_alias (old : str) (prev : option ascii) (t : str) :
  match_here (alias_pattern old) prev t
  = if at_wordb prev t && startswith t (old ++ [dot])
    then Some (skipn (length old + 1) t, [])
    else None.
Proof.
  unfold match_here, alias_pattern.
  change (run (Seq WordB ?r) prev t [] ?k)
    with (if at_wordb prev t then run r prev t [] k else None).
  rewrite run_alias_literal. destruct (at_wordb prev t); reflexivity.
Qed.

Lemma startswith_length : forall p t,
  startswith t p = true -> length p <= length t.
Proof.
  induction p as [|y p IH]; intros t H; simpl; [lia|].
  destruct t as [|x t]; simpl in H; [discriminate|].
  apply andb_true_iff in H as [_ H]. apply IH in H. simpl. lia.
Qed.

Lemma startswith_app : forall p t, startswith (p ++ t) p = true.
Proof.
  induction p as [|y p IH]; intros t; simpl; [reflexivity|].
  rewrite chr_eqb_refl. apply IH.
Qed.

Lemma startswith_eq : forall p t,
  startswith t p = true -> t = p ++ skipn (length p) t.
Proof.
  induction p as [|y p IH]; intros t H; simpl; [reflexivity|].
  destruct t as [|x t]; simpl in H; [discriminate|].
  apply andb_true_iff in H as [E H]. apply chr_eqb_eq in E. subst.
  f_equal. apply IH. exact H.
Qed.

(** The character before the position reached after passing [u]. *)
Definition prev_after (prev : option ascii) (u : str) : option ascii :=
  fold_left (fun _ c => Some c) u prev.

Lemma sub_from_skip (r : re) (repl : caps -> str) : forall u prev t,
  sub_from r repl prev (u ++ t) (length u) = sub_from r repl (prev_after prev u) t 0.
Proof.
  induction u as [|c u IH]; intros prev t; [reflexivity|].
  simpl. apply IH.
Qed.

Lemma is_word_dot : is_word dot = false.
Proof. reflexivity. Qed.

(** Inside a text that begins where a word ends, or with a character that
    is no word character, the alias matches at the head only when the
    head is the alias as a whole word and a dot follows. *)
Lemma startswith_word_run : forall w old t,
  forallb is_word w = true -> forallb is_word old = true ->
  word_after t = false ->
  startswith (w ++ t) (old ++ [dot]) = str_eqb w old && startswith t [dot].
Proof.
  induction w as [|x w IH]; intros old t Fw Fo Ft.
  - destruct old as [|o old]; [destruct t; reflexivity|].
    simpl in Fo. apply andb_true_iff in Fo as [Ho _].
    destruct t as [|d t]; [reflexivity|]. simpl in *.
    replace (chr_eqb d o) with false; [reflexivity|].
    symmetry. apply chr_eqb_neq. intros ->. congruence.
  - simpl in Fw. apply andb_true_iff in Fw as [Hx Fw].
    destruct old as [|o old]; simpl.
    + replace (chr_eqb x dot) with false; [reflexivity|].
      symmetry. apply chr_eqb_neq. intros ->. rewrite is_word_dot in Hx. discriminate.
    + simpl in Fo. apply andb_true_iff in Fo as [_ Fo].
      rewrite IH by assumption. apply andb_assoc.
Qed.

(** Within a word no boundary is met, so nothing matches. *)
Lemma sub_from_inside_word (old canon : str) : forall u prev t,
  word_before prev = true -> forallb is_word u = true ->
  sub_from (alias_pattern old) (fun _ => canon ++ [dot]) prev (u ++ t) 0
  = u ++ sub_from (alias_pattern old) (fun _ => canon ++ [dot])
                  (prev_after prev u) t 0.
Proof.
  induction u as [|c u IH]; intros prev t Hp Fu; [reflexivity|].
  simpl in Fu. apply andb_true_iff in Fu as [Hc Fu].
  cbn [app sub_from]. rewrite match_here_alias.
  replace (at_wordb prev (c :: u ++ t)) with false
    by (unfold at_wordb; simpl; rewrite Hp, Hc; reflexivity).
  cbn [andb]. f_equal. apply IH; [exact Hc | exact Fu].
Qed.

Lemma prev_after_last (prev : option ascii) (u : str) (c : ascii) :
  prev_after prev (u ++ [c]) = Some c.
Proof. unfold prev_after. rewrite fold_left_app. reflexivity. Qed.

Lemma prev_after_word (prev : option ascii) (u : str) :
  u <> [] -> forallb is_word u = true -> word_before (prev_after prev u) = true.
Proof.
  intros N F. destruct (exists_last N) as [u' [c ->]].
  rewrite prev_after_last. rewrite forallb_app in F.
  apply andb_true_iff in F as [_ F]. simpl in *.
  apply andb_true_iff in F as [F _]. exact F.
Qed.

Definition alias_sub (old canon : str) (prev : option ascii) (t : str) : str :=
  sub_from (alias_pattern old) (fun _ => canon ++ [dot]) prev t 0.

(** The effect of one substitution on a word. *)
Definition swap (old canon : str) (w : str) : str :=
  if str_eqb w old then canon else w.

Lemma alias_sub_miss (old canon : str) (prev : option ascii) (c : ascii) (t : str) :
  at_wordb prev (c :: t) && startswith (c :: t) (old ++ [dot]) = false ->
  alias_sub old canon prev (c :: t) = c :: alias_sub old canon (Some c) t.
Proof.
  intros H. unfold alias_sub. cbn [sub_from].
  rewrite match_here_alias, H. reflexivity.
Qed.

Lemma sub_from_hit (r : re) (repl : caps -> str) (prev : option ascii)
  (c : ascii) (u t : str) (cs : caps) :
  match_here r prev (c :: u ++ t) = Some (t, cs) ->
  sub_from r repl prev (c :: u ++ t) 0
  = repl cs ++ sub_from r repl (prev_after (Some c) u) t 0.
Proof.
  intros M. cbn [sub_from]. rewrite M. cbn [length]. rewrite length_app.
  replace (S (length u + length t) - length t) with (S (length u)) by lia.
  cbn [Nat.eqb Nat.sub]. rewrite Nat.sub_0_r, sub_from_skip. reflexivity.
Qed.

Lemma skipn_after (p t : str) : skipn (length p) (p ++ t) = t.
Proof. rewrite skipn_app, skipn_all, Nat.sub_diag. reflexivity. Qed.

Lemma alias_sub_hit (old canon : str) (prev : option ascii) (t : str) :
  old <> [] ->
  at_wordb prev (old ++ dot :: t) = true ->
  alias_sub old canon prev (old ++ dot :: t)
  = canon ++ [dot] ++ alias_sub old canon (Some dot) t.
Proof.
  intros N B. unfold alias_sub.
  assert (M : match_here (alias_pattern old) prev (old ++ dot :: t) = Some (t, [])).
  { rewrite match_here_alias, B.
    replace (old ++ dot :: t) with ((old ++ [dot]) ++ t)
      by (rewrite <- app_assoc; reflexivity).
    rewrite startswith_app. cbn [andb].
    replace (length old + 1) with (length (old ++ [dot]))
      by (rewrite length_app; reflexivity).
    rewrite skipn_after. reflexivity. }
  destruct old as [|o old]; [contradiction|].
  replace ((o :: old) ++ dot :: t) with (o :: (old ++ [dot]) ++ t) in *
    by (cbn [app]; rewrite <- app_assoc; reflexivity).
  rewrite (sub_from_hit _ _ _ _ _ _ _ M), prev_after_last, <- app_assoc.
  reflexivity.
Qed.

Lemma is_ident_word (c : ascii) : is_ident c = true -> is_word c = true.
Proof. intros H. unfold is_word. rewrite H. reflexivity. Qed.

Lemma identifier_word_run (a : str) : identifier a = true -> is_word_run a.
Proof.
  unfold identifier, is_word_run. rewrite andb_true_iff, negb_true_iff.
  intros [N F]. split; [apply str_eqb_neq; exact N|].
  apply forallb_forall. intros c Hc. rewrite forallb_forall in F.
  apply is_ident_word, F, Hc.
Qed.

Lemma detok_word_after (ts : list token) :
  wf_tokens ts -> starts_with_word ts = false -> word_after (detok ts) = false.
Proof.
  destruct ts as [|[w|c] ts]; simpl; intros K S;
    [reflexivity | discriminate | apply K].
Qed.

Lemma detok_starts_dot (ts : list token) :
  wf_tokens ts -> starts_with_word ts = false ->
  startswith (detok ts) [dot] = dot_next ts.
Proof.
  destruct ts as [|[w|c] ts]; simpl; intros K S;
    [reflexivity | discriminate | apply andb_true_r].
Qed.

(** One substitution, on the tokens of the text. *)
Lemma alias_sub_tokens (old canon : str) :
  is_word_run old ->
  forall ts prev,
  wf_tokens ts ->
  (starts_with_word ts = true -> word_before prev = false) ->
  alias_sub old canon prev (detok ts) = detok (retok (swap old canon) ts).
Proof.
  intros [No Fo].
  assert (Miss : forall prev c t, is_word c = false ->
            alias_sub old canon prev (c :: t) = c :: alias_sub old canon (Some c) t).
  { intros prev c t Hc. apply alias_sub_miss.
    destruct old as [|o old]; [contradiction|].
    simpl in Fo. apply andb_true_iff in Fo as [Ho _].
    apply andb_false_iff. right. simpl. apply andb_false_iff. left.
    apply chr_eqb_neq. intros ->. congruence. }
  induction ts as [|[w|c] rest IH]; intros prev K B.
  - unfold alias_sub. simpl. rewrite match_here_alias.
    replace (startswith [] (old ++ [dot])) with false
      by (destruct old; reflexivity).
    rewrite andb_false_r. reflexivity.
  - destruct K as [[Nw Fw] [S K]]. cbn [detok flat_map token_text retok].
    fold (detok rest). fold (detok (retok (swap old canon) rest)).
    pose proof (detok_word_after rest K S) as A.
    pose proof (detok_starts_dot rest K S) as D.
    assert (Bw : at_wordb prev (w ++ detok rest) = true).
    { unfold at_wordb. rewrite (B eq_refl).
      destruct w as [|x w]; [contradiction|]. simpl in *.
      apply andb_true_iff in Fw as [Hx _]. rewrite Hx. reflexivity. }
    destruct (str_eqb w old && dot_next rest) eqn:M.
    + apply andb_true_iff in M as [E Dn]. apply str_eqb_eq in E. subst w.
      rewrite Dn. unfold swap at 1. rewrite str_eqb_refl.
      destruct rest as [|[w'|c] rest']; try discriminate.
      simpl in Dn. apply chr_eqb_eq in Dn. subst c.
      cbn [detok flat_map token_text app retok] in *.
      fold (detok rest') in *. fold (detok (retok (swap old canon) rest')).
      rewrite alias_sub_hit by assumption.
      f_equal. cbn [app]. f_equal.
      specialize (IH None K (fun H => eq_refl)).
      rewrite Miss in IH by apply is_word_dot.
      injection IH as IH. exact IH.
    + assert (Sw : (if dot_next rest then swap old canon w else w) = w).
      { destruct (dot_next rest); [|reflexivity].
        rewrite andb_true_r in M. unfold swap. rewrite M. reflexivity. }
      rewrite Sw.
      destruct w as [|x w]; [contradiction|].
      simpl in Fw. apply andb_true_iff in Fw as [Hx Fw].
      cbn [app]. rewrite alias_sub_miss.
      * f_equal. unfold alias_sub. rewrite sub_from_inside_word by assumption.
        f_equal. apply IH; [exact K|]. rewrite S. discriminate.
      * change (x :: w ++ detok rest) with ((x :: w) ++ detok rest).
        rewrite startswith_word_run, D, M;
          [apply andb_false_r | simpl; rewrite Hx; exact Fw | exact Fo | exact A].
  - destruct K as [Hc K]. cbn [detok flat_map token_text retok app].
    rewrite Miss by exact Hc. f_equal.
    apply IH; [exact K|]. intros _. exact Hc.
Qed.

(** ** The whole pass, word by word *)

(** What one turn of the rewrite loop does to a word that a dot follows. *)
Definition word_step (w : str) (item : str * str) : str :=
  if str_eqb (fst item) (snd item) then w
  else if str_eqb w (fst item) then snd item else w.

(** What the loop does to it, the items taken in the order of the map. *)
Definition seq_redirect (redirects : dict str) (w : str) : str :=
  fold_left word_step redirects w.

(** What a single look-up in the map gives. *)
Definition lookup_redirect (redirects : dict str) (w : str) : str :=
  match dict_get redirects w with Some c => c | None => w end.

Definition word_items (redirects : dict str) : Prop :=
  Forall (fun item => is_word_run (fst item) /\ is_word_run (snd item)) redirects.

Lemma word_step_word_fun (item : str * str) :
  is_word_run (snd item) -> word_fun (fun w => word_step w item).
Proof.
  intros H w Hw. unfold word_step.
  destruct (str_eqb (fst item) (snd item)); [exact Hw|].
  destruct (str_eqb w (fst item)); assumption.
Qed.

Lemma rewrite_step_tokens (old canon : str) (ts : list token) :
  is_word_run old -> wf_tokens ts ->
  rewrite_step (detok ts) (old, canon)
  = detok (retok (fun w => word_step w (old, canon)) ts).
Proof.
  intros Ho K. unfold rewrite_step, word_step. cbn [fst snd].
  destruct (str_eqb old canon).
  - rewrite retok_id. reflexivity.
  - unfold re_sub. fold (alias_sub old canon None (detok ts)).
    rewrite alias_sub_tokens by (auto; reflexivity). reflexivity.
Qed.

Lemma apply_alias_rewrites_tokens : forall redirects ts,
  word_items redirects -> wf_tokens ts ->
  apply_alias_rewrites redirects (detok ts)
  = detok (retok (seq_redirect redirects) ts).
Proof.
  unfold apply_alias_rewrites, seq_redirect.
  induction redirects as [|[old canon] R IH]; intros ts W K; cbn [fold_left].
  - rewrite retok_id. reflexivity.
  - inversion W as [|? ? [Ho Hc] W']; subst. cbn [fst snd] in *.
    rewrite rewrite_step_tokens by assumption.
    rewrite IH; [|exact W'|].
    + rewrite retok_retok. reflexivity.
    + apply retok_wf; [|exact K].
      apply (word_step_word_fun (old, canon)). exact Hc.
Qed.

(** The pass on a text: every word that a dot follows goes through the
    items of the map in order. *)
Lemma apply_alias_rewrites_words (redirects : dict str) (text : str) :
  word_items redirects ->
  apply_alias_rewrites redirects text
  = detok (retok (seq_redirect redirects) (tok text)).
Proof.
  intros W. rewrite <- (detok_tok text) at 1.
  apply apply_alias_rewrites_tokens; [exact W | apply tok_wf].
Qed.

(** ** On a map the planner built, the pass is a single look-up

    Every value of the map is a canonical alias and so, once its target is
    done, a key; a key is never registered twice.  Hence no item can
    rewrite what an earlier item of the same pass produced. *)

Definition semi_closed (R : dict str) (c : str) : Prop :=
  forall x d, In (x, d) R -> In d (dict_keys R) \/ d = c.

Definition closed (R : dict str) : Prop :=
  forall x d, In (x, d) R -> In d (dict_keys R).

Definition seq_ok (R : dict str) : Prop :=
  forall w, seq_redirect R w = lookup_redirect R w.

Lemma seq_redirect_app (R : dict str) (item : str * str) (w : str) :
  seq_redirect (R ++ [item]) w = word_step (seq_redirect R w) item.
Proof. unfold seq_redirect. rewrite fold_left_app. reflexivity. Qed.

Lemma register_new_ok (R : dict str) (x c : str) :
  dict_get R x = None -> seq_ok R -> semi_closed R c ->
  seq_ok (R ++ [(x, c)]) /\ semi_closed (R ++ [(x, c)]) c.
Proof.
  intros G Q S. split.
  - intros w. rewrite seq_redirect_app, Q.
    unfold lookup_redirect. rewrite (dict_get_app_new _ _ _ _ G).
    unfold word_step. cbn [fst snd].
    destruct (dict_get R w) as [d|] eqn:E.
    + destruct (str_eqb x c) eqn:Exc; [reflexivity|].
      destruct (str_eqb d x) eqn:Edx; [|reflexivity].
      apply str_eqb_eq in Edx. subst d.
      apply dict_get_In in E. destruct (S _ _ E) as [I| ->].
      * apply dict_get_None in G. contradiction.
      * rewrite str_eqb_refl in Exc. discriminate.
    + rewrite (str_eqb_sym w x).
      destruct (str_eqb x w) eqn:Exw, (str_eqb x c) eqn:Exc; try reflexivity.
      apply str_eqb_eq in Exc, Exw. congruence.
  - intros y d H. apply in_app_or in H as [H|[[= <- <-]|[]]].
    + destruct (S _ _ H) as [I|E]; [left|right; exact E].
      unfold dict_keys. rewrite map_app. apply in_or_app. left. exact I.
    + right. reflexivity.
Qed.

Lemma register_fold_ok (c : str) : forall l R err,
  seq_ok R -> semi_closed R c -> word_items R ->
  is_word_run c -> (forall a, In a l -> is_word_run a) ->
  seq_ok (fst (fold_left (register c) l (R, err)))
  /\ semi_closed (fst (fold_left (register c) l (R, err))) c
  /\ word_items (fst (fold_left (register c) l (R, err))).
Proof.
  induction l as [|a l IH]; intros R err Q S W Hc Hl; cbn [fold_left].
  - auto.
  - destruct (register_cases c R err a) as [[G E]|[G E]].
    + destruct (register c (R, err) a) as [R' err']. simpl in E. subst R'.
      apply IH; auto. intros x Hx. apply Hl. right. exact Hx.
    + rewrite E. destruct (register_new_ok R a c G Q S) as [Q' S'].
      apply IH; auto.
      * apply Forall_app. split; [exact W|].
        constructor; [|constructor]. split; [apply Hl; left; reflexivity | exact Hc].
      * intros x Hx. apply Hl. right. exact Hx.
Qed.

Definition word_sets (items : dict pyset) : Prop :=
  forall t aliases a, In (t, aliases) items -> In a aliases -> is_word_run a.

Lemma plan_target_ok (iter : pyset -> list str) (p : Plan)
  (target : str) (aliases : pyset) :
  Permutation (iter aliases) aliases ->
  (forall a, In a aliases -> is_word_run a) ->
  closed (alias_redirects p) -> seq_ok (alias_redirects p) ->
  word_items (alias_redirects p) ->
  closed (alias_redirects (plan_target iter p (target, aliases)))
  /\ seq_ok (alias_redirects (plan_target iter p (target, aliases)))
  /\ word_items (alias_redirects (plan_target iter p (target, aliases))).
Proof.
  intros P Ha C Q W.
  destruct (min_by_key (iter aliases)) as [c|] eqn:M.
  - rewrite (plan_target_eq _ _ _ _ _ M). cbn [alias_redirects].
    destruct (min_by_key_spec _ _ M) as [Ic _].
    assert (Hi : forall a, In a (iter aliases) -> is_word_run a).
    { intros a H. apply Ha. eapply Permutation_in; [exact P | exact H]. }
    destruct (register_fold_ok c (iter aliases) (alias_redirects p) (plan_stderr p))
      as [Q' [S' W']]; auto.
    { intros x d H. left. eapply C. exact H. }
    split; [|split]; try assumption.
    intros x d H. destruct (S' _ _ H) as [I| ->]; [exact I|].
    apply dict_mem_In. unfold dict_mem.
    rewrite register_fold_get.
    destruct (dict_get (alias_redirects p) c); [reflexivity|].
    apply set_mem_In in Ic. rewrite Ic. reflexivity.
  - rewrite (plan_target_skip _ _ _ _ M). auto.
Qed.

Lemma planner_ok (iter : pyset -> list str) :
  (forall a, Permutation (iter a) a) ->
  forall items p,
  word_sets items ->
  closed (alias_redirects p) -> seq_ok (alias_redirects p) ->
  word_items (alias_redirects p) ->
  closed (alias_redirects (fold_left (plan_target iter) items p))
  /\ seq_ok (alias_redirects (fold_left (plan_target iter) items p))
  /\ word_items (alias_redirects (fold_left (plan_target iter) items p)).
Proof.
  intros P. induction items as [|[t al] items IH]; intros p Hs C Q W;
    cbn [fold_left]; [auto|].
  destruct (plan_target_ok iter p t al (P al)) as [C' [Q' W']]; auto.
  { intros a Ha. apply (Hs t al a); [left; reflexivity | exact Ha]. }
  apply IH; auto.
  intros t' al' a H. apply (Hs t' al' a). right. exact H.
Qed.

(** The aliases a run observes are identifiers. *)
Definition identifier_aliases (namespace_imports_map : dict (dict str)) : Prop :=
  forall a t, In (a, t) (observations namespace_imports_map) ->
              identifier a = true.

Lemma planned_redirects_ok (iter : pyset -> list str)
  (namespace_imports_map : dict (dict str)) :
  (forall a, Permutation (iter a) a) ->
  identifier_aliases namespace_imports_map ->
  closed (alias_redirects (analyze_imports_and_plan iter namespace_imports_map))
  /\ seq_ok (alias_redirects (analyze_imports_and_plan iter namespace_imports_map))
  /\ word_items (alias_redirects (analyze_imports_and_plan iter namespace_imports_map)).
Proof.
  intros P Hi. unfold analyze_imports_and_plan. apply planner_ok; auto.
  - intros t al a H Ha. apply identifier_word_run.
    destruct (target_to_aliases_spec namespace_imports_map) as [_ G].
    apply (Hi a t). apply (G t al H). exact Ha.
  - intros x d [].
  - intros w. reflexivity.
  - constructor.
Qed.

(** The pass with a planned map replaces each word that a dot follows by
    what the map gives for it. *)
Lemma planned_pass_is_lookup (iter : pyset -> list str)
  (namespace_imports_map : dict (dict str)) (text : str) :
  (forall a, Permutation (iter a) a) ->
  identifier_aliases namespace_imports_map ->
  apply_alias_rewrites
    (alias_redirects (analyze_imports_and_plan iter namespace_imports_map)) text
  = detok (retok (lookup_redirect
                    (alias_redirects
                       (analyze_imports_and_plan iter namespace_imports_map)))
                 (tok text)).
Proof.
  intros P Hi.
  destruct (planned_redirects_ok iter namespace_imports_map P Hi) as [_ [Q W]].
  rewrite apply_alias_rewrites_words by exact W.
  f_equal. apply retok_ext; [|apply tok_wf]. intros w _. apply Q.
Qed.

(** ** Occurrences of an alias in a text *)

Lemma tok_app_after : forall pre t,
  word_after t = false -> tok (pre ++ t) = tok pre ++ tok t.
Proof.
  induction pre as [|c pre IH]; intros t A; [reflexivity|].
  cbn [app tok]. rewrite (IH t A).
  destruct (is_word c); [|reflexivity].
  destruct (tok pre) as [|[w|d] ts]; try reflexivity.
  cbn [app]. rewrite <- tok_starts_with_word in A.
  destruct (tok t) as [|[w|d] ts]; [reflexivity | discriminate | reflexivity].
Qed.

Lemma tok_other (c : ascii) (t : str) :
  is_word c = false -> tok (c :: t) = Other c :: tok t.
Proof. intros H. cbn [tok]. rewrite H. reflexivity. Qed.

Lemma tok_word_run : forall x t,
  is_word_run x -> word_after t = false -> tok (x ++ t) = Word x :: tok t.
Proof.
  intros x t [N F] A. induction x as [|a x IH]; [contradiction|].
  simpl in F. apply andb_true_iff in F as [Ha F].
  cbn [app tok]. rewrite Ha.
  destruct x as [|b x].
  - cbn [app]. rewrite <- tok_starts_with_word in A.
    destruct (tok t) as [|[w|d] ts]; [reflexivity | discriminate | reflexivity].
  - rewrite IH; [reflexivity | discriminate | exact F].
Qed.

Lemma retok_after_other (f : str -> str) (c : ascii) : forall ts1 ts2,
  retok f (ts1 ++ Other c :: ts2) = retok f (ts1 ++ [Other c]) ++ retok f ts2.
Proof.
  induction ts1 as [|[w|d] ts1 IH]; intros ts2; cbn [app retok].
  - reflexivity.
  - rewrite IH. f_equal.
    destruct ts1 as [|[w'|d'] ts1]; reflexivity.
  - rewrite IH. reflexivity.
Qed.

Lemma detok_app (a b : list token) : detok (a ++ b) = detok a ++ detok b.
Proof. apply flat_map_app. Qed.

(** A text ends outside a word when it is empty or its last character is
    no word character. *)
Definition ends_outside_word (pre : str) : bool :=
  negb (word_before (prev_after None pre)).

Definition rewrite_words (f : str -> str) (text : str) : str :=
  detok (retok f (tok text)).

Lemma rewrite_words_dot (f : str -> str) (post : str) :
  rewrite_words f (dot :: post) = dot :: rewrite_words f post.
Proof. unfold rewrite_words. rewrite tok_other by apply is_word_dot. reflexivity. Qed.

(** An occurrence of a word followed by a dot, with a word boundary before
    it, is rewritten where it stands; what precedes and what follows it are
    rewritten as texts of their own. *)
Lemma rewrite_words_occurrence (f : str -> str) (pre x post : str) :
  is_word_run x -> ends_outside_word pre = true ->
  rewrite_words f (pre ++ x ++ [dot] ++ post)
  = rewrite_words f pre ++ f x ++ [dot] ++ rewrite_words f post.
Proof.
  intros Hx B. unfold rewrite_words.
  assert (T : tok (x ++ dot :: post) = Word x :: Other dot :: tok post).
  { rewrite tok_word_run by (auto; apply is_word_dot).
    rewrite tok_other by apply is_word_dot. reflexivity. }
  destruct pre as [|c0 pre0] eqn:E.
  - cbn [app]. rewrite T. reflexivity.
  - rewrite <- E in *. assert (N : pre <> []) by (rewrite E; discriminate).
    destruct (exists_last N) as [pre' [c ->]].
    unfold ends_outside_word in B. rewrite prev_after_last in B.
    apply negb_true_iff in B. simpl in B.
    rewrite <- app_assoc. cbn [app].
    rewrite tok_app_after by exact B.
    rewrite (tok_app_after pre' [c]) by (simpl; exact B).
    rewrite !(tok_other c) by exact B.
    rewrite T. cbn [tok].
    rewrite retok_after_other, detok_app. reflexivity.
Qed.

Lemma lookup_redirect_word_fun (R : dict str) :
  word_items R -> word_fun (lookup_redirect R).
Proof.
  intros W w Hw. unfold lookup_redirect.
  destruct (dict_get R w) as [c|] eqn:G; [|exact Hw].
  apply dict_get_In in G. unfold word_items in W. rewrite Forall_forall in W.
  apply (W _ G).
Qed.

Lemma planned_key_is_word (iter : pyset -> list str)
  (namespace_imports_map : dict (dict str)) (x c : str) :
  (forall a, Permutation (iter a) a) ->
  identifier_aliases namespace_imports_map ->
  dict_get (alias_redirects (analyze_imports_and_plan iter namespace_imports_map)) x
  = Some c ->
  is_word_run x /\ is_word_run c.
Proof.
  intros P Hi G.
  destruct (planned_redirects_ok iter namespace_imports_map P Hi) as [_ [_ W]].
  apply dict_get_In in G. unfold word_items in W. rewrite Forall_forall in W.
  apply (W _ G).
Qed.

(** The pass on an occurrence, for a map the planner built. *)
Lemma planned_pass_occurrence (iter : pyset -> list str)
  (namespace_imports_map : dict (dict str)) (observed canonical pre post : str) :
  (forall a, Permutation (iter a) a) ->
  identifier_aliases namespace_imports_map ->
  dict_get (alias_redirects (analyze_imports_and_plan iter namespace_imports_map))
           observed = Some canonical ->
  ends_outside_word pre = true ->
  apply_alias_rewrites
    (alias_redirects (analyze_imports_and_plan iter namespace_imports_map))
    (pre ++ observed ++ [dot] ++ post)
  = apply_alias_rewrites
      (alias_redirects (analyze_imports_and_plan iter namespace_imports_map)) pre
    ++ canonical ++ [dot]
    ++ apply_alias_rewrites
         (alias_redirects (analyze_imports_and_plan iter namespace_imports_map)) post.
Proof.
  intros P Hi G B.
  rewrite !(planned_pass_is_lookup iter namespace_imports_map _ P Hi).
  repeat match goal with
         | |- context [detok (retok ?f (tok ?t))] =>
             change (detok (retok f (tok t))) with (rewrite_words f t)
         end.
  destruct (planned_key_is_word _ _ _ _ P Hi G) as [Hx _].
  rewrite rewrite_words_occurrence by assumption.
  unfold lookup_redirect at 2. rewrite G. reflexivity.
Qed.

(** ** The final rewrite of the assembler *)

(** C3: the rewrite runs on the whole assembled text.  Wherever that text
    holds an observed alias of the redirect map followed by a dot, with a
    word boundary before the alias, be it in the license banner, in the
    harness, in a declaration or in a chunk, the text written has the
    canonical alias and a dot at that place, between the rewritten text
    before the occurrence and the rewritten text after it. *)
Theorem alias_rewrite_is_global (LICENSE_TEXT TEST_HARNESS_CODE : str)
  (iter : pyset -> list str) (namespace_imports_map : dict (dict str))
  (code_chunks : list str) (exports : dict pyset) (is_test_file : bool)
  (observed canonical pre post : str) :
  (forall a, Permutation (iter a) a) ->
  identifier_aliases namespace_imports_map ->
  dict_get (alias_redirects (analyze_imports_and_plan iter namespace_imports_map))
           observed = Some canonical ->
  assembled LICENSE_TEXT TEST_HARNESS_CODE iter code_chunks exports
    (canonical_to_target (analyze_imports_and_plan iter namespace_imports_map))
    is_test_file
  = pre ++ observed ++ [dot] ++ post ->
  ends_outside_word pre = true ->
  fst (assemble LICENSE_TEXT TEST_HARNESS_CODE iter code_chunks exports
         (canonical_to_target (analyze_imports_and_plan iter namespace_imports_map))
         (alias_redirects (analyze_imports_and_plan iter namespace_imports_map))
         is_test_file)
  = apply_alias_rewrites
      (alias_redirects (analyze_imports_and_plan iter namespace_imports_map)) pre
    ++ canonical ++ [dot]
    ++ apply_alias_rewrites
         (alias_redirects (analyze_imports_and_plan iter namespace_imports_map)) post.
Proof.
  intros P Hi G E B. unfold assemble. cbn [fst]. rewrite E.
  apply planned_pass_occurrence; assumption.
Qed.

Definition demo_license : str := s "/* longerAlias.md */" ++ [newline].
Definition demo_harness : str := s "log('longerAlias.x');" ++ [newline].

Lemma scenario_b_identifiers : identifier_aliases scenario_b.
Proof.
  intros a t H. vm_compute in H.
  destruct H as [H|[H|[]]]; injection H as <- _; reflexivity.
Qed.

Lemma alias_rewrite_is_global_witness :
  dict_get (alias_redirects (analyze_imports_and_plan (fun a => a) scenario_b))
           (s "longerAlias") = Some (s "short")
  /\ fst (assemble demo_license demo_harness (fun a => a)
            [s "longerAlias.foo();"] []
            (canonical_to_target (analyze_imports_and_plan (fun a => a) scenario_b))
            (alias_redirects (analyze_imports_and_plan (fun a => a) scenario_b))
            true)
     = apply_alias_rewrites
         (alias_redirects (analyze_imports_and_plan (fun a => a) scenario_b))
         (demo_license ++ [newline; newline]
          ++ concat (map (fun part => part ++ [newline])
                         (prefix_imports_of
                            (canonical_to_target
                               (analyze_imports_and_plan (fun a => a) scenario_b))))
          ++ s "log('")
       ++ s "short" ++ [dot]
       ++ apply_alias_rewrites
            (alias_redirects (analyze_imports_and_plan (fun a => a) scenario_b))
            (s "x');" ++ [newline; newline; newline] ++ s "longerAlias.foo();"
             ++ [newline; newline] ++ s "// --- Autorun Tests ---" ++ [newline]
             ++ s "runAllTestsAndReport();" ++ [newline])
  /\ apply_alias_rewrites
       (alias_redirects (analyze_imports_and_plan (fun a => a) scenario_b))
       (s "/* longerAlias.md */ log('longerAlias.x'); longerAlias.foo(); mylongerAlias.y")
     = s "/* short.md */ log('short.x'); short.foo(); mylongerAlias.y".
Proof.
  split; [vm_compute; reflexivity|]. split; [|vm_compute; reflexivity].
  apply (alias_rewrite_is_global demo_license demo_harness (fun a => a) scenario_b
           [s "longerAlias.foo();"] [] true (s "longerAlias") (s "short")).
  - intros a. apply Permutation_refl.
  - apply scenario_b_identifiers.
  - vm_compute. reflexivity.
  - vm_compute. reflexivity.
  - vm_compute. reflexivity.
Defined.

(** ** Idempotence of the rewrite *)

(** No alias string is observed for two different targets. *)
Definition no_collision (namespace_imports_map : dict (dict str)) : Prop :=
  forall a t1 t2,
    In (a, t1) (observations namespace_imports_map) ->
    In (a, t2) (observations namespace_imports_map) -> t1 = t2.

Definition disjoint_sets (items : dict pyset) : Prop :=
  forall t1 a1 t2 a2 x,
    In (t1, a1) items -> In (t2, a2) items -> In x a1 -> In x a2 -> t1 = t2.

Lemma first_canonical_source : forall items w c,
  first_canonical items w = Some c ->
  exists t aliases, In (t, aliases) items /\ In w aliases /\ In c aliases
                    /\ min_by_key aliases = Some c.
Proof.
  induction items as [|[t al] items IH]; intros w c H; simpl in H; [discriminate|].
  destruct (set_mem w al) eqn:M.
  - exists t, al. apply set_mem_In in M.
    destruct (min_by_key_spec _ _ H) as [I _]. auto 6 with datatypes.
  - destruct (IH _ _ H) as [t' [al' [I K]]].
    exists t', al'. split; [right; exact I | exact K].
Qed.

Lemma first_canonical_fixed : forall items w c,
  NoDup (dict_keys items) -> disjoint_sets items ->
  first_canonical items w = Some c -> first_canonical items c = Some c.
Proof.
  induction items as [|[t al] items IH]; intros w c N D H; simpl in *;
    [discriminate|].
  inversion N as [|? ? Nt N']; subst.
  destruct (set_mem w al) eqn:M.
  - destruct (min_by_key_spec _ _ H) as [I _].
    apply set_mem_In in I. rewrite I. exact H.
  - assert (D' : disjoint_sets items).
    { intros t1 a1 t2 a2 x H1 H2. apply (D t1 a1 t2 a2 x); right; assumption. }
    destruct (first_canonical_source _ _ _ H) as [t' [al' [I' [_ [Ic _]]]]].
    destruct (set_mem c al) eqn:Mc; [|eapply IH; eassumption].
    apply set_mem_In in Mc. exfalso. apply Nt.
    rewrite (D t al t' al' c); auto with datatypes.
    apply (in_map fst) in I'. exact I'.
Qed.

Lemma planned_lookup_idempotent (iter : pyset -> list str)
  (namespace_imports_map : dict (dict str)) (w : str) :
  (forall a, Permutation (iter a) a) ->
  no_collision namespace_imports_map ->
  lookup_redirect
    (alias_redirects (analyze_imports_and_plan iter namespace_imports_map))
    (lookup_redirect
       (alias_redirects (analyze_imports_and_plan iter namespace_imports_map)) w)
  = lookup_redirect
      (alias_redirects (analyze_imports_and_plan iter namespace_imports_map)) w.
Proof.
  intros P Hn. unfold lookup_redirect at 2 3.
  destruct (dict_get _ w) as [c|] eqn:G; [|unfold lookup_redirect; rewrite G; reflexivity].
  unfold analyze_imports_and_plan in *.
  rewrite (planner_lookup iter P) in G. cbn [empty_plan alias_redirects dict_get] in G.
  destruct (target_to_aliases_spec namespace_imports_map) as [[N _] S].
  apply first_canonical_fixed in G; [|exact N|].
  - unfold lookup_redirect. rewrite (planner_lookup iter P).
    cbn [empty_plan alias_redirects dict_get]. rewrite G. reflexivity.
  - intros t1 a1 t2 a2 x H1 H2 I1 I2.
    apply (Hn x); [apply (S _ _ H1) | apply (S _ _ H2)]; assumption.
Qed.

Lemma first_canonical_exists : forall items t aliases w,
  In (t, aliases) items -> In w aliases ->
  exists c, first_canonical items w = Some c.
Proof.
  induction items as [|[t' al'] items IH]; intros t al w H Hw; [contradiction|].
  simpl. destruct (set_mem w al') eqn:M.
  - apply set_mem_In in M. apply min_by_key_nonempty.
    intros ->. contradiction.
  - destruct H as [[= -> ->]|H]; [|eapply IH; eassumption].
    apply set_mem_In in Hw. congruence.
Qed.

(** Two files that use the alias [U] for two different modules, next to
    a longer alias of each. *)
Definition shared_alias : dict (dict str) :=
  [(s "/p/f1.ts", [(s "U", s "/p/one/util.ts"); (s "Util", s "/p/one/util.ts")]);
   (s "/p/f2.ts", [(s "U", s "/p/two/util.ts"); (s "Tools", s "/p/two/util.ts")])].

Lemma planned_value_has_entry (iter : pyset -> list str)
  (namespace_imports_map : dict (dict str)) (x c : str) :
  (forall a, Permutation (iter a) a) ->
  dict_get (alias_redirects (analyze_imports_and_plan iter namespace_imports_map)) x
  = Some c ->
  exists d,
    dict_get (alias_redirects (analyze_imports_and_plan iter namespace_imports_map)) c
    = Some d.
Proof.
  intros P G. unfold analyze_imports_and_plan in *.
  rewrite (planner_lookup iter P) in *.
  cbn [empty_plan alias_redirects dict_get] in *.
  destruct (first_canonical_source _ _ _ G) as [t [al [I [_ [Ic _]]]]].
  eapply first_canonical_exists; eassumption.
Qed.

Lemma planned_pass_alias_dot (iter : pyset -> list str)
  (namespace_imports_map : dict (dict str)) (x c : str) :
  (forall a, Permutation (iter a) a) ->
  identifier_aliases namespace_imports_map ->
  dict_get (alias_redirects (analyze_imports_and_plan iter namespace_imports_map)) x
  = Some c ->
  apply_alias_rewrites
    (alias_redirects (analyze_imports_and_plan iter namespace_imports_map))
    (x ++ [dot])
  = c ++ [dot].
Proof.
  intros P Hi G.
  pose proof (planned_pass_occurrence iter namespace_imports_map x c [] []
                P Hi G eq_refl) as E.
  rewrite (planned_pass_is_lookup iter namespace_imports_map [] P Hi) in E.
  exact E.
Qed.

(** C4, as the code has it: a second pass of the rewrite changes no text
    exactly when every value of the redirect map is redirected to itself;
    this is so whenever no alias string is observed for two different
    targets. *)
Theorem alias_rewrite_idempotent (iter : pyset -> list str)
  (namespace_imports_map : dict (dict str)) :
  (forall a, Permutation (iter a) a) ->
  identifier_aliases namespace_imports_map ->
  ((forall alias canonical,
       dict_get (alias_redirects
                   (analyze_imports_and_plan iter namespace_imports_map)) alias
       = Some canonical ->
       dict_get (alias_redirects
                   (analyze_imports_and_plan iter namespace_imports_map)) canonical
       = Some canonical)
   <-> (forall text,
          apply_alias_rewrites
            (alias_redirects (analyze_imports_and_plan iter namespace_imports_map))
            (apply_alias_rewrites
               (alias_redirects
                  (analyze_imports_and_plan iter namespace_imports_map)) text)
          = apply_alias_rewrites
              (alias_redirects
                 (analyze_imports_and_plan iter namespace_imports_map)) text))
  /\ (no_collision namespace_imports_map ->
      forall alias canonical,
        dict_get (alias_redirects
                    (analyze_imports_and_plan iter namespace_imports_map)) alias
        = Some canonical ->
        dict_get (alias_redirects
                    (analyze_imports_and_plan iter namespace_imports_map)) canonical
        = Some canonical).
Proof.
  intros P Hi. split; [split|].
  - intros F text.
    destruct (planned_redirects_ok iter namespace_imports_map P Hi) as [_ [Q W]].
    rewrite (planned_pass_is_lookup iter namespace_imports_map text P Hi).
    rewrite apply_alias_rewrites_tokens;
      [|exact W | apply retok_wf; [apply lookup_redirect_word_fun, W | apply tok_wf]].
    rewrite retok_retok. f_equal. apply retok_ext; [|apply tok_wf].
    intros w _. rewrite Q. unfold lookup_redirect at 2 3.
    destruct (dict_get _ w) as [c|] eqn:G; unfold lookup_redirect.
    + rewrite (F _ _ G). reflexivity.
    + rewrite G. reflexivity.
  - intros Idem x c G.
    destruct (planned_value_has_entry iter namespace_imports_map x c P G) as [d D].
    specialize (Idem (x ++ [dot])).
    rewrite (planned_pass_alias_dot iter namespace_imports_map x c P Hi G) in Idem.
    rewrite (planned_pass_alias_dot iter namespace_imports_map c d P Hi D) in Idem.
    apply app_inv_tail in Idem. rewrite D, Idem. reflexivity.
  - intros Hn x c G.
    pose proof (planned_lookup_idempotent iter namespace_imports_map x P Hn) as L.
    unfold lookup_redirect at 2 3 in L. rewrite G in L.
    destruct (planned_value_has_entry iter namespace_imports_map x c P G) as [d D].
    unfold lookup_redirect in L. rewrite D in L. rewrite D, L. reflexivity.
Qed.

Lemma shared_alias_identifiers : identifier_aliases shared_alias.
Proof.
  intros a t H. vm_compute in H.
  destruct H as [H|[H|[H|[H|[]]]]]; injection H as <- _; reflexivity.
Qed.

Lemma shared_alias_plan :
  alias_redirects (analyze_imports_and_plan (fun a => a) shared_alias)
  = [(s "U", s "U"); (s "Util", s "U"); (s "Tools", s "U")].
Proof. vm_compute. reflexivity. Qed.

Lemma shared_alias_fixed (alias canonical : str) :
  dict_get (alias_redirects (analyze_imports_and_plan (fun a => a) shared_alias))
           alias = Some canonical ->
  dict_get (alias_redirects (analyze_imports_and_plan (fun a => a) shared_alias))
           canonical = Some canonical.
Proof.
  rewrite shared_alias_plan. intros G. apply dict_get_In in G.
  destruct G as [G|[G|[G|[]]]]; injection G as _ <-; reflexivity.
Qed.

Lemma alias_rewrite_idempotent_witness :
  In (s "U", s "/p/one/util.ts") (observations shared_alias)
  /\ In (s "U", s "/p/two/util.ts") (observations shared_alias)
  /\ apply_alias_rewrites
       (alias_redirects (analyze_imports_and_plan (fun a => a) shared_alias))
       (s "Util.f(Tools.g, U.h)") = s "U.f(U.g, U.h)"
  /\ apply_alias_rewrites
       (alias_redirects (analyze_imports_and_plan (fun a => a) shared_alias))
       (apply_alias_rewrites
          (alias_redirects (analyze_imports_and_plan (fun a => a) shared_alias))
          (s "Util.f(Tools.g, U.h)"))
     = apply_alias_rewrites
         (alias_redirects (analyze_imports_and_plan (fun a => a) shared_alias))
         (s "Util.f(Tools.g, U.h)").
Proof.
  split; [vm_compute; auto|]. split; [vm_compute; auto|].
  split; [vm_compute; reflexivity|].
  apply (proj1 (proj1 (alias_rewrite_idempotent (fun a => a) shared_alias
                         (fun a => Permutation_refl a) shared_alias_identifiers))).
  exact shared_alias_fixed.
Defined.

(** C4 as stated fails: with the map planned for [alias_collision] the
    first pass turns [AA.] into [B.], and a second pass turns that into
    [A.]. *)
Lemma alias_rewrite_not_idempotent :
  apply_alias_rewrites
    (alias_redirects (analyze_imports_and_plan (fun a => a) alias_collision))
    (s "AA.x") = s "B.x"
  /\ apply_alias_rewrites
       (alias_redirects (analyze_imports_and_plan (fun a => a) alias_collision))
       (apply_alias_rewrites
          (alias_redirects (analyze_imports_and_plan (fun a => a) alias_collision))
          (s "AA.x")) = s "A.x".
Proof. split; vm_compute; reflexivity. Qed.

(** ** The alias objects of the main bundle *)

(** A line of the form [export const <alias> = { ... };]. *)
Definition is_decl_for (alias : str) (line : str) : bool :=
  startswith line (s "export const " ++ alias ++ s " = { ")
  && endswith line (s " };").

Definition decl_of (iter : pyset -> list str) (exports : dict pyset)
  (c2t : dict str) (alias : str) : list str :=
  match dict_get c2t alias with
  | None => []
  | Some target_path =>
      match sorted (iter (get_set exports target_path)) with
      | [] => []
      | symbols => [const_decl alias symbols]
      end
  end.

Definition warn_of (iter : pyset -> list str) (exports : dict pyset)
  (c2t : dict str) (alias : str) : list str :=
  match dict_get c2t alias with
  | None => []
  | Some target_path =>
      match sorted (iter (get_set exports target_path)) with
      | [] => [no_exports_warning alias]
      | _ => []
      end
  end.

Lemma declare_alias_step (iter : pyset -> list str) (exports : dict pyset)
  (c2t : dict str) (decls out : list str) (a : str) :
  declare_alias iter exports c2t (decls, out) a
  = (decls ++ decl_of iter exports c2t a, out ++ warn_of iter exports c2t a).
Proof.
  unfold declare_alias, decl_of, warn_of.
  destruct (dict_get c2t a) as [t|]; [|rewrite !app_nil_r; reflexivity].
  destruct (sorted (iter (get_set exports t))); rewrite !app_nil_r; reflexivity.
Qed.

Lemma declare_alias_fold (iter : pyset -> list str) (exports : dict pyset)
  (c2t : dict str) : forall l decls out,
  fold_left (declare_alias iter exports c2t) l (decls, out)
  = (decls ++ flat_map (decl_of iter exports c2t) l,
     out ++ flat_map (warn_of iter exports c2t) l).
Proof.
  induction l as [|a l IH]; intros decls out; cbn [fold_left flat_map].
  - rewrite !app_nil_r. reflexivity.
  - rewrite declare_alias_step, IH, <- !app_assoc. reflexivity.
Qed.

Definition decl_header : str := s "// --- Exported Namespace Alias Objects ---".
Definition decl_footer : str :=
  s "// --- End Exported Namespace Alias Objects ---" ++ [newline].

Lemma prefix_declarations_eq (iter : pyset -> list str) (exports : dict pyset)
  (c2t : dict str) :
  dict_keys c2t <> [] ->
  prefix_declarations_of iter exports c2t
  = (decl_header :: flat_map (decl_of iter exports c2t) (sorted (dict_keys c2t))
       ++ [decl_footer],
     flat_map (warn_of iter exports c2t) (sorted (dict_keys c2t))).
Proof.
  intros N. unfold prefix_declarations_of.
  destruct (sorted (dict_keys c2t)) as [|k ks] eqn:E.
  - exfalso. apply N. apply Permutation_nil. rewrite <- E.
    apply sorted_perm.
  - rewrite declare_alias_fold. reflexivity.
Qed.

Lemma startswith_app_cancel : forall p x y,
  startswith (p ++ x) (p ++ y) = startswith x y.
Proof.
  induction p as [|c p IH]; intros x y; simpl; [reflexivity|].
  rewrite chr_eqb_refl. apply IH.
Qed.

Lemma is_ident_space : is_ident " "%char = false.
Proof. reflexivity. Qed.

(** Two identifiers, each followed by a space, agree as prefixes only when
    they are equal. *)
Lemma startswith_ident_run : forall a' a r q,
  forallb is_ident a' = true -> forallb is_ident a = true ->
  startswith (a' ++ " "%char :: r) (a ++ " "%char :: q)
  = str_eqb a' a && startswith r q.
Proof.
  induction a' as [|x a' IH]; intros a r q F' F.
  - destruct a as [|y a]; simpl; [reflexivity|].
    simpl in F. apply andb_true_iff in F as [Hy _].
    replace (chr_eqb " " y) with false; [reflexivity|].
    symmetry. apply chr_eqb_neq. intros <-. rewrite is_ident_space in Hy.
    discriminate.
  - simpl in F'. apply andb_true_iff in F' as [Hx F'].
    destruct a as [|y a]; simpl.
    + replace (chr_eqb x " ") with false; [reflexivity|].
      symmetry. apply chr_eqb_neq. intros ->. rewrite is_ident_space in Hx.
      discriminate.
    + simpl in F. apply andb_true_iff in F as [_ F].
      rewrite IH by assumption. apply andb_assoc.
Qed.

Lemma identifier_chars (a : str) : identifier a = true -> forallb is_ident a = true.
Proof. unfold identifier. rewrite andb_true_iff. tauto. Qed.

Lemma endswith_app (a b : str) : endswith (a ++ b) b = true.
Proof. unfold endswith. rewrite rev_app_distr. apply startswith_app. Qed.

Lemma is_decl_for_const_decl (a a' : str) (symbols : list str) :
  identifier a = true -> identifier a' = true ->
  is_decl_for a (const_decl a' symbols) = str_eqb a' a.
Proof.
  intros Ha Ha'. unfold is_decl_for, const_decl.
  rewrite startswith_app_cancel.
  change (s " = { ") with (" "%char :: s "= { ").
  change ((" "%char :: s "= { ") ++ join (s ", ") symbols ++ s " };")
    with (" "%char :: s "= { " ++ join (s ", ") symbols ++ s " };").
  rewrite startswith_ident_run by (apply identifier_chars; assumption).
  replace (startswith (s "= { " ++ join (s ", ") symbols ++ s " };") (s "= { "))
    with true by (symmetry; apply startswith_app).
  replace (endswith _ (s " };")) with true.
  - rewrite !andb_true_r. reflexivity.
  - symmetry.
    replace (s "export const " ++ a' ++ " "%char :: s "= { "
             ++ join (s ", ") symbols ++ s " };")
      with ((s "export const " ++ a' ++ " "%char :: s "= { "
             ++ join (s ", ") symbols) ++ s " };").
    + apply endswith_app.
    + rewrite <- !app_assoc. cbn [app]. rewrite <- !app_assoc. reflexivity.
Qed.

Lemma filter_flat_map_one {A B} (P : B -> bool) (f : A -> list B) (a : A) :
  forall l,
  NoDup l -> In a l ->
  (forall x, In x l -> x <> a -> forall y, In y (f x) -> P y = false) ->
  (forall y, In y (f a) -> P y = true) ->
  filter P (flat_map f l) = f a.
Proof.
  assert (None : forall l, (forall x, In x l -> forall y, In y (f x) -> P y = false) ->
                           filter P (flat_map f l) = []).
  { induction l as [|x l IH]; intros H; simpl; [reflexivity|].
    rewrite filter_app, IH by (intros; eapply H; [right|]; eassumption).
    rewrite app_nil_r.
    assert (Hx : forall y, In y (f x) -> P y = false)
      by (intros; eapply H; [left; reflexivity | eassumption]).
    induction (f x) as [|y ys IHy]; simpl; [reflexivity|].
    rewrite (Hx y) by (left; reflexivity). apply IHy.
    intros; apply Hx; right; assumption. }
  assert (All : forall ys, (forall y, In y ys -> P y = true) -> filter P ys = ys).
  { induction ys as [|y ys IHy]; intros H; simpl; [reflexivity|].
    rewrite (H y) by (left; reflexivity). f_equal. apply IHy.
    intros; apply H; right; assumption. }
  induction l as [|x l IH]; intros N I Hn Ha; [contradiction|].
  inversion N as [|? ? Nx N']; subst. simpl. rewrite filter_app.
  destruct I as [->|I].
  - rewrite All by exact Ha. rewrite None; [apply app_nil_r|].
    intros x Hx. apply Hn; [right; exact Hx|]. intros ->. contradiction.
  - rewrite IH; auto.
    + assert (Hx : forall y, In y (f x) -> P y = false).
      { apply Hn; [left; reflexivity|]. intros ->. contradiction. }
      clear - Hx. induction (f x) as [|y ys IHy]; simpl; [reflexivity|].
      rewrite (Hx y) by (left; reflexivity). apply IHy.
      intros; apply Hx; right; assumption.
    + intros z Hz. apply Hn. right. exact Hz.
Qed.

(** The declarations emitted for one canonical alias: one, with the sorted
    names recorded for its target, or none and a warning. *)
Lemma declarations_for_alias (iter : pyset -> list str) (exports : dict pyset)
  (c2t : dict str) (alias target : str) :
  (forall a, Permutation (iter a) a) ->
  NoDup (dict_keys c2t) ->
  (forall k, In k (dict_keys c2t) -> identifier k = true) ->
  dict_get c2t alias = Some target ->
  filter (is_decl_for alias) (fst (prefix_declarations_of iter exports c2t))
  = match sorted (get_set exports target) with
    | [] => []
    | symbols => [const_decl alias symbols]
    end
  /\ (sorted (get_set exports target) = [] ->
      In (no_exports_warning alias) (snd (prefix_declarations_of iter exports c2t))).
Proof.
  intros P N Hid G.
  assert (Ik : In alias (dict_keys c2t)) by (eapply dict_get_Some_key; exact G).
  assert (Is : In alias (sorted (dict_keys c2t))) by (apply sorted_In; exact Ik).
  assert (E : sorted (iter (get_set exports target)) = sorted (get_set exports target))
    by (apply sorted_ext, P).
  rewrite prefix_declarations_eq by (intros Z; rewrite Z in Ik; contradiction).
  cbn [fst snd]. split.
  - cbn [filter]. replace (is_decl_for alias decl_header) with false by reflexivity.
    rewrite filter_app. cbn [filter].
    replace (is_decl_for alias decl_footer) with false by reflexivity.
    rewrite app_nil_r.
    rewrite (filter_flat_map_one _ _ alias).
    + unfold decl_of. rewrite G, E. reflexivity.
    + eapply Permutation_NoDup; [apply Permutation_sym, sorted_perm | exact N].
    + exact Is.
    + intros x Hx Nx y Hy. unfold decl_of in Hy.
      destruct (dict_get c2t x) as [tx|]; [|contradiction].
      destruct (sorted (iter (get_set exports tx))) as [|n ns]; [contradiction|].
      destruct Hy as [<-|[]].
      rewrite is_decl_for_const_decl;
        [apply str_eqb_neq; exact Nx | apply Hid; exact Ik
         | apply Hid; apply sorted_In; exact Hx].
    + intros y Hy. unfold decl_of in Hy. rewrite G in Hy.
      destruct (sorted (iter (get_set exports target))) as [|n ns];
        [contradiction|].
      destruct Hy as [<-|[]].
      rewrite is_decl_for_const_decl by (apply Hid; exact Ik).
      apply str_eqb_refl.
  - intros Z. apply in_flat_map. exists alias. split; [exact Is|].
    unfold warn_of. rewrite G, E, Z. left. reflexivity.
Qed.

(** ** A whole transform pass *)

(** The sets of this run hand out exactly their members. *)
Definition world_ok (w : World) : Prop :=
  forall a, Permutation (set_iter w a) a.

(** The maps after a pass over [files]; the chunks play no part in them. *)
Definition maps_of (w : World) (base : str) (files : list str) (m : Maps) : Maps :=
  snd (fold_left (process_file w base) files ([], m)).

Definition file_chunk (w : World) (base : str) (file_path : str) : list str :=
  match read_text w file_path with
  | inl content => chunks_after [] (relpath (getcwd w) file_path base) content
  | inr _ => []
  end.

Lemma process_file_snd (w : World) (base : str) (c1 c2 : list str) (m : Maps)
  (file_path : str) :
  snd (process_file w base (c1, m) file_path)
  = snd (process_file w base (c2, m) file_path).
Proof.
  unfold process_file. destruct (read_text w file_path); [|reflexivity].
  destruct (resolve_imports _ _ _).
  destruct (strip (transform _)); reflexivity.
Qed.

Lemma process_file_fst (w : World) (base : str) (c : list str) (m : Maps)
  (file_path : str) :
  fst (process_file w base (c, m) file_path) = c ++ file_chunk w base file_path.
Proof.
  unfold process_file, file_chunk, chunks_after.
  destruct (read_text w file_path); [|symmetry; apply app_nil_r].
  destruct (resolve_imports _ _ _).
  destruct (strip (transform _)); [symmetry; apply app_nil_r | reflexivity].
Qed.

Lemma process_fold (w : World) (base : str) : forall files c m,
  fold_left (process_file w base) files (c, m)
  = (c ++ flat_map (file_chunk w base) files, maps_of w base files m).
Proof.
  unfold maps_of.
  induction files as [|f files IH]; intros c m; cbn [fold_left flat_map].
  - rewrite app_nil_r. reflexivity.
  - destruct (process_file w base (c, m) f) as [c' m'] eqn:E.
    destruct (process_file w base ([], m) f) as [c0 m0] eqn:E0.
    assert (m' = m0).
    { pose proof (process_file_snd w base c [] m f) as H.
      rewrite E, E0 in H. exact H. }
    subst m0. rewrite (IH c' m'), (IH c0 m').
    pose proof (process_file_fst w base c m f) as H. rewrite E in H.
    simpl in H. subst c'. rewrite <- app_assoc. reflexivity.
Qed.

Lemma process_and_collect_eq (w : World) (files : list str) (base : str) (m : Maps) :
  process_and_collect w files base m
  = (flat_map (file_chunk w base) files, maps_of w base files m).
Proof. unfold process_and_collect. apply process_fold. Qed.

Lemma maps_of_cons (w : World) (base : str) (f : str) (files : list str) (m : Maps) :
  maps_of w base (f :: files) m
  = maps_of w base files (snd (process_file w base ([], m) f)).
Proof.
  unfold maps_of at 1. cbn [fold_left].
  destruct (process_file w base ([], m) f) as [c m'].
  rewrite process_fold. reflexivity.
Qed.

Lemma maps_of_app (w : World) (base : str) : forall l1 l2 m,
  maps_of w base (l1 ++ l2) m = maps_of w base l2 (maps_of w base l1 m).
Proof.
  induction l1 as [|f l1 IH]; intros l2 m; [reflexivity|].
  cbn [app]. rewrite !maps_of_cons. apply IH.
Qed.

(** The names recorded for a path are the names captured from the original
    content of the files with that path. *)
Lemma exports_after_get (w : World) (m : Maps) (abs_file_path content t name : str) :
  world_ok w ->
  In name (get_set (exports_after w m abs_file_path content) t) <->
  In name (get_set (exports_map m) t)
  \/ (abs_file_path = t /\ In name (capture_exports content)).
Proof.
  intros P. unfold exports_after.
  destruct (capture_exports content) as [|x cur] eqn:C.
  - simpl. tauto.
  - unfold get_set at 1.
    destruct (list_eq_dec ascii_dec abs_file_path t) as [->|N].
    + rewrite dict_get_set_same, set_update_In.
      split; intros [H|H]; auto.
      * right. split; [reflexivity|].
        eapply Permutation_in; [apply P | exact H].
      * right. destruct H as [_ H].
        eapply Permutation_in; [apply Permutation_sym, P | exact H].
    + rewrite dict_get_set_other by exact N. fold (get_set (exports_map m) t).
      split; [auto | intros [H|[E _]]; [exact H | contradiction]].
Qed.

Lemma exports_of_pass (w : World) (base : str) :
  world_ok w ->
  forall files m t name,
  In name (get_set (exports_map (maps_of w base files m)) t) <->
  In name (get_set (exports_map m) t)
  \/ exists f content,
       In f files /\ abspath (getcwd w) f = t
       /\ read_text w f = inl content /\ In name (capture_exports content).
Proof.
  intros P. induction files as [|f files IH]; intros m t name.
  - unfold maps_of. simpl. split; [auto | intros [H|[? [? [[] _]]]]; exact H].
  - rewrite maps_of_cons, IH.
    destruct (read_text w f) as [content|e] eqn:R.
    + destruct (process_file_read w base [] m f content R) as [_ [He _]].
      rewrite He, exports_after_get by exact P. split.
      * intros [[H|[E H]]|[f' [c' [I K]]]]; auto.
        -- right. exists f, content. auto with datatypes.
        -- right. exists f', c'. auto with datatypes.
      * intros [H|[f' [c' [[<-|I] [E [R' H]]]]]]; auto.
        -- rewrite R in R'. injection R' as <-. auto.
        -- right. exists f', c'. auto.
    + destruct (process_file_unreadable w base [] m f e R) as [_ [He _]].
      rewrite He. split.
      * intros [H|[f' [c' [I K]]]]; auto.
        right. exists f', c'. auto with datatypes.
      * intros [H|[f' [c' [[<-|I] [E [R' H]]]]]]; auto.
        -- rewrite R in R'. discriminate.
        -- right. exists f', c'. auto.
Qed.

(** The aliases a pass records are identifiers. *)
Definition ids_ok (nim : dict (dict str)) : Prop :=
  forall src imports a t,
    In (src, imports) nim -> In (a, t) imports -> identifier a = true.

Lemma resolve_fold_In (w : World) (abs_file_path : str) : forall ns acc a t,
  In (a, t) (fst (fold_left (resolve_step w abs_file_path) ns acc)) ->
  In (a, t) (fst acc) \/ exists path, In (a, path) ns.
Proof.
  induction ns as [|[alias path] ns IH]; intros acc a t H; cbn [fold_left] in H.
  - auto.
  - apply IH in H as [H|[p I]]; [|right; exists p; right; exact I].
    unfold resolve_step in H. destruct acc as [cur err].
    destruct (resolve_relative_path w abs_file_path path) as [[t0|] warn];
      simpl in H; [|auto].
    apply dict_set_In in H as [[-> ->]|H]; [|auto].
    right. exists path. left. reflexivity.
Qed.

Lemma ns_map_after_ids (w : World) (m : Maps) (abs_file_path content : str) :
  ids_ok (namespace_imports_map m) ->
  ids_ok (ns_map_after w m abs_file_path content).
Proof.
  intros K. unfold ns_map_after.
  destruct (current_ns_imports_of w abs_file_path content) as [|x cur] eqn:C;
    [exact K|].
  intros src imports a t H I.
  apply dict_set_In in H as [[-> ->]|H]; [|eapply K; eassumption].
  rewrite <- C in I. unfold current_ns_imports_of, resolve_imports in I.
  apply resolve_fold_In in I as [[]|[path I]].
  apply (namespace_imports_spec _ _ _ I).
Qed.

Lemma ids_of_pass (w : World) (base : str) : forall files m,
  ids_ok (namespace_imports_map m) ->
  ids_ok (namespace_imports_map (maps_of w base files m)).
Proof.
  induction files as [|f files IH]; intros m K; [exact K|].
  rewrite maps_of_cons. apply IH.
  destruct (read_text w f) as [content|e] eqn:R.
  - destruct (process_file_read w base [] m f content R) as [_ [_ Hn]].
    rewrite Hn. apply ns_map_after_ids. exact K.
  - destruct (process_file_unreadable w base [] m f e R) as [_ [_ Hn]].
    rewrite Hn. exact K.
Qed.

Lemma ids_ok_identifier_aliases (nim : dict (dict str)) :
  ids_ok nim -> identifier_aliases nim.
Proof.
  intros K a t H. unfold observations in H.
  apply in_flat_map in H as [[src imports] [H I]]. eapply K; eassumption.
Qed.

(** ** The canonical-alias map of a run *)

Lemma dict_key_get {V} (k : str) (d : dict V) :
  In k (dict_keys d) -> exists v, dict_get d k = Some v.
Proof.
  intros H. destruct (dict_get d k) as [v|] eqn:G; [exists v; reflexivity|].
  apply dict_get_None in G. contradiction.
Qed.

Lemma canonical_keys_NoDup (iter : pyset -> list str) : forall items p,
  NoDup (dict_keys (canonical_to_target p)) ->
  NoDup (dict_keys (canonical_to_target (fold_left (plan_target iter) items p))).
Proof.
  induction items as [|[t al] items IH]; intros p N; cbn [fold_left]; [exact N|].
  apply IH. destruct (min_by_key (iter al)) as [c|] eqn:M.
  - rewrite (plan_target_eq _ _ _ _ _ M). simpl. apply dict_set_NoDup, N.
  - rewrite (plan_target_skip _ _ _ _ M). exact N.
Qed.

Lemma planned_canonical_keys (iter : pyset -> list str)
  (namespace_imports_map : dict (dict str)) :
  (forall a, Permutation (iter a) a) ->
  identifier_aliases namespace_imports_map ->
  NoDup (dict_keys (canonical_to_target
                      (analyze_imports_and_plan iter namespace_imports_map)))
  /\ forall k,
       In k (dict_keys (canonical_to_target
                          (analyze_imports_and_plan iter namespace_imports_map))) ->
       identifier k = true.
Proof.
  intros P Hi. unfold analyze_imports_and_plan. split.
  - apply canonical_keys_NoDup. constructor.
  - intros k H. apply dict_key_get in H as [t G].
    apply canonical_key_origin in G as [G|[al [I M]]]; [discriminate|].
    destruct (min_by_key_spec _ _ M) as [Ik _].
    apply (Permutation_in _ (P al)) in Ik.
    destruct (target_to_aliases_spec namespace_imports_map) as [_ S].
    apply (Hi k t). apply (S _ _ I). exact Ik.
Qed.

Definition sets_nodup (d : dict pyset) : Prop :=
  forall t a, In (t, a) d -> NoDup a.

Lemma get_set_NoDup (d : dict pyset) (t : str) : sets_nodup d -> NoDup (get_set d t).
Proof.
  intros K. unfold get_set. destruct (dict_get d t) as [a|] eqn:G; [|constructor].
  apply dict_get_In in G. eapply K. exact G.
Qed.

Lemma exports_nodup_pass (w : World) (base : str) : forall files m,
  sets_nodup (exports_map m) ->
  sets_nodup (exports_map (maps_of w base files m)).
Proof.
  induction files as [|f files IH]; intros m K; [exact K|].
  rewrite maps_of_cons. apply IH.
  destruct (read_text w f) as [content|e] eqn:R.
  - destruct (process_file_read w base [] m f content R) as [_ [He _]].
    rewrite He. unfold exports_after.
    destruct (capture_exports content) as [|x cur]; [exact K|].
    intros t a H. apply dict_set_In in H as [[-> ->]|H]; [|eapply K; exact H].
    apply set_update_NoDup, get_set_NoDup, K.
  - destruct (process_file_unreadable w base [] m f e R) as [_ [He _]].
    rewrite He. exact K.
Qed.

Lemma assembled_main (LICENSE_TEXT TEST_HARNESS_CODE : str)
  (iter : pyset -> list str) (code_chunks : list str) (exports : dict pyset)
  (c2t : dict str) :
  assembled LICENSE_TEXT TEST_HARNESS_CODE iter code_chunks exports c2t false
  = LICENSE_TEXT ++ [newline; newline]
    ++ concat (map (fun part => part ++ [newline])
                   (fst (prefix_declarations_of iter exports c2t)))
    ++ concat code_chunks.
Proof.
  unfold assembled. cbn [concat app].
  rewrite concat_app. reflexivity.
Qed.

(** Scenario A of the specification: [a.ts] exports [foo] (and [bar]);
    [b.ts] imports it as [A]. *)
Definition scenario_a_world : World :=
  {| getcwd := s "/p";
     isfile := fun p => existsb (str_eqb p) [s "/p/a.ts"; s "/p/b.ts"];
     isdir := fun _ => false;
     read_text := fun p =>
       if str_eqb p (s "/p/a.ts")
       then inl (lines ["export function foo() { return 1; }";
                        "export const bar = 2;"]%string)
       else if str_eqb p (s "/p/b.ts")
       then inl (lines ["import * as A from './a';"; "A.foo();"]%string)
       else inr (s "No such file");
     set_iter := fun a => a |}.

(** ** Determinism

    The same tree, enumerated in another order: the files of a directory
    permuted, its sub-directories permuted, and the same below. *)




Definition walk_paths (pick : str -> bool) (root : str) (t : tree) : list str :=
  paths_where pick (os_walk keep_dir root t).

Lemma paths_where_app (pick : str -> bool) (a b : list (str * list str)) :
  paths_where pick (a ++ b) = paths_where pick a ++ paths_where pick b.
Proof. apply flat_map_app. Qed.

Lemma paths_where_flat_map {A} (pick : str -> bool)
  (g : A -> list (str * list str)) : forall l,
  paths_where pick (flat_map g l) = flat_map (fun x => paths_where pick (g x)) l.
Proof.
  induction l as [|x l IH]; simpl; [reflexivity|].
  rewrite paths_where_app, IH. reflexivity.
Qed.

Definition below (pick : str -> bool) (root : str) (d : str * tree) : list str :=
  if keep_dir (fst d) then walk_paths pick (path_join root (fst d)) (snd d) else [].

Lemma walk_paths_unfold (pick : str -> bool) (root : str) dirs files :
  walk_paths pick root (Dir dirs files)
  = map (path_join root) (filter pick files) ++ flat_map (below pick root) dirs.
Proof.
  unfold walk_paths. rewrite os_walk_unfold.
  change (paths_where pick ((root, files) :: ?l))
    with (map (path_join root) (filter pick files) ++ paths_where pick l).
  rewrite paths_where_flat_map. f_equal.
  apply flat_map_ext. intros [d sub]. unfold below. simpl.
  destruct (keep_dir d); reflexivity.
Qed.




(** The same file system, with the sets iterated in another order. *)
Definition with_iter (w : World) (iter : pyset -> list str) : World :=
  {| getcwd := getcwd w; isfile := isfile w; isdir := isdir w;
     read_text := read_text w; set_iter := iter |}.









Lemma file_chunk_with_iter (w : World) (iter : pyset -> list str) (base f : str) :
  file_chunk (with_iter w iter) base f = file_chunk w base f.
Proof. reflexivity. Qed.

(** The canonical-alias map does not depend on the iteration order. *)
Definition canonical_step (acc : dict str) (item : str * pyset) : dict str :=
  match min_by_key (snd item) with
  | Some c => dict_set acc c (fst item)
  | None => acc
  end.

Lemma planned_canonical_map (iter : pyset -> list str) :
  (forall a, Permutation (iter a) a) ->
  forall items p,
  canonical_to_target (fold_left (plan_target iter) items p)
  = fold_left canonical_step items (canonical_to_target p).
Proof.
  intros P. induction items as [|[t al] items IH]; intros p; cbn [fold_left];
    [reflexivity|].
  rewrite IH. f_equal. unfold canonical_step. cbn [fst snd].
  rewrite <- (min_by_key_iter iter al (P al)).
  destruct (min_by_key (iter al)) as [c|] eqn:M.
  - rewrite (plan_target_eq _ _ _ _ _ M). reflexivity.
  - rewrite (plan_target_skip _ _ _ _ M). reflexivity.
Qed.





(** What [main] writes, from the two sorted file lists. *)
Definition bundles (LICENSE_TEXT TEST_HARNESS_CODE : str) (w : World)
  (main_files test_files : list str) (abs_input_dir : str) : Output :=
  match main_files, test_files with
  | [], [] => {| main_bundle := None; test_bundle := None |}
  | _, _ =>
      let m2 := maps_of w abs_input_dir (main_files ++ test_files) empty_maps in
      let p := analyze_imports_and_plan (set_iter w) (namespace_imports_map m2) in
      {| main_bundle :=
           match main_files with
           | [] => None
           | _ =>
               Some (fst (assemble LICENSE_TEXT TEST_HARNESS_CODE (set_iter w)
                            (flat_map (file_chunk w abs_input_dir) main_files)
                            (exports_map m2) (canonical_to_target p)
                            (alias_redirects p) false))
           end;
         test_bundle :=
           match test_files with
           | [] => None
           | _ =>
               Some (fst (assemble LICENSE_TEXT TEST_HARNESS_CODE (set_iter w)
                            (flat_map (file_chunk w abs_input_dir) test_files)
                            (exports_map m2) (canonical_to_target p)
                            (alias_redirects p) true))
           end |}
  end.

Lemma main_eq (LICENSE_TEXT TEST_HARNESS_CODE : str) (w : World) (t : tree)
  (abs_input_dir : str) :
  main LICENSE_TEXT TEST_HARNESS_CODE w t abs_input_dir
  = bundles LICENSE_TEXT TEST_HARNESS_CODE w
      (fst (find_ts_files abs_input_dir t)) (snd (find_ts_files abs_input_dir t))
      abs_input_dir.
Proof.
  unfold main, bundles.
  destruct (find_ts_files abs_input_dir t) as [mf tf]. cbn [fst snd].
  destruct mf as [|f mf], tf as [|g tf]; try reflexivity.
  - rewrite process_and_collect_eq. reflexivity.
  - rewrite process_and_collect_eq. rewrite app_nil_r. reflexivity.
  - rewrite !process_and_collect_eq, maps_of_app. reflexivity.
Qed.







Definition project_world : World :=
  {| getcwd := s "/r";
     isfile := fun p => existsb (str_eqb p)
                          [s "/r/index.ts"; s "/r/src/a.ts"; s "/r/src/b.ts";
                           s "/r/src/a_test.ts"];
     isdir := fun p => existsb (str_eqb p) [s "/r"; s "/r/src"];
     read_text := fun p =>
       if str_eqb p (s "/r/src/a.ts")
       then inl (lines ["export function foo() { return 1; }";
                        "export const bar = 2;"]%string)
       else if str_eqb p (s "/r/src/b.ts")
       then inl (lines ["import * as longerAlias from './a';";
                        "export const b = longerAlias.foo();"]%string)
       else if str_eqb p (s "/r/index.ts")
       then inl (lines ["import * as A from './src/a';";
                        "export default A.bar;"]%string)
       else if str_eqb p (s "/r/src/a_test.ts")
       then inl (lines ["import * as A from './a';";
                        "describe('a', () => { expect(A.foo()).toBe(1); });"]%string)
       else inr (s "No such file");
     set_iter := fun a => a |}.



(** * Further properties of the bundler *)

(** ** The classifier lists nothing but source files of the tree *)

(** X1: every path in either list is the path of a file of the tree that
    is reached through kept directory names only, and whose lower-cased
    name ends with [.ts] and not with [.d.ts]: a declaration file, a file
    of another kind or a path that is not in the tree is never listed. *)
Theorem find_ts_files_lists_only_sources (root : str) (t : tree) (p : str) :
  In p (fst (find_ts_files root t) ++ snd (find_ts_files root t)) ->
  exists comps f,
    located t comps f
    /\ Forall (fun d => keep_dir d = true) comps
    /\ p = path_of root comps f
    /\ endswith (lower f) (s ".ts") = true
    /\ endswith (lower f) (s ".d.ts") = false.
Proof.
  rewrite find_ts_files_eq. cbn [fst snd]. intros H.
  assert (L : exists pick,
             (forall f, pick f = true -> is_ts f = true)
             /\ In p (paths_where pick (os_walk keep_dir root t))).
  { apply in_app_or in H as [H|H]; apply (proj1 (sorted_In _ _)) in H.
    - exists is_main_name. split; [|exact H].
      intros f K. apply is_main_name_spec in K. apply K.
    - exists is_test_name. split; [|exact H].
      intros f K. apply is_test_name_spec in K. apply K. }
  destruct L as [pick [Hp L]].
  apply listed_iff in L as [comps [f [Lo [K [Pk E]]]]].
  exists comps, f. repeat split; try assumption.
  - apply Hp in Pk. unfold is_ts in Pk. apply andb_true_iff in Pk. apply Pk.
  - apply Hp in Pk. unfold is_ts in Pk. apply andb_true_iff in Pk.
    destruct Pk as [_ Pk]. apply negb_true_iff in Pk. exact Pk.
Qed.

Lemma find_ts_files_lists_only_sources_witness :
  In (s "/r/src/a_test.ts")
     (fst (find_ts_files (s "/r") sample_tree)
      ++ snd (find_ts_files (s "/r") sample_tree))
  /\ exists comps f,
       located sample_tree comps f
       /\ Forall (fun d => keep_dir d = true) comps
       /\ s "/r/src/a_test.ts" = path_of (s "/r") comps f
       /\ endswith (lower f) (s ".ts") = true
       /\ endswith (lower f) (s ".d.ts") = false.
Proof.
  assert (H : In (s "/r/src/a_test.ts")
                 (fst (find_ts_files (s "/r") sample_tree)
                  ++ snd (find_ts_files (s "/r") sample_tree))).
  { vm_compute. intuition. }
  split; [exact H|].
  exact (find_ts_files_lists_only_sources (s "/r") sample_tree _ H).
Defined.

(** ** Resolving a relative import: [resolve_relative_path] *)

Lemma endswith_index_ts (a : str) :
  endswith (path_join a (s "index.ts")) (s ".ts") = true.
Proof.
  unfold path_join. change (startswith (s "index.ts") (s "/")) with false.
  cbv iota.
  destruct (str_eqb a [] || endswith a (s "/")).
  - change (s "index.ts") with (s "index" ++ s ".ts").
    rewrite app_assoc. apply endswith_app.
  - change (s "/" ++ s "index.ts") with (s "/index" ++ s ".ts").
    rewrite app_assoc. apply endswith_app.
Qed.

(** X2: a target that [resolve_relative_path] returns is a path for which
    [os.path.isfile] holds, it ends with [.ts], and nothing is printed
    for it. *)
Theorem resolve_relative_path_target_exists (w : World) (src rel target : str) :
  fst (resolve_relative_path w src rel) = Some target ->
  isfile w target = true
  /\ endswith target (s ".ts") = true
  /\ snd (resolve_relative_path w src rel) = [].
Proof.
  unfold resolve_relative_path.
  destruct (splitext (replace_chr backslash slash rel)) as [target_base ext].
  set (base_abs := abspath (getcwd w) (path_join (dirname src) target_base)).
  destruct (isfile w (base_abs ++ s ".ts")) eqn:F.
  - cbn [fst snd]. intros [= <-]. repeat split; [exact F | apply endswith_app].
  - destruct (isdir w base_abs && isfile w (path_join base_abs (s "index.ts")))
      eqn:D.
    + cbn [fst snd]. intros [= <-]. apply andb_true_iff in D as [_ D].
      repeat split; [exact D | apply endswith_index_ts].
    + destruct (str_eqb (lower ext) (s ".js")); cbn [fst]; discriminate.
Qed.

Lemma resolve_relative_path_target_exists_witness :
  fst (resolve_relative_path scenario_a_world (s "/p/b.ts") (s "./a"))
  = Some (s "/p/a.ts")
  /\ isfile scenario_a_world (s "/p/a.ts") = true
  /\ endswith (s "/p/a.ts") (s ".ts") = true
  /\ snd (resolve_relative_path scenario_a_world (s "/p/b.ts") (s "./a")) = [].
Proof.
  assert (H : fst (resolve_relative_path scenario_a_world (s "/p/b.ts") (s "./a"))
              = Some (s "/p/a.ts")) by (vm_compute; reflexivity).
  split; [exact H|].
  exact (resolve_relative_path_target_exists scenario_a_world (s "/p/b.ts")
           (s "./a") (s "/p/a.ts") H).
Defined.

(** X3: the extension of the specifier plays no part in the outcome.  The
    second round of checks, made when the extension is [.js], repeats the
    two checks that have just failed, so the outcome is that of the first
    round alone: the file [<base>.ts] if there is one, else
    [<base>/index.ts] if [<base>] is a directory that holds one, else
    nothing, with a warning exactly when the specifier begins with a
    dot. *)
Theorem resolve_relative_path_ignores_extension (w : World) (src rel : str) :
  resolve_relative_path w src rel
  = let base_abs :=
      abspath (getcwd w)
        (path_join (dirname src)
                   (fst (splitext (replace_chr backslash slash rel)))) in
    if isfile w (base_abs ++ s ".ts") then (Some (base_abs ++ s ".ts"), [])
    else if isdir w base_abs && isfile w (path_join base_abs (s "index.ts"))
         then (Some (path_join base_abs (s "index.ts")), [])
         else (None,
               if startswith rel (s ".")
               then [s "  [Warn] Cannot resolve relative import '" ++ rel
                     ++ s "' from '" ++ basename src ++ s "'"]
               else []).
Proof.
  unfold resolve_relative_path.
  destruct (splitext (replace_chr backslash slash rel)) as [target_base ext].
  cbn [fst]. cbv zeta.
  destruct (isfile w _); [reflexivity|].
  destruct (isdir w _ && isfile w _); [reflexivity|].
  destruct (str_eqb (lower ext) (s ".js")); reflexivity.
Qed.

(** ** What a transform pass keeps: [process_and_collect] *)

(** The chunk and the two maps a file yields depend on the two maps only,
    not on what has been printed so far. *)
Definition same_maps (m1 m2 : Maps) : Prop :=
  exports_map m1 = exports_map m2
  /\ namespace_imports_map m1 = namespace_imports_map m2.

Lemma process_file_same_maps (w : World) (base : str) (m1 m2 : Maps) (f : str) :
  same_maps m1 m2 ->
  same_maps (snd (process_file w base ([], m1) f))
            (snd (process_file w base ([], m2) f)).
Proof.
  intros [E N]. destruct (read_text w f) as [content|e] eqn:R.
  - destruct (process_file_read w base [] m1 f content R) as [_ [He1 Hn1]].
    destruct (process_file_read w base [] m2 f content R) as [_ [He2 Hn2]].
    split.
    + rewrite He1, He2. unfold exports_after. rewrite E. reflexivity.
    + rewrite Hn1, Hn2. unfold ns_map_after. rewrite N. reflexivity.
  - destruct (process_file_unreadable w base [] m1 f e R) as [_ [He1 Hn1]].
    destruct (process_file_unreadable w base [] m2 f e R) as [_ [He2 Hn2]].
    split; congruence.
Qed.

Lemma maps_of_same_maps (w : World) (base : str) : forall files m1 m2,
  same_maps m1 m2 -> same_maps (maps_of w base files m1) (maps_of w base files m2).
Proof.
  induction files as [|f files IH]; intros m1 m2 H; [exact H|].
  rewrite !maps_of_cons. apply IH, process_file_same_maps, H.
Qed.

Lemma process_file_stderr (w : World) (base : str) (c : list str) (m : Maps)
  (f x : str) :
  In x (stderr m) -> In x (stderr (snd (process_file w base (c, m) f))).
Proof.
  intros H. unfold process_file. destruct (read_text w f).
  - destruct (resolve_imports _ _ _).
    destruct (strip (transform _)); cbn [snd stderr]; apply in_or_app; auto.
  - cbn [snd stderr]. apply in_or_app. auto.
Qed.

Lemma maps_of_stderr (w : World) (base : str) (x : str) : forall files m,
  In x (stderr m) -> In x (stderr (maps_of w base files m)).
Proof.
  induction files as [|f files IH]; intros m H; [exact H|].
  rewrite maps_of_cons. apply IH, process_file_stderr, H.
Qed.

(** X4: a file that cannot be read is skipped and the pass goes on: the
    chunks and the two maps are those of the pass without the file, and
    one line naming the file and the error is printed to stderr. *)
Theorem unreadable_file_is_skipped (w : World) (base : str)
  (pre post : list str) (f e : str) (m : Maps) :
  read_text w f = inr e ->
  fst (process_and_collect w (pre ++ f :: post) base m)
  = fst (process_and_collect w (pre ++ post) base m)
  /\ exports_map (snd (process_and_collect w (pre ++ f :: post) base m))
     = exports_map (snd (process_and_collect w (pre ++ post) base m))
  /\ namespace_imports_map (snd (process_and_collect w (pre ++ f :: post) base m))
     = namespace_imports_map (snd (process_and_collect w (pre ++ post) base m))
  /\ In (s "  [Error] Processing '" ++ relpath (getcwd w) f base ++ s "': " ++ e)
        (stderr (snd (process_and_collect w (pre ++ f :: post) base m))).
Proof.
  intros R. rewrite !process_and_collect_eq. cbn [fst snd].
  rewrite !maps_of_app, maps_of_cons.
  set (m1 := maps_of w base pre m).
  assert (S : same_maps (snd (process_file w base ([], m1) f)) m1).
  { destruct (process_file_unreadable w base [] m1 f e R) as [_ [He Hn]].
    split; assumption. }
  destruct (maps_of_same_maps w base post _ _ S) as [E N].
  split; [|split; [exact E | split; [exact N|]]].
  - rewrite !flat_map_app. cbn [flat_map].
    unfold file_chunk at 2. rewrite R. reflexivity.
  - apply maps_of_stderr. unfold process_file. rewrite R.
    cbn [snd stderr]. apply in_or_app. right. left. reflexivity.
Qed.

Lemma unreadable_file_is_skipped_witness :
  read_text sample_world (s "/p/gone.ts") = inr (s "No such file")
  /\ process_and_collect sample_world
       [s "/p/a.ts"; s "/p/gone.ts"; s "/p/b.ts"] (s "/p") empty_maps
     = (fst (process_and_collect sample_world [s "/p/a.ts"; s "/p/b.ts"]
               (s "/p") empty_maps),
        {| exports_map := [(s "/p/a.ts", [s "a"])];
           namespace_imports_map := [(s "/p/a.ts", [(s "U", s "/p/u.ts")])];
           stderr := [s "  [Error] Processing 'gone.ts': No such file"] |})
  /\ In (s "  [Error] Processing '" ++ relpath (getcwd sample_world) (s "/p/gone.ts") (s "/p")
           ++ s "': " ++ s "No such file")
        (stderr (snd (process_and_collect sample_world
                        ([s "/p/a.ts"] ++ s "/p/gone.ts" :: [s "/p/b.ts"])
                        (s "/p") empty_maps))).
Proof.
  split; [reflexivity|]. split; [vm_compute; reflexivity|].
  apply (unreadable_file_is_skipped sample_world (s "/p") [s "/p/a.ts"]
           [s "/p/b.ts"] (s "/p/gone.ts") (s "No such file") empty_maps).
  reflexivity.
Defined.

Lemma exports_after_grows (w : World) (m : Maps) (abs_file_path content t name : str) :
  In name (get_set (exports_map m) t) ->
  In name (get_set (exports_after w m abs_file_path content) t).
Proof.
  intros H. unfold exports_after.
  destruct (capture_exports content) as [|x cur]; [exact H|].
  unfold get_set at 1.
  destruct (list_eq_dec ascii_dec abs_file_path t) as [->|N].
  - rewrite dict_get_set_same. apply set_update_In. left. exact H.
  - rewrite dict_get_set_other by exact N. exact H.
Qed.

Lemma exports_grow_in_pass (w : World) (base : str) (t name : str) :
  forall files m,
  In name (get_set (exports_map m) t) ->
  In name (get_set (exports_map (maps_of w base files m)) t).
Proof.
  induction files as [|f files IH]; intros m H; [exact H|].
  rewrite maps_of_cons. apply IH.
  destruct (read_text w f) as [content|e] eqn:R.
  - destruct (process_file_read w base [] m f content R) as [_ [He _]].
    rewrite He. apply exports_after_grows, H.
  - destruct (process_file_unreadable w base [] m f e R) as [_ [He _]].
    rewrite He. exact H.
Qed.

(** X5: a pass only adds to the exports map.  A name recorded for a path
    before the pass is still recorded for it afterwards, whatever the
    files of the pass hold and in whatever order a set hands out its
    members; so the pass over the test files cannot lose an export of a
    main file. *)
Theorem exports_map_only_grows (w : World) (base : str) (files : list str)
  (m : Maps) (t name : str) :
  In name (get_set (exports_map m) t) ->
  In name (get_set (exports_map (snd (process_and_collect w files base m))) t).
Proof.
  intros H. rewrite process_and_collect_eq. cbn [snd].
  apply exports_grow_in_pass, H.
Qed.

Lemma exports_map_only_grows_witness :
  In (s "foo")
     (get_set (exports_map
                 (snd (process_and_collect scenario_a_world [s "/p/a.ts"] (s "/p")
                         empty_maps)))
              (s "/p/a.ts"))
  /\ In (s "foo")
        (get_set (exports_map
                    (snd (process_and_collect scenario_a_world
                            [s "/p/b.ts"; s "/p/a.ts"] (s "/p")
                            (snd (process_and_collect scenario_a_world
                                    [s "/p/a.ts"] (s "/p") empty_maps)))))
                 (s "/p/a.ts")).
Proof.
  assert (H : In (s "foo")
     (get_set (exports_map
                 (snd (process_and_collect scenario_a_world [s "/p/a.ts"] (s "/p")
                         empty_maps)))
              (s "/p/a.ts"))) by (vm_compute; left; reflexivity).
  split; [exact H|].
  exact (exports_map_only_grows scenario_a_world (s "/p")
           [s "/p/b.ts"; s "/p/a.ts"] _ (s "/p/a.ts") (s "foo") H).
Defined.

(** The keys of the two maps. *)
Definition from_files (w : World) (files : list str) (k : str) : Prop :=
  exists f content,
    In f files /\ k = abspath (getcwd w) f /\ read_text w f = inl content.

Lemma from_files_cons (w : World) (f : str) (files : list str) (k : str) :
  from_files w files k -> from_files w (f :: files) k.
Proof.
  intros [f' [c [I H]]]. exists f', c. split; [right; exact I | exact H].
Qed.

Lemma keys_of_pass (w : World) (base : str) (k : str) : forall files m,
  In k (dict_keys (exports_map (maps_of w base files m)))
  \/ In k (dict_keys (namespace_imports_map (maps_of w base files m))) ->
  (In k (dict_keys (exports_map m))
   \/ In k (dict_keys (namespace_imports_map m)))
  \/ from_files w files k.
Proof.
  induction files as [|f files IH]; intros m H; [left; exact H|].
  rewrite maps_of_cons in H. apply IH in H as [H|H];
    [|right; apply from_files_cons, H].
  destruct (read_text w f) as [content|e] eqn:R.
  - destruct (process_file_read w base [] m f content R) as [_ [He Hn]].
    rewrite He, Hn in H. unfold exports_after, ns_map_after in H.
    assert (K : from_files w (f :: files) (abspath (getcwd w) f)).
    { exists f, content. split; [left; reflexivity | auto]. }
    destruct H as [H|H].
    + destruct (capture_exports content); [left; left; exact H|].
      apply dict_keys_set_In in H as [H| ->]; [left; left; exact H | right; exact K].
    + destruct (current_ns_imports_of w _ content); [left; right; exact H|].
      apply dict_keys_set_In in H as [H| ->]; [left; right; exact H | right; exact K].
  - destruct (process_file_unreadable w base [] m f e R) as [_ [He Hn]].
    rewrite He, Hn in H. left. exact H.
Qed.

(** X6: after the two maps start empty, each of their keys is the absolute
    path of a file of the pass that could be read: no other path, and no
    path of a file whose reading failed, becomes a key. *)
Theorem map_keys_are_processed_files (w : World) (base : str)
  (files : list str) (k : str) :
  In k (dict_keys (exports_map
                     (snd (process_and_collect w files base empty_maps))))
  \/ In k (dict_keys (namespace_imports_map
                        (snd (process_and_collect w files base empty_maps)))) ->
  exists f content,
    In f files /\ k = abspath (getcwd w) f /\ read_text w f = inl content.
Proof.
  rewrite process_and_collect_eq. cbn [snd]. intros H.
  apply keys_of_pass in H as [[[]|[]]|H]. exact H.
Qed.

Lemma map_keys_are_processed_files_witness :
  dict_keys (namespace_imports_map
               (snd (process_and_collect scenario_a_world
                       [s "/p/a.ts"; s "/p/b.ts"; s "/p/gone.ts"] (s "/p")
                       empty_maps)))
  = [s "/p/b.ts"]
  /\ exists f content,
       In f [s "/p/a.ts"; s "/p/b.ts"; s "/p/gone.ts"]
       /\ s "/p/b.ts" = abspath (getcwd scenario_a_world) f
       /\ read_text scenario_a_world f = inl content.
Proof.
  split; [vm_compute; reflexivity|].
  apply (map_keys_are_processed_files scenario_a_world (s "/p")
           [s "/p/a.ts"; s "/p/b.ts"; s "/p/gone.ts"] (s "/p/b.ts")).
  right. vm_compute. left. reflexivity.
Defined.

Lemma resolve_target_isfile (w : World) (src rel target : str) :
  fst (resolve_relative_path w src rel) = Some target ->
  isfile w target = true /\ endswith target (s ".ts") = true.
Proof.
  unfold resolve_relative_path.
  destruct (splitext (replace_chr backslash slash rel)) as [target_base ext].
  set (base_abs := abspath (getcwd w) (path_join (dirname src) target_base)).
  destruct (isfile w (base_abs ++ s ".ts")) eqn:F.
  - cbn [fst]. intros [= <-]. split; [exact F | apply endswith_app].
  - destruct (isdir w base_abs && isfile w (path_join base_abs (s "index.ts")))
      eqn:D.
    + cbn [fst]. intros [= <-]. apply andb_true_iff in D as [_ D].
      split; [exact D | apply endswith_index_ts].
    + destruct (str_eqb (lower ext) (s ".js")); cbn [fst]; discriminate.
Qed.

Lemma resolve_fold_target (w : World) (abs_file_path : str) : forall ns acc a t,
  In (a, t) (fst (fold_left (resolve_step w abs_file_path) ns acc)) ->
  In (a, t) (fst acc)
  \/ exists path, In (a, path) ns
                  /\ fst (resolve_relative_path w abs_file_path path) = Some t.
Proof.
  induction ns as [|[alias path] ns IH]; intros acc a t H; cbn [fold_left] in H.
  - auto.
  - apply IH in H as [H|[p [I T]]]; [|right; exists p; split; [right|]; assumption].
    unfold resolve_step in H. destruct acc as [cur err].
    destruct (resolve_relative_path w abs_file_path path) as [[t0|] warn] eqn:R;
      simpl in H; [|auto].
    apply dict_set_In in H as [[-> ->]|H]; [|auto].
    right. exists path. split; [left; reflexivity | rewrite R; reflexivity].
Qed.

(** What every entry of the namespace-imports map looks like. *)
Definition imports_ok (w : World) (nim : dict (dict str)) : Prop :=
  forall src imports,
    In (src, imports) nim ->
    imports <> []
    /\ forall a t, In (a, t) imports ->
         identifier a = true /\ isfile w t = true
         /\ endswith t (s ".ts") = true.

Lemma ns_map_after_ok (w : World) (m : Maps) (abs_file_path content : str) :
  imports_ok w (namespace_imports_map m) ->
  imports_ok w (ns_map_after w m abs_file_path content).
Proof.
  intros K. unfold ns_map_after.
  destruct (current_ns_imports_of w abs_file_path content) as [|x cur] eqn:C;
    [exact K|].
  intros src imports H.
  apply dict_set_In in H as [[-> ->]|H]; [|apply (K _ _ H)].
  split; [discriminate|]. intros a t I.
  rewrite <- C in I. unfold current_ns_imports_of, resolve_imports in I.
  apply resolve_fold_target in I as [[]|[path [I T]]].
  destruct (namespace_imports_spec _ _ _ I) as [Hid _].
  destruct (resolve_target_isfile _ _ _ _ T) as [F E]. auto.
Qed.

Lemma imports_ok_pass (w : World) (base : str) : forall files m,
  imports_ok w (namespace_imports_map m) ->
  imports_ok w (namespace_imports_map (maps_of w base files m)).
Proof.
  induction files as [|f files IH]; intros m K; [exact K|].
  rewrite maps_of_cons. apply IH.
  destruct (read_text w f) as [content|e] eqn:R.
  - destruct (process_file_read w base [] m f content R) as [_ [_ Hn]].
    rewrite Hn. apply ns_map_after_ok, K.
  - destruct (process_file_unreadable w base [] m f e R) as [_ [_ Hn]].
    rewrite Hn. exact K.
Qed.

(** X7: in the namespace-imports map of a pass, no file is bound to an
    empty dictionary, every alias is a non-empty run of [[a-zA-Z0-9_]],
    and every target is a path for which [os.path.isfile] holds and that
    ends with [.ts]: an import that does not resolve to a file leaves no
    trace in the map. *)
Theorem recorded_imports_are_resolved (w : World) (base : str)
  (files : list str) (src : str) (imports : dict str) :
  In (src, imports)
     (namespace_imports_map (snd (process_and_collect w files base empty_maps))) ->
  imports <> []
  /\ forall alias target, In (alias, target) imports ->
       identifier alias = true /\ isfile w target = true
       /\ endswith target (s ".ts") = true.
Proof.
  rewrite process_and_collect_eq. cbn [snd].
  apply imports_ok_pass. intros ? ? [].
Qed.

Lemma recorded_imports_are_resolved_witness :
  namespace_imports_map
    (snd (process_and_collect project_world
            [s "/r/index.ts"; s "/r/src/a.ts"; s "/r/src/b.ts"] (s "/r")
            empty_maps))
  = [(s "/r/index.ts", [(s "A", s "/r/src/a.ts")]);
     (s "/r/src/b.ts", [(s "longerAlias", s "/r/src/a.ts")])]
  /\ forall alias target,
       In (alias, target) [(s "longerAlias", s "/r/src/a.ts")] ->
       identifier alias = true /\ isfile project_world target = true
       /\ endswith target (s ".ts") = true.
Proof.
  split; [vm_compute; reflexivity|].
  apply (recorded_imports_are_resolved project_world (s "/r")
           [s "/r/index.ts"; s "/r/src/a.ts"; s "/r/src/b.ts"] (s "/r/src/b.ts")).
  vm_compute. right. left. reflexivity.
Defined.

(** ** The import stages only delete *)

(** [subtext a b]: [a] is [b] with some of its characters left out. *)
Inductive subtext : str -> str -> Prop :=
| subtext_nil : subtext [] []
| subtext_keep c a b : subtext a b -> subtext (c :: a) (c :: b)
| subtext_drop c a b : subtext a b -> subtext a (c :: b).

Lemma subtext_refl : forall a, subtext a a.
Proof. induction a; constructor; assumption. Qed.

Lemma subtext_trans : forall b c, subtext b c -> forall a, subtext a b -> subtext a c.
Proof.
  induction 1 as [|x b c H IH|x b c H IH]; intros a Hab.
  - exact Hab.
  - inversion Hab; subst.
    + apply subtext_keep, IH. assumption.
    + apply subtext_drop, IH. assumption.
  - apply subtext_drop, IH, Hab.
Qed.

Lemma subtext_length (a b : str) : subtext a b -> length a <= length b.
Proof. induction 1; simpl; lia. Qed.

Lemma sub_from_delete (r : re) : forall t prev skip,
  subtext (sub_from r delete prev t skip) t.
Proof.
  induction t as [|c t IH]; intros prev skip; cbn [sub_from].
  - destruct skip; [|constructor].
    destruct (match_here r prev []) as [[rest cs]|]; constructor.
  - destruct skip as [|n]; [|apply subtext_drop, IH].
    destruct (match_here r prev (c :: t)) as [[rest cs]|].
    + cbv zeta. destruct (length (c :: t) - length rest =? 0); unfold delete;
        cbn [app]; [apply subtext_keep | apply subtext_drop]; apply IH.
    + apply subtext_keep, IH.
Qed.

Lemma re_sub_delete (r : re) (t : str) : subtext (re_sub r delete t) t.
Proof. apply sub_from_delete. Qed.

(** X8: the license stage and the five import stages never insert or
    change a character: the text after them is the original content with
    some of its characters left out, so it is no longer than the
    original. *)
Theorem strip_imports_only_deletes (original_content : str) :
  subtext (strip_imports original_content) original_content
  /\ length (strip_imports original_content) <= length original_content.
Proof.
  assert (H : subtext (strip_imports original_content) original_content).
  { unfold strip_imports.
    repeat (eapply subtext_trans; [|apply re_sub_delete]).
    apply subtext_refl. }
  split; [exact H | apply subtext_length, H].
Qed.

(** ** Content without the marker words passes through unchanged *)

(** [x in text] *)
Fixpoint contains (text x : str) : bool :=
  startswith text x
  || match text with
     | [] => false
     | _ :: text' => contains text' x
     end.

Lemma startswith_app_l : forall x a b,
  startswith a x = true -> startswith (a ++ b) x = true.
Proof.
  induction x as [|c x IH]; intros a b H; [reflexivity|].
  destruct a as [|d a]; [discriminate|]. simpl in *.
  apply andb_true_iff in H as [E H]. rewrite E. simpl. apply IH, H.
Qed.

Lemma contains_app_l (x b : str) : forall a,
  contains a x = true -> contains (a ++ b) x = true.
Proof.
  induction a as [|c a IH]; intros H.
  - simpl in H. rewrite orb_false_r in H. destruct x; [|discriminate].
    destruct b; reflexivity.
  - cbn [contains app] in *. apply orb_true_iff in H as [H|H].
    + change (c :: a ++ b) with ((c :: a) ++ b).
      rewrite (startswith_app_l _ _ _ H). reflexivity.
    + rewrite (IH H). apply orb_true_r.
Qed.

Lemma contains_app_r (x b : str) : forall a,
  contains b x = true -> contains (a ++ b) x = true.
Proof.
  induction a as [|c a IH]; intros H; [exact H|].
  cbn [contains app]. rewrite (IH H). apply orb_true_r.
Qed.

Lemma contains_tail (c : ascii) (t x : str) :
  contains (c :: t) x = false -> contains t x = false.
Proof. cbn [contains]. intros H. apply orb_false_iff in H. apply H. Qed.

Lemma contains_refl (x : str) : contains x x = true.
Proof.
  pose proof (startswith_app x []) as H. rewrite app_nil_r in H.
  destruct x; cbn [contains]; rewrite H; reflexivity.
Qed.

(** A pattern that cannot match without passing the literal [x]. *)
Inductive mentions (x : str) : re -> Prop :=
| mentions_here rest : mentions x (Seq (lit_str x) rest)
| mentions_later a b : mentions x b -> mentions x (Seq a b)
| mentions_group n a : mentions x a -> mentions x (Group n a).

Lemma shape_lit_str : forall x u, shape (lit_str x) u -> u = x.
Proof.
  induction x as [|c x IH]; intros u H; simpl in H; [exact H|].
  destruct H as [u1 [u2 [-> [[d [-> E]] H]]]].
  unfold only in E. apply chr_eqb_eq in E. subst d.
  simpl. f_equal. apply IH, H.
Qed.

Lemma mentions_shape (x : str) (r : re) :
  mentions x r -> forall u, shape r u -> contains u x = true.
Proof.
  induction 1 as [rest|a b M IH|n a M IH]; intros u H; simpl in H.
  - destruct H as [u1 [u2 [-> [H _]]]]. apply shape_lit_str in H. subst u1.
    apply contains_app_l, contains_refl.
  - destruct H as [u1 [u2 [-> [_ H]]]]. apply contains_app_r, IH, H.
  - apply IH, H.
Qed.

Lemma absent_no_match (x : str) (r : re) (prev : option ascii) (t : str) :
  mentions x r -> contains t x = false -> match_here r prev t = None.
Proof.
  intros M C. destruct (match_here r prev t) as [[rest cs]|] eqn:E; [|reflexivity].
  apply match_here_sound in E as [prev' S].
  apply steps_consumes in S as [u [-> Sh]].
  rewrite (contains_app_l _ _ _ (mentions_shape _ _ M _ Sh)) in C. discriminate.
Qed.

Lemma sub_from_absent (x : str) (r : re) (repl : caps -> str) :
  mentions x r ->
  forall t prev, contains t x = false -> sub_from r repl prev t 0 = t.
Proof.
  intros M. induction t as [|c t IH]; intros prev C; cbn [sub_from].
  - rewrite (absent_no_match x r prev [] M C). reflexivity.
  - rewrite (absent_no_match x r prev (c :: t) M C).
    rewrite (IH _ (contains_tail _ _ _ C)). reflexivity.
Qed.

Lemma finditer_from_absent (x : str) (r : re) :
  mentions x r ->
  forall t prev, contains t x = false -> finditer_from r prev t 0 = [].
Proof.
  intros M. induction t as [|c t IH]; intros prev C; cbn [finditer_from].
  - rewrite (absent_no_match x r prev [] M C). reflexivity.
  - rewrite (absent_no_match x r prev (c :: t) M C).
    apply (IH _ (contains_tail _ _ _ C)).
Qed.

Lemma re_sub_absent (x : str) (r : re) (repl : caps -> str) (t : str) :
  mentions x r -> contains t x = false -> re_sub r repl t = t.
Proof. intros M C. apply (sub_from_absent x r repl M t None C). Qed.

Lemma finditer_absent (x : str) (r : re) (t : str) :
  mentions x r -> contains t x = false -> finditer r t = [].
Proof. intros M C. apply (finditer_from_absent x r M t None C). Qed.

Ltac find_mention :=
  cbv [seq fold_right lit chr];
  first [ apply mentions_here
        | apply mentions_group; find_mention
        | apply mentions_later; find_mention ].

Lemma import_patterns_mention :
  mentions (s "@license") LICENSE_BLOCK_PATTERN
  /\ mentions (s "import") IMPORT_NAMESPACE_REGEX
  /\ mentions (s "import") IMPORT_RELATIVE_OTHER_PATTERN
  /\ mentions (s "import") IMPORT_RELATIVE_SIDE_EFFECT_PATTERN
  /\ mentions (s "import") REMOVE_NON_RELATIVE_SIDE_EFFECT
  /\ mentions (s "jasmine.addMatchers") REMOVE_ADD_MATCHERS_CALL.
Proof. repeat split; find_mention. Qed.

Lemma export_patterns_mention :
  mentions (s "export") EXPORT_DECL_PATTERN
  /\ mentions (s "export") EXPORT_DEFAULT_PATTERN
  /\ mentions (s "export") EXPORT_FROM_PATTERN
  /\ mentions (s "export") EXPORT_LIST_PATTERN
  /\ mentions (s "export") EXPORT_NAMED_CAPTURE_REGEX
  /\ mentions (s "export") EXPORT_DEFAULT_CAPTURE_REGEX
  /\ mentions (s "export") EXPORT_NAMED_LIST_CAPTURE_REGEX.
Proof. repeat split; find_mention. Qed.

(** X9: content in which none of the words [import], [@license] and
    [jasmine.addMatchers] occurs passes the license stage and the import
    stages unchanged, and yields no namespace import. *)
Theorem import_free_content_is_kept (content : str) :
  contains content (s "import") = false ->
  contains content (s "@license") = false ->
  contains content (s "jasmine.addMatchers") = false ->
  strip_imports content = content
  /\ namespace_imports (license_stripped content) = [].
Proof.
  intros Hi Hl Hj.
  destruct import_patterns_mention as [M1 [M2 [M3 [M4 [M5 M6]]]]].
  split.
  - unfold strip_imports.
    rewrite (re_sub_absent _ _ _ _ M1 Hl), (re_sub_absent _ _ _ _ M2 Hi),
      (re_sub_absent _ _ _ _ M3 Hi), (re_sub_absent _ _ _ _ M4 Hi),
      (re_sub_absent _ _ _ _ M5 Hi), (re_sub_absent _ _ _ _ M6 Hj).
    reflexivity.
  - unfold namespace_imports, license_stripped.
    rewrite (re_sub_absent _ _ _ _ M1 Hl), (finditer_absent _ _ _ M2 Hi).
    reflexivity.
Qed.

Definition plain_code : str :=
  lines ["const answer = 42;"; "function twice(x) { return 2 * x; }"]%string.

Lemma import_free_content_is_kept_witness :
  strip_imports plain_code = plain_code
  /\ namespace_imports (license_stripped plain_code) = [].
Proof.
  apply import_free_content_is_kept; vm_compute; reflexivity.
Defined.

(** X10: content in which the word [export] does not occur passes the
    four export stages unchanged and records no exported name. *)
Theorem export_free_content_is_kept (content : str) :
  contains content (s "export") = false ->
  strip_exports content = content /\ capture_exports content = [].
Proof.
  intros He.
  destruct export_patterns_mention as [M1 [M2 [M3 [M4 [M5 [M6 M7]]]]]].
  split.
  - unfold strip_exports.
    rewrite (re_sub_absent _ _ _ _ M1 He), (re_sub_absent _ _ _ _ M2 He),
      (re_sub_absent _ _ _ _ M3 He), (re_sub_absent _ _ _ _ M4 He).
    reflexivity.
  - unfold capture_exports.
    rewrite (finditer_absent _ _ _ M5 He), (finditer_absent _ _ _ M6 He),
      (finditer_absent _ _ _ M7 He).
    reflexivity.
Qed.

Lemma export_free_content_is_kept_witness :
  strip_exports plain_code = plain_code /\ capture_exports plain_code = [].
Proof.
  apply export_free_content_is_kept; vm_compute; reflexivity.
Defined.

(** ** The names a file exports *)

(** Patterns every match of which sets one of two groups. *)
Fixpoint either_cap (r : re) (n m : nat) : bool :=
  match r with
  | Seq a b => either_cap a n m || either_cap b n m
  | Alt a b => either_cap a n m && either_cap b n m
  | Group k a => (k =? n) || (k =? m) || either_cap a n m
  | _ => false
  end.

Lemma steps_either : forall r prev t cs prev' t' cs',
  steps r prev t cs prev' t' cs' ->
  forall n m,
    either_cap r n m = true \/ group cs n <> None \/ group cs m <> None ->
    group cs' n <> None \/ group cs' m <> None.
Proof.
  induction 1; intros i j K; simpl in K;
    try (destruct K as [K|K]; [discriminate | exact K]).
  - destruct K as [K|K].
    + apply orb_true_iff in K as [K|K]; [|apply IHsteps2; auto].
      apply IHsteps2. right. apply IHsteps1. auto.
    + apply IHsteps2. right. apply IHsteps1. auto.
  - apply IHsteps. destruct K as [K|K]; [|auto].
    apply andb_true_iff in K. left. apply K.
  - apply IHsteps. destruct K as [K|K]; [|auto].
    apply andb_true_iff in K. left. apply K.
  - apply IHsteps. destruct K as [K|K]; [discriminate | auto].
  - apply IHsteps. destruct K as [K|K]; [discriminate | auto].
  - simpl. destruct (n =? i) eqn:Ei; [left; discriminate|].
    destruct (n =? j) eqn:Ej; [right; discriminate|].
    apply IHsteps. simpl in K. exact K.
Qed.

Lemma matched_either (r : re) (n m : nat) prev t prev' rest cs :
  steps r prev t [] prev' rest cs ->
  either_cap r n m = true ->
  (forall u, group cs n = Some u -> cap_shape r n u)
  /\ (forall u, group cs m = Some u -> cap_shape r m u)
  /\ (group cs n <> None \/ group cs m <> None).
Proof.
  intros S E.
  destruct (steps_groups _ _ _ _ _ _ _ S n) as [An _].
  destruct (steps_groups _ _ _ _ _ _ _ S m) as [Am _].
  split; [|split].
  - intros u G. destruct (An u G) as [H|H]; [discriminate | exact H].
  - intros u G. destruct (Am u G) as [H|H]; [discriminate | exact H].
  - apply (steps_either _ _ _ _ _ _ _ S). auto.
Qed.

Lemma plus_ident_shape (u : str) : shape (plus is_ident) u -> identifier u = true.
Proof.
  simpl. intros [u1 [u2 [-> [[c [-> Hc]] H]]]].
  unfold identifier. simpl. rewrite Hc, H. reflexivity.
Qed.

Lemma identifier_nonempty (u : str) : identifier u = true -> u <> [].
Proof. intros H ->. discriminate. Qed.

Ltac expose_capture H :=
  cbv [cap_shape seq lit lit_str chr s list_ascii_of_string fold_right
       opt alt_lits plus plus_lazy
       EXPORT_NAMED_CAPTURE_REGEX EXPORT_DEFAULT_CAPTURE_REGEX
       EXPORT_LIST_ITEM_REGEX] in H.

Lemma named_capture_spec (content m : str) (cs : caps) :
  In (m, cs) (finditer EXPORT_NAMED_CAPTURE_REGEX content) ->
  identifier (group_text cs 2) = true.
Proof.
  intros H. apply finditer_match in H as [prev [t [rest [prev' S]]]].
  destruct (matched_group _ 2 _ _ _ _ _ S eq_refl) as [u [G C]].
  unfold group_text. rewrite G.
  expose_capture C. break_shape; try discriminate;
    apply plus_ident_shape; assumption.
Qed.

Lemma group_or_identifier (cs : caps) (i j : nat) :
  (forall u, group cs i = Some u -> identifier u = true) ->
  (forall u, group cs j = Some u -> identifier u = true) ->
  group cs i <> None \/ group cs j <> None ->
  identifier (group_or cs i j) = true.
Proof.
  intros Hi Hj K. unfold group_or, group_text.
  destruct (group cs i) as [ui|] eqn:Gi.
  - pose proof (Hi _ eq_refl) as I. destruct ui; [discriminate | exact I].
  - destruct (group cs j) as [uj|] eqn:Gj; [apply Hj; reflexivity|].
    destruct K as [K|K]; contradiction.
Qed.

Lemma default_capture_spec (content m : str) (cs : caps) :
  In (m, cs) (finditer EXPORT_DEFAULT_CAPTURE_REGEX content) ->
  identifier (group_or cs 1 2) = true.
Proof.
  intros H. apply finditer_match in H as [prev [t [rest [prev' S]]]].
  destruct (matched_either _ 1 2 _ _ _ _ _ S eq_refl) as [C1 [C2 K]].
  apply group_or_identifier; [| |exact K].
  - intros u G. apply C1 in G. expose_capture G. break_shape; try discriminate;
      apply plus_ident_shape; assumption.
  - intros u G. apply C2 in G. expose_capture G. break_shape; try discriminate;
      apply plus_ident_shape; assumption.
Qed.

Lemma list_item_spec (text m : str) (cs : caps) :
  In (m, cs) (finditer EXPORT_LIST_ITEM_REGEX text) ->
  identifier (group_or cs 2 1) = true.
Proof.
  intros H. apply finditer_match in H as [prev [t [rest [prev' S]]]].
  destruct (matched_either _ 2 1 _ _ _ _ _ S eq_refl) as [C2 [C1 K]].
  apply group_or_identifier; [| |exact K].
  - intros u G. apply C2 in G. expose_capture G. break_shape; try discriminate;
      apply plus_ident_shape; assumption.
  - intros u G. apply C1 in G. expose_capture G. break_shape; try discriminate;
      apply plus_ident_shape; assumption.
Qed.

(** X11: every name [capture_exports] records is a non-empty run of
    [[a-zA-Z0-9_]], whichever of the three capture patterns found it, so
    the members of an alias object are identifiers. *)
Theorem captured_exports_are_identifiers (original_content name : str) :
  In name (capture_exports original_content) -> identifier name = true.
Proof.
  unfold capture_exports. intros H.
  change (fold_left set_add ?l []) with (set_update [] l) in H.
  apply set_update_In in H as [[]|H].
  apply in_app_or in H as [H|H]; [|apply in_app_or in H as [H|H]].
  - apply in_map_iff in H as [[m cs] [<- H]]. apply (named_capture_spec _ _ _ H).
  - apply in_map_iff in H as [[m cs] [<- H]]. apply (default_capture_spec _ _ _ H).
  - apply in_flat_map in H as [[m cs] [_ H]].
    apply in_map_iff in H as [[m' cs'] [<- H]]. apply (list_item_spec _ _ _ H).
Qed.

Definition export_forms : str :=
  lines ["export default class Shape {}"; "export async function load() {}";
         "const a = 1, b = 2;"; "export { a, b as second };"]%string.

Lemma captured_exports_are_identifiers_witness :
  capture_exports export_forms = [s "load"; s "Shape"; s "a"; s "second"]
  /\ identifier (s "second") = true.
Proof.
  split; [vm_compute; reflexivity|].
  apply (captured_exports_are_identifiers export_forms).
  vm_compute. do 3 right. left. reflexivity.
Defined.

(** ** The plan: redirects and canonical targets *)

Lemma observed_in_some_set (nim : dict (dict str)) (alias target : str) :
  In (alias, target) (observations nim) ->
  exists aliases, In (target, aliases) (target_to_aliases_of nim)
                  /\ In alias aliases.
Proof.
  intros H. unfold target_to_aliases_of. rewrite target_to_aliases_flat.
  assert (K0 : sets_ok []) by (split; [constructor | intros ? ? []]).
  destruct (observe_fold_spec (observations nim) [] K0) as [_ G].
  assert (I : In alias (get_set (fold_left observe (observations nim) []) target)).
  { apply G. right. exact H. }
  unfold get_set in I.
  destruct (dict_get (fold_left observe (observations nim) []) target)
    as [al|] eqn:D; [|contradiction].
  exists al. split; [apply dict_get_In, D | exact I].
Qed.

Lemma key_ltb_asym (a b : str) : key_ltb a b = true -> key_ltb b a = false.
Proof.
  intros H. destruct (key_ltb b a) eqn:E; [|reflexivity].
  rewrite <- (key_ltb_irrefl a). symmetry. eapply key_ltb_trans; eassumption.
Qed.

(** X12: the redirect map covers exactly the observed aliases.  Every
    alias observed in some file has an entry; the entry's value is the
    canonical alias of a target the alias was observed for: it is itself
    observed for that target, no alias observed for that target is
    smaller than it in the order (length, string), so it is the minimum
    of the target's alias set, and it is a key of the canonical-alias
    map.  Conversely every key of the redirect map is an observed
    alias. *)
Theorem redirects_cover_observed_aliases (iter : pyset -> list str)
  (namespace_imports_map : dict (dict str)) :
  (forall a, Permutation (iter a) a) ->
  (forall alias target,
      In (alias, target) (observations namespace_imports_map) ->
      exists canonical shared,
        dict_get (alias_redirects
                    (analyze_imports_and_plan iter namespace_imports_map)) alias
        = Some canonical
        /\ In (alias, shared) (observations namespace_imports_map)
        /\ In (canonical, shared) (observations namespace_imports_map)
        /\ (forall other,
              In (other, shared) (observations namespace_imports_map) ->
              key_ltb other canonical = false)
        /\ In canonical
              (dict_keys (canonical_to_target
                            (analyze_imports_and_plan iter namespace_imports_map))))
  /\ (forall alias canonical,
        dict_get (alias_redirects
                    (analyze_imports_and_plan iter namespace_imports_map)) alias
        = Some canonical ->
        exists target, In (alias, target) (observations namespace_imports_map)).
Proof.
  intros P.
  destruct (target_to_aliases_spec namespace_imports_map) as [_ S].
  assert (L : forall w c,
    dict_get (alias_redirects
                (analyze_imports_and_plan iter namespace_imports_map)) w = Some c ->
    exists t al, In (t, al) (target_to_aliases_of namespace_imports_map)
                 /\ In w al /\ In c al /\ min_by_key al = Some c).
  { intros w c G. unfold analyze_imports_and_plan in G.
    rewrite (planner_lookup iter P) in G.
    cbn [empty_plan alias_redirects dict_get] in G.
    apply first_canonical_source, G. }
  split.
  - intros alias target H.
    destruct (observed_in_some_set _ _ _ H) as [al [I Ia]].
    destruct (first_canonical_exists _ _ _ _ I Ia) as [c F].
    assert (G : dict_get (alias_redirects
                  (analyze_imports_and_plan iter namespace_imports_map)) alias
                = Some c).
    { unfold analyze_imports_and_plan. rewrite (planner_lookup iter P).
      cbn [empty_plan alias_redirects dict_get]. exact F. }
    destruct (L _ _ G) as [t0 [al0 [I0 [Iw [Ic M]]]]].
    exists c, t0. split; [exact G|].
    split; [apply (S _ _ I0), Iw|]. split; [apply (S _ _ I0), Ic|]. split.
    + intros other Ho. apply (S _ _ I0) in Ho.
      destruct (min_by_key_spec _ _ M) as [_ Least].
      destruct (list_eq_dec ascii_dec other c) as [->|N];
        [apply key_ltb_irrefl | apply key_ltb_asym, Least; assumption].
    + unfold analyze_imports_and_plan. eapply canonical_is_key; [exact I0|].
      rewrite (min_by_key_iter iter al0 (P al0)). exact M.
  - intros alias c G. destruct (L _ _ G) as [t0 [al0 [I0 [Iw _]]]].
    exists t0. apply (S _ _ I0), Iw.
Qed.

Lemma redirects_cover_observed_aliases_witness :
  (forall alias target,
      In (alias, target) (observations alias_collision) ->
      exists canonical shared,
        dict_get (alias_redirects
                    (analyze_imports_and_plan (@rev str) alias_collision)) alias
        = Some canonical
        /\ In (alias, shared) (observations alias_collision)
        /\ In (canonical, shared) (observations alias_collision)
        /\ (forall other,
              In (other, shared) (observations alias_collision) ->
              key_ltb other canonical = false)
        /\ In canonical
              (dict_keys (canonical_to_target
                            (analyze_imports_and_plan (@rev str) alias_collision))))
  /\ dict_get (alias_redirects (analyze_imports_and_plan (@rev str) alias_collision))
              (s "AA") = Some (s "B").
Proof.
  split; [|vm_compute; reflexivity].
  apply (redirects_cover_observed_aliases (@rev str) alias_collision).
  intros a. apply Permutation_sym, Permutation_rev.
Defined.

(** The last item of a dictionary of alias sets whose smallest alias is
    [c]. *)
Definition has_canonical (c : str) (item : str * pyset) : bool :=
  match min_by_key (snd item) with
  | Some c' => str_eqb c' c
  | None => false
  end.

Lemma find_app {A} (f : A -> bool) (l1 l2 : list A) :
  find f (l1 ++ l2) = match find f l1 with Some x => Some x | None => find f l2 end.
Proof.
  induction l1 as [|a l1 IH]; simpl; [reflexivity|].
  destruct (f a); [reflexivity | exact IH].
Qed.

Lemma canonical_step_get (acc : dict str) (item : str * pyset) (c : str) :
  dict_get (canonical_step acc item) c
  = if has_canonical c item then Some (fst item) else dict_get acc c.
Proof.
  unfold canonical_step, has_canonical.
  destruct (min_by_key (snd item)) as [c'|]; [|reflexivity].
  destruct (str_eqb c' c) eqn:E.
  - apply str_eqb_eq in E. subst. apply dict_get_set_same.
  - apply dict_get_set_other. apply str_eqb_neq. exact E.
Qed.

Lemma canonical_fold_get (c : str) : forall items acc,
  dict_get (fold_left canonical_step items acc) c
  = match find (has_canonical c) (rev items) with
    | Some item => Some (fst item)
    | None => dict_get acc c
    end.
Proof.
  induction items as [|item items IH]; intros acc; cbn [fold_left rev];
    [reflexivity|].
  rewrite IH, find_app. destruct (find (has_canonical c) (rev items));
    [reflexivity|].
  cbn [find]. rewrite canonical_step_get.
  destruct (has_canonical c item); reflexivity.
Qed.

(** X13: in the canonical-alias map a later target replaces an earlier
    one.  The target bound to a canonical alias is the last target, in
    the order in which the targets were first observed, whose alias set
    has that alias as its smallest member; an alias that is smallest for
    no target is no key. *)
Theorem canonical_target_is_last (iter : pyset -> list str)
  (namespace_imports_map : dict (dict str)) (c : str) :
  (forall a, Permutation (iter a) a) ->
  dict_get (canonical_to_target
              (analyze_imports_and_plan iter namespace_imports_map)) c
  = match find (has_canonical c) (rev (target_to_aliases_of namespace_imports_map))
    with
    | Some item => Some (fst item)
    | None => None
    end.
Proof.
  intros P. unfold analyze_imports_and_plan.
  rewrite (planned_canonical_map iter P), canonical_fold_get. reflexivity.
Qed.

(** Two files that use the same alias for two different modules. *)
Definition same_alias_twice : dict (dict str) :=
  [(s "/p/f1.ts", [(s "U", s "/p/one/util.ts")]);
   (s "/p/f2.ts", [(s "U", s "/p/two/util.ts")])].

Lemma canonical_target_is_last_witness :
  dict_get (canonical_to_target
              (analyze_imports_and_plan (fun a => a) same_alias_twice)) (s "U")
  = match find (has_canonical (s "U")) (rev (target_to_aliases_of same_alias_twice))
    with
    | Some item => Some (fst item)
    | None => None
    end
  /\ analyze_imports_and_plan (fun a => a) same_alias_twice
     = {| alias_redirects := [(s "U", s "U")];
          canonical_to_target := [(s "U", s "/p/two/util.ts")];
          plan_stderr := [] |}.
Proof.
  split; [|vm_compute; reflexivity].
  apply (canonical_target_is_last (fun a => a) same_alias_twice).
  intros a. apply Permutation_refl.
Defined.

(** ** Conflict warnings *)

Lemma register_warns (c : str) (R : dict str) (err : list str) (a line : str) :
  In line (snd (register c (R, err) a)) ->
  In line err
  \/ (line = conflict_warning a
      /\ exists d, dict_get R a = Some d /\ d <> c).
Proof.
  unfold register. destruct (negb (str_eqb a c)).
  - destruct (dict_get R a) as [d|]; [|auto].
    destruct (str_eqb d c) eqn:E; cbn [negb snd]; [auto|].
    intros H. apply in_app_or in H as [H|[<-|[]]]; [auto|].
    right. split; [reflexivity|]. exists d. split; [reflexivity|].
    apply str_eqb_neq, E.
  - destruct (dict_get R a); auto.
Qed.

Lemma register_fold_warns (c : str) : forall l R err line,
  In line (snd (fold_left (register c) l (R, err))) ->
  In line err
  \/ exists a d, In a l /\ line = conflict_warning a
                 /\ dict_get R a = Some d /\ d <> c.
Proof.
  induction l as [|a l IH]; intros R err line H; cbn [fold_left] in H;
    [left; exact H|].
  destruct (register c (R, err) a) as [R1 err1] eqn:E.
  apply IH in H as [H|[a' [d [I [-> [G N]]]]]].
  - replace err1 with (snd (register c (R, err) a)) in H by (rewrite E; reflexivity).
    apply register_warns in H as [H|[-> [d [G N]]]]; [auto|].
    right. exists a, d. auto with datatypes.
  - right. exists a', d. split; [right; exact I|]. split; [reflexivity|].
    split; [|exact N].
    replace R1 with (fst (register c (R, err) a)) in G by (rewrite E; reflexivity).
    rewrite register_get in G.
    destruct (dict_get R a') as [d'|]; [exact G|].
    destruct (str_eqb a a'); [|discriminate].
    injection G as <-. contradiction.
Qed.

Lemma plan_target_warns (iter : pyset -> list str) (p : Plan)
  (target : str) (aliases : pyset) (line : str) :
  In line (plan_stderr (plan_target iter p (target, aliases))) ->
  In line (plan_stderr p)
  \/ exists a d, In a (iter aliases) /\ line = conflict_warning a
                 /\ dict_get (alias_redirects p) a = Some d.
Proof.
  destruct (min_by_key (iter aliases)) as [c|] eqn:M.
  - rewrite (plan_target_eq _ _ _ _ _ M). cbn [plan_stderr]. intros H.
    apply register_fold_warns in H as [H|[a [d [I [E [G _]]]]]]; [auto|].
    right. exists a, d. auto.
  - rewrite (plan_target_skip _ _ _ _ M). auto.
Qed.

Lemma warnings_of_fold (iter : pyset -> list str) :
  (forall a, Permutation (iter a) a) ->
  forall rest done line,
  NoDup (dict_keys (done ++ rest)) ->
  In line (plan_stderr
             (fold_left (plan_target iter) rest
                (fold_left (plan_target iter) done empty_plan))) ->
  In line (plan_stderr (fold_left (plan_target iter) done empty_plan))
  \/ exists a t1 al1 t2 al2,
       line = conflict_warning a /\ t1 <> t2
       /\ In (t1, al1) (done ++ rest) /\ In (t2, al2) (done ++ rest)
       /\ In a al1 /\ In a al2.
Proof.
  intros P. induction rest as [|[t al] rest IH]; intros done line N H;
    cbn [fold_left] in H; [left; exact H|].
  assert (A : done ++ (t, al) :: rest = (done ++ [(t, al)]) ++ rest)
    by (rewrite <- app_assoc; reflexivity).
  replace (plan_target iter (fold_left (plan_target iter) done empty_plan) (t, al))
    with (fold_left (plan_target iter) (done ++ [(t, al)]) empty_plan) in H
    by (rewrite fold_left_app; reflexivity).
  rewrite A in N |- *.
  apply IH in H as [H|H]; [|right; exact H|exact N].
  rewrite fold_left_app in H. cbn [fold_left] in H.
  apply plan_target_warns in H as [H|[a [d [I [-> G]]]]]; [left; exact H|].
  right. rewrite (planner_lookup iter P) in G.
  cbn [empty_plan alias_redirects dict_get] in G.
  apply first_canonical_source in G as [t1 [al1 [I1 [Ia _]]]].
  exists a, t1, al1, t, al. split; [reflexivity|].
  split; [|split; [|split; [|split]]].
  - intros ->. rewrite <- A in N. unfold dict_keys in N. rewrite map_app in N.
    apply NoDup_remove_2 in N. apply N, in_or_app. left.
    apply (in_map fst) in I1. exact I1.
  - apply in_or_app. left. apply in_or_app. left. exact I1.
  - apply in_or_app. left. apply in_or_app. right. left. reflexivity.
  - exact Ia.
  - eapply Permutation_in; [apply P | exact I].
Qed.

(** X14: a conflict warning is never a false alarm.  Every line the
    planner prints to stderr is the warning for an alias that was
    observed for two different targets. *)
Theorem conflict_warnings_are_sound (iter : pyset -> list str)
  (namespace_imports_map : dict (dict str)) (line : str) :
  (forall a, Permutation (iter a) a) ->
  In line (plan_stderr (analyze_imports_and_plan iter namespace_imports_map)) ->
  exists alias t1 t2,
    line = conflict_warning alias /\ t1 <> t2
    /\ In (alias, t1) (observations namespace_imports_map)
    /\ In (alias, t2) (observations namespace_imports_map).
Proof.
  intros P H. unfold analyze_imports_and_plan in H.
  destruct (target_to_aliases_spec namespace_imports_map) as [[N _] S].
  apply (warnings_of_fold iter P _ [] line N) in H
    as [[]|[a [t1 [al1 [t2 [al2 [E [D [I1 [I2 [A1 A2]]]]]]]]]]].
  exists a, t1, t2. split; [exact E|]. split; [exact D|].
  split; [apply (S _ _ I1), A1 | apply (S _ _ I2), A2].
Qed.

Definition warned_collision : dict (dict str) :=
  [(s "/p/f1.ts", [(s "A", s "/p/t2.ts"); (s "BB", s "/p/t2.ts")]);
   (s "/p/f2.ts", [(s "BB", s "/p/t1.ts"); (s "C", s "/p/t1.ts")])].

Lemma conflict_warnings_are_sound_witness :
  plan_stderr (analyze_imports_and_plan (fun a => a) warned_collision)
  = [conflict_warning (s "BB")]
  /\ exists alias t1 t2,
       conflict_warning (s "BB") = conflict_warning alias /\ t1 <> t2
       /\ In (alias, t1) (observations warned_collision)
       /\ In (alias, t2) (observations warned_collision).
Proof.
  split; [vm_compute; reflexivity|].
  apply (conflict_warnings_are_sound (fun a => a) warned_collision).
  - intros a. apply Permutation_refl.
  - vm_compute. left. reflexivity.
Defined.

(** ** Projects in which every module has one alias *)

Definition self_redirect (item : str * str) : Prop := fst item = snd item.

Lemma register_self (c : str) (R : dict str) (err : list str) :
  Forall self_redirect R ->
  Forall self_redirect (fst (register c (R, err) c))
  /\ snd (register c (R, err) c) = err.
Proof.
  intros F. destruct (register_cases c R err c) as [[_ E]|[_ E]].
  - rewrite E. split; [exact F|].
    unfold register. rewrite str_eqb_refl. cbn [negb].
    destruct (dict_get R c); reflexivity.
  - rewrite E. split; [|reflexivity].
    apply Forall_app. split; [exact F|]. constructor; [reflexivity | constructor].
Qed.

Lemma register_fold_self (c : str) : forall l (R : dict str) err,
  (forall a, In a l -> a = c) -> Forall self_redirect R ->
  Forall self_redirect (fst (fold_left (register c) l (R, err)))
  /\ snd (fold_left (register c) l (R, err)) = err.
Proof.
  induction l as [|a l IH]; intros R err Hl F; cbn [fold_left]; [auto|].
  rewrite (Hl a) by (left; reflexivity).
  destruct (register_self c R err F) as [F1 E1]. revert F1 E1.
  destruct (register c (R, err) c) as [R1 err1]. cbn [fst snd]. intros F1 ->.
  apply IH; [|exact F1]. intros x Hx. apply Hl. right. exact Hx.
Qed.

Lemma plan_fold_self (iter : pyset -> list str) :
  (forall a, Permutation (iter a) a) ->
  forall items p,
  (forall t al a b, In (t, al) items -> In a al -> In b al -> a = b) ->
  Forall self_redirect (alias_redirects p) ->
  Forall self_redirect (alias_redirects (fold_left (plan_target iter) items p))
  /\ plan_stderr (fold_left (plan_target iter) items p) = plan_stderr p.
Proof.
  intros P. induction items as [|[t al] items IH]; intros p One F;
    cbn [fold_left]; [auto|].
  assert (One' : forall t al a b, In (t, al) items -> In a al -> In b al -> a = b).
  { intros t' al' a b H. apply (One t' al' a b). right. exact H. }
  destruct (min_by_key (iter al)) as [c|] eqn:M.
  - rewrite (plan_target_eq _ _ _ _ _ M).
    destruct (min_by_key_spec _ _ M) as [Ic _].
    destruct (register_fold_self c (iter al) (alias_redirects p) (plan_stderr p))
      as [F1 E1]; [|exact F|].
    { intros a Ha. apply (One t al a c); [left; reflexivity | |];
        eapply Permutation_in; try apply P; assumption. }
    destruct (IH {| alias_redirects :=
                      fst (fold_left (register c) (iter al)
                             (alias_redirects p, plan_stderr p));
                    canonical_to_target := dict_set (canonical_to_target p) c t;
                    plan_stderr :=
                      snd (fold_left (register c) (iter al)
                             (alias_redirects p, plan_stderr p)) |} One' F1)
      as [F2 E2].
    split; [exact F2|]. rewrite E2. exact E1.
  - rewrite (plan_target_skip _ _ _ _ M). apply IH; assumption.
Qed.

Lemma self_redirects_rewrite_nothing : forall redirects text,
  Forall self_redirect redirects -> apply_alias_rewrites redirects text = text.
Proof.
  unfold apply_alias_rewrites.
  induction redirects as [|[old canon] R IH]; intros text F; cbn [fold_left];
    [reflexivity|].
  inversion F as [|? ? E F']; subst. unfold self_redirect in E. cbn [fst snd] in E.
  subst canon. unfold rewrite_step. rewrite str_eqb_refl. apply IH, F'.
Qed.

(** X15: when no module is imported under two different aliases, every
    entry of the redirect map sends an alias to itself, the planner
    prints no warning, and the final rewrite leaves any text as it is:
    the bundle written is the assembled text. *)
Theorem one_alias_per_module_needs_no_rewrite (iter : pyset -> list str)
  (namespace_imports_map : dict (dict str)) (text : str) :
  (forall a, Permutation (iter a) a) ->
  (forall a b t,
      In (a, t) (observations namespace_imports_map) ->
      In (b, t) (observations namespace_imports_map) -> a = b) ->
  (forall alias canonical,
      In (alias, canonical)
         (alias_redirects (analyze_imports_and_plan iter namespace_imports_map)) ->
      alias = canonical)
  /\ plan_stderr (analyze_imports_and_plan iter namespace_imports_map) = []
  /\ apply_alias_rewrites
       (alias_redirects (analyze_imports_and_plan iter namespace_imports_map)) text
     = text.
Proof.
  intros P One.
  destruct (target_to_aliases_spec namespace_imports_map) as [_ S].
  destruct (plan_fold_self iter P (target_to_aliases_of namespace_imports_map)
              empty_plan) as [F E].
  { intros t al a b H Ha Hb. apply (One a b t); apply (S _ _ H); assumption. }
  { constructor. }
  fold (analyze_imports_and_plan iter namespace_imports_map) in F, E.
  split; [|split].
  - intros alias canonical H. rewrite Forall_forall in F. apply (F _ H).
  - exact E.
  - apply self_redirects_rewrite_nothing, F.
Qed.

Lemma one_alias_per_module_needs_no_rewrite_witness :
  plan_stderr (analyze_imports_and_plan (@rev str) same_alias_twice) = []
  /\ apply_alias_rewrites
       (alias_redirects (analyze_imports_and_plan (@rev str) same_alias_twice))
       (s "U.parse(V.x)")
     = s "U.parse(V.x)".
Proof.
  apply (one_alias_per_module_needs_no_rewrite (@rev str) same_alias_twice).
  - intros a. apply Permutation_sym, Permutation_rev.
  - intros a b t Ha Hb. vm_compute in Ha, Hb.
    destruct Ha as [Ha|[Ha|[]]], Hb as [Hb|[Hb|[]]]; congruence.
Defined.

(** ** The rewrite changes words only *)

Definition not_word (c : ascii) : bool := negb (is_word c).

Lemma word_run_has_no_other (w : str) : is_word_run w -> filter not_word w = [].
Proof.
  intros [_ F]. induction w as [|c w IH]; [reflexivity|].
  simpl in F. apply andb_true_iff in F as [Hc F].
  simpl. unfold not_word at 1. rewrite Hc. apply IH, F.
Qed.

Lemma retok_keeps_others (f : str -> str) : word_fun f ->
  forall ts, wf_tokens ts ->
  filter not_word (detok (retok f ts)) = filter not_word (detok ts).
Proof.
  intros F. induction ts as [|[w|c] ts IH]; intros K; [reflexivity| |].
  - destruct K as [Hw [_ K]]. cbn [retok detok flat_map token_text].
    rewrite !filter_app. fold (detok (retok f ts)). fold (detok ts).
    rewrite (IH K), (word_run_has_no_other w Hw).
    destruct (dot_next ts);
      [rewrite (word_run_has_no_other _ (F w Hw)) | rewrite (word_run_has_no_other w Hw)];
      reflexivity.
  - destruct K as [_ K]. cbn [retok detok flat_map token_text].
    rewrite !filter_app. fold (detok (retok f ts)). fold (detok ts).
    rewrite (IH K). reflexivity.
Qed.

(** X16: the final rewrite replaces words by words and nothing else.
    With a redirect map the planner built from identifier aliases, the
    characters of the text that are no word characters (white space,
    punctuation, quotes, brackets, operators) are all kept, in their
    order. *)
Theorem rewrite_keeps_other_characters (iter : pyset -> list str)
  (namespace_imports_map : dict (dict str)) (text : str) :
  (forall a, Permutation (iter a) a) ->
  identifier_aliases namespace_imports_map ->
  filter not_word
    (apply_alias_rewrites
       (alias_redirects (analyze_imports_and_plan iter namespace_imports_map)) text)
  = filter not_word text.
Proof.
  intros P Hi.
  destruct (planned_redirects_ok iter namespace_imports_map P Hi) as [_ [_ W]].
  rewrite (planned_pass_is_lookup iter namespace_imports_map text P Hi).
  rewrite retok_keeps_others;
    [rewrite detok_tok; reflexivity | apply lookup_redirect_word_fun, W | apply tok_wf].
Qed.

Lemma rewrite_keeps_other_characters_witness :
  filter not_word
    (apply_alias_rewrites
       (alias_redirects (analyze_imports_and_plan (fun a => a) scenario_b))
       (s "if (longerAlias.ok) { short.run('x'); }"))
  = s " (.) { .(''); }"
  /\ apply_alias_rewrites
       (alias_redirects (analyze_imports_and_plan (fun a => a) scenario_b))
       (s "if (longerAlias.ok) { short.run('x'); }")
     = s "if (short.ok) { short.run('x'); }".
Proof.
  split; [|vm_compute; reflexivity].
  rewrite (rewrite_keeps_other_characters (fun a => a) scenario_b).
  - vm_compute. reflexivity.
  - intros a. apply Permutation_refl.
  - apply scenario_b_identifiers.
Defined.

(** ** A project without imports and exports *)

(** Content in which none of the marker words occurs. *)
Definition plain (content : str) : bool :=
  negb (contains content (s "import"))
  && negb (contains content (s "export"))
  && negb (contains content (s "@license"))
  && negb (contains content (s "jasmine.addMatchers")).

(** The chunk of a file whose content is taken as it is. *)
Definition plain_chunk (w : World) (base : str) (file_path : str) : list str :=
  match read_text w file_path with
  | inl content =>
      match strip content with
      | [] => []
      | body =>
          [create_section_header (relpath (getcwd w) file_path base) ++ body
           ++ create_section_footer (relpath (getcwd w) file_path base)]
      end
  | inr _ => []
  end.

Lemma plain_spec (content : str) :
  plain content = true ->
  transform content = content
  /\ capture_exports content = []
  /\ namespace_imports (license_stripped content) = [].
Proof.
  unfold plain. rewrite !andb_true_iff, !negb_true_iff.
  intros [[[Hi He] Hl] Hj].
  destruct import_patterns_mention as [M1 [M2 [M3 [M4 [M5 M6]]]]].
  destruct export_patterns_mention as [E1 [E2 [E3 [E4 [E5 [E6 E7]]]]]].
  assert (I : strip_imports content = content).
  { unfold strip_imports.
    rewrite (re_sub_absent _ _ _ _ M1 Hl), (re_sub_absent _ _ _ _ M2 Hi),
      (re_sub_absent _ _ _ _ M3 Hi), (re_sub_absent _ _ _ _ M4 Hi),
      (re_sub_absent _ _ _ _ M5 Hi), (re_sub_absent _ _ _ _ M6 Hj).
    reflexivity. }
  split; [|split].
  - unfold transform. rewrite I. unfold strip_exports.
    rewrite (re_sub_absent _ _ _ _ E1 He), (re_sub_absent _ _ _ _ E2 He),
      (re_sub_absent _ _ _ _ E3 He), (re_sub_absent _ _ _ _ E4 He).
    reflexivity.
  - unfold capture_exports.
    rewrite (finditer_absent _ _ _ E5 He), (finditer_absent _ _ _ E6 He),
      (finditer_absent _ _ _ E7 He).
    reflexivity.
  - unfold namespace_imports, license_stripped.
    rewrite (re_sub_absent _ _ _ _ M1 Hl), (finditer_absent _ _ _ M2 Hi).
    reflexivity.
Qed.

Definition all_plain (w : World) : Prop :=
  forall f content, read_text w f = inl content -> plain content = true.

Lemma plain_file_chunk (w : World) (base : str) (f : str) :
  all_plain w -> file_chunk w base f = plain_chunk w base f.
Proof.
  intros A. unfold file_chunk, plain_chunk, chunks_after.
  destruct (read_text w f) as [content|e] eqn:R; [|reflexivity].
  destruct (plain_spec content (A _ _ R)) as [T _]. rewrite T. reflexivity.
Qed.

Lemma plain_maps (w : World) (base : str) : all_plain w ->
  forall files m, same_maps (maps_of w base files m) m.
Proof.
  intros A. induction files as [|f files IH]; intros m; [split; reflexivity|].
  rewrite maps_of_cons.
  assert (S : same_maps (snd (process_file w base ([], m) f)) m).
  { destruct (read_text w f) as [content|e] eqn:R.
    - destruct (process_file_read w base [] m f content R) as [_ [He Hn]].
      destruct (plain_spec content (A _ _ R)) as [_ [C N]].
      split.
      + rewrite He. unfold exports_after. rewrite C. reflexivity.
      + rewrite Hn. unfold ns_map_after, current_ns_imports_of. rewrite N.
        reflexivity.
    - destruct (process_file_unreadable w base [] m f e R) as [_ [He Hn]].
      split; assumption. }
  destruct (IH (snd (process_file w base ([], m) f))) as [E1 N1].
  destruct S as [E2 N2]. split; congruence.
Qed.

(** X17: a project none of whose files holds the word [import],
    [export], [@license] or [jasmine.addMatchers] is bundled by plain
    concatenation.  The main bundle is the license banner, two line
    breaks and, for each main file in sorted order whose content is not
    blank, its header, its content without the white space around it and
    its footer; the test bundle has the harness before its chunks and the
    call of the runner after them.  No declaration, no import and no
    rewrite takes place. *)
Theorem plain_project_is_concatenated (LICENSE_TEXT TEST_HARNESS_CODE : str)
  (w : World) (t : tree) (abs_input_dir : str) :
  (forall f content, read_text w f = inl content -> plain content = true) ->
  main LICENSE_TEXT TEST_HARNESS_CODE w t abs_input_dir
  = {| main_bundle :=
         match fst (find_ts_files abs_input_dir t) with
         | [] => None
         | files =>
             Some (LICENSE_TEXT ++ [newline; newline]
                   ++ concat (flat_map (plain_chunk w abs_input_dir) files))
         end;
       test_bundle :=
         match snd (find_ts_files abs_input_dir t) with
         | [] => None
         | files =>
             Some (LICENSE_TEXT ++ [newline; newline] ++ TEST_HARNESS_CODE
                   ++ [newline; newline]
                   ++ concat (flat_map (plain_chunk w abs_input_dir) files)
                   ++ [newline; newline] ++ s "// --- Autorun Tests ---"
                   ++ [newline] ++ s "runAllTestsAndReport();" ++ [newline])
         end |}.
Proof.
  intros A. rewrite main_eq.
  destruct (find_ts_files abs_input_dir t) as [mf tf]. cbn [fst snd].
  assert (E : forall files, flat_map (file_chunk w abs_input_dir) files
                            = flat_map (plain_chunk w abs_input_dir) files).
  { intros files. apply flat_map_ext. intros f. apply plain_file_chunk. exact A. }
  assert (B :
    bundles LICENSE_TEXT TEST_HARNESS_CODE w mf tf abs_input_dir
    = match mf, tf with
      | [], [] => {| main_bundle := None; test_bundle := None |}
      | _, _ =>
          {| main_bundle :=
               match mf with
               | [] => None
               | _ => Some (fst (assemble LICENSE_TEXT TEST_HARNESS_CODE (set_iter w)
                                (flat_map (file_chunk w abs_input_dir) mf)
                                (exports_map
                                   (maps_of w abs_input_dir (mf ++ tf) empty_maps))
                                [] [] false))
               end;
             test_bundle :=
               match tf with
               | [] => None
               | _ => Some (fst (assemble LICENSE_TEXT TEST_HARNESS_CODE (set_iter w)
                                (flat_map (file_chunk w abs_input_dir) tf)
                                (exports_map
                                   (maps_of w abs_input_dir (mf ++ tf) empty_maps))
                                [] [] true))
               end |}
      end).
  { unfold bundles. cbv zeta.
    destruct (plain_maps w abs_input_dir A (mf ++ tf) empty_maps) as [_ N].
    rewrite N. reflexivity. }
  rewrite B. clear B.
  assert (Am : forall chunks exports,
    fst (assemble LICENSE_TEXT TEST_HARNESS_CODE (set_iter w) chunks exports [] []
           false)
    = LICENSE_TEXT ++ [newline; newline] ++ concat chunks).
  { intros chunks exports. unfold assemble, assembled, apply_alias_rewrites.
    cbn [fst fold_left prefix_declarations_of dict_keys map sorted app concat].
    reflexivity. }
  assert (At : forall chunks exports,
    fst (assemble LICENSE_TEXT TEST_HARNESS_CODE (set_iter w) chunks exports [] []
           true)
    = LICENSE_TEXT ++ [newline; newline] ++ TEST_HARNESS_CODE
      ++ [newline; newline] ++ concat chunks
      ++ [newline; newline] ++ s "// --- Autorun Tests ---"
      ++ [newline] ++ s "runAllTestsAndReport();" ++ [newline]).
  { intros chunks exports. unfold assemble, assembled, apply_alias_rewrites.
    cbn [fst fold_left prefix_imports_of dict_keys map sorted].
    cbn [app concat]. rewrite concat_app. cbn [concat app].
    rewrite app_nil_r. reflexivity. }
  destruct mf as [|f mf], tf as [|g tf]; try reflexivity;
    rewrite ?Am, ?At, ?E; reflexivity.
Qed.

Definition plain_world : World :=
  {| getcwd := s "/r";
     isfile := fun _ => false;
     isdir := fun _ => false;
     read_text := fun p =>
       if str_eqb p (s "/r/lib.ts") then inl plain_code
       else if str_eqb p (s "/r/blank.ts") then inl [newline; newline]
       else if str_eqb p (s "/r/lib_test.ts")
       then inl (lines ["describe('twice', () => { expect(twice(2)).toBe(4); });"]%string)
       else inr (s "No such file");
     set_iter := fun a => a |}.

Lemma plain_world_is_plain :
  forall f content, read_text plain_world f = inl content -> plain content = true.
Proof.
  intros f content. unfold plain_world, read_text.
  destruct (str_eqb f (s "/r/lib.ts")); [intros [= <-]; vm_compute; reflexivity|].
  destruct (str_eqb f (s "/r/blank.ts")); [intros [= <-]; vm_compute; reflexivity|].
  destruct (str_eqb f (s "/r/lib_test.ts")); [intros [= <-]; vm_compute; reflexivity|].
  discriminate.
Qed.

Lemma plain_project_is_concatenated_witness :
  main (s "/* MIT */") (s "const log = console.log;") plain_world
       (Dir [] [s "lib_test.ts"; s "lib.ts"; s "blank.ts"]) (s "/r")
  = {| main_bundle :=
         Some (s "/* MIT */" ++ [newline; newline]
               ++ [newline; newline] ++ s "// --- BEGIN FILE: lib.ts ---" ++ [newline]
               ++ s "const answer = 42;" ++ [newline]
               ++ s "function twice(x) { return 2 * x; }"
               ++ [newline] ++ s "// --- END FILE: lib.ts ---" ++ [newline]);
       test_bundle :=
         Some (s "/* MIT */" ++ [newline; newline] ++ s "const log = console.log;"
               ++ [newline; newline]
               ++ [newline; newline] ++ s "// --- BEGIN FILE: lib_test.ts ---"
               ++ [newline]
               ++ s "describe('twice', () => { expect(twice(2)).toBe(4); });"
               ++ [newline] ++ s "// --- END FILE: lib_test.ts ---" ++ [newline]
               ++ [newline; newline] ++ s "// --- Autorun Tests ---"
               ++ [newline] ++ s "runAllTestsAndReport();" ++ [newline]) |}.
Proof.
  rewrite (plain_project_is_concatenated (s "/* MIT */")
             (s "const log = console.log;") plain_world
             (Dir [] [s "lib_test.ts"; s "lib.ts"; s "blank.ts"]) (s "/r")
             plain_world_is_plain).
  vm_compute. reflexivity.
Defined.

(** ** Words the rewrite leaves alone *)

Lemma dot_next_tok (post : str) :
  word_after post = false -> dot_next (tok post) = startswith post [dot].
Proof.
  destruct post as [|c post]; [reflexivity|]. cbn [word_after]. intros H.
  rewrite tok_other by exact H. cbn [dot_next startswith].
  rewrite andb_true_r. reflexivity.
Qed.

(** A whole word of the text, wherever it stands, is rewritten on its
    own, and only if a dot follows it. *)
Lemma rewrite_words_word (f : str -> str) (pre x post : str) :
  is_word_run x -> ends_outside_word pre = true -> word_after post = false ->
  rewrite_words f (pre ++ x ++ post)
  = rewrite_words f pre ++ (if startswith post [dot] then f x else x)
    ++ rewrite_words f post.
Proof.
  intros Hx B A. unfold rewrite_words.
  assert (T : detok (retok f (tok (x ++ post)))
              = (if startswith post [dot] then f x else x)
                ++ detok (retok f (tok post))).
  { rewrite tok_word_run by assumption. cbn [retok detok flat_map token_text].
    rewrite dot_next_tok by exact A. reflexivity. }
  destruct pre as [|c0 pre0] eqn:E.
  - cbn [app]. exact T.
  - rewrite <- E in *. assert (N : pre <> []) by (rewrite E; discriminate).
    destruct (exists_last N) as [pre' [c ->]].
    unfold ends_outside_word in B. rewrite prev_after_last in B.
    apply negb_true_iff in B. simpl in B.
    rewrite <- app_assoc. cbn [app].
    rewrite tok_app_after by exact B.
    rewrite (tok_app_after pre' [c]) by (simpl; exact B).
    rewrite !(tok_other c) by exact B.
    cbn [tok].
    rewrite retok_after_other, detok_app, T. reflexivity.
Qed.

(** X18: the rewrite leaves alone every whole word that is no key of the
    redirect map, even one that an alias is a part of, and every whole
    word that no dot follows, even an alias: the word is written as it
    stands, between the rewritten text before it and the rewritten text
    after it. *)
Theorem other_words_are_kept (iter : pyset -> list str)
  (namespace_imports_map : dict (dict str)) (pre x post : str) :
  (forall a, Permutation (iter a) a) ->
  identifier_aliases namespace_imports_map ->
  is_word_run x ->
  ends_outside_word pre = true ->
  word_after post = false ->
  dict_get (alias_redirects (analyze_imports_and_plan iter namespace_imports_map)) x
  = None
  \/ startswith post [dot] = false ->
  apply_alias_rewrites
    (alias_redirects (analyze_imports_and_plan iter namespace_imports_map))
    (pre ++ x ++ post)
  = apply_alias_rewrites
      (alias_redirects (analyze_imports_and_plan iter namespace_imports_map)) pre
    ++ x
    ++ apply_alias_rewrites
         (alias_redirects (analyze_imports_and_plan iter namespace_imports_map)) post.
Proof.
  intros P Hi Hx B A K.
  rewrite !(planned_pass_is_lookup iter namespace_imports_map _ P Hi).
  repeat match goal with
         | |- context [detok (retok ?f (tok ?t))] =>
             change (detok (retok f (tok t))) with (rewrite_words f t)
         end.
  rewrite rewrite_words_word by assumption.
  destruct K as [K|K].
  - unfold lookup_redirect at 2. rewrite K.
    destruct (startswith post [dot]); reflexivity.
  - rewrite K. reflexivity.
Qed.

Lemma other_words_are_kept_witness :
  apply_alias_rewrites
    (alias_redirects (analyze_imports_and_plan (fun a => a) scenario_b))
    (s "x = " ++ s "longerAlias" ++ s "(1);")
  = apply_alias_rewrites
      (alias_redirects (analyze_imports_and_plan (fun a => a) scenario_b))
      (s "x = ")
    ++ s "longerAlias"
    ++ apply_alias_rewrites
         (alias_redirects (analyze_imports_and_plan (fun a => a) scenario_b))
         (s "(1);")
  /\ apply_alias_rewrites
       (alias_redirects (analyze_imports_and_plan (fun a => a) scenario_b))
       (s "mylongerAlias.f(longerAlias, longerAlias.g)")
     = s "mylongerAlias.f(longerAlias, short.g)".
Proof.
  split; [|vm_compute; reflexivity].
  apply (other_words_are_kept (fun a => a) scenario_b).
  - intros a. apply Permutation_refl.
  - apply scenario_b_identifiers.
  - split; [discriminate | reflexivity].
  - reflexivity.
  - reflexivity.
  - right. reflexivity.
Defined.

(** ** No file is listed twice *)

(** A directory holds no two files and no two sub-directories of the same
    name, as on a file system. *)
Fixpoint unique_names (t : tree) : Prop :=
  match t with
  | Dir dirs files =>
      NoDup files /\ NoDup (map fst dirs)
      /\ (fix all (ds : list (str * tree)) : Prop :=
            match ds with
            | [] => True
            | (_, sub) :: ds' => unique_names sub /\ all ds'
            end) dirs
  end.

Lemma unique_names_unfold dirs files :
  unique_names (Dir dirs files) <->
  NoDup files /\ NoDup (map fst dirs)
  /\ Forall (fun d => unique_names (snd d)) dirs.
Proof.
  simpl. split; intros [Nf [Nd A]]; (split; [exact Nf|]); (split; [exact Nd|]);
    clear Nf Nd.
  - induction dirs as [|[d sub] r IH]; [constructor|].
    destruct A as [U A]. constructor; [exact U | apply IH, A].
  - induction A as [|[d sub] r U A IH]; [exact I | split; assumption].
Qed.

Lemma path_of_below (root d : str) (comps : list str) (f : str) :
  path_of (path_join root d) comps f = path_of root (d :: comps) f.
Proof. reflexivity. Qed.

Lemma below_members (pick : str -> bool) (root : str) (d : str * tree) (p : str) :
  wf_name (fst d) = true -> wf_tree (snd d) = true ->
  In p (below pick root d) ->
  exists comps f,
    p = path_of root (fst d :: comps) f
    /\ Forall (fun n => wf_name n = true) comps /\ wf_name f = true.
Proof.
  intros Wd Ws H. unfold below in H.
  destruct (keep_dir (fst d)); [|contradiction].
  apply listed_iff in H as [comps [f [[files [D Hf]] [_ [_ ->]]]]].
  destruct (wf_dir_at _ _ _ D Ws) as [Fc Ff].
  exists comps, f. split; [apply path_of_below|]. split; [exact Fc|].
  rewrite Forall_forall in Ff. apply Ff, Hf.
Qed.

Lemma walk_paths_NoDup (pick : str -> bool) : forall t root,
  wf_tree t = true -> unique_names t -> NoDup (walk_paths pick root t).
Proof.
  induction t as [dirs files IH] using tree_nested_ind. intros root W U.
  rewrite walk_paths_unfold.
  rewrite wf_tree_unfold in W. apply andb_true_iff in W as [Wf Wd].
  rewrite forallb_forall in Wf, Wd.
  apply unique_names_unfold in U as [Nf [Nd Ud]].
  assert (Files : forall p, In p (map (path_join root) (filter pick files)) ->
                    exists f, p = path_of root [] f /\ wf_name f = true).
  { intros p H. apply in_map_iff in H as [f [<- H]].
    apply filter_In in H as [H _]. exists f. split; [reflexivity | apply Wf, H]. }
  apply NoDup_app.
  - apply NoDup_map_NoDup_ForallPairs; [|apply NoDup_filter, Nf].
    intros f g Hf Hg E. apply filter_In in Hf as [Hf _], Hg as [Hg _].
    apply (path_of_inj root [] f [] g) in E; [apply E | | | |];
      auto using Forall_nil.
  - clear Files Nf Wf. induction dirs as [|d dirs IHd]; [constructor|].
    cbn [flat_map]. inversion IH as [|? ? Hd IH']; subst.
    inversion Ud as [|? ? Ud1 Ud']; subst.
    cbn [map] in Nd. inversion Nd as [|? ? Nd1 Nd']; subst.
    assert (Wd1 := Wd d (or_introl eq_refl)).
    apply andb_true_iff in Wd1 as [Wn Ws].
    apply NoDup_app.
    + unfold below. destruct (keep_dir (fst d)); [|constructor].
      apply Hd; assumption.
    + apply IHd; auto. intros x Hx. apply Wd. right. exact Hx.
    + intros p H1 H2.
      apply (below_members pick root d p Wn Ws) in H1
        as [c1 [f1 [-> [Fc1 Ff1]]]].
      apply in_flat_map in H2 as [d' [Hd' H2]].
      assert (Wd2 := Wd d' (or_intror Hd')).
      apply andb_true_iff in Wd2 as [Wn' Ws'].
      apply (below_members pick root d' _ Wn' Ws') in H2
        as [c2 [f2 [E [Fc2 Ff2]]]].
      apply path_of_inj in E as [E _]; auto.
      injection E as E _. apply Nd1. rewrite E. apply in_map, Hd'.
  - intros p H1 H2. apply Files in H1 as [f [-> Wf1]].
    apply in_flat_map in H2 as [d [Hd H2]].
    assert (Wd2 := Wd d Hd). apply andb_true_iff in Wd2 as [Wn Ws].
    apply (below_members pick root d _ Wn Ws) in H2 as [c2 [f2 [E [Fc2 Ff2]]]].
    apply path_of_inj in E as [E _]; auto. discriminate.
Qed.

(** X19: when the names of the tree are file names (not empty, without a
    slash) and no directory holds two entries of the same name, no path
    occurs twice in the two lists taken together: no file is bundled
    twice, and none goes to both bundles. *)
Theorem no_file_is_listed_twice (root : str) (t : tree) :
  wf_tree t = true -> unique_names t ->
  NoDup (fst (find_ts_files root t) ++ snd (find_ts_files root t)).
Proof.
  intros W U. rewrite find_ts_files_eq. cbn [fst snd].
  eapply Permutation_NoDup.
  - apply Permutation_app; apply Permutation_sym, sorted_perm.
  - apply NoDup_app; try (apply (walk_paths_NoDup _ t root W U)).
    intros p H1 H2.
    assert (A : path_is_test p = false).
    { apply (main_files_not_test root t). rewrite find_ts_files_eq.
      apply sorted_In, H1. }
    assert (B : path_is_test p = true).
    { apply (test_files_are_test root t). rewrite find_ts_files_eq.
      apply sorted_In, H2. }
    congruence.
Qed.

Lemma sample_tree_unique : unique_names sample_tree.
Proof.
  simpl. repeat split; repeat constructor; simpl; intuition discriminate.
Qed.

Lemma no_file_is_listed_twice_witness :
  NoDup (fst (find_ts_files (s "/r") sample_tree)
         ++ snd (find_ts_files (s "/r") sample_tree))
  /\ fst (find_ts_files (s "/r") sample_tree)
     ++ snd (find_ts_files (s "/r") sample_tree)
     = [s "/r/index.ts"; s "/r/src/a.ts"; s "/r/src/b.ts"; s "/r/src/a_test.ts"].
Proof.
  split; [|vm_compute; reflexivity].
  apply (no_file_is_listed_twice (s "/r") sample_tree);
    [reflexivity | apply sample_tree_unique].
Defined.

(** ** Listed paths are absolute, normal and below the root *)

(** A path component as [normpath] leaves it: a file name other than [.]
    and [..]. *)
Definition clean_name (n : str) : bool :=
  wf_name n && negb (str_eqb n [dot]) && negb (str_eqb n dotdot).

(** The absolute path with the given components. *)
Definition abs_of (comps : list str) : str := slash :: join (s "/") comps.

Lemma clean_name_wf (n : str) : clean_name n = true -> wf_name n = true.
Proof. unfold clean_name. rewrite !andb_true_iff. tauto. Qed.

Lemma clean_names_wf (l : list str) :
  Forall (fun n => clean_name n = true) l -> Forall (fun n => wf_name n = true) l.
Proof. apply Forall_impl. exact clean_name_wf. Qed.

Lemma wf_no_slash (n : str) :
  wf_name n = true -> Forall (fun c => c <> slash) n.
Proof. intros W. destruct (wf_name_shape _ W) as [? [? [_ F]]]. exact F. Qed.

Lemma split_on_before_slash : forall n rest,
  Forall (fun c => c <> slash) n ->
  split_on slash (n ++ slash :: rest) = n :: split_on slash rest.
Proof.
  induction n as [|c n IH]; intros rest F; cbn [app split_on].
  - rewrite chr_eqb_refl. reflexivity.
  - inversion F as [|? ? Hc F']; subst.
    replace (chr_eqb c slash) with false by (symmetry; apply chr_eqb_neq, Hc).
    rewrite (IH rest F'). reflexivity.
Qed.

Lemma split_on_no_slash : forall n,
  Forall (fun c => c <> slash) n -> split_on slash n = [n].
Proof.
  induction n as [|c n IH]; intros F; cbn [split_on]; [reflexivity|].
  inversion F as [|? ? Hc F']; subst.
  replace (chr_eqb c slash) with false by (symmetry; apply chr_eqb_neq, Hc).
  rewrite (IH F'). reflexivity.
Qed.

Lemma split_on_join : forall comps,
  Forall (fun n => wf_name n = true) comps -> comps <> [] ->
  split_on slash (join (s "/") comps) = comps.
Proof.
  induction comps as [|c comps IH]; intros F N; [contradiction|].
  inversion F as [|? ? Wc F']; subst.
  destruct comps as [|c' comps].
  - apply split_on_no_slash, wf_no_slash, Wc.
  - change (join (s "/") (c :: c' :: comps))
      with (c ++ slash :: join (s "/") (c' :: comps)).
    rewrite split_on_before_slash by (apply wf_no_slash, Wc).
    rewrite IH; [reflexivity | exact F' | discriminate].
Qed.

Lemma split_on_abs_of (comps : list str) :
  Forall (fun n => wf_name n = true) comps ->
  split_on slash (abs_of comps) = [] :: match comps with [] => [[]] | _ => comps end.
Proof.
  intros F. unfold abs_of. cbn [split_on]. rewrite chr_eqb_refl. f_equal.
  destruct comps as [|c comps]; [reflexivity|].
  apply split_on_join; [exact F | discriminate].
Qed.

Lemma norm_step_clean (k : nat) (acc : list str) (n : str) :
  clean_name n = true -> norm_step k acc n = n :: acc.
Proof.
  unfold clean_name, wf_name. rewrite !andb_true_iff, !negb_true_iff.
  intros [[[E _] D] DD]. unfold norm_step. rewrite E, D, DD. reflexivity.
Qed.

Lemma norm_fold_clean (k : nat) : forall comps acc,
  Forall (fun n => clean_name n = true) comps ->
  fold_left (norm_step k) comps acc = rev comps ++ acc.
Proof.
  induction comps as [|c comps IH]; intros acc F; [reflexivity|].
  inversion F as [|? ? Hc F']; subst. cbn [fold_left rev].
  rewrite norm_step_clean by exact Hc. rewrite IH by exact F'.
  rewrite <- app_assoc. reflexivity.
Qed.

Lemma abs_of_one_slash (comps : list str) :
  Forall (fun n => wf_name n = true) comps ->
  startswith (abs_of comps) [slash; slash] = false.
Proof.
  intros F. unfold abs_of.
  destruct comps as [|c comps]; [reflexivity|].
  inversion F as [|? ? Wc _]; subst.
  destruct (wf_name_shape _ Wc) as [x [r [-> Fx]]]. inversion Fx; subst.
  match goal with
  | |- context [join ?a ?b] =>
      assert (E : exists rest, join a b = x :: rest)
        by (destruct comps; [exists r | eexists]; reflexivity)
  end.
  destruct E as [rest ->]. cbn [startswith]. rewrite chr_eqb_refl.
  replace (chr_eqb x slash) with false by (symmetry; apply chr_eqb_neq; assumption).
  reflexivity.
Qed.

Lemma normpath_abs_of (comps : list str) :
  Forall (fun n => clean_name n = true) comps ->
  normpath (abs_of comps) = abs_of comps.
Proof.
  intros F. pose proof (clean_names_wf _ F) as W.
  unfold normpath. change (abs_of comps) with (slash :: join (s "/") comps) at 1.
  cbv iota. fold (abs_of comps).
  replace (startswith (abs_of comps) [slash]) with true
    by (unfold abs_of; cbn [startswith]; rewrite chr_eqb_refl; reflexivity).
  rewrite (abs_of_one_slash comps W). cbn [andb].
  rewrite (split_on_abs_of comps W). cbn [fold_left].
  change (norm_step 1 [] []) with (@nil str).
  destruct comps as [|c comps].
  - reflexivity.
  - rewrite (norm_fold_clean 1 (c :: comps) [] F), app_nil_r, rev_involutive.
    reflexivity.
Qed.

Lemma abspath_abs_of (cwd : str) (comps : list str) :
  Forall (fun n => clean_name n = true) comps ->
  abspath cwd (abs_of comps) = abs_of comps.
Proof.
  intros F. unfold abspath.
  replace (startswith (abs_of comps) [slash]) with true
    by (unfold abs_of; cbn [startswith]; rewrite chr_eqb_refl; reflexivity).
  apply normpath_abs_of, F.
Qed.

Lemma components_abs_of (comps : list str) :
  Forall (fun n => wf_name n = true) comps -> components (abs_of comps) = comps.
Proof.
  intros F. unfold components. rewrite (split_on_abs_of comps F).
  cbn [filter str_eqb negb].
  destruct comps as [|c comps]; [reflexivity|].
  apply forallb_filter_id. apply forallb_forall. intros n Hn.
  rewrite Forall_forall in F. specialize (F _ Hn).
  destruct (wf_name_shape _ F) as [x [r [-> _]]]. reflexivity.
Qed.

Lemma join_app : forall a b,
  a <> [] -> b <> [] ->
  join (s "/") (a ++ b) = join (s "/") a ++ s "/" ++ join (s "/") b.
Proof.
  induction a as [|x a IH]; intros b Na Nb; [contradiction|].
  destruct a as [|y a].
  - destruct b; [contradiction | reflexivity].
  - change (join (s "/") ((x :: y :: a) ++ b))
      with (x ++ s "/" ++ join (s "/") ((y :: a) ++ b)).
    rewrite IH by (assumption || discriminate).
    change (join (s "/") (x :: y :: a)) with (x ++ s "/" ++ join (s "/") (y :: a)).
    rewrite <- !app_assoc. reflexivity.
Qed.

Lemma sepfix_abs_of (comps rest : list str) :
  Forall (fun n => wf_name n = true) comps -> rest <> [] ->
  sepfix (abs_of comps) ++ join (s "/") rest = abs_of (comps ++ rest).
Proof.
  intros F N. destruct comps as [|c comps] using rev_ind; [reflexivity|].
  clear IHcomps. apply Forall_app in F as [_ F]. inversion F as [|? ? Wc _]; subst.
  assert (E : exists u, abs_of (comps ++ [c]) = u ++ c).
  { unfold abs_of. destruct comps as [|d comps].
    - exists [slash]. reflexivity.
    - exists (slash :: join (s "/") (d :: comps) ++ s "/").
      rewrite join_app by discriminate. cbn [join app].
      rewrite <- !app_assoc. reflexivity. }
  destruct E as [u E]. rewrite E, sepfix_after_name by exact Wc.
  rewrite (app_assoc u c), <- E. unfold abs_of.
  rewrite (join_app (comps ++ [c]) rest) by (try exact N; destruct comps; discriminate).
  cbn [app]. rewrite <- !app_assoc. reflexivity.
Qed.

Lemma path_of_abs_of (rcomps comps : list str) (f : str) :
  Forall (fun n => wf_name n = true) rcomps ->
  Forall (fun n => wf_name n = true) comps -> wf_name f = true ->
  path_of (abs_of rcomps) comps f = abs_of (rcomps ++ comps ++ [f]).
Proof.
  intros Fr Fc Wf. rewrite path_of_join by assumption.
  apply sepfix_abs_of; [exact Fr | destruct comps; discriminate].
Qed.

Lemma drop_common_prefix : forall r rest,
  drop_common r (r ++ rest) = ([], rest).
Proof.
  induction r as [|x r IH]; intros rest; [destruct rest; reflexivity|].
  cbn [app drop_common]. rewrite str_eqb_refl. apply IH.
Qed.

Lemma fold_path_join : forall rest u n,
  wf_name n = true -> Forall (fun c => wf_name c = true) rest ->
  fold_left path_join rest (u ++ n) = u ++ join (s "/") (n :: rest).
Proof.
  induction rest as [|c rest IH]; intros u n Wn F; [reflexivity|].
  inversion F as [|? ? Wc F']; subst. cbn [fold_left].
  rewrite (path_join_wf _ c Wc), sepfix_after_name by exact Wn.
  rewrite (IH (u ++ n ++ s "/") c Wc F').
  change (join (s "/") (n :: c :: rest)) with (n ++ s "/" ++ join (s "/") (c :: rest)).
  rewrite <- !app_assoc. reflexivity.
Qed.

Lemma relpath_abs_of (cwd : str) (rcomps rest : list str) :
  Forall (fun n => clean_name n = true) rcomps ->
  Forall (fun n => clean_name n = true) rest -> rest <> [] ->
  relpath cwd (abs_of (rcomps ++ rest)) (abs_of rcomps) = join (s "/") rest.
Proof.
  intros Fr Fx N. unfold relpath.
  assert (Fa : Forall (fun n => clean_name n = true) (rcomps ++ rest))
    by (apply Forall_app; auto).
  rewrite !abspath_abs_of by assumption.
  rewrite !components_abs_of by (apply clean_names_wf; assumption).
  rewrite drop_common_prefix. cbn [map app].
  destruct rest as [|x rest]; [contradiction|]. cbn [tl hd].
  apply clean_names_wf in Fx. inversion Fx as [|? ? Wx Fx']; subst.
  apply (fold_path_join rest [] x Wx Fx').
Qed.

Lemma kept_name_clean (d : str) :
  wf_name d = true -> keep_dir d = true -> clean_name d = true.
Proof.
  intros W K. unfold clean_name. rewrite W. cbn [andb].
  destruct (str_eqb d [dot]) eqn:E1.
  { apply str_eqb_eq in E1. subst. discriminate. }
  destruct (str_eqb d dotdot) eqn:E2.
  { apply str_eqb_eq in E2. subst. discriminate. }
  reflexivity.
Qed.

Lemma source_name_clean (f : str) :
  wf_name f = true -> is_ts f = true -> clean_name f = true.
Proof.
  intros W K. unfold clean_name. rewrite W. cbn [andb].
  destruct (str_eqb f [dot]) eqn:E1.
  { apply str_eqb_eq in E1. subst. discriminate. }
  destruct (str_eqb f dotdot) eqn:E2.
  { apply str_eqb_eq in E2. subst. discriminate. }
  reflexivity.
Qed.

(** X20: when the scan root is a normal absolute path and the names of
    the tree are file names, every listed path is absolute and normal, so
    [os.path.abspath] leaves it as it is and the keys of the two maps are
    the listed paths themselves; and its path relative to the root, which
    the section header and footer show, is the names of the directories
    below the root and of the file, joined by slashes. *)
Theorem listed_paths_are_normal (w : World) (rcomps : list str) (t : tree)
  (p : str) :
  Forall (fun n => clean_name n = true) rcomps ->
  wf_tree t = true ->
  In p (fst (find_ts_files (abs_of rcomps) t)
        ++ snd (find_ts_files (abs_of rcomps) t)) ->
  abspath (getcwd w) p = p
  /\ exists comps f,
       located t comps f
       /\ p = abs_of (rcomps ++ comps ++ [f])
       /\ relpath (getcwd w) p (abs_of rcomps) = join (s "/") (comps ++ [f]).
Proof.
  intros Fr W H. rewrite find_ts_files_eq in H. cbn [fst snd] in H.
  assert (L : exists pick,
             (forall f, pick f = true -> is_ts f = true)
             /\ In p (paths_where pick (os_walk keep_dir (abs_of rcomps) t))).
  { apply in_app_or in H as [H|H]; apply (proj1 (sorted_In _ _)) in H.
    - exists is_main_name. split; [|exact H].
      intros f K. apply is_main_name_spec in K. apply K.
    - exists is_test_name. split; [|exact H].
      intros f K. apply is_test_name_spec in K. apply K. }
  destruct L as [pick [Hp L]].
  apply listed_iff in L as [comps [f [Lo [K [Pk ->]]]]].
  destruct Lo as [files [D Hf]].
  destruct (wf_dir_at _ _ _ D W) as [Wc Wfs].
  assert (Wf : wf_name f = true) by (rewrite Forall_forall in Wfs; apply Wfs, Hf).
  assert (Cc : Forall (fun n => clean_name n = true) comps).
  { rewrite Forall_forall in *. intros d Hd. apply kept_name_clean; auto. }
  assert (Cf : clean_name f = true) by (apply source_name_clean; auto).
  assert (Cx : Forall (fun n => clean_name n = true) (comps ++ [f])).
  { apply Forall_app. split; [exact Cc | repeat constructor; exact Cf]. }
  rewrite (path_of_abs_of rcomps comps f (clean_names_wf _ Fr) Wc Wf).
  split.
  - apply abspath_abs_of. apply Forall_app. auto.
  - exists comps, f. split; [exists files; auto|]. split; [reflexivity|].
    apply relpath_abs_of; [exact Fr | exact Cx | destruct comps; discriminate].
Qed.

Lemma listed_paths_are_normal_witness :
  find_ts_files (abs_of [s "home"; s "proj"]) sample_tree
  = ([s "/home/proj/index.ts"; s "/home/proj/src/a.ts"; s "/home/proj/src/b.ts"],
     [s "/home/proj/src/a_test.ts"])
  /\ abspath (getcwd project_world) (s "/home/proj/src/a_test.ts")
     = s "/home/proj/src/a_test.ts"
  /\ exists comps f,
       located sample_tree comps f
       /\ s "/home/proj/src/a_test.ts" = abs_of ([s "home"; s "proj"] ++ comps ++ [f])
       /\ relpath (getcwd project_world) (s "/home/proj/src/a_test.ts")
                  (abs_of [s "home"; s "proj"])
          = join (s "/") (comps ++ [f]).
Proof.
  split; [vm_compute; reflexivity|].
  apply (listed_paths_are_normal project_world [s "home"; s "proj"] sample_tree
           (s "/home/proj/src/a_test.ts")).
  - repeat constructor.
  - reflexivity.
  - vm_compute. do 3 right. left. reflexivity.
Defined.

(** ** The chunks of a pass *)

Lemma drop_while_head (p : ascii -> bool) : forall t c r,
  drop_while p t = c :: r -> p c = false.
Proof.
  induction t as [|x t IH]; intros c r H; simpl in H; [discriminate|].
  destruct (p x) eqn:E; [eapply IH; exact H|].
  injection H as <- _. exact E.
Qed.

Lemma drop_while_suffix (p : ascii -> bool) : forall t,
  exists pre, t = pre ++ drop_while p t.
Proof.
  induction t as [|x t [pre IH]]; [exists []; reflexivity|].
  simpl. destruct (p x); [|exists []; reflexivity].
  exists (x :: pre). simpl. f_equal. exact IH.
Qed.

Lemma strip_first (t : str) (c : ascii) (r : str) :
  strip t = c :: r -> is_space c = false.
Proof.
  unfold strip. intros H.
  destruct (drop_while_suffix is_space (rev (drop_while is_space t))) as [pre E].
  apply (f_equal (@rev ascii)) in E. rewrite rev_involutive, rev_app_distr, H in E.
  apply (drop_while_head is_space t c (r ++ rev pre)). exact E.
Qed.

Lemma strip_last (t : str) (c : ascii) (init : str) :
  strip t = init ++ [c] -> is_space c = false.
Proof.
  unfold strip. intros H.
  apply (f_equal (@rev ascii)) in H. rewrite rev_involutive, rev_app_distr in H.
  eapply (drop_while_head is_space _ c (rev init)). exact H.
Qed.

(** X21: every chunk of a pass comes from one readable file of the pass
    and is that file's section header, its transformed content without
    the white space around it, and its section footer; the content
    between header and footer is never empty and neither begins nor ends
    with white space.  There are at most as many chunks as files. *)
Theorem chunks_are_framed_bodies (w : World) (base : str) (files : list str)
  (m : Maps) :
  (forall chunk,
      In chunk (fst (process_and_collect w files base m)) ->
      exists f content body,
        In f files /\ read_text w f = inl content
        /\ body = strip (transform content) /\ body <> []
        /\ chunk = create_section_header (relpath (getcwd w) f base) ++ body
                   ++ create_section_footer (relpath (getcwd w) f base)
        /\ (forall c r, body = c :: r -> is_space c = false)
        /\ (forall init c, body = init ++ [c] -> is_space c = false))
  /\ length (fst (process_and_collect w files base m)) <= length files.
Proof.
  rewrite process_and_collect_eq. cbn [fst]. split.
  - intros chunk H. apply in_flat_map in H as [f [Hf H]].
    unfold file_chunk in H.
    destruct (read_text w f) as [content|e] eqn:R; [|contradiction].
    unfold chunks_after in H.
    destruct (strip (transform content)) as [|c body] eqn:E; [contradiction|].
    destruct H as [<-|[]].
    exists f, content, (c :: body). rewrite E.
    repeat split; try assumption; try discriminate.
    + intros c' r [= <- <-]. apply (strip_first _ _ _ E).
    + intros init c' E'. rewrite E' in E. apply (strip_last _ _ _ E).
  - induction files as [|f files IH]; [apply le_n|].
    cbn [flat_map]. rewrite length_app.
    assert (L : length (file_chunk w base f) <= 1).
    { unfold file_chunk, chunks_after.
      destruct (read_text w f); [|apply Nat.le_0_l].
      destruct (strip (transform _)); simpl; lia. }
    simpl. lia.
Qed.

(** * cats.py: the plain concatenator

    [concatenate_js_files()] as the script calls it, with the default
    output name [cats.txt].  The run sees the names in its directory, in
    the order the file system gives them, and what reading each of them
    yields: the text, or the message of the exception. *)

(** [glob.glob("*.js")]: the names that end with [.js]; a pattern that
    does not begin with a dot matches no name that does. *)
Definition glob_js (listing : list str) : list str :=
  filter (fun name => negb (startswith name (s ".")) && endswith name (s ".js"))
         listing.

Definition separator : str :=
  [newline; newline] ++ repeat "-"%char 80 ++ [newline; newline].

(** The loop over [js_files]: what has been written when it ends, and the
    exception that ended it, if any. *)
Fixpoint write_files (read : str -> str + str) (js_files : list str) (out : str)
  : str * option str :=
  match js_files with
  | [] => (out, None)
  | js_file :: rest =>
      match read js_file with
      | inl text => write_files read rest (out ++ text ++ separator)
      | inr e => (out, Some e)
      end
  end.

Record Concatenation : Type := {
  (** What the run wrote to [cats.txt], if it opened it. *)
  cats_txt : option str;
  (** The exception that ended the run, if one did. *)
  raised : option str;
  stdout : list str
}.

(** [open_error]: the exception of opening [cats.txt] for writing, if
    that fails. *)
Definition concatenate_js_files (listing : list str) (read : str -> str + str)
  (open_error : option str) : Concatenation :=
  match glob_js listing with
  | [] =>
      {| cats_txt := None; raised := None;
         stdout := [s "No .js files found in the current directory."] |}
  | js_files =>
      match open_error with
      | Some e => {| cats_txt := None; raised := Some e; stdout := [] |}
      | None =>
          let '(text, err) := write_files read js_files [] in
          {| cats_txt := Some text;
             raised := err;
             stdout := match err with
                       | None => [s "Concatenated .js files into 'cats.txt'"]
                       | Some _ => []
                       end |}
      end
  end.

(** The text of a file that can be read. *)
Definition text_of (read : str -> str + str) (name : str) : str :=
  match read name with inl text => text | inr _ => [] end.

Definition readable (read : str -> str + str) (name : str) : Prop :=
  exists text, read name = inl text.

Lemma write_files_app (read : str -> str + str) : forall pre rest out,
  Forall (readable read) pre ->
  write_files read (pre ++ rest) out
  = write_files read rest
      (out ++ concat (map (fun f => text_of read f ++ separator) pre)).
Proof.
  induction pre as [|f pre IH]; intros rest out F; cbn [app map concat write_files].
  - rewrite app_nil_r. reflexivity.
  - inversion F as [|? ? [text R] F']; subst.
    rewrite R, (IH rest _ F'). unfold text_of at 2. rewrite R.
    rewrite <- !app_assoc. reflexivity.
Qed.

(** X22: when every [.js] file can be read, the output holds, for each
    name that ends with [.js] and does not begin with a dot, in the order
    of the directory listing, the text of the file followed by the
    separator line, the last file included; other names add nothing.
    When no name matches, the output file is not even opened. *)
Theorem concatenation_of_readable_files (listing : list str)
  (read : str -> str + str) :
  Forall (readable read) (glob_js listing) ->
  concatenate_js_files listing read None
  = match glob_js listing with
    | [] =>
        {| cats_txt := None; raised := None;
           stdout := [s "No .js files found in the current directory."] |}
    | js_files =>
        {| cats_txt :=
             Some (concat (map (fun f => text_of read f ++ separator) js_files));
           raised := None;
           stdout := [s "Concatenated .js files into 'cats.txt'"] |}
    end.
Proof.
  intros F. unfold concatenate_js_files.
  destruct (glob_js listing) as [|f js] eqn:G; [reflexivity|].
  pose proof (write_files_app read (f :: js) [] [] F) as W.
  rewrite app_nil_r in W. rewrite W. reflexivity.
Qed.

Definition js_directory (name : str) : str + str :=
  if str_eqb name (s "b.js") then inl (s "let b;")
  else if str_eqb name (s "a.js") then inl (s "let a;")
  else if str_eqb name (s ".hidden.js") then inl (s "let h;")
  else if str_eqb name (s "notes.txt") then inl (s "notes")
  else inr (s "Is a directory").

Lemma concatenation_of_readable_files_witness :
  concatenate_js_files [s "b.js"; s "notes.txt"; s ".hidden.js"; s "a.js"]
    js_directory None
  = {| cats_txt := Some (s "let b;" ++ separator ++ s "let a;" ++ separator);
       raised := None;
       stdout := [s "Concatenated .js files into 'cats.txt'"] |}.
Proof.
  rewrite (concatenation_of_readable_files
             [s "b.js"; s "notes.txt"; s ".hidden.js"; s "a.js"] js_directory).
  - vm_compute. reflexivity.
  - repeat constructor; eexists; vm_compute; reflexivity.
Defined.

(** X23: a file that cannot be read ends the run with its exception.  The
    output then holds the files before it, each followed by the
    separator, and nothing of the files after it, and the closing message
    is not printed. *)
Theorem read_failure_leaves_partial_output (listing : list str)
  (read : str -> str + str) (pre post : list str) (js_file e : str) :
  glob_js listing = pre ++ js_file :: post ->
  Forall (readable read) pre ->
  read js_file = inr e ->
  concatenate_js_files listing read None
  = {| cats_txt := Some (concat (map (fun f => text_of read f ++ separator) pre));
       raised := Some e;
       stdout := [] |}.
Proof.
  intros G F R. unfold concatenate_js_files. rewrite G.
  destruct (pre ++ js_file :: post) as [|f js] eqn:E;
    [destruct pre; discriminate|].
  rewrite <- E, (write_files_app read pre (js_file :: post) [] F).
  cbn [write_files app]. rewrite R. reflexivity.
Qed.

Lemma read_failure_leaves_partial_output_witness :
  concatenate_js_files [s "b.js"; s "pkg.js"; s "a.js"] js_directory None
  = {| cats_txt := Some (s "let b;" ++ separator);
       raised := Some (s "Is a directory");
       stdout := [] |}.
Proof.
  rewrite (read_failure_leaves_partial_output [s "b.js"; s "pkg.js"; s "a.js"]
             js_directory [s "b.js"] [s "a.js"] (s "pkg.js") (s "Is a directory")).
  - vm_compute. reflexivity.
  - vm_compute. reflexivity.
  - repeat constructor. eexists. vm_compute. reflexivity.
  - reflexivity.
Defined.

(** ** [os.path.abspath] gives a normal path *)

Lemma split_on_parts : forall q,
  Forall (fun part => forallb not_slash part = true) (split_on slash q).
Proof.
  induction q as [|c q IH]; cbn [split_on]; [repeat constructor|].
  destruct (chr_eqb c slash) eqn:E; [constructor; [reflexivity | exact IH]|].
  destruct (split_on slash q) as [|x xs]; [repeat constructor; simpl|].
  - unfold not_slash. rewrite E. reflexivity.
  - inversion IH as [|? ? Hx Hxs]; subst. constructor; [|exact Hxs].
    simpl. unfold not_slash at 1. rewrite E. exact Hx.
Qed.

Lemma norm_step_keeps_clean (k : nat) (acc : list str) (comp : str) :
  k <> 0 -> forallb not_slash comp = true ->
  Forall (fun n => clean_name n = true) acc ->
  Forall (fun n => clean_name n = true) (norm_step k acc comp).
Proof.
  intros K S F. unfold norm_step.
  destruct (str_eqb comp []) eqn:E0; [exact F|].
  destruct (str_eqb comp [dot]) eqn:E1; [exact F|]. cbn [orb].
  replace ((k =? 0) && (length acc =? 0)) with false
    by (symmetry; apply andb_false_iff; left; apply Nat.eqb_neq, K).
  replace (match acc with top :: _ => str_eqb top dotdot | [] => false end)
    with false.
  - rewrite !orb_false_r. destruct (str_eqb comp dotdot) eqn:E2; cbn [negb].
    + destruct acc as [|top acc]; [constructor|]. inversion F; assumption.
    + constructor; [|exact F]. unfold clean_name, wf_name.
      rewrite E0, E1, E2, S. reflexivity.
  - destruct acc as [|top acc]; [reflexivity|]. inversion F as [|? ? Ht _]; subst.
    unfold clean_name in Ht. apply andb_true_iff in Ht as [_ Ht].
    apply negb_true_iff in Ht. symmetry. exact Ht.
Qed.

Lemma norm_fold_keeps_clean (k : nat) : k <> 0 -> forall parts acc,
  Forall (fun part => forallb not_slash part = true) parts ->
  Forall (fun n => clean_name n = true) acc ->
  Forall (fun n => clean_name n = true) (fold_left (norm_step k) parts acc).
Proof.
  intros K. induction parts as [|c parts IH]; intros acc P F; [exact F|].
  inversion P as [|? ? Hc P']; subst. cbn [fold_left].
  apply IH; [exact P' | apply norm_step_keeps_clean; assumption].
Qed.

(** The normal form of a path that begins with a slash: one or two
    slashes, then clean components joined by slashes. *)
Lemma normpath_absolute (q : str) :
  startswith q [slash] = true ->
  exists k comps,
    (k = 1 \/ k = 2) /\ Forall (fun n => clean_name n = true) comps
    /\ normpath q = repeat slash k ++ join (s "/") comps.
Proof.
  intros A. destruct q as [|c q]; [discriminate|].
  unfold normpath. rewrite A.
  set (k := if startswith (c :: q) [slash; slash]
               && negb (startswith (c :: q) [slash; slash; slash])
            then 2 else 1).
  assert (K : k = 1 \/ k = 2) by (unfold k; destruct (_ && _); auto).
  assert (K0 : k <> 0) by (destruct K; lia).
  exists k, (rev (fold_left (norm_step k) (split_on slash (c :: q)) [])).
  split; [exact K|]. split.
  - apply Forall_rev, norm_fold_keeps_clean;
      [exact K0 | apply split_on_parts | constructor].
  - cbv zeta. destruct K as [-> | ->]; reflexivity.
Qed.

Lemma normpath_two_slashes (comps : list str) :
  Forall (fun n => clean_name n = true) comps ->
  normpath (slash :: abs_of comps) = slash :: abs_of comps.
Proof.
  intros F. pose proof (clean_names_wf _ F) as W.
  unfold normpath. cbv iota.
  replace (startswith (slash :: abs_of comps) [slash]) with true
    by (cbn [startswith]; rewrite chr_eqb_refl; reflexivity).
  replace (startswith (slash :: abs_of comps) [slash; slash]) with true
    by (unfold abs_of; cbn [startswith]; rewrite !chr_eqb_refl; reflexivity).
  replace (startswith (slash :: abs_of comps) [slash; slash; slash]) with false
    by (cbn [startswith]; rewrite chr_eqb_refl; cbn [andb]; symmetry;
        apply (abs_of_one_slash comps W)).
  cbn [andb negb].
  change (split_on slash (slash :: abs_of comps))
    with (if chr_eqb slash slash then [] :: split_on slash (abs_of comps)
          else match split_on slash (abs_of comps) with
               | x :: xs => (slash :: x) :: xs
               | [] => [[slash]]
               end).
  rewrite chr_eqb_refl, (split_on_abs_of comps W). cbn [fold_left].
  repeat change (norm_step 2 [] []) with (@nil str).
  destruct comps as [|c comps].
  - reflexivity.
  - rewrite (norm_fold_clean 2 (c :: comps) [] F), app_nil_r, rev_involutive.
    reflexivity.
Qed.

Lemma normpath_normpath (q : str) :
  startswith q [slash] = true ->
  normpath (normpath q) = normpath q /\ startswith (normpath q) [slash] = true.
Proof.
  intros A. destruct (normpath_absolute q A) as [k [comps [[-> | ->] [F ->]]]];
    cbn [repeat app]; fold (abs_of comps).
  - split; [apply normpath_abs_of, F|].
    unfold abs_of. cbn [startswith]. rewrite chr_eqb_refl. reflexivity.
  - split; [apply normpath_two_slashes, F|].
    cbn [startswith]. rewrite chr_eqb_refl. reflexivity.
Qed.

Lemma path_join_absolute (cwd p : str) :
  startswith cwd [slash] = true -> startswith (path_join cwd p) [slash] = true.
Proof.
  intros A. unfold path_join.
  destruct (startswith p (s "/")) eqn:E; [exact E|].
  destruct cwd as [|c cwd]; [discriminate|].
  destruct (str_eqb (c :: cwd) [] || endswith (c :: cwd) (s "/")); exact A.
Qed.

(** X24: with an absolute working directory, [os.path.abspath] returns an
    absolute path that it maps to itself.  So calling it on a path that
    is already its result, as [find_ts_files] does on the directory
    [main] hands it, changes nothing. *)
Theorem abspath_is_idempotent (cwd p : str) :
  startswith cwd (s "/") = true ->
  abspath cwd (abspath cwd p) = abspath cwd p
  /\ startswith (abspath cwd p) (s "/") = true.
Proof.
  intros A. unfold abspath at 2 3 4.
  set (q := if startswith p [slash] then p else path_join cwd p).
  assert (Q : startswith q [slash] = true).
  { unfold q. destruct (startswith p [slash]) eqn:E; [exact E|].
    apply path_join_absolute, A. }
  destruct (normpath_normpath q Q) as [N S]. split; [|exact S].
  unfold abspath. rewrite S. exact N.
Qed.

Lemma abspath_is_idempotent_witness :
  abspath (s "/home/me") (s "../x/./y//z/..") = s "/home/x/y"
  /\ abspath (s "/home/me") (abspath (s "/home/me") (s "../x/./y//z/.."))
     = abspath (s "/home/me") (s "../x/./y//z/..").
Proof.
  split; [vm_compute; reflexivity|].
  apply (abspath_is_idempotent (s "/home/me") (s "../x/./y//z/..")).
  reflexivity.
Defined.

(** ** A namespace import that the pattern finds *)

Lemma run_lit_str : forall x prev t cs k,
  run (lit_str x) prev (x ++ t) cs k = k (prev_after prev x) t cs.
Proof.
  induction x as [|c x IH]; intros prev t cs k; [reflexivity|].
  cbn [lit_str fold_right app run]. unfold only at 1. rewrite chr_eqb_refl.
  apply (IH (Some c)).
Qed.

Lemma run_chr_cons (p : ascii -> bool) (c : ascii) prev t cs k :
  p c = true -> run (Chr p) prev (c :: t) cs k = k (Some c) t cs.
Proof. intros H. cbn [run]. rewrite H. reflexivity. Qed.

(** The text does not go on with a character of the class. *)
Definition stops (p : ascii -> bool) (t : str) : bool :=
  match t with
  | [] => true
  | c :: _ => negb (p c)
  end.

Lemma star_greedy_stop (p : ascii -> bool) prev t cs k :
  stops p t = true -> star_greedy p prev t cs k = k prev t cs.
Proof.
  destruct t as [|c t]; [reflexivity|]. cbn [stops star_greedy].
  intros H. apply negb_true_iff in H. rewrite H. reflexivity.
Qed.

(** A greedy repetition takes a whole run of the class when the rest of
    the pattern matches after it. *)
Lemma star_greedy_all (p : ascii -> bool) (k : cont) (res : str * caps) :
  forall u prev t cs,
  forallb p u = true -> stops p t = true ->
  k (prev_after prev u) t cs = Some res ->
  star_greedy p prev (u ++ t) cs k = Some res.
Proof.
  induction u as [|c u IH]; intros prev t cs F S K.
  - cbn [app]. rewrite star_greedy_stop by exact S. exact K.
  - cbn [forallb] in F. apply andb_true_iff in F as [Hc F].
    cbn [app star_greedy]. rewrite Hc.
    rewrite (IH (Some c) t cs F S K). reflexivity.
Qed.

Lemma run_plus_all (p : ascii -> bool) (k : cont) (res : str * caps)
  (u : str) prev t cs :
  u <> [] -> forallb p u = true -> stops p t = true ->
  k (prev_after prev u) t cs = Some res ->
  run (plus p) prev (u ++ t) cs k = Some res.
Proof.
  intros N F S K. destruct u as [|c u]; [contradiction|].
  cbn [forallb] in F. apply andb_true_iff in F as [Hc F].
  unfold plus. cbn [run app]. rewrite Hc.
  apply star_greedy_all; assumption.
Qed.

(** [import * as <alias> from '<specifier>';] *)
Definition import_line (alias specifier : str) : str :=
  s "import * as " ++ alias ++ s " from '" ++ specifier ++ s "';".

Lemma identifier_run (alias : str) :
  identifier alias = true -> alias <> [] /\ forallb is_ident alias = true.
Proof.
  unfold identifier. rewrite andb_true_iff, negb_true_iff.
  intros [N F]. split; [intros ->; discriminate | exact F].
Qed.

Lemma is_ident_not_space (c : ascii) : is_ident c = true -> is_space c = false.
Proof.
  destruct c as [[] [] [] [] [] [] [] []]; vm_compute; intros H;
    first [reflexivity | discriminate H].
Qed.

Lemma identifier_stops_space (alias t : str) :
  identifier alias = true -> stops sp (alias ++ t) = true.
Proof.
  intros H. destruct (identifier_run alias H) as [N F].
  destruct alias as [|c alias]; [contradiction|].
  cbn [forallb] in F. apply andb_true_iff in F as [Hc _].
  cbn [app stops]. unfold sp. rewrite (is_ident_not_space c Hc). reflexivity.
Qed.

Lemma namespace_import_matches (alias path rest : str) (up : bool)
  (prev : option ascii) :
  at_bol prev = true -> identifier alias = true ->
  path <> [] -> forallb not_quote path = true ->
  match_here IMPORT_NAMESPACE_REGEX prev
    (import_line alias ((if up then s "../" else s "./") ++ path)
     ++ newline :: rest)
  = Some (newline :: rest,
          [(2, (if up then s "../" else s "./") ++ path); (1, alias)]).
Proof.
  intros B Hid Np Fp. destruct (identifier_run alias Hid) as [Na Fa].
  set (spec := (if up then s "../" else s "./") ++ path).
  assert (E : import_line alias spec ++ newline :: rest
              = s "import" ++ s " " ++ s "*" ++ s " " ++ s "as" ++ s " "
                ++ alias ++ s " " ++ s "from" ++ s " "
                ++ squote :: spec ++ squote :: s ";" ++ newline :: rest).
  { unfold import_line. rewrite <- !app_assoc. reflexivity. }
  rewrite E. clear E.
  unfold match_here, IMPORT_NAMESPACE_REGEX, seq, chr, lit, opt.
  cbn [fold_right run]. rewrite B.
  rewrite star_greedy_stop by reflexivity.
  rewrite run_lit_str.
  apply run_plus_all; [discriminate | reflexivity | reflexivity |].
  rewrite run_lit_str.
  apply run_plus_all; [discriminate | reflexivity | reflexivity |].
  rewrite run_lit_str.
  apply run_plus_all;
    [discriminate | reflexivity | apply identifier_stops_space, Hid |].
  apply run_plus_all; [exact Na | exact Fa | reflexivity |].
  rewrite firstn_consumed.
  apply run_plus_all; [discriminate | reflexivity | reflexivity |].
  rewrite run_lit_str.
  apply run_plus_all; [discriminate | reflexivity | reflexivity |].
  change (quote squote) with true. cbv iota.
  unfold spec. clear spec.
  assert (Q : stops not_quote (squote :: s ";" ++ newline :: rest) = true)
    by reflexivity.
  destruct up.
  - change (s "../" ++ path) with (dot :: dot :: "/"%char :: path).
    pose proof (firstn_consumed (dot :: dot :: "/"%char :: path)
                  (squote :: s ";" ++ newline :: rest)) as FC.
    cbn [app] in FC.
    unfold relative_path, seq, opt. cbn [fold_right run app].
    change (only dot dot) with true. change (only "/"%char "/"%char) with true.
    cbv iota.
    match goal with
    | |- match run (plus ?p) ?pv (?u ++ ?t) ?cs ?k with _ => _ end = Some ?R =>
        rewrite (run_plus_all p k R u pv t cs Np Fp Q)
    end; [reflexivity|].
    cbv beta iota. change (quote squote) with true. cbv iota.
    rewrite run_lit_str, FC. reflexivity.
  - change (s "./" ++ path) with (dot :: "/"%char :: path).
    pose proof (firstn_consumed (dot :: "/"%char :: path)
                  (squote :: s ";" ++ newline :: rest)) as FC.
    cbn [app] in FC.
    unfold relative_path, seq, opt. cbn [fold_right run app].
    change (only dot dot) with true. change (only dot "/"%char) with false.
    change (only "/"%char "/"%char) with true. cbv iota.
    match goal with
    | |- run (plus ?p) ?pv (?u ++ ?t) ?cs ?k = Some ?R =>
        rewrite (run_plus_all p k R u pv t cs Np Fp Q)
    end; [reflexivity|].
    cbv beta iota. change (quote squote) with true. cbv iota.
    rewrite run_lit_str, FC. reflexivity.
Qed.

Lemma finditer_from_skip (r : re) : forall u prev t,
  finditer_from r prev (u ++ t) (length u) = finditer_from r (prev_after prev u) t 0.
Proof.
  induction u as [|c u IH]; intros prev t; [reflexivity|].
  simpl. apply IH.
Qed.

Lemma finditer_from_hit (r : re) (prev : option ascii) (c : ascii) (u t : str)
  (cs : caps) :
  match_here r prev (c :: u ++ t) = Some (t, cs) ->
  finditer_from r prev (c :: u ++ t) 0
  = (c :: u, cs) :: finditer_from r (prev_after (Some c) u) t 0.
Proof.
  intros M. cbn [finditer_from]. rewrite M. cbv zeta.
  cbn [length]. rewrite length_app.
  replace (S (length u + length t) - length t) with (S (length u)) by lia.
  cbn [Nat.sub]. rewrite Nat.sub_0_r, finditer_from_skip.
  f_equal. f_equal. change (c :: u ++ t) with ((c :: u) ++ t).
  rewrite <- (firstn_consumed (c :: u) t) at 2.
  rewrite length_app. cbn [length].
  replace (S (length u) + length t - length t) with (S (length u)) by lia.
  reflexivity.
Qed.

Lemma star_greedy_prev (p : ascii -> bool) (k : cont) :
  (forall p1 p2 t cs, k p1 t cs = k p2 t cs) ->
  forall t p1 p2 cs, star_greedy p p1 t cs k = star_greedy p p2 t cs k.
Proof.
  intros K. induction t as [|c t IH]; intros p1 p2 cs; cbn [star_greedy];
    [apply K|].
  destruct (p c); [|apply K].
  destruct (star_greedy p (Some c) t cs k); [reflexivity | apply K].
Qed.

(** The pattern looks at what precedes a position only to see whether a
    line begins there. *)
Lemma namespace_match_bol (p1 p2 : option ascii) (t : str) :
  at_bol p1 = at_bol p2 ->
  match_here IMPORT_NAMESPACE_REGEX p1 t = match_here IMPORT_NAMESPACE_REGEX p2 t.
Proof.
  intros B. unfold match_here, IMPORT_NAMESPACE_REGEX, seq, lit.
  cbn [fold_right run]. rewrite B. destruct (at_bol p2); [|reflexivity].
  apply star_greedy_prev. intros q1 q2 t' cs. reflexivity.
Qed.

Lemma namespace_finditer_bol (p1 p2 : option ascii) (t : str) :
  at_bol p1 = at_bol p2 ->
  finditer_from IMPORT_NAMESPACE_REGEX p1 t 0
  = finditer_from IMPORT_NAMESPACE_REGEX p2 t 0.
Proof.
  intros B. destruct t as [|c t]; cbn [finditer_from];
    rewrite (namespace_match_bol p1 p2 _ B); reflexivity.
Qed.

Lemma namespace_sub_bol (repl : caps -> str) (p1 p2 : option ascii) (t : str) :
  at_bol p1 = at_bol p2 ->
  sub_from IMPORT_NAMESPACE_REGEX repl p1 t 0
  = sub_from IMPORT_NAMESPACE_REGEX repl p2 t 0.
Proof.
  intros B. destruct t as [|c t]; cbn [sub_from];
    rewrite (namespace_match_bol p1 p2 _ B); reflexivity.
Qed.

(** X25: a statement [import * as <alias> from '<specifier>';] that
    begins the text and ends its line, with an identifier for alias and a
    specifier that is [./] or [../] followed by a non-empty path without
    quotes, is found by the namespace-import pattern with exactly this
    alias and specifier, and the substitution deletes it up to the line
    break; the text after the line break is searched and rewritten as a
    text of its own. *)
Theorem namespace_import_is_found_and_deleted (alias path rest : str) (up : bool) :
  identifier alias = true -> path <> [] -> forallb not_quote path = true ->
  namespace_imports
    (import_line alias ((if up then s "../" else s "./") ++ path)
     ++ newline :: rest)
  = (alias, (if up then s "../" else s "./") ++ path) :: namespace_imports rest
  /\ re_sub IMPORT_NAMESPACE_REGEX delete
       (import_line alias ((if up then s "../" else s "./") ++ path)
        ++ newline :: rest)
     = newline :: re_sub IMPORT_NAMESPACE_REGEX delete rest.
Proof.
  intros Hid Np Fp.
  pose proof (namespace_import_matches alias path rest up None eq_refl Hid Np Fp)
    as M.
  set (spec := (if up then s "../" else s "./") ++ path) in *.
  assert (E : import_line alias spec ++ newline :: rest
              = "i"%char
                :: ((s "mport * as " ++ alias ++ s " from '" ++ spec ++ s "'")
                    ++ [";"%char])
                   ++ newline :: rest).
  { unfold import_line. rewrite <- !app_assoc. reflexivity. }
  rewrite E in M |- *.
  assert (N : match_here IMPORT_NAMESPACE_REGEX (Some ";"%char) (newline :: rest)
              = None) by reflexivity.
  split.
  - unfold namespace_imports, finditer.
    rewrite (finditer_from_hit _ _ _ _ _ _ M), prev_after_last.
    cbn [finditer_from]. rewrite N.
    rewrite (namespace_finditer_bol (Some newline) None rest eq_refl).
    reflexivity.
  - unfold re_sub.
    rewrite (sub_from_hit _ _ _ _ _ _ _ M), prev_after_last.
    cbn [sub_from]. rewrite N.
    rewrite (namespace_sub_bol delete (Some newline) None rest eq_refl).
    reflexivity.
Qed.

Lemma namespace_import_is_found_and_deleted_witness :
  namespace_imports
    (import_line (s "math") (s "../" ++ s "utils/math_utils.js")
     ++ newline :: s "math.clamp(1);")
  = [(s "math", s "../utils/math_utils.js")]
  /\ re_sub IMPORT_NAMESPACE_REGEX delete
       (import_line (s "math") (s "../" ++ s "utils/math_utils.js")
        ++ newline :: s "math.clamp(1);")
     = newline :: s "math.clamp(1);".
Proof.
  destruct (namespace_import_is_found_and_deleted (s "math")
              (s "utils/math_utils.js") (s "math.clamp(1);") true)
    as [F D]; try reflexivity; [discriminate|].
  split; [rewrite F | rewrite D]; vm_compute; reflexivity.
Defined.

(** ** An exported declaration that the capture pattern finds *)

Lemma run_lit_str_fail : forall x prev t cs k,
  startswith t x = false -> run (lit_str x) prev t cs k = None.
Proof.
  induction x as [|c x IH]; intros prev t cs k H; [discriminate|].
  cbn [lit_str fold_right run]. destruct t as [|d t]; [reflexivity|].
  cbn [startswith] in H. unfold only at 1.
  destruct (chr_eqb d c); [|reflexivity].
  apply (IH (Some d)). exact H.
Qed.

(** [export <keyword> <name>] *)
Definition export_line (keyword name : str) : str :=
  s "export " ++ keyword ++ s " " ++ name.

Definition value_keywords : list str :=
  [s "class"; s "function"; s "const"; s "let"; s "var"; s "enum"].

Ltac walk_literals :=
  repeat (first [ rewrite run_lit_str
                | rewrite run_lit_str_fail by reflexivity ];
          cbv beta iota).

Ltac strip_alternatives :=
  repeat match goal with
         | |- match ?X with Some _ => _ | None => _ end = Some ?R =>
             let H := fresh in
             assert (H : X = Some R); [|rewrite H; reflexivity]
         end.

Lemma named_capture_matches (keyword name tail : str) :
  In keyword value_keywords -> identifier name = true ->
  stops is_ident tail = true ->
  match_here EXPORT_NAMED_CAPTURE_REGEX None
    (s "export" ++ s " " ++ keyword ++ s " " ++ name ++ tail)
  = Some (tail, [(2, name); (1, keyword)]).
Proof.
  intros K Hid St. destruct (identifier_run name Hid) as [Nn Fn].
  assert (Sp : stops sp (name ++ tail) = true)
    by (apply identifier_stops_space, Hid).
  unfold match_here, EXPORT_NAMED_CAPTURE_REGEX, seq, opt, alt_lits, lit.
  cbn [fold_right run]. change (at_bol None) with true. cbv iota.
  rewrite star_greedy_stop by reflexivity.
  rewrite run_lit_str.
  unfold value_keywords in K. cbn [In] in K.
  destruct K as [<-|[<-|[<-|[<-|[<-|[<-|[]]]]]]];
    (apply run_plus_all; [discriminate | reflexivity | reflexivity |]);
    walk_literals;
    rewrite firstn_consumed;
    strip_alternatives;
    (apply run_plus_all; [discriminate | reflexivity | exact Sp |]);
    (apply run_plus_all; [exact Nn | exact Fn | exact St |]);
    rewrite firstn_consumed; reflexivity.
Qed.

(** X26: the name of a declaration [export <keyword> <name>] that begins
    the original content, with one of the keywords [class], [function],
    [const], [let], [var], [enum], an identifier for name and no
    identifier character right after the name, is recorded as an
    export of the file. *)
Theorem exported_declaration_is_captured (keyword name tail : str) :
  In keyword value_keywords -> identifier name = true ->
  stops is_ident tail = true ->
  In name (capture_exports (export_line keyword name ++ tail)).
Proof.
  intros K Hid St.
  pose proof (named_capture_matches keyword name tail K Hid St) as M.
  assert (E : export_line keyword name ++ tail
              = "e"%char :: (s "xport " ++ keyword ++ s " " ++ name) ++ tail).
  { unfold export_line. rewrite <- !app_assoc. reflexivity. }
  assert (E' : s "export" ++ s " " ++ keyword ++ s " " ++ name ++ tail
               = "e"%char :: (s "xport " ++ keyword ++ s " " ++ name) ++ tail).
  { rewrite <- !app_assoc. reflexivity. }
  rewrite E' in M. rewrite E. unfold capture_exports.
  change (fold_left set_add ?l []) with (set_update [] l).
  apply set_update_In. right. apply in_or_app. left.
  unfold finditer. rewrite (finditer_from_hit _ _ _ _ _ _ M).
  left. reflexivity.
Qed.

Lemma exported_declaration_is_captured_witness :
  In (s "clamp")
     (capture_exports (export_line (s "function") (s "clamp")
                       ++ s "(x: number) { return x; }"))
  /\ capture_exports (export_line (s "function") (s "clamp")
                      ++ s "(x: number) { return x; }") = [s "clamp"].
Proof.
  split; [|vm_compute; reflexivity].
  apply (exported_declaration_is_captured (s "function") (s "clamp")).
  - right. left. reflexivity.
  - reflexivity.
  - reflexivity.
Defined.

(** ** An exported declaration loses its keyword *)

Definition declaration_keywords : list str :=
  [s "class"; s "function"; s "const"; s "let"; s "var"; s "enum";
   s "interface"; s "type"].

Ltac walk_pattern :=
  repeat first
    [ rewrite run_lit_str
    | rewrite run_lit_str_fail by reflexivity
    | match goal with
      | |- context [at_wordb ?a ?b] =>
          first [ change (at_wordb a b) with true
                | change (at_wordb a b) with false ]
      end
    | progress cbv beta iota ].

Lemma export_decl_matches (keyword more : str) :
  In keyword declaration_keywords -> stops sp more = true ->
  match_here EXPORT_DECL_PATTERN None
    (s "export" ++ s " " ++ keyword ++ s " " ++ more)
  = Some (more, [(5, s " "); (4, keyword); (1, [])]).
Proof.
  intros K St.
  unfold match_here, EXPORT_DECL_PATTERN, seq, opt, alt_lits, lit, chr.
  cbn [fold_right run]. change (at_bol None) with true. cbv iota.
  rewrite star_greedy_stop by reflexivity.
  rewrite Nat.sub_diag. cbn [firstn].
  rewrite run_lit_str.
  unfold declaration_keywords in K. cbn [In] in K.
  destruct K as [<-|[<-|[<-|[<-|[<-|[<-|[<-|[<-|[]]]]]]]]].
  all: apply run_plus_all; [discriminate | reflexivity | reflexivity |].
  all: walk_pattern; strip_alternatives.
  all: apply run_plus_all; [discriminate | reflexivity | exact St |].
  all: rewrite !firstn_consumed.
  all: reflexivity.
Qed.

Lemma contains_app_r_false (x a b : str) :
  contains (a ++ b) x = false -> contains b x = false.
Proof.
  intros H. destruct (contains b x) eqn:E; [|reflexivity].
  rewrite (contains_app_r x b a E) in H. discriminate.
Qed.

(** X27: in a file that begins with [export <keyword> ...], with one of
    the keywords [class], [function], [const], [let], [var], [enum],
    [interface], [type] and a single space after it, and that holds no
    other occurrence of the word [export] and none of the words
    [import], [@license] and [jasmine.addMatchers], the transform deletes
    the word [export] and the space after it, and nothing else. *)
Theorem export_keyword_is_removed (keyword more : str) :
  In keyword declaration_keywords ->
  stops sp more = true ->
  contains (keyword ++ s " " ++ more) (s "export") = false ->
  contains (s "export " ++ keyword ++ s " " ++ more) (s "import") = false ->
  contains (s "export " ++ keyword ++ s " " ++ more) (s "@license") = false ->
  contains (s "export " ++ keyword ++ s " " ++ more) (s "jasmine.addMatchers")
  = false ->
  transform (s "export " ++ keyword ++ s " " ++ more) = keyword ++ s " " ++ more.
Proof.
  intros K St He Hi Hl Hj.
  destruct import_patterns_mention as [M1 [M2 [M3 [M4 [M5 M6]]]]].
  destruct export_patterns_mention as [E1 [E2 [E3 [E4 _]]]].
  unfold transform.
  assert (I : strip_imports (s "export " ++ keyword ++ s " " ++ more)
              = s "export " ++ keyword ++ s " " ++ more).
  { unfold strip_imports.
    rewrite (re_sub_absent _ _ _ _ M1 Hl), (re_sub_absent _ _ _ _ M2 Hi),
      (re_sub_absent _ _ _ _ M3 Hi), (re_sub_absent _ _ _ _ M4 Hi),
      (re_sub_absent _ _ _ _ M5 Hi), (re_sub_absent _ _ _ _ M6 Hj).
    reflexivity. }
  rewrite I. unfold strip_exports.
  assert (D : re_sub EXPORT_DECL_PATTERN keep_groups_1_to_5
                (s "export " ++ keyword ++ s " " ++ more)
              = keyword ++ s " " ++ more).
  { pose proof (export_decl_matches keyword more K St) as M.
    assert (E : s "export" ++ s " " ++ keyword ++ s " " ++ more
                = "e"%char :: (s "xport " ++ keyword ++ s " ") ++ more)
      by (rewrite <- !app_assoc; reflexivity).
    assert (E' : s "export " ++ keyword ++ s " " ++ more
                 = "e"%char :: (s "xport " ++ keyword ++ s " ") ++ more)
      by (rewrite <- !app_assoc; reflexivity).
    rewrite E in M. rewrite E'. unfold re_sub.
    rewrite (sub_from_hit _ _ _ _ _ _ _ M).
    rewrite (sub_from_absent (s "export") _ _ E1);
      [|apply (contains_app_r_false _ (keyword ++ s " ")); rewrite <- app_assoc;
        exact He].
    unfold keep_groups_1_to_5, group_text. cbn [group Nat.eqb app].
    rewrite <- app_assoc. reflexivity. }
  rewrite D.
  rewrite (re_sub_absent _ _ _ _ E2 He), (re_sub_absent _ _ _ _ E3 He),
    (re_sub_absent _ _ _ _ E4 He).
  reflexivity.
Qed.

Lemma export_keyword_is_removed_witness :
  transform (s "export " ++ s "const" ++ s " "
             ++ lines ["limit = 10;"; "function f() { return limit; }"]%string)
  = s "const" ++ s " "
    ++ lines ["limit = 10;"; "function f() { return limit; }"]%string.
Proof.
  apply (export_keyword_is_removed (s "const")
           (lines ["limit = 10;"; "function f() { return limit; }"]%string)).
  - do 2 right. left. reflexivity.
  - reflexivity.
  - vm_compute. reflexivity.
  - vm_compute. reflexivity.
  - vm_compute. reflexivity.
  - vm_compute. reflexivity.
Defined.

(** * The alias objects in the written bundle *)

(** ** Texts without a dot *)

Definition dot_free (t : str) : bool :=
  forallb (fun c => negb (chr_eqb c dot)) t.

Lemma dot_free_app (a b : str) : dot_free (a ++ b) = dot_free a && dot_free b.
Proof. apply forallb_app. Qed.

Lemma identifier_dot_free (a : str) : identifier a = true -> dot_free a = true.
Proof.
  intros H. apply identifier_chars in H. unfold dot_free.
  rewrite forallb_forall in *. intros c Hc. specialize (H c Hc).
  destruct (chr_eqb c dot) eqn:E; [|reflexivity].
  apply chr_eqb_eq in E. subst c. discriminate.
Qed.

Lemma join_dot_free (sep : str) : forall parts,
  dot_free sep = true ->
  (forall x, In x parts -> dot_free x = true) ->
  dot_free (join sep parts) = true.
Proof.
  induction parts as [|x parts IH]; intros Hs H; [reflexivity|].
  destruct parts as [|y parts]; [apply H; left; reflexivity|].
  change (join sep (x :: y :: parts)) with (x ++ sep ++ join sep (y :: parts)).
  rewrite !dot_free_app, Hs, (H x) by (left; reflexivity).
  rewrite IH; [reflexivity | exact Hs | intros z Hz; apply H; right; exact Hz].
Qed.

Lemma const_decl_dot_free (alias : str) (symbols : list str) :
  identifier alias = true ->
  (forall x, In x symbols -> identifier x = true) ->
  dot_free (const_decl alias symbols) = true.
Proof.
  intros Ha Hs. unfold const_decl. rewrite !dot_free_app.
  rewrite (identifier_dot_free _ Ha).
  rewrite join_dot_free;
    [reflexivity | reflexivity | intros x Hx; apply identifier_dot_free, Hs, Hx].
Qed.

(** ** The rewrite on a text without a dot, and across a word boundary *)

Definition is_dot_tok (x : token) : bool :=
  match x with Other c => chr_eqb c dot | Word _ => false end.

Lemma tok_dot_free : forall t,
  dot_free t = true -> forallb (fun x => negb (is_dot_tok x)) (tok t) = true.
Proof.
  induction t as [|c t IH]; intros H; [reflexivity|].
  cbn [dot_free forallb] in H. apply andb_true_iff in H as [Hc H].
  specialize (IH H). cbn [tok]. destruct (is_word c).
  - destruct (tok t) as [|[w|d] ts]; [reflexivity| |]; cbn [forallb] in *.
    + exact IH.
    + rewrite IH. reflexivity.
  - cbn [forallb is_dot_tok]. rewrite Hc. exact IH.
Qed.

Lemma retok_dot_free (f : str -> str) : forall ts,
  forallb (fun x => negb (is_dot_tok x)) ts = true -> retok f ts = ts.
Proof.
  induction ts as [|[w|c] ts IH]; intros H; [reflexivity| |];
    cbn [forallb] in H; apply andb_true_iff in H as [Hx H]; cbn [retok];
    rewrite (IH H); [|reflexivity].
  destruct ts as [|[w'|d] ts]; try reflexivity.
  cbn [dot_next]. cbn [forallb is_dot_tok] in H.
  apply andb_true_iff in H as [Hd _]. apply negb_true_iff in Hd.
  rewrite Hd. reflexivity.
Qed.

Lemma rewrite_words_dot_free (f : str -> str) (t : str) :
  dot_free t = true -> rewrite_words f t = t.
Proof.
  intros H. unfold rewrite_words.
  rewrite (retok_dot_free f _ (tok_dot_free t H)). apply detok_tok.
Qed.

(** Where a text ends outside a word, the rewrite of what follows does
    not depend on it, nor its own rewrite on what follows. *)
Lemma rewrite_words_app (f : str -> str) (pre post : str) :
  ends_outside_word pre = true ->
  rewrite_words f (pre ++ post) = rewrite_words f pre ++ rewrite_words f post.
Proof.
  intros B. unfold rewrite_words.
  destruct pre as [|c0 pre0] eqn:E; [reflexivity|].
  rewrite <- E in *. assert (N : pre <> []) by (rewrite E; discriminate).
  destruct (exists_last N) as [pre' [c ->]].
  unfold ends_outside_word in B. rewrite prev_after_last in B.
  apply negb_true_iff in B. simpl in B.
  rewrite <- app_assoc. cbn [app].
  rewrite tok_app_after by exact B.
  rewrite (tok_app_after pre' [c]) by (simpl; exact B).
  rewrite !(tok_other c) by exact B. cbn [tok].
  rewrite retok_after_other, detok_app. reflexivity.
Qed.

Lemma ends_outside_lines : forall parts : list str,
  ends_outside_word (concat (map (fun part => part ++ [newline]) parts)) = true.
Proof.
  intros parts. destruct parts as [|x parts] using rev_ind; [reflexivity|].
  rewrite map_app, concat_app. cbn [map concat]. rewrite app_nil_r, app_assoc.
  unfold ends_outside_word. rewrite prev_after_last. reflexivity.
Qed.

Lemma lines_dot_free : forall parts : list str,
  (forall x, In x parts -> dot_free x = true) ->
  dot_free (concat (map (fun part => part ++ [newline]) parts)) = true.
Proof.
  induction parts as [|x parts IH]; intros H; [reflexivity|].
  cbn [map concat]. rewrite !dot_free_app, (H x) by (left; reflexivity).
  rewrite IH by (intros y Hy; apply H; right; exact Hy). reflexivity.
Qed.

(** No line of the declarations holds a dot: the aliases and the
    recorded names are identifiers. *)
Lemma declarations_dot_free (iter : pyset -> list str) (exports : dict pyset)
  (c2t : dict str) :
  (forall a, Permutation (iter a) a) ->
  (forall k, In k (dict_keys c2t) -> identifier k = true) ->
  (forall t name, In name (get_set exports t) -> identifier name = true) ->
  forall line, In line (fst (prefix_declarations_of iter exports c2t)) ->
               dot_free line = true.
Proof.
  intros P Hk He line H.
  destruct (dict_keys c2t) as [|k0 ks] eqn:K.
  - unfold prefix_declarations_of in H. rewrite K in H.
    change (sorted []) with (@nil str) in H. contradiction.
  - rewrite prefix_declarations_eq in H by (rewrite K; discriminate).
    cbn [fst] in H. destruct H as [<-|H]; [reflexivity|].
    apply in_app_or in H as [H|[<-|[]]]; [|reflexivity].
    apply in_flat_map in H as [alias [Ia H]]. unfold decl_of in H.
    destruct (dict_get c2t alias) as [target|]; [|contradiction].
    destruct (sorted (iter (get_set exports target))) as [|n ns] eqn:S;
      [contradiction|].
    destruct H as [<-|[]]. apply const_decl_dot_free.
    + apply Hk. rewrite <- K. apply sorted_In. exact Ia.
    + intros x Hx. apply (He target). apply (Permutation_in _ (P _)).
      apply sorted_In. rewrite S. exact Hx.
Qed.

(** The text of the main bundle: the rewrite leaves the declarations as
    they are, and acts on the banner and on the chunks. *)
Lemma assemble_main_text (LICENSE_TEXT TEST_HARNESS_CODE : str)
  (iter : pyset -> list str) (namespace_imports_map : dict (dict str))
  (code_chunks : list str) (exports : dict pyset) :
  (forall a, Permutation (iter a) a) ->
  identifier_aliases namespace_imports_map ->
  (forall t name, In name (get_set exports t) -> identifier name = true) ->
  fst (assemble LICENSE_TEXT TEST_HARNESS_CODE iter code_chunks exports
         (canonical_to_target (analyze_imports_and_plan iter namespace_imports_map))
         (alias_redirects (analyze_imports_and_plan iter namespace_imports_map))
         false)
  = apply_alias_rewrites
      (alias_redirects (analyze_imports_and_plan iter namespace_imports_map))
      (LICENSE_TEXT ++ [newline; newline])
    ++ concat (map (fun part => part ++ [newline])
                   (fst (prefix_declarations_of iter exports
                           (canonical_to_target
                              (analyze_imports_and_plan iter namespace_imports_map)))))
    ++ apply_alias_rewrites
         (alias_redirects (analyze_imports_and_plan iter namespace_imports_map))
         (concat code_chunks).
Proof.
  intros P Hi He. unfold assemble. cbn [fst]. rewrite assembled_main.
  rewrite !(planned_pass_is_lookup iter namespace_imports_map _ P Hi).
  repeat match goal with
         | |- context [detok (retok ?f (tok ?t))] =>
             change (detok (retok f (tok t))) with (rewrite_words f t)
         end.
  destruct (planned_canonical_keys iter namespace_imports_map P Hi) as [_ Hk].
  rewrite (app_assoc LICENSE_TEXT).
  rewrite rewrite_words_app
    by (replace (LICENSE_TEXT ++ [newline; newline])
          with ((LICENSE_TEXT ++ [newline]) ++ [newline])
          by (rewrite <- app_assoc; reflexivity);
        unfold ends_outside_word; rewrite prev_after_last; reflexivity).
  rewrite (rewrite_words_app _ (concat _)) by apply ends_outside_lines.
  rewrite (rewrite_words_dot_free _ (concat _)); [reflexivity|].
  apply lines_dot_free, (declarations_dot_free iter exports _ P Hk He).
Qed.

Lemma captured_names_are_identifiers (w : World) (base : str) (files : list str)
  (t name : str) :
  world_ok w ->
  In name (get_set (exports_map (maps_of w base files empty_maps)) t) ->
  identifier name = true.
Proof.
  intros P H. apply (exports_of_pass w base P) in H.
  destruct H as [[]|[f [content [_ [_ [_ H]]]]]].
  unfold capture_exports in H.
  change (fold_left set_add ?l []) with (set_update [] l) in H.
  apply set_update_In in H as [[]|H].
  apply in_app_or in H as [H|H]; [|apply in_app_or in H as [H|H]].
  - apply in_map_iff in H as [[m cs] [<- H]]. apply (named_capture_spec _ _ _ H).
  - apply in_map_iff in H as [[m cs] [<- H]]. apply (default_capture_spec _ _ _ H).
  - apply in_flat_map in H as [[m cs] [_ H]].
    apply in_map_iff in H as [[m' cs'] [<- H]]. apply (list_item_spec _ _ _ H).
Qed.

Lemma bundles_main_bundle (LICENSE_TEXT TEST_HARNESS_CODE : str) (w : World)
  (main_files test_files : list str) (abs_input_dir : str) :
  main_files <> [] ->
  main_bundle (bundles LICENSE_TEXT TEST_HARNESS_CODE w main_files test_files
                 abs_input_dir)
  = Some (fst (assemble LICENSE_TEXT TEST_HARNESS_CODE (set_iter w)
                 (flat_map (file_chunk w abs_input_dir) main_files)
                 (exports_map
                    (maps_of w abs_input_dir (main_files ++ test_files) empty_maps))
                 (canonical_to_target
                    (analyze_imports_and_plan (set_iter w)
                       (namespace_imports_map
                          (maps_of w abs_input_dir (main_files ++ test_files)
                             empty_maps))))
                 (alias_redirects
                    (analyze_imports_and_plan (set_iter w)
                       (namespace_imports_map
                          (maps_of w abs_input_dir (main_files ++ test_files)
                             empty_maps))))
                 false)).
Proof.
  intros N. destruct main_files as [|f fs]; [contradiction|]. reflexivity.
Qed.

(** C2: in a run that writes a main bundle, for every canonical alias of
    the plan the symbols of its target are the names captured from the
    original content of the files with the target's path, sorted and each
    once.  The declarations the assembler emits hold exactly one line of
    the form [export const <alias> = { ... };] for the alias, with these
    symbols as members, when there is a symbol; when there is none they
    hold no such line and the assembler prints the warning.  The text
    written as main bundle is the rewritten banner, then the emitted
    declarations line by line, as emitted, the alias rewrite changing
    none of them, then the rewritten chunks. *)
Theorem alias_objects_hold_original_exports
  (LICENSE_TEXT TEST_HARNESS_CODE : str)
  (w : World) (t : tree) (abs_input_dir : str) (main_files test_files : list str)
  (m : Maps) (p : Plan) (alias target : str) :
  world_ok w ->
  find_ts_files abs_input_dir t = (main_files, test_files) ->
  main_files <> [] ->
  m = snd (process_and_collect w test_files abs_input_dir
             (snd (process_and_collect w main_files abs_input_dir empty_maps))) ->
  p = analyze_imports_and_plan (set_iter w) (namespace_imports_map m) ->
  dict_get (canonical_to_target p) alias = Some target ->
  (forall name,
      In name (sorted (get_set (exports_map m) target))
      <-> exists f content,
            In f (main_files ++ test_files) /\ abspath (getcwd w) f = target
            /\ read_text w f = inl content /\ In name (capture_exports content))
  /\ Sorted str_le (sorted (get_set (exports_map m) target))
  /\ NoDup (sorted (get_set (exports_map m) target))
  /\ filter (is_decl_for alias)
       (fst (prefix_declarations_of (set_iter w) (exports_map m)
               (canonical_to_target p)))
     = match sorted (get_set (exports_map m) target) with
       | [] => []
       | symbols => [const_decl alias symbols]
       end
  /\ (sorted (get_set (exports_map m) target) = [] ->
      In (no_exports_warning alias)
         (snd (assemble LICENSE_TEXT TEST_HARNESS_CODE (set_iter w)
                 (fst (process_and_collect w main_files abs_input_dir empty_maps))
                 (exports_map m) (canonical_to_target p) (alias_redirects p)
                 false)))
  /\ main_bundle (main LICENSE_TEXT TEST_HARNESS_CODE w t abs_input_dir)
     = Some (apply_alias_rewrites (alias_redirects p)
               (LICENSE_TEXT ++ [newline; newline])
             ++ concat (map (fun part => part ++ [newline])
                          (fst (prefix_declarations_of (set_iter w) (exports_map m)
                                  (canonical_to_target p))))
             ++ apply_alias_rewrites (alias_redirects p)
                  (concat (fst (process_and_collect w main_files abs_input_dir
                                  empty_maps)))).
Proof.
  intros P F Nm Em Ep G.
  rewrite !process_and_collect_eq in *. cbn [fst snd] in *.
  rewrite <- maps_of_app in Em. subst m p.
  set (m := maps_of w abs_input_dir (main_files ++ test_files) empty_maps) in *.
  assert (Hi : identifier_aliases (namespace_imports_map m)).
  { apply ids_ok_identifier_aliases, ids_of_pass. intros ? ? ? ? []. }
  assert (He : forall t0 name,
             In name (get_set (exports_map m) t0) -> identifier name = true).
  { intros t0 name. apply captured_names_are_identifiers, P. }
  destruct (planned_canonical_keys (set_iter w) _ P Hi) as [N Hk].
  destruct (declarations_for_alias (set_iter w) (exports_map m) _ alias target
              P N Hk G) as [D1 D2].
  split; [|split; [|split; [|split; [|split]]]].
  - intros name. unfold m. rewrite sorted_In, (exports_of_pass w abs_input_dir P).
    unfold get_set at 1. simpl. split; [intros [[]|H]; exact H | auto].
  - apply sorted_Sorted.
  - eapply Permutation_NoDup; [apply Permutation_sym, sorted_perm|].
    apply get_set_NoDup, exports_nodup_pass. intros ? ? [].
  - exact D1.
  - exact D2.
  - rewrite main_eq, F. cbn [fst snd].
    rewrite bundles_main_bundle by exact Nm. f_equal.
    apply assemble_main_text; assumption.
Qed.

(** Scenario A of the specification as a run: the project holds [a.ts]
    and [b.ts] and no test file. *)
Definition scenario_a_maps : Maps :=
  snd (process_and_collect scenario_a_world [] (s "/p")
         (snd (process_and_collect scenario_a_world [s "/p/a.ts"; s "/p/b.ts"]
                 (s "/p") empty_maps))).

Definition scenario_a_plan : Plan :=
  analyze_imports_and_plan (set_iter scenario_a_world)
    (namespace_imports_map scenario_a_maps).

Lemma alias_objects_hold_original_exports_witness :
  find_ts_files (s "/p") (Dir [] [s "b.ts"; s "a.ts"])
  = ([s "/p/a.ts"; s "/p/b.ts"], [])
  /\ dict_get (canonical_to_target scenario_a_plan) (s "A") = Some (s "/p/a.ts")
  /\ sorted (get_set (exports_map scenario_a_maps) (s "/p/a.ts"))
     = [s "bar"; s "foo"]
  /\ filter (is_decl_for (s "A"))
       (fst (prefix_declarations_of (set_iter scenario_a_world)
               (exports_map scenario_a_maps)
               (canonical_to_target scenario_a_plan)))
     = [s "export const A = { bar, foo };"]
  /\ main_bundle (main (s "/* MIT */") [] scenario_a_world
                       (Dir [] [s "b.ts"; s "a.ts"]) (s "/p"))
     = Some (lines ["/* MIT */"; "";
                    "// --- Exported Namespace Alias Objects ---";
                    "export const A = { bar, foo };";
                    "// --- End Exported Namespace Alias Objects ---"; "";
                    ""; ""; "// --- BEGIN FILE: a.ts ---";
                    "function foo() { return 1; }";
                    "const bar = 2;";
                    "// --- END FILE: a.ts ---";
                    ""; ""; "// --- BEGIN FILE: b.ts ---";
                    "A.foo();";
                    "// --- END FILE: b.ts ---"]%string)
  /\ capture_exports (transform (lines ["export function foo() { return 1; }";
                                        "export const bar = 2;"]%string)) = [].
Proof.
  assert (F : find_ts_files (s "/p") (Dir [] [s "b.ts"; s "a.ts"])
              = ([s "/p/a.ts"; s "/p/b.ts"], [])) by (vm_compute; reflexivity).
  assert (G : dict_get (canonical_to_target scenario_a_plan) (s "A")
              = Some (s "/p/a.ts")) by (vm_compute; reflexivity).
  assert (E : sorted (get_set (exports_map scenario_a_maps) (s "/p/a.ts"))
              = [s "bar"; s "foo"]) by (vm_compute; reflexivity).
  assert (N : [s "/p/a.ts"; s "/p/b.ts"] <> []) by discriminate.
  split; [exact F|]. split; [exact G|]. split; [exact E|].
  destruct (alias_objects_hold_original_exports (s "/* MIT */") []
              scenario_a_world (Dir [] [s "b.ts"; s "a.ts"]) (s "/p")
              [s "/p/a.ts"; s "/p/b.ts"] [] scenario_a_maps scenario_a_plan
              (s "A") (s "/p/a.ts")
              (fun a => Permutation_refl a) F N eq_refl eq_refl G)
    as [_ [_ [_ [D [_ B]]]]].
  split; [|split; [|vm_compute; reflexivity]].
  - rewrite D, E. vm_compute. reflexivity.
  - rewrite B. vm_compute. reflexivity.
Defined.

(** * Namespace imports of packages *)

(** ** Stretches of a text where a pattern finds nothing *)

(** At no position of [u], followed by [post], does a match of [r]
    begin. *)
Definition dead (r : re) (prev : option ascii) (u post : str) : Prop :=
  forall u1 u2, u = u1 ++ u2 -> u2 <> [] ->
                match_here r (prev_after prev u1) (u2 ++ post) = None.

Lemma dead_nil (r : re) (prev : option ascii) (post : str) : dead r prev [] post.
Proof.
  intros u1 u2 E N. symmetry in E. apply app_eq_nil in E as [_ E]. contradiction.
Qed.

Lemma dead_cons (r : re) (prev : option ascii) (c : ascii) (u post : str) :
  match_here r prev (c :: u ++ post) = None ->
  dead r (Some c) u post ->
  dead r prev (c :: u) post.
Proof.
  intros H D u1 u2 E N. destruct u1 as [|d u1].
  - cbn [app] in E. subst u2. exact H.
  - cbn [app] in E. injection E as <- E. apply (D u1 u2 E N).
Qed.

Lemma dead_tail (r : re) (prev : option ascii) (c : ascii) (u post : str) :
  dead r prev (c :: u) post -> dead r (Some c) u post.
Proof.
  intros D u1 u2 E N. apply (D (c :: u1) u2); [rewrite E; reflexivity | exact N].
Qed.

Lemma dead_app (r : re) : forall a prev b post,
  dead r prev a (b ++ post) -> dead r (prev_after prev a) b post ->
  dead r prev (a ++ b) post.
Proof.
  induction a as [|c a IH]; intros prev b post Da Db; [exact Db|].
  cbn [app]. apply dead_cons.
  - rewrite <- app_assoc.
    specialize (Da [] (c :: a) eq_refl ltac:(discriminate)).
    cbn [app] in Da. exact Da.
  - apply IH; [apply (dead_tail _ _ _ _ _ Da) | exact Db].
Qed.

(** Substitution and search pass over such a stretch. *)
Lemma sub_from_dead (r : re) (repl : caps -> str) : forall u prev post,
  dead r prev u post ->
  sub_from r repl prev (u ++ post) 0
  = u ++ sub_from r repl (prev_after prev u) post 0.
Proof.
  induction u as [|c u IH]; intros prev post D; [reflexivity|].
  cbn [app sub_from].
  pose proof (D [] (c :: u) eq_refl ltac:(discriminate)) as H.
  cbn [app prev_after fold_left] in H. rewrite H.
  rewrite (IH _ _ (dead_tail _ _ _ _ _ D)). reflexivity.
Qed.

Lemma finditer_from_dead (r : re) : forall u prev post,
  dead r prev u post ->
  finditer_from r prev (u ++ post) 0
  = finditer_from r (prev_after prev u) post 0.
Proof.
  induction u as [|c u IH]; intros prev post D; [reflexivity|].
  cbn [app finditer_from].
  pose proof (D [] (c :: u) eq_refl ltac:(discriminate)) as H.
  cbn [app prev_after fold_left] in H. rewrite H.
  apply (IH _ _ (dead_tail _ _ _ _ _ D)).
Qed.

(** A pattern anchored at the start of a line finds nothing inside a
    line. *)
Definition no_newline (u : str) : bool :=
  forallb (fun c => negb (chr_eqb c newline)) u.

Lemma anchored_needs_bol (r : re) (prev : option ascii) (t : str) :
  at_bol prev = false -> match_here (Seq Bol r) prev t = None.
Proof. intros H. unfold match_here. cbn [run]. rewrite H. reflexivity. Qed.

Lemma anchored_dead (r : re) : forall u prev post,
  at_bol prev = false -> no_newline u = true ->
  dead (Seq Bol r) prev u post.
Proof.
  induction u as [|c u IH]; intros prev post B N; [apply dead_nil|].
  cbn [no_newline forallb] in N. apply andb_true_iff in N as [Nc N].
  apply dead_cons; [apply anchored_needs_bol, B|].
  apply IH; [|exact N]. cbn [at_bol]. apply negb_true_iff, Nc.
Qed.

(** Two runs of characters of one class, each followed by a character
    outside the class, agree when the texts agree. *)
Lemma run_unique (p : ascii -> bool) : forall a b c d x y,
  forallb p a = true -> forallb p b = true -> p c = false -> p d = false ->
  a ++ c :: x = b ++ d :: y -> a = b /\ c = d /\ x = y.
Proof.
  induction a as [|e a IH]; intros b c d x y Fa Fb Pc Pd E.
  - destruct b as [|f b]; cbn [app] in E.
    + injection E as <- <-. auto.
    + injection E as <- _. cbn [forallb] in Fb.
      apply andb_true_iff in Fb as [Fb _]. congruence.
  - cbn [forallb] in Fa. apply andb_true_iff in Fa as [Fe Fa].
    destruct b as [|f b]; cbn [app] in E.
    + injection E as -> _. congruence.
    + injection E as <- E. cbn [forallb] in Fb.
      apply andb_true_iff in Fb as [_ Fb].
      destruct (IH b c d x y Fa Fb Pc Pd E) as [-> [-> ->]]. auto.
Qed.

(** ** The statement *)

(** A namespace import written on one line: the words of
    [IMPORT_NAMESPACE_REGEX], separated by blanks, around an alias and a
    quoted module specifier. *)
Record NamespaceImport : Type := {
  sp1 : str; sp2 : str; sp3 : str; sp4 : str; sp5 : str;
  alias_name : str;
  open_quote : ascii;
  specifier : str;
  close_quote : ascii;
  semicolon : bool
}.

Definition statement_text (i : NamespaceImport) : str :=
  s "import" ++ sp1 i ++ s "*" ++ sp2 i ++ s "as" ++ sp3 i ++ alias_name i
  ++ sp4 i ++ s "from" ++ sp5 i ++ [open_quote i] ++ specifier i
  ++ [close_quote i] ++ (if semicolon i then s ";" else []).

Definition blank (c : ascii) : bool := is_space c && negb (chr_eqb c newline).

Definition blanks (w : str) : bool := negb (str_eqb w []) && forallb blank w.

(** The specifier is not relative: it begins neither with [./] nor with
    [../]. *)
Definition package_statement (i : NamespaceImport) : bool :=
  blanks (sp1 i) && blanks (sp2 i) && blanks (sp3 i) && blanks (sp4 i)
  && blanks (sp5 i) && identifier (alias_name i)
  && quote (open_quote i) && quote (close_quote i)
  && no_newline (specifier i)
  && negb (startswith (specifier i) (s "./"))
  && negb (startswith (specifier i) (s "../")).

Lemma blanks_spaces (w : str) :
  blanks w = true -> exists c w', w = c :: w' /\ forallb sp (c :: w') = true.
Proof.
  unfold blanks. intros H. apply andb_true_iff in H as [N F].
  destruct w as [|c w']; [discriminate|]. exists c, w'. split; [reflexivity|].
  apply forallb_forall. intros x Hx. rewrite forallb_forall in F.
  specialize (F x Hx). unfold blank in F. apply andb_true_iff in F. apply F.
Qed.

Lemma plus_shape (p : ascii -> bool) (u : str) :
  shape (plus p) u -> exists c u', u = c :: u' /\ forallb p (c :: u') = true.
Proof.
  cbn [plus shape]. intros [u1 [u2 [-> [[c [-> Pc]] F]]]].
  exists c, u2. split; [reflexivity|]. cbn [forallb]. rewrite Pc. exact F.
Qed.

Lemma space_not_ident (c : ascii) : sp c = true -> is_ident c = false.
Proof.
  intros H. destruct (is_ident c) eqn:E; [|reflexivity].
  apply is_ident_not_space in E. unfold sp in H. congruence.
Qed.

Lemma quote_cases (c : ascii) : quote c = true -> c = squote \/ c = dquote.
Proof.
  unfold quote, one_of. cbn [existsb]. rewrite !orb_true_iff, !chr_eqb_eq.
  intros [H|[H|H]]; [auto | auto | discriminate].
Qed.

Lemma quote_not_space (c : ascii) : quote c = true -> sp c = false.
Proof. intros H. destruct (quote_cases c H) as [->| ->]; reflexivity. Qed.

Lemma package_statement_parts (i : NamespaceImport) :
  package_statement i = true ->
  (blanks (sp1 i) = true /\ blanks (sp2 i) = true /\ blanks (sp3 i) = true
   /\ blanks (sp4 i) = true /\ blanks (sp5 i) = true)
  /\ identifier (alias_name i) = true
  /\ quote (open_quote i) = true /\ quote (close_quote i) = true
  /\ no_newline (specifier i) = true
  /\ startswith (specifier i) (s "./") = false
  /\ startswith (specifier i) (s "../") = false.
Proof.
  unfold package_statement. rewrite !andb_true_iff, !negb_true_iff. tauto.
Qed.

Lemma forallb_hd {A} (p : A -> bool) (c : A) (u : list A) :
  forallb p (c :: u) = true -> p c = true.
Proof. cbn [forallb]. intros H. apply andb_true_iff in H. apply H. Qed.

Lemma forallb_tl {A} (p : A -> bool) (c : A) (u : list A) :
  forallb p (c :: u) = true -> forallb p u = true.
Proof. cbn [forallb]. intros H. apply andb_true_iff in H. apply H. Qed.

Lemma is_word_not_space (c : ascii) : is_word c = true -> sp c = false.
Proof.
  destruct c as [[] [] [] [] [] [] [] []]; vm_compute; intros H;
    first [reflexivity | discriminate H].
Qed.

Ltac side :=
  first
    [ eassumption
    | reflexivity
    | match goal with
      | H : forallb ?p (?c :: ?u) = true |- forallb ?p ?u = true =>
          exact (forallb_tl p c u H)
      | H : forallb is_ident (?c :: _) = true |- sp ?c = false =>
          exact (is_ident_not_space c (forallb_hd _ _ _ H))
      | H : forallb sp (?c :: _) = true |- is_ident ?c = false =>
          exact (space_not_ident c (forallb_hd _ _ _ H))
      | H : quote ?c = true |- sp ?c = false => exact (quote_not_space c H)
      | H : forallb is_word (?c :: _) = true |- sp ?c = false =>
          exact (is_word_not_space c (forallb_hd _ _ _ H))
      end ].

Lemma relative_shape (u : str) :
  shape relative_path u ->
  exists p, u = s "./" ++ p \/ u = s "../" ++ p.
Proof.
  unfold relative_path. cbn [seq fold_right shape opt]. unfold only.
  intros [u1 [u2 [-> [[c1 [-> H1]] [u3 [u4 [-> [H3 [u5 [u6 [-> [[c5 [-> H5]] _]]]]]]]]]]]].
  apply chr_eqb_eq in H1, H5. subst c1 c5.
  destruct H3 as [[c3 [-> H3]]| ->].
  - apply chr_eqb_eq in H3. subst c3. exists u6. right. reflexivity.
  - exists u6. left. reflexivity.
Qed.

Lemma specifier_not_relative (spec u tail rest : str) (q : ascii) :
  startswith spec (s "./") = false -> startswith spec (s "../") = false ->
  quote q = true ->
  shape relative_path u ->
  u ++ tail = spec ++ q :: rest -> False.
Proof.
  intros R1 R2 Q Sh E. apply relative_shape in Sh as [p [-> | ->]].
  - destruct spec as [|c1 [|c2 spec]]; cbn in E.
    + injection E as <- _. discriminate.
    + injection E as <- <- _. discriminate.
    + injection E as <- <- _. discriminate.
  - destruct spec as [|c1 [|c2 [|c3 spec]]]; cbn in E.
    + injection E as <- _. discriminate.
    + injection E as <- <- _. discriminate.
    + injection E as <- <- <- _. discriminate.
    + injection E as <- <- <- _. discriminate.
Qed.

(** The namespace-import pattern, past the word [import], does not fit a
    statement whose specifier is not relative. *)
Lemma namespace_tail_fails (i : NamespaceImport) (post v t' : str) :
  package_statement i = true ->
  shape (seq [plus sp; chr "*"; plus sp; lit "as"; plus sp;
              Group 1 (plus is_ident); plus sp; lit "from"; plus sp;
              Chr quote; Group 2 relative_path; Chr quote; opt (chr ";")]) v ->
  v ++ t'
  = sp1 i ++ s "*" ++ sp2 i ++ s "as" ++ sp3 i ++ alias_name i
    ++ sp4 i ++ s "from" ++ sp5 i ++ [open_quote i] ++ specifier i
    ++ [close_quote i] ++ (if semicolon i then s ";" else []) ++ post ->
  False.
Proof.
  intros Ok Sh E.
  destruct (package_statement_parts i Ok)
    as [[B1 [B2 [B3 [B4 B5]]]] [Ia [Q1 [Q2 [Nn [R1 R2]]]]]].
  apply blanks_spaces in B1 as [b1 [w1 [E1 F1]]].
  apply blanks_spaces in B2 as [b2 [w2 [E2 F2]]].
  apply blanks_spaces in B3 as [b3 [w3 [E3 F3]]].
  apply blanks_spaces in B4 as [b4 [w4 [E4 F4]]].
  apply blanks_spaces in B5 as [b5 [w5 [E5 F5]]].
  destruct (identifier_run _ Ia) as [Na Fa].
  destruct (alias_name i) as [|a0 al]; [contradiction|].
  rewrite E1, E2, E3, E4, E5 in E. clear E1 E2 E3 E4 E5.
  cbn [seq fold_right] in Sh. cbn [shape] in Sh.
  repeat match goal with
         | H : exists _, _ |- _ => destruct H
         | H : _ /\ _ |- _ => destruct H
         | H : shape (plus _) _ |- _ => apply plus_shape in H
         | H : shape (lit _) _ |- _ => apply shape_lit_str in H
         | H : shape (chr _) _ |- _ => apply shape_lit_str in H
         end; subst.
  rewrite <- !app_assoc in E.
  eapply (run_unique sp) in E as [_ [_ E]]; [|side..].
  eapply (run_unique sp) in E as [_ [_ E]]; [|side..].
  apply (f_equal (@tl ascii)) in E; cbn [tl] in E.
  eapply (run_unique sp) in E as [_ [_ E]]; [|side..].
  eapply (run_unique is_ident) in E as [_ [_ E]]; [|side..].
  eapply (run_unique sp) in E as [_ [_ E]]; [|side..].
  do 3 (apply (f_equal (@tl ascii)) in E; cbn [tl] in E).
  eapply (run_unique sp) in E as [_ [_ E]]; [|side..].
  eapply (specifier_not_relative (specifier i)); eassumption.
Qed.

(** ** Where a keyword of a pattern can stand *)

(** No non-empty end of [kw] can stand where [m] begins. *)
Fixpoint clear_of (kw m : str) : bool :=
  match kw with
  | [] => true
  | _ :: kw' => negb (startswith kw m || startswith m kw) && clear_of kw' m
  end.

Lemma app_eq_prefix : forall a b x y : str,
  a ++ x = b ++ y -> startswith a b = true \/ startswith b a = true.
Proof.
  induction a as [|c a IH]; intros b x y E.
  - right. destruct b; reflexivity.
  - destruct b as [|d b]; [left; reflexivity|].
    cbn [app] in E. injection E as <- E. cbn [startswith].
    rewrite chr_eqb_refl. cbn [andb]. apply (IH _ _ _ E).
Qed.

Lemma keyword_before (m : str) : forall l kw x y,
  clear_of kw m = true -> kw ++ x = l ++ m ++ y -> startswith l kw = true.
Proof.
  induction l as [|c l IH]; intros kw x y C E.
  - destruct kw as [|d kw]; [reflexivity|].
    cbn [clear_of] in C. apply andb_true_iff in C as [C _].
    apply negb_true_iff, orb_false_iff in C as [C1 C2].
    cbn [app] in E. destruct (app_eq_prefix (d :: kw) m x y E); congruence.
  - destruct kw as [|d kw]; [reflexivity|].
    cbn [clear_of] in C. apply andb_true_iff in C as [_ C].
    cbn [app] in E. injection E as <- E. cbn [startswith].
    rewrite chr_eqb_refl. cbn [andb]. apply (IH _ _ _ C E).
Qed.

Lemma contains_startswith (t x : str) :
  startswith t x = true -> contains t x = true.
Proof. intros H. destruct t; cbn [contains]; rewrite H; reflexivity. Qed.

Lemma contains_suffix (x a b : str) :
  contains (a ++ b) x = false -> contains b x = false.
Proof.
  intros H. destruct (contains b x) eqn:E; [|reflexivity].
  rewrite (contains_app_r x b a E) in H. discriminate.
Qed.

Lemma contains_prefix (x a b : str) :
  contains (a ++ b) x = false -> contains a x = false.
Proof.
  intros H. destruct (contains a x) eqn:E; [|reflexivity].
  rewrite (contains_app_l x b a E) in H. discriminate.
Qed.

(** In a text [g ++ m ++ y] where [g] does not hold the keyword and [m]
    begins with a character that is no white space, white space and then
    the keyword can only stand where [g] is white space and [m] begins
    with the keyword. *)
Lemma keyword_head (k0 : ascii) (kw m w g x y : str) (m0 : ascii) (m' : str) :
  m = m0 :: m' -> sp m0 = false ->
  clear_of kw m = true ->
  forallb sp w = true ->
  contains g (k0 :: kw) = false ->
  w ++ (k0 :: kw) ++ x = g ++ m ++ y ->
  w = g /\ (k0 :: kw) ++ x = m ++ y.
Proof.
  intros Em Sm C F G E.
  apply app_eq_app in E as [l [[-> E]|[-> E]]].
  - rewrite forallb_app in F. apply andb_true_iff in F as [_ F].
    destruct l as [|c l].
    + rewrite app_nil_r. split; [reflexivity | symmetry; exact E].
    + subst m. cbn [app] in E. injection E as -> _.
      cbn [forallb] in F. apply andb_true_iff in F as [F _]. congruence.
  - destruct l as [|c l].
    + rewrite app_nil_r. split; [reflexivity | exact E].
    + exfalso. cbn [app] in E. injection E as <- E.
      pose proof (keyword_before m l kw x y C E) as S.
      apply contains_suffix in G.
      rewrite contains_startswith in G; [discriminate|].
      cbn [startswith]. rewrite chr_eqb_refl. exact S.
Qed.

(** What a match of an anchored pattern begins with. *)
Lemma anchored_shape (kw : str) (rest : re) (u : str) :
  shape (Seq Bol (Seq (Star sp) (Seq (lit_str kw) rest))) u
  \/ shape (Seq Bol (Seq (Group 1 (Star sp)) (Seq (lit_str kw) rest))) u ->
  exists w v, u = w ++ kw ++ v /\ forallb sp w = true /\ shape rest v.
Proof.
  intros [H|H]; cbn [shape] in H;
    destruct H as [u1 [u2 [-> [-> [w [u3 [-> [F [k [v [-> [K R]]]]]]]]]]]];
    apply shape_lit_str in K; subst k; exists w, v; auto.
Qed.

Lemma anchored_none (kw : str) (rest : re) (prev : option ascii) (t : str) :
  (forall w v t', forallb sp w = true -> shape rest v ->
                  t = w ++ kw ++ v ++ t' -> False) ->
  match_here (Seq Bol (Seq (Star sp) (Seq (lit_str kw) rest))) prev t = None
  /\ match_here (Seq Bol (Seq (Group 1 (Star sp)) (Seq (lit_str kw) rest))) prev t
     = None.
Proof.
  intros K. split.
  - destruct (match_here _ prev t) as [[r cs]|] eqn:E; [|reflexivity].
    apply match_here_sound in E as [prev' S].
    apply steps_consumes in S as [u [-> Sh]].
    destruct (anchored_shape kw rest u (or_introl Sh)) as [w [v [-> [F R]]]].
    exfalso. apply (K w v r F R). rewrite <- !app_assoc. reflexivity.
  - destruct (match_here _ prev t) as [[r cs]|] eqn:E; [|reflexivity].
    apply match_here_sound in E as [prev' S].
    apply steps_consumes in S as [u [-> Sh]].
    destruct (anchored_shape kw rest u (or_intror Sh)) as [w [v [-> [F R]]]].
    exfalso. apply (K w v r F R). rewrite <- !app_assoc. reflexivity.
Qed.

(** ** The import patterns on the statement *)

Ltac open_shape :=
  repeat match goal with
         | H : exists _, _ |- _ => destruct H
         | H : _ /\ _ |- _ => destruct H
         | H : _ \/ _ |- _ => destruct H
         | H : shape (plus _) _ |- _ => apply plus_shape in H
         | H : shape (lit _) _ |- _ => apply shape_lit_str in H
         | H : shape (chr _) _ |- _ => apply shape_lit_str in H
         end; subst.

(** After the word [import] and white space the statement has a star. *)
Lemma star_after_import (a : str) (c : ascii) (x t : str) (i : NamespaceImport)
  (post : str) :
  package_statement i = true ->
  forallb sp a = true -> sp c = false ->
  a ++ c :: x
  = sp1 i ++ s "*" ++ sp2 i ++ s "as" ++ sp3 i ++ alias_name i
    ++ sp4 i ++ s "from" ++ sp5 i ++ [open_quote i] ++ specifier i
    ++ [close_quote i] ++ (if semicolon i then s ";" else []) ++ post ->
  c = "*"%char.
Proof.
  intros Ok F Sc E.
  destruct (package_statement_parts i Ok) as [[B1 _] _].
  apply blanks_spaces in B1 as [b1 [w1 [E1 F1]]]. rewrite E1 in E.
  eapply (run_unique sp) in E as [_ [E _]]; [exact E|side..].
Qed.

Lemma other_tail_fails (i : NamespaceImport) (post v t' : str) :
  package_statement i = true ->
  shape (seq [plus sp;
              opt (seq [Alt (seq [chr "{"; plus not_rbrace; chr "}"])
                            (Alt (plus is_word) Eps);
                        plus sp; lit "from"; plus sp]);
              Chr quote; Group 1 relative_path; Chr quote; opt (chr ";");
              Star sp; Eol]) v ->
  v ++ t'
  = sp1 i ++ s "*" ++ sp2 i ++ s "as" ++ sp3 i ++ alias_name i
    ++ sp4 i ++ s "from" ++ sp5 i ++ [open_quote i] ++ specifier i
    ++ [close_quote i] ++ (if semicolon i then s ";" else []) ++ post ->
  False.
Proof.
  intros Ok Sh E. unfold opt in Sh. cbn [seq fold_right shape] in Sh.
  open_shape; rewrite <- ?app_assoc in E; rewrite ?app_nil_l in E.
  all: try (rewrite (app_assoc (_ :: _) (_ :: _) (s "from" ++ _)) in E).
  all: eapply (star_after_import _ _ _ t' i post Ok) in E;
    [|first [side | rewrite forallb_app; apply andb_true_iff; split; side]
     |side].
  all: subst.
  all: discriminate.
Qed.

Lemma quote_tail_fails (rest : re) (i : NamespaceImport) (post v t' : str) :
  package_statement i = true ->
  shape (Seq (plus sp) (Seq (Chr quote) rest)) v ->
  v ++ t'
  = sp1 i ++ s "*" ++ sp2 i ++ s "as" ++ sp3 i ++ alias_name i
    ++ sp4 i ++ s "from" ++ sp5 i ++ [open_quote i] ++ specifier i
    ++ [close_quote i] ++ (if semicolon i then s ";" else []) ++ post ->
  False.
Proof.
  intros Ok Sh E. cbn [shape] in Sh.
  destruct Sh as [u1 [u2 [-> [S1 [u3 [u4 [-> [[q [-> Q]] _]]]]]]]].
  apply plus_shape in S1 as [c [u [-> F]]].
  rewrite <- !app_assoc in E.
  eapply (star_after_import _ _ _ t' i post Ok) in E; [|side..].
  subst q. discriminate.
Qed.


(** ** No stage matches where the statement begins *)

(** Text in which the anchored stages find no keyword. *)
Definition quiet (g : str) : bool :=
  negb (contains g (s "import")) && negb (contains g (s "export"))
  && negb (contains g (s "jasmine.addMatchers")).

Lemma quiet_parts (g : str) :
  quiet g = true ->
  contains g (s "import") = false /\ contains g (s "export") = false
  /\ contains g (s "jasmine.addMatchers") = false.
Proof. unfold quiet. rewrite !andb_true_iff, !negb_true_iff. tauto. Qed.

Lemma quiet_suffix (a b : str) : quiet (a ++ b) = true -> quiet b = true.
Proof.
  intros H. destruct (quiet_parts _ H) as [H1 [H2 H3]]. unfold quiet.
  rewrite (contains_suffix _ _ _ H1), (contains_suffix _ _ _ H2),
    (contains_suffix _ _ _ H3). reflexivity.
Qed.

Lemma quiet_nil : quiet [] = true.
Proof. reflexivity. Qed.

(** Before the statement and at its first character an anchored pattern
    on [import] matches only if its remainder fits what follows the word
    in the statement. *)
Lemma import_head (rest : re) (g : str) (i : NamespaceImport) (post : str)
  (prev : option ascii) :
  quiet g = true ->
  (forall v t',
      shape rest v ->
      v ++ t'
      = sp1 i ++ s "*" ++ sp2 i ++ s "as" ++ sp3 i ++ alias_name i
        ++ sp4 i ++ s "from" ++ sp5 i ++ [open_quote i] ++ specifier i
        ++ [close_quote i] ++ (if semicolon i then s ";" else []) ++ post ->
      False) ->
  match_here (Seq Bol (Seq (Star sp) (Seq (lit_str (s "import")) rest))) prev
             (g ++ statement_text i ++ post) = None.
Proof.
  intros Q K. apply anchored_none. intros w v t' F Sh E.
  destruct (quiet_parts g Q) as [Gi _].
  unfold statement_text in E. rewrite <- !app_assoc in E. symmetry in E.
  apply (keyword_head "i" (s "mport") (s "import") w g _ _ "i" (s "mport")
           eq_refl eq_refl eq_refl F Gi) in E as [_ E].
  apply app_inv_head in E. apply (K v t' Sh E).
Qed.

(** An anchored pattern on another keyword does not match there. *)
Lemma export_head (rest : re) (g : str) (i : NamespaceImport) (post : str)
  (prev : option ascii) :
  quiet g = true ->
  match_here (Seq Bol (Seq (Star sp) (Seq (lit_str (s "export")) rest))) prev
             (g ++ statement_text i ++ post) = None
  /\ match_here (Seq Bol (Seq (Group 1 (Star sp))
                            (Seq (lit_str (s "export")) rest))) prev
                (g ++ statement_text i ++ post) = None.
Proof.
  intros Q. apply anchored_none. intros w v t' F Sh E.
  destruct (quiet_parts g Q) as [_ [Ge _]].
  unfold statement_text in E. rewrite <- !app_assoc in E. symmetry in E.
  apply (keyword_head "e" (s "xport") (s "import") w g _ _ "i" (s "mport")
           eq_refl eq_refl eq_refl F Ge) in E as [_ E].
  discriminate.
Qed.

Lemma jasmine_head (rest : re) (g : str) (i : NamespaceImport) (post : str)
  (prev : option ascii) :
  quiet g = true ->
  match_here (Seq Bol (Seq (Star sp)
                         (Seq (lit_str (s "jasmine.addMatchers")) rest))) prev
             (g ++ statement_text i ++ post) = None.
Proof.
  intros Q. apply anchored_none. intros w v t' F Sh E.
  destruct (quiet_parts g Q) as [_ [_ Gj]].
  unfold statement_text in E. rewrite <- !app_assoc in E. symmetry in E.
  apply (keyword_head "j" (s "asmine.addMatchers") (s "import") w g _ _
           "i" (s "mport") eq_refl eq_refl eq_refl F Gj) in E as [_ E].
  discriminate.
Qed.

(** The anchored stages of the transformer, and the pattern of the
    alias search. *)
Definition anchored_stages : list re :=
  [IMPORT_NAMESPACE_REGEX; IMPORT_RELATIVE_OTHER_PATTERN;
   IMPORT_RELATIVE_SIDE_EFFECT_PATTERN; REMOVE_NON_RELATIVE_SIDE_EFFECT;
   REMOVE_ADD_MATCHERS_CALL; EXPORT_DECL_PATTERN; EXPORT_DEFAULT_PATTERN;
   EXPORT_FROM_PATTERN; EXPORT_LIST_PATTERN].

Lemma anchored_stages_bol (r : re) :
  In r anchored_stages -> exists r', r = Seq Bol r'.
Proof.
  intros H. repeat (destruct H as [<-|H]; [eexists; reflexivity|]).
  contradiction.
Qed.

Lemma stage_head_none (r : re) (g : str) (i : NamespaceImport) (post : str)
  (prev : option ascii) :
  In r anchored_stages -> quiet g = true -> package_statement i = true ->
  match_here r prev (g ++ statement_text i ++ post) = None.
Proof.
  intros H Q Ok.
  destruct H as [<-|[<-|[<-|[<-|[<-|[<-|[<-|[<-|[<-|[]]]]]]]]]].
  - apply import_head; [exact Q|]. intros v t'. apply namespace_tail_fails, Ok.
  - apply import_head; [exact Q|]. intros v t'. apply other_tail_fails, Ok.
  - apply import_head; [exact Q|]. intros v t'. apply quote_tail_fails, Ok.
  - apply import_head; [exact Q|]. intros v t'. apply quote_tail_fails, Ok.
  - apply jasmine_head, Q.
  - apply (export_head _ g i post prev Q).
  - apply (export_head _ g i post prev Q).
  - apply (export_head _ g i post prev Q).
  - apply (export_head _ g i post prev Q).
Qed.

(** ** No stage matches inside the statement *)

Lemma no_newline_app (a b : str) :
  no_newline (a ++ b) = no_newline a && no_newline b.
Proof. apply forallb_app. Qed.

Lemma blanks_no_newline (w : str) : blanks w = true -> no_newline w = true.
Proof.
  unfold blanks, no_newline. intros H. apply andb_true_iff in H as [_ F].
  rewrite forallb_forall in *. intros c Hc. specialize (F c Hc).
  unfold blank in F. apply andb_true_iff in F. apply F.
Qed.

Lemma identifier_no_newline (a : str) : identifier a = true -> no_newline a = true.
Proof.
  intros H. apply identifier_chars in H. unfold no_newline.
  rewrite forallb_forall in *. intros c Hc. specialize (H c Hc).
  destruct (chr_eqb c newline) eqn:E; [|reflexivity].
  apply chr_eqb_eq in E. subst c. discriminate.
Qed.

Lemma quote_no_newline (q : ascii) : quote q = true -> no_newline [q] = true.
Proof. intros H. destruct (quote_cases q H) as [->| ->]; reflexivity. Qed.

Lemma statement_no_newline (i : NamespaceImport) :
  package_statement i = true -> no_newline (statement_text i) = true.
Proof.
  intros Ok.
  destruct (package_statement_parts i Ok)
    as [[B1 [B2 [B3 [B4 B5]]]] [Ia [Q1 [Q2 [Nn _]]]]].
  unfold statement_text. rewrite !no_newline_app.
  rewrite (blanks_no_newline _ B1), (blanks_no_newline _ B2),
    (blanks_no_newline _ B3), (blanks_no_newline _ B4),
    (blanks_no_newline _ B5), (identifier_no_newline _ Ia),
    (quote_no_newline _ Q1), (quote_no_newline _ Q2), Nn.
  destruct (semicolon i); reflexivity.
Qed.

Lemma segment_dead_anchored (r : re) (g : str) (i : NamespaceImport)
  (post : str) (prev : option ascii) :
  In r anchored_stages -> quiet g = true -> package_statement i = true ->
  dead r prev (g ++ statement_text i) post.
Proof.
  intros H Q Ok. apply dead_app.
  - intros u1 u2 -> N.
    apply stage_head_none; [exact H | apply (quiet_suffix u1), Q | exact Ok].
  - pose proof (statement_no_newline i Ok) as Nn.
    pose proof (stage_head_none r [] i post (prev_after prev g) H quiet_nil Ok)
      as H0.
    destruct (anchored_stages_bol r H) as [r' ->].
    unfold statement_text in *. cbn [s list_ascii_of_string app] in *.
    cbn [no_newline forallb] in Nn. apply andb_true_iff in Nn as [_ Nn].
    apply dead_cons; [exact H0|].
    apply anchored_dead; [reflexivity | exact Nn].
Qed.

(** ** The license stage *)

Lemma license_begins (prev : option ascii) (t rest : str) (cs : caps) :
  match_here LICENSE_BLOCK_PATTERN prev t = Some (rest, cs) ->
  startswith t (s "/**") = true.
Proof.
  intros H. apply match_here_sound in H as [prev' S].
  apply steps_consumes in S as [u [-> Sh]].
  unfold LICENSE_BLOCK_PATTERN in Sh. cbn [seq fold_right shape] in Sh.
  destruct Sh as [u1 [u2 [-> [Sh _]]]]. apply shape_lit_str in Sh. subst u1.
  rewrite <- app_assoc. apply startswith_app.
Qed.

(** The license pattern finds nothing in a text without [/**] that does
    not end in the beginning of one. *)
Lemma license_dead : forall u prev post,
  contains u (s "/**") = false ->
  endswith u (s "/") = false -> endswith u (s "/*") = false ->
  dead LICENSE_BLOCK_PATTERN prev u post.
Proof.
  intros u prev post C E1 E2 u1 u2 -> N.
  destruct (match_here _ _ (u2 ++ post)) as [[rest cs]|] eqn:M; [|reflexivity].
  exfalso. apply license_begins in M. apply contains_suffix in C.
  destruct u2 as [|c1 [|c2 [|c3 u2]]]; [contradiction| | |].
  - cbn [app startswith] in M. apply andb_true_iff in M as [M _].
    apply chr_eqb_eq in M. subst c1.
    revert E1. change (endswith (u1 ++ s "/") (s "/") = false -> False).
    rewrite endswith_app. discriminate.
  - cbn [app startswith] in M. apply andb_true_iff in M as [M1 M].
    apply andb_true_iff in M as [M2 _].
    apply chr_eqb_eq in M1, M2. subst c1 c2.
    revert E2. change (endswith (u1 ++ s "/*") (s "/*") = false -> False).
    rewrite endswith_app. discriminate.
  - rewrite contains_startswith in C; [discriminate|].
    cbn [app startswith] in *. exact M.
Qed.

Lemma endswith_last (u : str) (c : ascii) (x : str) (d : ascii) :
  chr_eqb c d = false -> endswith (u ++ [c]) (x ++ [d]) = false.
Proof.
  intros H. unfold endswith. rewrite !rev_app_distr. cbn [rev app startswith].
  rewrite H. reflexivity.
Qed.

Lemma statement_end (i : NamespaceImport) :
  package_statement i = true ->
  exists body c, statement_text i = body ++ [c]
                 /\ chr_eqb c "/" = false /\ chr_eqb c "*" = false.
Proof.
  intros Ok. destruct (package_statement_parts i Ok) as [_ [_ [_ [Q2 _]]]].
  unfold statement_text. destruct (semicolon i).
  - eexists _, ";"%char. split; [|split; reflexivity].
    rewrite !app_assoc. reflexivity.
  - eexists _, (close_quote i). rewrite app_nil_r. split.
    + rewrite !app_assoc. reflexivity.
    + destruct (quote_cases _ Q2) as [->| ->]; split; reflexivity.
Qed.

Lemma segment_dead_license (g : str) (i : NamespaceImport) (post : str)
  (prev : option ascii) :
  package_statement i = true ->
  contains (g ++ statement_text i) (s "/**") = false ->
  dead LICENSE_BLOCK_PATTERN prev (g ++ statement_text i) post.
Proof.
  intros Ok C. destruct (statement_end i Ok) as [body [c [E [C1 C2]]]].
  apply license_dead; [exact C| |]; rewrite E, app_assoc.
  - apply (endswith_last _ c [] "/"%char C1).
  - apply (endswith_last _ c (s "/") "*"%char C2).
Qed.

(** ** A header of package imports *)

(** A statement with the text before it, and a header of such segments:
    the text before a statement holds none of the keywords of the
    anchored stages, and neither it nor the statement holds [/**]. *)
Definition segment_text (seg : str * NamespaceImport) : str :=
  fst seg ++ statement_text (snd seg).

Definition segment_ok (seg : str * NamespaceImport) : bool :=
  quiet (fst seg) && package_statement (snd seg)
  && negb (contains (segment_text seg) (s "/**")).

Definition header_text (segs : list (str * NamespaceImport)) : str :=
  flat_map segment_text segs.

Definition package_header (segs : list (str * NamespaceImport)) : bool :=
  forallb segment_ok segs.

Lemma segment_dead (r : re) (seg : str * NamespaceImport) (post : str)
  (prev : option ascii) :
  r = LICENSE_BLOCK_PATTERN \/ In r anchored_stages ->
  segment_ok seg = true ->
  dead r prev (segment_text seg) post.
Proof.
  intros H Ok. unfold segment_ok in Ok.
  apply andb_true_iff in Ok as [Ok C]. apply andb_true_iff in Ok as [Q Ok].
  apply negb_true_iff in C. destruct H as [->|H].
  - apply segment_dead_license; assumption.
  - apply segment_dead_anchored; assumption.
Qed.

Lemma header_dead (r : re) :
  r = LICENSE_BLOCK_PATTERN \/ In r anchored_stages ->
  forall segs prev post,
    package_header segs = true -> dead r prev (header_text segs) post.
Proof.
  intros H. induction segs as [|seg segs IH]; intros prev post Ok.
  - apply dead_nil.
  - cbn [package_header forallb] in Ok. apply andb_true_iff in Ok as [Os Ok].
    cbn [header_text flat_map]. apply dead_app.
    + apply segment_dead; assumption.
    + apply IH, Ok.
Qed.

Lemma stage_keeps_header (r : re) (repl : caps -> str)
  (segs : list (str * NamespaceImport)) (post : str) :
  r = LICENSE_BLOCK_PATTERN \/ In r anchored_stages ->
  package_header segs = true ->
  re_sub r repl (header_text segs ++ post)
  = header_text segs
    ++ sub_from r repl (prev_after None (header_text segs)) post 0.
Proof.
  intros H Ok. unfold re_sub. apply sub_from_dead, header_dead; assumption.
Qed.

Ltac stage_in := first [left; reflexivity | right; cbn; tauto].

Lemma transform_keeps_header (segs : list (str * NamespaceImport)) (post : str) :
  package_header segs = true ->
  exists post', transform (header_text segs ++ post) = header_text segs ++ post'.
Proof.
  intros Ok. unfold transform, strip_exports, strip_imports.
  repeat (rewrite stage_keeps_header by (first [exact Ok | stage_in])).
  eexists. reflexivity.
Qed.

Lemma plain_tail_parts (tail : str) :
  plain tail = true ->
  contains tail (s "import") = false /\ contains tail (s "export") = false
  /\ contains tail (s "jasmine.addMatchers") = false
  /\ contains tail (s "@license") = false.
Proof. unfold plain. rewrite !andb_true_iff, !negb_true_iff. tauto. Qed.

Lemma transform_keeps_plain_file (segs : list (str * NamespaceImport))
  (tail : str) :
  package_header segs = true -> plain tail = true ->
  transform (header_text segs ++ tail) = header_text segs ++ tail
  /\ namespace_imports (license_stripped (header_text segs ++ tail)) = [].
Proof.
  intros Ok Pl. destruct (plain_tail_parts tail Pl) as [Hi [He [Hj Hl]]].
  destruct import_patterns_mention as [M1 [M2 [M3 [M4 [M5 M6]]]]].
  destruct export_patterns_mention as [N1 [N2 [N3 [N4 _]]]].
  split.
  - unfold transform, strip_exports, strip_imports.
    rewrite stage_keeps_header, (sub_from_absent _ _ _ M1 _ _ Hl)
      by (first [exact Ok | stage_in]).
    rewrite stage_keeps_header, (sub_from_absent _ _ _ M2 _ _ Hi)
      by (first [exact Ok | stage_in]).
    rewrite stage_keeps_header, (sub_from_absent _ _ _ M3 _ _ Hi)
      by (first [exact Ok | stage_in]).
    rewrite stage_keeps_header, (sub_from_absent _ _ _ M4 _ _ Hi)
      by (first [exact Ok | stage_in]).
    rewrite stage_keeps_header, (sub_from_absent _ _ _ M5 _ _ Hi)
      by (first [exact Ok | stage_in]).
    rewrite stage_keeps_header, (sub_from_absent _ _ _ M6 _ _ Hj)
      by (first [exact Ok | stage_in]).
    rewrite stage_keeps_header, (sub_from_absent _ _ _ N1 _ _ He)
      by (first [exact Ok | stage_in]).
    rewrite stage_keeps_header, (sub_from_absent _ _ _ N2 _ _ He)
      by (first [exact Ok | stage_in]).
    rewrite stage_keeps_header, (sub_from_absent _ _ _ N3 _ _ He)
      by (first [exact Ok | stage_in]).
    rewrite stage_keeps_header, (sub_from_absent _ _ _ N4 _ _ He)
      by (first [exact Ok | stage_in]).
    reflexivity.
  - unfold namespace_imports, license_stripped.
    rewrite stage_keeps_header, (sub_from_absent _ _ _ M1 _ _ Hl)
      by (first [exact Ok | stage_in]).
    unfold finditer.
    rewrite (finditer_from_dead _ _ _ _
               (header_dead IMPORT_NAMESPACE_REGEX ltac:(stage_in) segs None tail Ok)).
    rewrite (finditer_from_absent _ _ M2 _ _ Hi). reflexivity.
Qed.

(** The stages of [transform] in their order, each with its
    replacement. *)
Definition stages : list (re * (caps -> str)) :=
  [(LICENSE_BLOCK_PATTERN, delete); (IMPORT_NAMESPACE_REGEX, delete);
   (IMPORT_RELATIVE_OTHER_PATTERN, delete);
   (IMPORT_RELATIVE_SIDE_EFFECT_PATTERN, delete);
   (REMOVE_NON_RELATIVE_SIDE_EFFECT, delete); (REMOVE_ADD_MATCHERS_CALL, delete);
   (EXPORT_DECL_PATTERN, keep_groups_1_to_5);
   (EXPORT_DEFAULT_PATTERN, export_default_marker);
   (EXPORT_FROM_PATTERN, delete); (EXPORT_LIST_PATTERN, delete)].

Lemma transform_stages (content : str) :
  transform content
  = fold_left (fun text stage => re_sub (fst stage) (snd stage) text) stages content.
Proof. reflexivity. Qed.

Lemma stages_patterns (stage : re * (caps -> str)) :
  In stage stages ->
  fst stage = LICENSE_BLOCK_PATTERN \/ In (fst stage) anchored_stages.
Proof.
  intros H. destruct H as [<-|H]; [left; reflexivity|]. right.
  repeat (destruct H as [<-|H]; [cbn; tauto|]). contradiction.
Qed.

(** Where the scan of a stage reaches the statement with no match
    running, the stage copies the statement and goes on behind it. *)
Lemma stage_copies_statement (stage : re * (caps -> str)) (i : NamespaceImport)
  (prev : option ascii) (post : str) :
  In stage stages -> package_statement i = true ->
  contains (statement_text i) (s "/**") = false ->
  sub_from (fst stage) (snd stage) prev (statement_text i ++ post) 0
  = statement_text i
    ++ sub_from (fst stage) (snd stage) (prev_after prev (statement_text i))
         post 0.
Proof.
  intros H Ok C. apply sub_from_dead.
  apply (segment_dead (fst stage) ([], i) post prev (stages_patterns stage H)).
  unfold segment_ok, segment_text. cbn [fst snd app]. rewrite Ok, C. reflexivity.
Qed.

(** C10, as the code has it.  No alias observation comes from a namespace
    import whose specifier is not relative: every pair the
    namespace-import pattern yields has a specifier that begins with [./]
    or [../], and every alias a file adds to the namespace-imports map is
    the alias of such a pair.  A file that begins with a header of
    namespace imports of packages, each written on one line and preceded
    by text without the keywords of the stages, keeps the header verbatim
    as the beginning of its transformed body, whatever follows the
    header; when what follows is text in which no stage finds its
    keyword, the transformed body is the whole content, the pattern
    yields no pair and the file leaves the namespace-imports map as it
    was.  In every file, a stage whose scan reaches such a statement with
    no match running copies the statement and goes on behind it: only a
    match that begins before the statement and runs into it alters
    it. *)
Theorem non_relative_namespace_import_is_not_recorded (w : World) (base : str)
  (code_chunks : list str) (m : Maps) (file_path content : str) :
  (forall alias path,
      In (alias, path) (namespace_imports (license_stripped content)) ->
      startswith path (s "./") = true \/ startswith path (s "../") = true)
  /\ (forall imports alias target,
        read_text w file_path = inl content ->
        dict_get (namespace_imports_map
                    (snd (process_file w base (code_chunks, m) file_path)))
                 (abspath (getcwd w) file_path) = Some imports ->
        dict_get imports alias = Some target ->
        dict_get (namespace_imports_map m) (abspath (getcwd w) file_path)
        = Some imports
        \/ exists path,
             In (alias, path) (namespace_imports (license_stripped content))
             /\ (startswith path (s "./") = true
                 \/ startswith path (s "../") = true)
             /\ fst (resolve_relative_path w (abspath (getcwd w) file_path) path)
                = Some target)
  /\ (forall segs post,
        package_header segs = true ->
        exists post',
          transform (header_text segs ++ post) = header_text segs ++ post')
  /\ (forall segs tail,
        package_header segs = true -> plain tail = true ->
        transform (header_text segs ++ tail) = header_text segs ++ tail
        /\ namespace_imports (license_stripped (header_text segs ++ tail)) = []
        /\ (content = header_text segs ++ tail ->
            read_text w file_path = inl content ->
            namespace_imports_map
              (snd (process_file w base (code_chunks, m) file_path))
            = namespace_imports_map m))
  /\ transform content
     = fold_left (fun text stage => re_sub (fst stage) (snd stage) text)
                 stages content
  /\ (forall stage i prev post,
        In stage stages -> package_statement i = true ->
        contains (statement_text i) (s "/**") = false ->
        sub_from (fst stage) (snd stage) prev (statement_text i ++ post) 0
        = statement_text i
          ++ sub_from (fst stage) (snd stage)
               (prev_after prev (statement_text i)) post 0).
Proof.
  split; [|split; [|split; [|split; [|split]]]].
  - intros alias path H. apply (namespace_imports_spec _ _ _ H).
  - intros imports alias target R G A.
    destruct (process_file_read w base code_chunks m file_path content R)
      as [_ [_ Hn]].
    rewrite Hn in G. unfold ns_map_after in G.
    destruct (current_ns_imports_of w (abspath (getcwd w) file_path) content)
      as [|x cur] eqn:C; [left; exact G|].
    rewrite dict_get_set_same in G. injection G as <-. right.
    rewrite <- C in A. unfold current_ns_imports_of, resolve_imports in A.
    apply resolve_fold_origin in A as [A|[path [I T]]]; [discriminate|].
    exists path. split; [exact I|]. split; [|exact T].
    apply (namespace_imports_spec _ _ _ I).
  - intros segs post Ok. apply transform_keeps_header, Ok.
  - intros segs tail Ok Pl.
    destruct (transform_keeps_plain_file segs tail Ok Pl) as [T N].
    split; [exact T|]. split; [exact N|]. intros -> R.
    destruct (process_file_read w base code_chunks m file_path _ R)
      as [_ [_ Hn]].
    rewrite Hn. unfold ns_map_after, current_ns_imports_of. rewrite N.
    reflexivity.
  - reflexivity.
  - intros stage i prev post. apply stage_copies_statement.
Qed.

(** Two imports of packages under a comment, and a use of both. *)
Definition react_import : NamespaceImport :=
  {| sp1 := s " "; sp2 := s " "; sp3 := s " "; sp4 := s " "; sp5 := s " ";
     alias_name := s "React"; open_quote := dquote; specifier := s "react";
     close_quote := dquote; semicolon := true |}.

Definition pkg_import : NamespaceImport :=
  {| sp1 := s " "; sp2 := s " "; sp3 := s " "; sp4 := s " "; sp5 := s " ";
     alias_name := s "X"; open_quote := squote; specifier := s "pkg";
     close_quote := squote; semicolon := false |}.

Definition package_imports : list (str * NamespaceImport) :=
  [(s "// packages" ++ [newline], react_import); ([newline], pkg_import)].

Definition package_world : World :=
  {| getcwd := s "/p";
     isfile := fun _ => false;
     isdir := fun _ => false;
     read_text := fun _ =>
       inl (header_text package_imports ++ [newline] ++ s "X.f(React);"
            ++ [newline]);
     set_iter := fun a => a |}.

Lemma non_relative_namespace_import_witness :
  header_text package_imports
  = s "// packages" ++ [newline]
    ++ s "import * as React from " ++ [dquote] ++ s "react" ++ [dquote] ++ s ";"
    ++ [newline] ++ s "import * as X from 'pkg'"
  /\ transform (header_text package_imports ++ [newline] ++ s "X.f(React);"
                ++ [newline])
     = header_text package_imports ++ [newline] ++ s "X.f(React);" ++ [newline]
  /\ namespace_imports_map
       (snd (process_file package_world (s "/p")
               ([], snd (process_file sample_world (s "/p") ([], empty_maps)
                           (s "/p/a.ts")))
               (s "/p/c.ts")))
     = [(s "/p/a.ts", [(s "U", s "/p/u.ts")])]
  /\ (exists post',
        transform (header_text package_imports ++ [newline]
                   ++ s "export const a = X.f(React);" ++ [newline])
        = header_text package_imports ++ post')
  /\ transform (header_text package_imports ++ [newline]
                ++ s "export const a = X.f(React);" ++ [newline])
     = header_text package_imports ++ [newline]
       ++ s "const a = X.f(React);" ++ [newline]
  /\ transform (s "import * as A from './a';" ++ [newline]
                ++ statement_text react_import ++ [newline]
                ++ s "A.f(React);" ++ [newline])
     = [newline] ++ statement_text react_import ++ [newline]
       ++ s "A.f(React);" ++ [newline]
  /\ sub_from LICENSE_BLOCK_PATTERN delete (Some newline)
       (statement_text react_import ++ [newline] ++ s "/** @license */") 0
     = statement_text react_import ++ [newline]
  /\ exists path,
       In (s "U", path) (namespace_imports (license_stripped reexport_only))
       /\ (startswith path (s "./") = true \/ startswith path (s "../") = true)
       /\ fst (resolve_relative_path sample_world (s "/p/a.ts") path)
          = Some (s "/p/u.ts").
Proof.
  assert (G : dict_get (namespace_imports_map
              (snd (process_file sample_world (s "/p") ([], empty_maps)
                      (s "/p/a.ts"))))
           (abspath (getcwd sample_world) (s "/p/a.ts"))
           = Some [(s "U", s "/p/u.ts")]) by (vm_compute; reflexivity).
  destruct (non_relative_namespace_import_is_not_recorded sample_world (s "/p")
              [] empty_maps (s "/p/a.ts") reexport_only) as [_ [H _]].
  destruct (non_relative_namespace_import_is_not_recorded package_world (s "/p")
              [] (snd (process_file sample_world (s "/p") ([], empty_maps)
                         (s "/p/a.ts")))
              (s "/p/c.ts")
              (header_text package_imports ++ [newline] ++ s "X.f(React);"
               ++ [newline])) as [_ [_ [A [B [_ C]]]]].
  assert (Ok : package_header package_imports = true) by (vm_compute; reflexivity).
  destruct (B package_imports ([newline] ++ s "X.f(React);" ++ [newline]) Ok
              ltac:(vm_compute; reflexivity)) as [T [_ M]].
  split; [vm_compute; reflexivity|]. split; [exact T|]. split.
  - rewrite (M eq_refl eq_refl). vm_compute. reflexivity.
  - split; [apply A, Ok|]. split; [vm_compute; reflexivity|].
    split; [vm_compute; reflexivity|]. split.
    { pose proof (C (LICENSE_BLOCK_PATTERN, delete) react_import (Some newline)
                    ([newline] ++ s "/** @license */")
                    (or_introl eq_refl) eq_refl eq_refl) as K.
      cbn [fst snd] in K. rewrite K. vm_compute. reflexivity. }
    destruct (H _ (s "U") (s "/p/u.ts") eq_refl G eq_refl) as [D|D].
    + vm_compute in D. discriminate.
    + exact D.
Defined.
